(** * Renderer: the schedule block layout engine

    A shallow embedding of [src/algorithm/Renderer.cpp] and the
    verification of its layout pipeline.

    Conventions of the embedding.
    - A [ScheduleBlock*] is the index of the block in the [blocks] array
      (a [nat]); [blocks] is a list of records, read with [get] and written
      in place with [upd].
    - [int] and [int16_t] values are integers in [Z]; the only narrowing
      store of the source ([duration], an [int16_t]) is written with its
      wrap-around.
    - [double] values are exact rationals in [Q].
    - The GLPK solver is an external capability: its two entry points are
      parameters of the pipeline, and every problem handed to them is
      recorded so that statements can speak about what the solver returned.
    - [std::sort] is an insertion sort with the comparator of the source
      (ties keep their order); the proofs only use that its result is an
      ordered permutation. *)

From Stdlib Require Import ZArith QArith Qminmax Qabs List Bool Lia Lqa Arith.
From Stdlib Require Import Permutation Sorted.
Import ListNotations.

Set Implicit Arguments.

Local Open Scope Z_scope.

(** ** Data model *)

Definition INT_MAX : Z := 2147483647.

(** DOUBLE_EPS, 1e-8 *)
Definition DOUBLE_EPS : Q := 1 # 100000000.

(** store into an [int16_t] *)
Definition wrap16 (z : Z) : Z := (z + 32768) mod 65536 - 32768.

(** The option globals written by [setOptions]. *)
Record Options := mkOptions {
  isTolerance : Z;
  ISMethod : Z;
  applyDFS : Z;
  dfsTolerance : Z;
  LPIters : Z;
  LPModel : Z;
  MILP : Z
}.

Record Input := mkInput { in_startMin : Z; in_endMin : Z }.

Record ScheduleBlock := mkBlock {
  isFixed : bool;
  visited : bool;
  startMin : Z;
  endMin : Z;
  duration : Z;
  idx : nat;
  depth : Z;
  pathDepth : Z;
  left : Q;
  width : Q;
  leftN : list nat;
  rightN : list nat;
  cleftN : list nat;
  crightN : list nat
}.

(** Field stores. *)
Definition set_isFixed (v : bool) (b : ScheduleBlock) : ScheduleBlock :=
  mkBlock v (visited b) (startMin b) (endMin b) (duration b) (idx b) (depth b)
    (pathDepth b) (left b) (width b) (leftN b) (rightN b) (cleftN b) (crightN b).
Definition set_visited (v : bool) (b : ScheduleBlock) : ScheduleBlock :=
  mkBlock (isFixed b) v (startMin b) (endMin b) (duration b) (idx b) (depth b)
    (pathDepth b) (left b) (width b) (leftN b) (rightN b) (cleftN b) (crightN b).
Definition set_depth (v : Z) (b : ScheduleBlock) : ScheduleBlock :=
  mkBlock (isFixed b) (visited b) (startMin b) (endMin b) (duration b) (idx b) v
    (pathDepth b) (left b) (width b) (leftN b) (rightN b) (cleftN b) (crightN b).
Definition set_pathDepth (v : Z) (b : ScheduleBlock) : ScheduleBlock :=
  mkBlock (isFixed b) (visited b) (startMin b) (endMin b) (duration b) (idx b)
    (depth b) v (left b) (width b) (leftN b) (rightN b) (cleftN b) (crightN b).
Definition set_left (v : Q) (b : ScheduleBlock) : ScheduleBlock :=
  mkBlock (isFixed b) (visited b) (startMin b) (endMin b) (duration b) (idx b)
    (depth b) (pathDepth b) v (width b) (leftN b) (rightN b) (cleftN b) (crightN b).
Definition set_width (v : Q) (b : ScheduleBlock) : ScheduleBlock :=
  mkBlock (isFixed b) (visited b) (startMin b) (endMin b) (duration b) (idx b)
    (depth b) (pathDepth b) (left b) v (leftN b) (rightN b) (cleftN b) (crightN b).
Definition push_leftN (p : nat) (b : ScheduleBlock) : ScheduleBlock :=
  mkBlock (isFixed b) (visited b) (startMin b) (endMin b) (duration b) (idx b)
    (depth b) (pathDepth b) (left b) (width b) (leftN b ++ [p]) (rightN b)
    (cleftN b) (crightN b).
Definition push_rightN (p : nat) (b : ScheduleBlock) : ScheduleBlock :=
  mkBlock (isFixed b) (visited b) (startMin b) (endMin b) (duration b) (idx b)
    (depth b) (pathDepth b) (left b) (width b) (leftN b) (rightN b ++ [p])
    (cleftN b) (crightN b).
Definition push_cleftN (p : nat) (b : ScheduleBlock) : ScheduleBlock :=
  mkBlock (isFixed b) (visited b) (startMin b) (endMin b) (duration b) (idx b)
    (depth b) (pathDepth b) (left b) (width b) (leftN b) (rightN b)
    (cleftN b ++ [p]) (crightN b).
Definition push_crightN (p : nat) (b : ScheduleBlock) : ScheduleBlock :=
  mkBlock (isFixed b) (visited b) (startMin b) (endMin b) (duration b) (idx b)
    (depth b) (pathDepth b) (left b) (width b) (leftN b) (rightN b)
    (cleftN b) (crightN b ++ [p]).

(** What [new ScheduleBlock] followed by the setup loop of [compute]
    leaves in a block; the fields the setup does not assign are zero. *)
Definition initBlock (i : nat) (a : Input) : ScheduleBlock :=
  mkBlock false false (in_startMin a) (in_endMin a)
    (wrap16 (in_endMin a - in_startMin a)) i 0 0 0%Q 0%Q [] [] [] [].

Definition nullBlock : ScheduleBlock :=
  mkBlock false false 0 0 0 0 0 0 0%Q 0%Q [] [] [] [].

(** [blocks[p]] and [blocks[p] = f(blocks[p])]. *)
Definition get (bs : list ScheduleBlock) (p : nat) : ScheduleBlock :=
  nth p bs nullBlock.

Fixpoint upd (p : nat) (f : ScheduleBlock -> ScheduleBlock)
    (bs : list ScheduleBlock) : list ScheduleBlock :=
  match bs, p with
  | [], _ => []
  | b :: bs', O => f b :: bs'
  | b :: bs', S p' => b :: upd p' f bs'
  end.

(** [a[i] = x] on a pointer buffer *)
Fixpoint store {A : Type} (i : nat) (x : A) (l : list A) : list A :=
  match l, i with
  | [], _ => []
  | _ :: l', O => x :: l'
  | y :: l', S i' => y :: store i' x l'
  end.

(** The globals of one [compute] call. *)
Record State := mkState {
  blocks : list ScheduleBlock;
  blocksReordered : list nat;
  matrix : list bool
}.

Definition with_blocks (bs : list ScheduleBlock) (st : State) : State :=
  mkState bs (blocksReordered st) (matrix st).
Definition with_order (o : list nat) (st : State) : State :=
  mkState (blocks st) o (matrix st).
Definition with_matrix (m : list bool) (st : State) : State :=
  mkState (blocks st) (blocksReordered st) m.

(** The setup part of [compute]. *)
Definition setup (arr : list Input) : State :=
  let n := length arr in
  mkState (map (fun ia => initBlock (fst ia) (snd ia)) (combine (seq 0 n) arr))
          (seq 0 n)
          (repeat false (n * n)).

(** ** Sorting *)

(** insertion of [x] in front of the first element that is not before it *)
Fixpoint insertBy (lt : nat -> nat -> bool) (x : nat) (l : list nat) : list nat :=
  match l with
  | [] => [x]
  | y :: l' => if lt y x then y :: insertBy lt x l' else x :: y :: l'
  end.

Definition sortBy (lt : nat -> nat -> bool) (l : list nat) : list nat :=
  fold_right (insertBy lt) [] l.

(** the comparator of [sortByStartTime] *)
Definition startBefore (bs : list ScheduleBlock) (p1 p2 : nat) : bool :=
  let b1 := get bs p1 in
  let b2 := get bs p2 in
  let diff := startMin b1 - startMin b2 in
  if diff =? 0 then duration b2 - duration b1 <? 0 else diff <? 0.

Definition sortByStartTime (st : State) : State :=
  with_order (sortBy (startBefore (blocks st)) (blocksReordered st)) st.

(** ** S1: interval scheduling *)

(** The inner loop of [intervalScheduling]: the occupied room of lowest
    depth whose last block has ended. *)
Fixpoint findRoom (bs : list ScheduleBlock) (tol : Z) (block : nat)
    (occ : list nat) (k : Z) (idx0 minRoomIdx : Z) : Z * Z :=
  match occ with
  | [] => (idx0, minRoomIdx)
  | prevBlock :: occ' =>
      if (endMin (get bs prevBlock) <=? startMin (get bs block) + tol)
         && (depth (get bs prevBlock) <? minRoomIdx)
      then findRoom bs tol block occ' (k + 1) k (depth (get bs prevBlock))
      else findRoom bs tol block occ' (k + 1) idx0 minRoomIdx
  end.

(** The outer loop of [intervalScheduling], from [i = 1]; the state is the
    blocks, the occupied part of [blockBuffer] and [numRooms]. *)
Fixpoint is1_loop (tol : Z) (rest : list nat) (bs : list ScheduleBlock)
    (occ : list nat) (numRooms : Z) : list ScheduleBlock * list nat * Z :=
  match rest with
  | [] => (bs, occ, numRooms)
  | block :: rest' =>
      let idx1 := fst (findRoom bs tol block occ 0 (-1) INT_MAX) in
      if idx1 =? -1 then
        is1_loop tol rest' (upd block (set_depth (numRooms + 1)) bs)
                 (occ ++ [block]) (numRooms + 1)
      else
        let d := depth (get bs (nth (Z.to_nat idx1) occ 0%nat)) in
        is1_loop tol rest' (upd block (set_depth d) bs)
                 (store (Z.to_nat idx1) block occ) numRooms
  end.

Definition intervalScheduling (o : Options) (st : State) : State * Z :=
  if (length (blocks st) =? 0)%nat then (st, 0)
  else
    let st1 := sortByStartTime st in
    match blocksReordered st1 with
    | [] => (st1, 0)
    | b0 :: rest =>
        let '(bs, _, numRooms) :=
          is1_loop (isTolerance o) rest (blocks st1) [b0] 0 in
        (with_blocks bs st1, numRooms + 1)
    end.

(** The comparator of the priority queue of [intervalScheduling2]:
    [comp r1 r2] holds when [r1] leaves the queue after [r2]. *)
Definition comp (bs : list ScheduleBlock) (r1 r2 : nat) : bool :=
  let diff := endMin (get bs r1) - endMin (get bs r2) in
  if diff =? 0 then depth (get bs r1) - depth (get bs r2) >? 0 else diff >? 0.

(** [std::priority_queue] as the list of its elements: [top] is an element
    no other one precedes, [pop] removes it. *)
Fixpoint pq_top (bs : list ScheduleBlock) (t : nat) (q : list nat) : nat :=
  match q with
  | [] => t
  | r :: q' => if comp bs t r then pq_top bs r q' else pq_top bs t q'
  end.

Fixpoint pq_remove (x : nat) (q : list nat) : list nat :=
  match q with
  | [] => []
  | r :: q' => if (r =? x)%nat then q' else r :: pq_remove x q'
  end.

Fixpoint is2_loop (tol : Z) (rest : list nat) (bs : list ScheduleBlock)
    (queue : list nat) (numRooms : Z) : list ScheduleBlock * list nat * Z :=
  match rest with
  | [] => (bs, queue, numRooms)
  | block :: rest' =>
      match queue with
      | [] => (bs, queue, numRooms)
      | q0 :: q' =>
          let prevBlock := pq_top bs q0 q' in
          if endMin (get bs prevBlock) + tol >? startMin (get bs block) then
            is2_loop tol rest' (upd block (set_depth (numRooms + 1)) bs)
                     (block :: queue) (numRooms + 1)
          else
            is2_loop tol rest'
                     (upd block (set_depth (depth (get bs prevBlock))) bs)
                     (block :: pq_remove prevBlock queue) numRooms
      end
  end.

Definition intervalScheduling2 (o : Options) (st : State) : State * Z :=
  if (length (blocks st) =? 0)%nat then (st, 0)
  else
    let st1 := sortByStartTime st in
    match blocksReordered st1 with
    | [] => (st1, 0)
    | b0 :: rest =>
        let '(bs, _, numRooms) :=
          is2_loop (isTolerance o) rest (blocks st1) [b0] 0 in
        (with_blocks bs st1, numRooms + 1)
    end.

(** STEP 1 of [compute]. *)
Definition stage1 (o : Options) (arr : list Input) : State * Z :=
  if ISMethod o =? 1 then intervalScheduling o (setup arr)
  else intervalScheduling2 o (setup arr).

(** ** S2: the conflict graph *)

(** [matrix[i * N + j]] *)
Definition matGet (m : list bool) (n i j : nat) : bool :=
  nth (i * n + j) m false.
Definition matSet (m : list bool) (n i j : nat) : list bool :=
  store (i * n + j) true m.

(** The inner loop of [constructAdjList] for the block [bi], over the
    blocks [js] that follow it in [blocksReordered]. *)
Fixpoint adjInner (tol : Z) (n : nat) (bi : nat) (js : list nat)
    (bs : list ScheduleBlock) (m : list bool) : list ScheduleBlock * list bool :=
  match js with
  | [] => (bs, m)
  | bj :: js' =>
      if startMin (get bs bj) + tol >=? endMin (get bs bi) then (bs, m)
      else if depth (get bs bi) <? depth (get bs bj) then
        adjInner tol n bi js'
          (upd bi (push_rightN bj) (upd bj (push_leftN bi) bs))
          (matSet m n (idx (get bs bj)) (idx (get bs bi)))
      else
        adjInner tol n bi js'
          (upd bi (push_leftN bj) (upd bj (push_rightN bi) bs))
          (matSet m n (idx (get bs bi)) (idx (get bs bj)))
  end.

Fixpoint adjOuter (tol : Z) (n : nat) (ord : list nat)
    (bs : list ScheduleBlock) (m : list bool) : list ScheduleBlock * list bool :=
  match ord with
  | [] => (bs, m)
  | bi :: rest =>
      let '(bs1, m1) := adjInner tol n bi rest bs m in
      adjOuter tol n rest bs1 m1
  end.

Definition constructAdjList (o : Options) (st : State) : State :=
  let '(bs, m) :=
    adjOuter (dfsTolerance o) (length (blocks st)) (blocksReordered st)
             (blocks st) (matrix st) in
  mkState bs (blocksReordered st) m.

(** ** S3: condensing the adjacency lists *)

(** The two inner loops of [condenseAdjList] for one block: [all] is the
    whole neighbour list, [vs] what is left of it to go through. *)
Fixpoint condenseLeft (m : list bool) (n : nat) (bs : list ScheduleBlock)
    (all vs : list nat) (b : ScheduleBlock) : ScheduleBlock :=
  match vs with
  | [] => b
  | v1 :: vs' =>
      if existsb (fun v => matGet m n (idx (get bs v)) (idx (get bs v1))) all
      then condenseLeft m n bs all vs' b
      else condenseLeft m n bs all vs' (push_cleftN v1 b)
  end.

Fixpoint condenseRight (m : list bool) (n : nat) (bs : list ScheduleBlock)
    (all vs : list nat) (b : ScheduleBlock) : ScheduleBlock :=
  match vs with
  | [] => b
  | v1 :: vs' =>
      if existsb (fun v => matGet m n (idx (get bs v1)) (idx (get bs v))) all
      then condenseRight m n bs all vs' b
      else condenseRight m n bs all vs' (push_crightN v1 b)
  end.

Definition condenseBlock (m : list bool) (n : nat) (bs : list ScheduleBlock)
    (b : ScheduleBlock) : ScheduleBlock :=
  condenseRight m n bs (rightN b) (rightN b)
    (condenseLeft m n bs (leftN b) (leftN b) b).

Definition condenseAdjList (st : State) : State :=
  with_blocks
    (fold_left
       (fun bs p => upd p (condenseBlock (matrix st) (length (blocks st)) bs) bs)
       (seq 0 (length (blocks st))) (blocks st))
    st.

(** STEP 2 and STEP 3 of [compute], after STEP 1. *)
Definition stage2 (o : Options) (arr : list Input) : State :=
  constructAdjList o (fst (stage1 o arr)).
Definition stage3 (o : Options) (arr : list Input) : State :=
  condenseAdjList (stage2 o arr).

(** ** S4: the DFS width seeder *)

(** The loop of [depthFirstSearchRec]; [stack] is the occupied part of
    [blockBuffer], top first.  [None] is the exhaustion of [fuel], which
    the chosen fuel excludes. *)
Fixpoint dfs_loop (fuel : nat) (maxDepth : Z) (stack : list nat)
    (bs : list ScheduleBlock) : option (list ScheduleBlock) :=
  match stack with
  | [] => Some bs
  | start :: stack' =>
      match fuel with
      | O => None
      | S fuel' =>
          let bs1 :=
            upd start (fun b => set_pathDepth maxDepth (set_visited true b)) bs in
          let pushed :=
            filter (fun adj => negb (visited (get bs1 adj)))
                   (cleftN (get bs1 start)) in
          dfs_loop fuel' maxDepth (rev pushed ++ stack') bs1
      end
  end.

(** a bound on the number of iterations of [dfs_loop] *)
Definition blockWeight (b : ScheduleBlock) : nat :=
  if visited b then O else S (length (cleftN b)).
Definition dfsFuel (bs : list ScheduleBlock) : nat :=
  S (list_sum (map blockWeight bs)).

Definition depthFirstSearchRec (bs : list ScheduleBlock) (start : nat)
    (maxDepth : Z) : option (list ScheduleBlock) :=
  dfs_loop (dfsFuel bs) maxDepth [start] bs.

(** the comparator of the sort of [dfsWidthExpansion] *)
Definition depthAfter (bs : list ScheduleBlock) (p1 p2 : nat) : bool :=
  depth (get bs p2) <? depth (get bs p1).

(** the first loop of [dfsWidthExpansion] *)
Fixpoint dfs_all (ord : list nat) (bs : list ScheduleBlock)
    : option (list ScheduleBlock) :=
  match ord with
  | [] => Some bs
  | node :: rest =>
      if visited (get bs node) then dfs_all rest bs
      else
        match depthFirstSearchRec bs node (depth (get bs node) + 1) with
        | Some bs1 => dfs_all rest bs1
        | None => None
        end
  end.

(** the second loop of [dfsWidthExpansion] *)
Definition seedFromPath (b : ScheduleBlock) : ScheduleBlock :=
  set_width (1 / inject_Z (pathDepth b))%Q
    (set_left (inject_Z (depth b) / inject_Z (pathDepth b))%Q b).

Definition dfsWidthExpansion (st : State) : option State :=
  let ord := sortBy (depthAfter (blocks st)) (blocksReordered st) in
  match dfs_all ord (blocks st) with
  | Some bs => Some (mkState (map seedFromPath bs) ord (matrix st))
  | None => None
  end.

Definition computeInitialWidth (total : Z) (st : State) : State :=
  with_blocks
    (map (fun b => set_width (1 / inject_Z total)%Q
                     (set_left (inject_Z (depth b) / inject_Z total)%Q b))
         (blocks st))
    st.

(** STEP 4 of [compute], with the loop that clears the visited flags. *)
Definition stage4 (o : Options) (total : Z) (st : State) : option State :=
  if applyDFS o =? 0 then Some (computeInitialWidth total st)
  else
    match dfsWidthExpansion st with
    | Some st1 => Some (with_blocks (map (set_visited false) (blocks st1)) st1)
    | None => None
    end.

(** ** S5: the fixed detector *)

Definition Qltb (x y : Q) : bool := negb (Qle_bool y x).

(** [std::max] and [std::min] on doubles *)
Definition dmax (a b : Q) : Q := if Qltb a b then b else a.
Definition dmin (a b : Q) : Q := if Qltb b a then b else a.

(** The [for] loop of [DFSFindFixedNumerical]; [rec] is the recursive
    call. *)
Fixpoint fixedLoop
    (rec : nat -> list ScheduleBlock -> option (list ScheduleBlock * bool))
    (startLeft : Q) (adjs : list nat) (bs : list ScheduleBlock) (flag : bool)
    : option (list ScheduleBlock * bool) :=
  match adjs with
  | [] => Some (bs, flag)
  | adj :: adjs' =>
      if Qltb (Qabs (startLeft - left (get bs adj) - width (get bs adj))%Q)
              DOUBLE_EPS
      then
        if visited (get bs adj)
        then fixedLoop rec startLeft adjs' bs (isFixed (get bs adj) || flag)
        else
          match rec adj bs with
          | Some (bs', r) => fixedLoop rec startLeft adjs' bs' (r || flag)
          | None => None
          end
      else fixedLoop rec startLeft adjs' bs flag
  end.

(** [fuel] bounds the depth of the recursion. *)
Fixpoint DFSFindFixedNumerical (fuel : nat) (start : nat)
    (bs : list ScheduleBlock) : option (list ScheduleBlock * bool) :=
  match fuel with
  | O => None
  | S fuel' =>
      let bs1 := upd start (set_visited true) bs in
      let startLeft := left (get bs1 start) in
      if Qeq_bool startLeft 0%Q
      then Some (upd start (set_isFixed true) bs1, true)
      else
        match fixedLoop (DFSFindFixedNumerical fuel') startLeft
                (cleftN (get bs1 start)) bs1 false with
        | Some (bs2, flag) => Some (upd start (set_isFixed flag) bs2, flag)
        | None => None
        end
  end.

(** [getFixedCount]: the blocks with the flags copied, and the count *)
Definition getFixedCount (bs : list ScheduleBlock) : list ScheduleBlock * Z :=
  (map (fun b => set_visited (isFixed b) b) bs,
   fold_left (fun c b => c + (if isFixed b then 1 else 0)) bs 0).

(** STEP 5 of [compute]: the first detection pass. *)
Fixpoint fixedPass0 (ps : list nat) (bs : list ScheduleBlock)
    : option (list ScheduleBlock) :=
  match ps with
  | [] => Some bs
  | block :: ps' =>
      if visited (get bs block) then fixedPass0 ps' bs
      else
        let right := (left (get bs block) + width (get bs block))%Q in
        if Qltb (Qabs (right - 1)%Q) DOUBLE_EPS then
          match DFSFindFixedNumerical (length bs) block bs with
          | Some (bs', _) => fixedPass0 ps' bs'
          | None => None
          end
        else fixedPass0 ps' bs
  end.

(** The detection pass inside the LP loop: a block is also a seed when a
    fixed block of its [rightN] starts at its right edge. *)
Definition touchesFixed (bs : list ScheduleBlock) (right : Q) (n : nat) : bool :=
  isFixed (get bs n) && Qltb (Qabs (right - left (get bs n))%Q) DOUBLE_EPS.

Fixpoint fixedPass (ps : list nat) (bs : list ScheduleBlock)
    : option (list ScheduleBlock) :=
  match ps with
  | [] => Some bs
  | block :: ps' =>
      if visited (get bs block) then fixedPass ps' bs
      else
        let right := (left (get bs block) + width (get bs block))%Q in
        if Qltb (Qabs (right - 1)%Q) DOUBLE_EPS
           || existsb (touchesFixed bs right) (rightN (get bs block))
        then
          match DFSFindFixedNumerical (length bs) block bs with
          | Some (bs', _) => fixedPass ps' bs'
          | None => None
          end
        else fixedPass ps' bs
  end.

(** ** S6: the connected components *)

(** one of the two [for] loops of [BFS] *)
Fixpoint bfs_visit (nodes : list nat) (buffer : list nat)
    (bs : list ScheduleBlock) : list nat * list ScheduleBlock :=
  match nodes with
  | [] => (buffer, bs)
  | node :: nodes' =>
      if visited (get bs node) then bfs_visit nodes' buffer bs
      else bfs_visit nodes' (buffer ++ [node]) (upd node (set_visited true) bs)
  end.

(** The [while] loop of [BFS]; [buffer] is [blockBuffer[0 .. NC)]. *)
Fixpoint bfs_loop (fuel : nat) (qIdx : nat) (buffer : list nat)
    (bs : list ScheduleBlock) : option (list nat * list ScheduleBlock) :=
  if (qIdx <? length buffer)%nat then
    match fuel with
    | O => None
    | S fuel' =>
        let node := nth qIdx buffer O in
        let '(buffer1, bs1) := bfs_visit (cleftN (get bs node)) buffer bs in
        let '(buffer2, bs2) := bfs_visit (crightN (get bs1 node)) buffer1 bs1 in
        bfs_loop fuel' (S qIdx) buffer2 bs2
    end
  else Some (buffer, bs).

Definition BFS (bs : list ScheduleBlock) (start : nat)
    : option (list nat * list ScheduleBlock) :=
  bfs_loop (length bs) 0 [start] (upd start (set_visited true) bs).

(** ** The solver interface *)

(** A GLPK problem object, as far as this program drives it: what was set
    on it, in the order of the calls (the latest call first). *)
Inductive glp_dir := GLP_MIN | GLP_MAX.
Inductive glp_bnd := GLP_LO | GLP_UP | GLP_DB.

Record glp_prob := mkProb {
  obj_dir : glp_dir;
  n_cols : nat;
  n_rows : nat;
  row_bnds : list (nat * (glp_bnd * Q * Q));
  col_bnds : list (nat * (glp_bnd * Q * Q));
  obj_coef : list (nat * Q);
  col_bin : list nat;
  mat : list (nat * nat * Q)
}.

Definition glp_create_prob : glp_prob := mkProb GLP_MIN 0 0 [] [] [] [] [].
Definition glp_set_obj_dir (d : glp_dir) (lp : glp_prob) : glp_prob :=
  mkProb d (n_cols lp) (n_rows lp) (row_bnds lp) (col_bnds lp)
    (obj_coef lp) (col_bin lp) (mat lp).
Definition glp_add_cols (k : nat) (lp : glp_prob) : glp_prob :=
  mkProb (obj_dir lp) (n_cols lp + k) (n_rows lp) (row_bnds lp) (col_bnds lp)
    (obj_coef lp) (col_bin lp) (mat lp).
Definition glp_add_rows (k : nat) (lp : glp_prob) : glp_prob :=
  mkProb (obj_dir lp) (n_cols lp) (n_rows lp + k) (row_bnds lp) (col_bnds lp)
    (obj_coef lp) (col_bin lp) (mat lp).
Definition glp_set_row_bnds (r : nat) (ty : glp_bnd) (lb ub : Q)
    (lp : glp_prob) : glp_prob :=
  mkProb (obj_dir lp) (n_cols lp) (n_rows lp) ((r, (ty, lb, ub)) :: row_bnds lp)
    (col_bnds lp) (obj_coef lp) (col_bin lp) (mat lp).
Definition glp_set_col_bnds (c : nat) (ty : glp_bnd) (lb ub : Q)
    (lp : glp_prob) : glp_prob :=
  mkProb (obj_dir lp) (n_cols lp) (n_rows lp) (row_bnds lp)
    ((c, (ty, lb, ub)) :: col_bnds lp) (obj_coef lp) (col_bin lp) (mat lp).
Definition glp_set_obj_coef (c : nat) (v : Q) (lp : glp_prob) : glp_prob :=
  mkProb (obj_dir lp) (n_cols lp) (n_rows lp) (row_bnds lp) (col_bnds lp)
    ((c, v) :: obj_coef lp) (col_bin lp) (mat lp).
(** [glp_set_col_kind(lp, c, GLP_BV)] *)
Definition glp_set_col_kind_BV (c : nat) (lp : glp_prob) : glp_prob :=
  mkProb (obj_dir lp) (n_cols lp) (n_rows lp) (row_bnds lp) (col_bnds lp)
    (obj_coef lp) (c :: col_bin lp) (mat lp).
Definition glp_load_matrix (t : list (nat * nat * Q)) (lp : glp_prob) : glp_prob :=
  mkProb (obj_dir lp) (n_cols lp) (n_rows lp) (row_bnds lp) (col_bnds lp)
    (obj_coef lp) (col_bin lp) t.

(** the objective coefficient of a column: the latest one set, else 0 *)
Definition coefOf (lp : glp_prob) (c : nat) : Q :=
  match find (fun e => (fst e =? c)%nat) (obj_coef lp) with
  | Some e => snd e
  | None => 0%Q
  end.

(** [glp_get_obj_val] at the point [x] *)
Definition glp_get_obj_val (lp : glp_prob) (x : nat -> Q) : Q :=
  fold_right (fun c acc => (coefOf lp c * x c + acc)%Q) 0%Q
             (seq 1 (n_cols lp)).

(** the vectors [ia], [ja], [ar], and the row counter [auxVar], while a
    problem is built *)
Record lp_build := mkBuild {
  b_lp : glp_prob;
  b_trip : list (nat * nat * Q);
  b_aux : nat
}.

Definition addConstraint (auxVar structVar : nat) (coeff : Q)
    (t : list (nat * nat * Q)) : list (nat * nat * Q) :=
  t ++ [(auxVar, structVar, coeff)].

(** [idxMap[blockBuffer[i]->idx] = f(i)] for the blocks of the buffer.
    [idxMap] is a scratch array of the source that maps the blocks of one
    problem to their columns; a model starts from an array of zeros.  An
    entry that the call has not written is read only for a block of some
    [cleftN] that is neither fixed nor in the buffer, and [compute] has no
    such block (lemma [component_facts]). *)
Fixpoint fillIdxMap (f : nat -> nat) (bs : list ScheduleBlock)
    (buffer : list nat) (i : nat) (idxMap : list nat) : list nat :=
  match buffer with
  | [] => idxMap
  | b :: buffer' =>
      fillIdxMap f bs buffer' (S i) (store (idx (get bs b)) (f i) idxMap)
  end.

(** the number of rows counted before a model is built *)
Definition countRows (bs : list ScheduleBlock) (buffer : list nat) : nat :=
  list_sum
    (map (fun b =>
            length (filter (fun v => negb (isFixed (get bs v)))
                           (cleftN (get bs b))))
         buffer).

Fixpoint minRight (bs : list ScheduleBlock) (vs : list nat)
    (minRightFixed : Q) : Q :=
  match vs with
  | [] => minRightFixed
  | v :: vs' =>
      if isFixed (get bs v)
      then minRight bs vs' (dmin (left (get bs v)) minRightFixed)
      else minRight bs vs' minRightFixed
  end.

(** *** LP model 1 *)

(** the loop over [cleftN] of one block: the rows [li >= lj + wj] and
    [maxLeftFixed] *)
Fixpoint lp1_cleft (bs : list ScheduleBlock) (idxMap : list nat)
    (leftVar : nat) (vs : list nat) (st : lp_build) (maxLeftFixed : Q)
    : lp_build * Q :=
  match vs with
  | [] => (st, maxLeftFixed)
  | v :: vs' =>
      if isFixed (get bs v)
      then lp1_cleft bs idxMap leftVar vs' st
             (dmax maxLeftFixed (left (get bs v) + width (get bs v))%Q)
      else
        let a := b_aux st in
        let jv := nth (idx (get bs v)) idxMap O in
        let t := addConstraint a (jv + 1) (-1)%Q
                   (addConstraint a jv (-1)%Q
                      (addConstraint a leftVar 1%Q (b_trip st))) in
        lp1_cleft bs idxMap leftVar vs'
          (mkBuild (glp_set_row_bnds a GLP_LO 0%Q 0%Q (b_lp st)) t (S a))
          maxLeftFixed
  end.

Fixpoint lp1_blocks (bs : list ScheduleBlock) (idxMap : list nat)
    (buffer : list nat) (i : nat) (st : lp_build) : lp_build :=
  match buffer with
  | [] => st
  | block :: buffer' =>
      let leftVar := (2 * i + 1)%nat in
      let '(st1, maxLeftFixed) :=
        lp1_cleft bs idxMap leftVar (cleftN (get bs block)) st 0%Q in
      let minRightFixed := minRight bs (crightN (get bs block)) 1%Q in
      let a := b_aux st1 in
      let t := addConstraint a (leftVar + 1) 1%Q
                 (addConstraint a leftVar 1%Q (b_trip st1)) in
      let lp1 := glp_set_row_bnds a GLP_UP 0%Q minRightFixed (b_lp st1) in
      let lp2 := glp_set_col_bnds leftVar GLP_LO maxLeftFixed 0%Q lp1 in
      let lp3 := glp_set_col_bnds (leftVar + 1) GLP_LO
                   (width (get bs block)) 0%Q lp2 in
      let lp4 := glp_set_obj_coef leftVar 0%Q lp3 in
      let lp5 := glp_set_obj_coef (leftVar + 1) 1%Q lp4 in
      lp1_blocks bs idxMap buffer' (S i) (mkBuild lp5 t (S a))
  end.

(** the rows [ti >= mean - wi] and [ti >= wi - mean] *)
Fixpoint lp1_deviation (NC : nat) (meanWidth : Q) (ks : list nat)
    (st : lp_build) : lp_build :=
  match ks with
  | [] => st
  | i :: ks' =>
      let tVar := (2 * NC + i + 1)%nat in
      let widthVar := (2 * i + 2)%nat in
      let a := b_aux st in
      let t1 := addConstraint a widthVar 1%Q
                  (addConstraint a tVar 1%Q (b_trip st)) in
      let lp1 := glp_set_row_bnds a GLP_LO meanWidth 0%Q (b_lp st) in
      let t2 := addConstraint (S a) widthVar (-1)%Q
                  (addConstraint (S a) tVar 1%Q t1) in
      let lp2 := glp_set_row_bnds (S a) GLP_LO (- meanWidth)%Q 0%Q lp1 in
      let lp3 := glp_set_obj_coef widthVar 0%Q lp2 in
      let lp4 := glp_set_obj_coef tVar 1%Q lp3 in
      lp1_deviation NC meanWidth ks' (mkBuild lp4 t2 (S (S a)))
  end.

(** [blockBuffer[i]->left = x(lcol i)], [->width = x(wcol i)] *)
Fixpoint writeBack (x : nat -> Q) (lcol wcol : nat -> nat)
    (buffer : list nat) (i : nat) (bs : list ScheduleBlock)
    : list ScheduleBlock :=
  match buffer with
  | [] => bs
  | b :: buffer' =>
      writeBack x lcol wcol buffer' (S i)
        (upd b (fun blk => set_width (x (wcol i)) (set_left (x (lcol i)) blk)) bs)
  end.

Section Solver.

(** what [glp_simplex] and [glp_intopt] leave as the primal values of the
    columns of a problem *)
Variable glp_simplex : glp_prob -> nat -> Q.
Variable glp_intopt : glp_prob -> nat -> Q.

(** The result of a model: the blocks, and the problems solved with the
    solutions read back. *)
Definition buildLPModel1 (buffer : list nat) (bs : list ScheduleBlock)
    : list ScheduleBlock * list (glp_prob * (nat -> Q)) :=
  let NC := length buffer in
  let idxMap :=
    fillIdxMap (fun i => 2 * i + 1)%nat bs buffer O (repeat O (length bs)) in
  let lp0 := glp_add_rows (countRows bs buffer + NC)
               (glp_add_cols (NC * 2)
                  (glp_set_obj_dir GLP_MAX glp_create_prob)) in
  let st1 := lp1_blocks bs idxMap buffer O (mkBuild lp0 [] 1) in
  let lpA := glp_load_matrix (b_trip st1) (b_lp st1) in
  let xA := glp_simplex lpA in
  let lpB0 := glp_set_obj_dir GLP_MIN lpA in
  let sumWidth := glp_get_obj_val lpB0 xA in
  let meanWidth := (sumWidth / inject_Z (Z.of_nat NC))%Q in
  let lpB1 := glp_add_rows (NC * 2 + 1) (glp_add_cols NC lpB0) in
  let st2 := lp1_deviation NC meanWidth (seq 0 NC)
               (mkBuild lpB1 (b_trip st1) (b_aux st1)) in
  let t3 := fold_left (fun t i => addConstraint (b_aux st2) (2 * i + 2) 1%Q t)
                      (seq 0 NC) (b_trip st2) in
  let lpB2 := glp_set_row_bnds (b_aux st2) GLP_LO (sumWidth - DOUBLE_EPS)%Q 0%Q
                (b_lp st2) in
  let lpB := glp_load_matrix t3 lpB2 in
  let xB := glp_simplex lpB in
  (writeBack xB (fun i => 2 * i + 1)%nat (fun i => 2 * i + 2)%nat buffer O bs,
   [(lpA, xA); (lpB, xB)]).

(** *** LP model 2 *)

Fixpoint lp2_cleft (bs : list ScheduleBlock) (idxMap : list nat)
    (NC : nat) (leftVar : nat) (vs : list nat) (st : lp_build)
    (maxLeftFixed : Q) : lp_build * Q :=
  match vs with
  | [] => (st, maxLeftFixed)
  | v :: vs' =>
      if isFixed (get bs v)
      then lp2_cleft bs idxMap NC leftVar vs' st
             (dmax maxLeftFixed (left (get bs v) + width (get bs v))%Q)
      else
        let a := b_aux st in
        let jv := nth (idx (get bs v)) idxMap O in
        let t := addConstraint a (NC + 1) (-1)%Q
                   (addConstraint a jv (-1)%Q
                      (addConstraint a leftVar 1%Q (b_trip st))) in
        lp2_cleft bs idxMap NC leftVar vs'
          (mkBuild (glp_set_row_bnds a GLP_LO 0%Q 0%Q (b_lp st)) t (S a))
          maxLeftFixed
  end.

Fixpoint lp2_blocks (bs : list ScheduleBlock) (idxMap : list nat)
    (NC : nat) (buffer : list nat) (i : nat) (st : lp_build) : lp_build :=
  match buffer with
  | [] => st
  | block :: buffer' =>
      let leftVar := (i + 1)%nat in
      let '(st1, maxLeftFixed) :=
        lp2_cleft bs idxMap NC leftVar (cleftN (get bs block)) st 0%Q in
      let minRightFixed := minRight bs (crightN (get bs block)) 1%Q in
      let a := b_aux st1 in
      let t := addConstraint a (NC + 1) 1%Q
                 (addConstraint a leftVar 1%Q (b_trip st1)) in
      let lp1 := glp_set_row_bnds a GLP_UP 0%Q minRightFixed (b_lp st1) in
      let lp2 := glp_set_col_bnds leftVar GLP_LO maxLeftFixed 0%Q lp1 in
      let lp3 := glp_set_obj_coef leftVar 0%Q lp2 in
      lp2_blocks bs idxMap NC buffer' (S i) (mkBuild lp3 t (S a))
  end.

Definition buildLPModel2 (buffer : list nat) (bs : list ScheduleBlock)
    : list ScheduleBlock * list (glp_prob * (nat -> Q)) :=
  let NC := length buffer in
  let idxMap :=
    fillIdxMap (fun i => i + 1)%nat bs buffer O (repeat O (length bs)) in
  let lp0 := glp_add_rows (countRows bs buffer + NC)
               (glp_add_cols (NC + 1)
                  (glp_set_obj_dir GLP_MAX glp_create_prob)) in
  let st1 := lp2_blocks bs idxMap NC buffer O (mkBuild lp0 [] 1) in
  let lp1 := glp_set_col_bnds (NC + 1) GLP_DB 0%Q 1%Q (b_lp st1) in
  let lp2 := glp_set_obj_coef (NC + 1) 1%Q lp1 in
  let lp := glp_load_matrix (b_trip st1) lp2 in
  let x := glp_simplex lp in
  (writeBack x (fun i => i + 1)%nat (fun _ => NC + 1)%nat buffer O bs,
   [(lp, x)]).

(** *** The MILP model *)

(** the constant [M] *)
Definition bigM : Q := 10.

(** the inner loop: two rows and a binary variable for each pair met *)
Fixpoint milp_inner (tol : Z) (n : nat) (bs : list ScheduleBlock) (bi : nat)
    (js : list nat) (st : lp_build) (bvIdx : nat) : lp_build * nat :=
  match js with
  | [] => (st, bvIdx)
  | bj :: js' =>
      if startMin (get bs bj) + tol >=? endMin (get bs bi) then (st, bvIdx)
      else
        let L := fun x => (2 * x + 1)%nat in
        let W := fun x => (2 * x + 2)%nat in
        let B := fun x => (2 * n + x)%nat in
        let i := idx (get bs bi) in
        let j := idx (get bs bj) in
        let a := b_aux st in
        let t1 := addConstraint a (B bvIdx) (- bigM)%Q
                    (addConstraint a (L j) (-1)%Q
                       (addConstraint a (W i) 1%Q
                          (addConstraint a (L i) 1%Q (b_trip st)))) in
        let lp1 := glp_set_row_bnds a GLP_UP 0%Q 0%Q (b_lp st) in
        let t2 := addConstraint (S a) (B bvIdx) bigM
                    (addConstraint (S a) (L i) (-1)%Q
                       (addConstraint (S a) (W j) 1%Q
                          (addConstraint (S a) (L j) 1%Q t1))) in
        let lp2 := glp_set_row_bnds (S a) GLP_UP 0%Q bigM lp1 in
        milp_inner tol n bs bi js' (mkBuild lp2 t2 (S (S a))) (S bvIdx)
  end.

Fixpoint milp_outer (tol : Z) (n : nat) (total : Z) (bs : list ScheduleBlock)
    (ord : list nat) (st : lp_build) (bvIdx : nat) : lp_build * nat :=
  match ord with
  | [] => (st, bvIdx)
  | bi :: rest =>
      let '(st1, bv1) := milp_inner tol n bs bi rest st bvIdx in
      let L := (2 * idx (get bs bi) + 1)%nat in
      let W := (2 * idx (get bs bi) + 2)%nat in
      let a := b_aux st1 in
      let t := addConstraint a W 1%Q (addConstraint a L 1%Q (b_trip st1)) in
      let lp1 := glp_set_row_bnds a GLP_UP 0%Q 1%Q (b_lp st1) in
      let lp2 := glp_set_col_bnds L GLP_LO 0%Q 1%Q lp1 in
      let lp3 := glp_set_obj_coef L 0%Q lp2 in
      let lp4 := glp_set_col_bnds W GLP_LO (1 / inject_Z total)%Q 1%Q lp3 in
      let lp5 := glp_set_obj_coef W 1%Q lp4 in
      milp_outer tol n total bs rest (mkBuild lp5 t (S a)) bv1
  end.

(** the number of pairs met by the scan *)
Fixpoint countInner (tol : Z) (bs : list ScheduleBlock) (bi : nat)
    (js : list nat) : nat :=
  match js with
  | [] => O
  | bj :: js' =>
      if startMin (get bs bj) + tol >=? endMin (get bs bi) then O
      else S (countInner tol bs bi js')
  end.
Fixpoint countPairs (tol : Z) (bs : list ScheduleBlock) (ord : list nat) : nat :=
  match ord with
  | [] => O
  | bi :: rest => (countInner tol bs bi rest + countPairs tol bs rest)%nat
  end.

Definition buildMILPModel (o : Options) (total : Z) (st : State)
    : State * list (glp_prob * (nat -> Q)) :=
  let bs := blocks st in
  let n := length bs in
  let numBV := countPairs (dfsTolerance o) bs (blocksReordered st) in
  let lp0 := glp_add_rows (2 * numBV + n)
               (glp_add_cols (2 * n + numBV)
                  (glp_set_obj_dir GLP_MAX glp_create_prob)) in
  let '(st1, _) :=
    milp_outer (dfsTolerance o) n total bs (blocksReordered st)
               (mkBuild lp0 [] 1) 1 in
  let lp1 := fold_left
               (fun lp i => glp_set_obj_coef (i + 1) 0%Q
                              (glp_set_col_kind_BV (i + 1) lp))
               (seq (2 * n) numBV) (b_lp st1) in
  let lp := glp_load_matrix (b_trip st1) lp1 in
  let x := glp_intopt lp in
  (with_blocks
     (writeBack x (fun i => 2 * i + 1)%nat (fun i => 2 * i + 2)%nat
                (seq 0 n) O bs)
     st,
   [(lp, x)]).

(** ** The LP loop and [compute] *)

Definition buildLPModel (o : Options) :=
  if LPModel o =? 2 then buildLPModel2 else buildLPModel1.

(** the first loop of an iteration: one model for each component of
    blocks that are not visited *)
Fixpoint lp_components (o : Options) (ps : list nat)
    (bs : list ScheduleBlock) (tr : list (glp_prob * (nat -> Q)))
    : option (list ScheduleBlock * list (glp_prob * (nat -> Q))) :=
  match ps with
  | [] => Some (bs, tr)
  | block :: ps' =>
      if visited (get bs block) then lp_components o ps' bs tr
      else
        match BFS bs block with
        | Some (buffer, bs1) =>
            let '(bs2, lps) := buildLPModel o buffer bs1 in
            lp_components o ps' bs2 (tr ++ lps)
        | None => None
        end
  end.

(** one iteration of the LP loop, up to [getFixedCount] *)
Definition lp_iteration (o : Options) (bs : list ScheduleBlock)
    (tr : list (glp_prob * (nat -> Q)))
    : option (list ScheduleBlock * list (glp_prob * (nat -> Q)) * Z) :=
  match lp_components o (seq 0 (length bs)) bs tr with
  | Some (bs1, tr1) =>
      let bs2 := map (fun b => set_visited (isFixed b) b) bs1 in
      match fixedPass (seq 0 (length bs2)) bs2 with
      | Some bs3 =>
          let '(bs4, fixedCount) := getFixedCount bs3 in
          Some (bs4, tr1, fixedCount)
      | None => None
      end
  | None => None
  end.

Fixpoint lp_loop (o : Options) (iters : nat) (prevFixedCount : Z)
    (bs : list ScheduleBlock) (tr : list (glp_prob * (nat -> Q)))
    : option (list ScheduleBlock * list (glp_prob * (nat -> Q))) :=
  match iters with
  | O => Some (bs, tr)
  | S iters' =>
      match lp_iteration o bs tr with
      | Some (bs1, tr1, fixedCount) =>
          if fixedCount =? prevFixedCount then Some (bs1, tr1)
          else lp_loop o iters' fixedCount bs1 tr1
      | None => None
      end
  end.

(** [compute]: the blocks it returns, with the problems it had solved.
    The statistics that it accumulates with [computeResult] before it
    returns are modelled apart, by [computeStatistics]. *)
Definition compute (o : Options) (arr : list Input)
    : option (State * list (glp_prob * (nat -> Q))) :=
  let '(st1, total) := stage1 o arr in
  if negb (MILP o =? 0) then Some (buildMILPModel o total st1)
  else if total <=? 1 then Some (computeInitialWidth total st1, [])
  else
    match stage4 o total (stage3 o arr) with
    | Some st4 =>
        match fixedPass0 (seq 0 (length (blocks st4))) (blocks st4) with
        | Some bs5 =>
            let '(bs6, prevFixedCount) := getFixedCount bs5 in
            match lp_loop o (Z.to_nat (LPIters o)) prevFixedCount bs6 [] with
            | Some (bs7, tr) => Some (with_blocks bs7 st4, tr)
            | None => None
            end
        | None => None
        end
    | None => None
    end.

End Solver.

(** ** Specification vocabulary *)

(** Two blocks conflict under the tolerance [t]. *)
Definition conflictb (t : Z) (a b : ScheduleBlock) : bool :=
  Z.max (startMin a) (startMin b) + t <? Z.min (endMin a) (endMin b).

Definition conflict (t : Z) (bs : list ScheduleBlock) (p q : nat) : Prop :=
  conflictb t (get bs p) (get bs q) = true.

(** One of the two blocks has ended, up to [t], when the other starts. *)
Definition disjoint_t (t : Z) (bs : list ScheduleBlock) (x y : nat) : Prop :=
  endMin (get bs x) <= startMin (get bs y) + t \/
  endMin (get bs y) <= startMin (get bs x) + t.

(** A set of pairwise conflicting blocks, and the size of a largest one. *)
Definition is_clique (t : Z) (bs : list ScheduleBlock) (cl : list nat) : Prop :=
  NoDup cl /\ (forall p, In p cl -> (p < length bs)%nat) /\
  forall p q, In p cl -> In q cl -> p <> q -> conflict t bs p q.

Definition max_clique_size (t : Z) (bs : list ScheduleBlock) (n : Z) : Prop :=
  (exists cl, is_clique t bs cl /\ Z.of_nat (length cl) = n) /\
  (forall cl, is_clique t bs cl -> Z.of_nat (length cl) <= n).

(** Valid input: every interval is non-empty; the count is an [int]. *)
Definition valid_input (arr : list Input) : Prop :=
  Forall (fun a => in_startMin a < in_endMin a) arr /\
  Z.of_nat (length arr) <= INT_MAX.

(** The tolerance with which S1 lets a block follow another in a room:
    Method 1 tests [end <= start + isTolerance], Method 2 tests
    [end + isTolerance <= start]. *)
Definition roomTolerance (o : Options) : Z :=
  if ISMethod o =? 1 then isTolerance o else - isTolerance o.

(** [bs'] is [bs] up to the [depth] fields. *)
Definition sameButDepth (bs bs' : list ScheduleBlock) : Prop :=
  length bs' = length bs /\
  forall p, set_depth 0 (get bs' p) = set_depth 0 (get bs p).

(** The loop invariant of both partitioners: [done] are the blocks placed
    so far, [rooms] the last block of each room, [nr] the variable
    [numRooms]. *)
Record rooms_inv (t : Z) (bs : list ScheduleBlock) (done rooms : list nat)
    (nr : Z) : Prop := mkRoomsInv {
  ri_nr : 0 <= nr;
  ri_len : Z.of_nat (length rooms) = nr + 1;
  ri_nodup : NoDup rooms;
  ri_incl : incl rooms done;
  ri_depths : forall r1 r2, In r1 rooms -> In r2 rooms ->
      depth (get bs r1) = depth (get bs r2) -> r1 = r2;
  ri_done : forall x, In x done ->
      0 <= depth (get bs x) <= nr /\
      exists r, In r rooms /\ depth (get bs r) = depth (get bs x) /\
        (x = r \/ endMin (get bs x) <= startMin (get bs r) + t);
  ri_pair : forall x y, In x done -> In y done -> x <> y ->
      depth (get bs x) = depth (get bs y) -> disjoint_t t bs x y;
  ri_clique :
      (forall p, In p done -> startMin (get bs p) + t < endMin (get bs p)) ->
      exists cl, NoDup cl /\ incl cl done /\
        Z.of_nat (length cl) = nr + 1 /\
        forall p q, In p cl -> In q cl -> p <> q -> conflict t bs p q
}.

(** [x] comes before [y] in the list [l]. *)
Fixpoint before (l : list nat) (x y : nat) : Prop :=
  match l with
  | [] => False
  | z :: l' => (z = x /\ In y l') \/ before l' x y
  end.

(** the position of [x] in [l] *)
Fixpoint pos (l : list nat) (x : nat) : nat :=
  match l with
  | [] => O
  | z :: l' => if (z =? x)%nat then O else S (pos l' x)
  end.

(** What STEP 1 establishes: [st] and [total] are the state and the room
    count it returns on the input [arr]. *)
Record stage1_post (o : Options) (arr : list Input) (st : State) (total : Z)
    : Prop := mkStage1Post {
  s1_same : sameButDepth (blocks (setup arr)) (blocks st);
  s1_matrix : matrix st = matrix (setup arr);
  s1_perm : Permutation (blocksReordered st) (seq 0 (length arr));
  s1_sorted :
    StronglySorted
      (fun p q => startMin (get (blocks st) p) <= startMin (get (blocks st) q))
      (blocksReordered st);
  s1_total : 1 <= total <= Z.of_nat (length arr);
  s1_depth : forall p, (p < length arr)%nat ->
      0 <= depth (get (blocks st) p) < total;
  s1_first : depth (get (blocks st) (hd 0%nat (blocksReordered st))) = 0;
  s1_pair : forall p q, (p < length arr)%nat -> (q < length arr)%nat ->
      p <> q -> depth (get (blocks st) p) = depth (get (blocks st) q) ->
      disjoint_t (roomTolerance o) (blocks st) p q;
  s1_order : forall x y, before (blocksReordered st) x y ->
      depth (get (blocks st) x) = depth (get (blocks st) y) ->
      endMin (get (blocks st) x) <= startMin (get (blocks st) y) + roomTolerance o;
  s1_clique :
      (forall p, (p < length arr)%nat ->
         startMin (get (blocks st) p) + roomTolerance o
           < endMin (get (blocks st) p)) ->
      exists cl, is_clique (roomTolerance o) (blocks st) cl /\
        Z.of_nat (length cl) = total
}.

(** [constructAdjList] puts [j] into the [leftN] of [a]: the pair is met by
    the scan of the order [ord], and the depths send [j] to the left. *)
Definition adjEdge (tol : Z) (bs : list ScheduleBlock) (ord : list nat)
    (a j : nat) : Prop :=
  (before ord j a /\ startMin (get bs a) + tol < endMin (get bs j) /\
   depth (get bs j) < depth (get bs a)) \/
  (before ord a j /\ startMin (get bs j) + tol < endMin (get bs a) /\
   depth (get bs j) <= depth (get bs a)).

(** erasure of the fields a stage may write *)
Definition eraseAdj (b : ScheduleBlock) : ScheduleBlock :=
  mkBlock (isFixed b) (visited b) (startMin b) (endMin b) (duration b) (idx b)
    (depth b) (pathDepth b) (left b) (width b) [] [] (cleftN b) (crightN b).
Definition eraseCond (b : ScheduleBlock) : ScheduleBlock :=
  mkBlock (isFixed b) (visited b) (startMin b) (endMin b) (duration b) (idx b)
    (depth b) (pathDepth b) (left b) (width b) (leftN b) (rightN b) [] [].
Definition eraseLayout (b : ScheduleBlock) : ScheduleBlock :=
  mkBlock false false (startMin b) (endMin b) (duration b) (idx b)
    (depth b) 0 0%Q 0%Q (leftN b) (rightN b) (cleftN b) (crightN b).

(** [bs'] is [bs] up to the fields erased by [erase]. *)
Definition sameUpTo (erase : ScheduleBlock -> ScheduleBlock)
    (bs bs' : list ScheduleBlock) : Prop :=
  length bs' = length bs /\ forall p, erase (get bs' p) = erase (get bs p).

(** cleftN-reachability: [reach bs b v] when [v] is reached from [b] by
    following one or more [next] links. *)
Inductive reach (next : ScheduleBlock -> list nat) (bs : list ScheduleBlock)
    : nat -> nat -> Prop :=
| reach_one b v : In v (next (get bs b)) -> reach next bs b v
| reach_step b w v :
    In w (next (get bs b)) -> reach next bs w v -> reach next bs b v.

(** the pairs added by the inner loop of [constructAdjList] for [bi] *)
Definition newEdge (tol : Z) (bs : list ScheduleBlock) (bi : nat)
    (js : list nat) (a j : nat) : Prop :=
  (a = bi /\ In j js /\ startMin (get bs j) + tol < endMin (get bs bi) /\
   depth (get bs j) <= depth (get bs bi)) \/
  (j = bi /\ In a js /\ startMin (get bs a) + tol < endMin (get bs bi) /\
   depth (get bs bi) < depth (get bs a)).

(** What STEP 2 establishes on the state [st1] left by STEP 1. *)
Record stage2_post (tol : Z) (st1 st2 : State) : Prop := mkStage2Post {
  s2_same : sameUpTo eraseAdj (blocks st1) (blocks st2);
  s2_order : blocksReordered st2 = blocksReordered st1;
  s2_matlen : length (matrix st2) = (length (blocks st1) * length (blocks st1))%nat;
  s2_left : forall a j,
      In j (leftN (get (blocks st2) a)) <->
      adjEdge tol (blocks st1) (blocksReordered st1) a j;
  s2_right : forall a j,
      In j (rightN (get (blocks st2) a)) <->
      adjEdge tol (blocks st1) (blocksReordered st1) j a;
  s2_matrix : forall a j,
      (a < length (blocks st1))%nat -> (j < length (blocks st1))%nat ->
      (matGet (matrix st2) (length (blocks st1)) a j = true <->
       adjEdge tol (blocks st1) (blocksReordered st1) a j)
}.

(** What STEP 3 establishes on the state [st2] left by STEP 2. *)
Record stage3_post (st2 st3 : State) : Prop := mkStage3Post {
  s3_same : sameUpTo eraseCond (blocks st2) (blocks st3);
  s3_order : blocksReordered st3 = blocksReordered st2;
  s3_mat : matrix st3 = matrix st2;
  s3_cleft : forall b v,
      In v (cleftN (get (blocks st3) b)) <->
      In v (cleftN (get (blocks st2) b)) \/
      (In v (leftN (get (blocks st2) b)) /\
       forall w, In w (leftN (get (blocks st2) b)) ->
         matGet (matrix st2) (length (blocks st2))
           (idx (get (blocks st2) w)) (idx (get (blocks st2) v)) = false);
  s3_cright : forall b v,
      In v (crightN (get (blocks st3) b)) <->
      In v (crightN (get (blocks st2) b)) \/
      (In v (rightN (get (blocks st2) b)) /\
       forall w, In w (rightN (get (blocks st2) b)) ->
         matGet (matrix st2) (length (blocks st2))
           (idx (get (blocks st2) v)) (idx (get (blocks st2) w)) = false)
}.

(** A measure that decreases along every [leftN] link: the depth first,
    then the position in the start-time order, backwards. *)
Definition rank (bs : list ScheduleBlock) (ord : list nat) (x : nat) : Z :=
  depth (get bs x) * (Z.of_nat (length ord) + 1) - Z.of_nat (pos ord x).

(** The conflict graph as the later stages use it: [bs] are the blocks
    after STEP 3, [n] their number. *)
Record graph_ok (n : nat) (bs : list ScheduleBlock) : Prop := mkGraphOk {
  g_len : length bs = n;
  g_idx : forall p, (p < n)%nat -> idx (get bs p) = p;
  g_range : forall a j, In j (leftN (get bs a)) -> (a < n)%nat /\ (j < n)%nat;
  g_right : forall a j,
      In j (rightN (get bs a)) <-> In a (leftN (get bs j));
  g_cleft : forall b v,
      In v (cleftN (get bs b)) <->
      In v (leftN (get bs b)) /\
      forall w, In w (leftN (get bs b)) -> ~ In v (leftN (get bs w));
  g_cright : forall b v,
      In v (crightN (get bs b)) <->
      In v (rightN (get bs b)) /\
      forall w, In w (rightN (get bs b)) -> ~ In v (rightN (get bs w));
  g_rank : exists mu : nat -> Z,
      forall a j, In j (leftN (get bs a)) -> mu j < mu a;
  g_depth : forall a j,
      In j (leftN (get bs a)) -> depth (get bs j) <= depth (get bs a)
}.

(** erasure of the fields written by [depthFirstSearchRec] *)
Definition erasePath (b : ScheduleBlock) : ScheduleBlock :=
  mkBlock (isFixed b) false (startMin b) (endMin b) (duration b) (idx b)
    (depth b) 0 (left b) (width b) (leftN b) (rightN b) (cleftN b) (crightN b).

(** the visited blocks are closed under the [cleftN] links *)
Definition closedVisited (bs : list ScheduleBlock) : Prop :=
  forall v a, visited (get bs v) = true -> In a (cleftN (get bs v)) ->
    visited (get bs a) = true.

(** [x] is [s] or is reached from [s] along [cleftN] links *)
Definition reachOrSelf (bs : list ScheduleBlock) (s x : nat) : Prop :=
  x = s \/ reach cleftN bs s x.

(** The invariant of the loop of [depthFirstSearchRec] started on [s]
    with [maxDepth = D] in the blocks [bs0]. *)
Record dfs_inv (n : nat) (bs0 : list ScheduleBlock) (s : nat) (D : Z)
    (stack : list nat) (bs : list ScheduleBlock) : Prop := mkDfsInv {
  di_same : sameUpTo erasePath bs0 bs;
  di_old : forall x, visited (get bs0 x) = true -> get bs x = get bs0 x;
  di_unv : forall x, visited (get bs x) = false -> get bs x = get bs0 x;
  di_new : forall x, visited (get bs x) = true -> visited (get bs0 x) = false ->
      pathDepth (get bs x) = D /\ reachOrSelf bs0 s x;
  di_stack : forall x, In x stack ->
      visited (get bs0 x) = false /\ reachOrSelf bs0 s x /\ (x < n)%nat;
  di_start : visited (get bs s) = true \/ In s stack;
  di_closed : forall v a, visited (get bs v) = true ->
      In a (cleftN (get bs0 v)) -> visited (get bs a) = false ->
      In a stack /\ forall s1 s2, stack = s1 ++ v :: s2 -> In a s1
}.

(** What one call of [depthFirstSearchRec] does. *)
Definition dfs_post (bs0 : list ScheduleBlock) (s : nat) (D : Z)
    (bs : list ScheduleBlock) : Prop :=
  sameUpTo erasePath bs0 bs /\
  forall x,
    (visited (get bs0 x) = false -> reachOrSelf bs0 s x ->
       visited (get bs x) = true /\ pathDepth (get bs x) = D) /\
    (visited (get bs0 x) = true \/ ~ reachOrSelf bs0 s x ->
       get bs x = get bs0 x) /\
    (visited (get bs x) = true -> visited (get bs0 x) = false ->
       reachOrSelf bs0 s x) /\
    (visited (get bs x) = false -> get bs x = get bs0 x).

(** The invariant of the first loop of [dfsWidthExpansion]: [bs0] are the
    blocks when it starts, [rest] the nodes still to go through. *)
Record dfsall_inv (n : nat) (bs0 : list ScheduleBlock) (rest : list nat)
    (bs : list ScheduleBlock) : Prop := mkDfsAllInv {
  da_same : sameUpTo erasePath bs0 bs;
  da_closed : closedVisited bs;
  da_path : forall x, visited (get bs x) = true ->
      exists s, reachOrSelf bs0 s x /\ (s < n)%nat /\
                pathDepth (get bs x) = depth (get bs0 s) + 1;
  da_low : forall x m, visited (get bs x) = true -> In m rest ->
      depth (get bs0 m) + 1 <= pathDepth (get bs x);
  da_edge : forall b a, visited (get bs b) = true ->
      In a (cleftN (get bs0 b)) -> pathDepth (get bs b) <= pathDepth (get bs a)
}.

(** What the seeding of STEP 4 establishes: [bs3] are the blocks after
    STEP 3, [bs4] the blocks after STEP 4, [P] the number of columns each
    block is seeded with ([pathDepth], or [total] without DFS). *)
Record seed_post (n : nat) (total : Z) (bs3 bs4 : list ScheduleBlock)
    (P : nat -> Z) : Prop := mkSeedPost {
  sp_same : sameUpTo eraseLayout bs3 bs4;
  sp_flags : forall p, visited (get bs4 p) = false /\ isFixed (get bs4 p) = false;
  sp_cols : forall p, (p < n)%nat -> depth (get bs3 p) + 1 <= P p <= total;
  sp_left : forall p, (p < n)%nat ->
      left (get bs4 p) = (inject_Z (depth (get bs3 p)) / inject_Z (P p))%Q;
  sp_width : forall p, (p < n)%nat ->
      width (get bs4 p) = (1 / inject_Z (P p))%Q;
  sp_edge : forall b a, In a (cleftN (get bs3 b)) -> P b <= P a
}.

(** erasure of the two flags *)
Definition eraseFlags (b : ScheduleBlock) : ScheduleBlock :=
  mkBlock false false (startMin b) (endMin b) (duration b) (idx b)
    (depth b) (pathDepth b) (left b) (width b) (leftN b) (rightN b)
    (cleftN b) (crightN b).

(** the number of blocks that are not visited *)
Definition unvisitedWeight (b : ScheduleBlock) : nat :=
  if visited b then O else 1%nat.
Definition unvisitedCount (bs : list ScheduleBlock) : nat :=
  list_sum (map unvisitedWeight bs).

Definition visitedMono (bs bs' : list ScheduleBlock) : Prop :=
  forall p, visited (get bs p) = true -> visited (get bs' p) = true.

(** the condensed lists point into the array *)
Definition adjInRange (bs : list ScheduleBlock) : Prop :=
  forall v a, In a (cleftN (get bs v)) \/ In a (crightN (get bs v)) ->
    (a < length bs)%nat.

(** erasure of the [visited] flag, written by [BFS] *)
Definition eraseVisited (b : ScheduleBlock) : ScheduleBlock :=
  mkBlock (isFixed b) false (startMin b) (endMin b) (duration b) (idx b)
    (depth b) (pathDepth b) (left b) (width b) (leftN b) (rightN b)
    (cleftN b) (crightN b).

(** The invariant of [BFS] between two of its [for] loops: [bs0] are the
    blocks when it is called, [M] bounds the length the buffer can reach. *)
Record bfs_inv (bs0 : list ScheduleBlock) (M : nat) (buffer : list nat)
    (bs : list ScheduleBlock) : Prop := mkBfsInv {
  bi_same : sameUpTo eraseVisited bs0 bs;
  bi_visited : forall p, visited (get bs p) = true <->
      visited (get bs0 p) = true \/ In p buffer;
  bi_nodup : NoDup buffer;
  bi_fresh : forall x, In x buffer ->
      (x < length bs0)%nat /\ visited (get bs0 x) = false;
  bi_measure : (length buffer + unvisitedCount bs = M)%nat
}.

(** What [BFS] returns when called on [start] in the blocks [bs0]: the
    buffer holds blocks that were not visited, each once, and every
    neighbour of a block of the buffer is visited afterwards. *)
Record bfs_post (bs0 : list ScheduleBlock) (start : nat) (buffer : list nat)
    (bs : list ScheduleBlock) : Prop := mkBfsPost {
  bp_same : sameUpTo eraseVisited bs0 bs;
  bp_visited : forall p, visited (get bs p) = true <->
      visited (get bs0 p) = true \/ In p buffer;
  bp_nodup : NoDup buffer;
  bp_fresh : forall x, In x buffer ->
      (x < length bs0)%nat /\ visited (get bs0 x) = false;
  bp_start : In start buffer;
  bp_closed : forall b a, In b buffer ->
      In a (cleftN (get bs0 b)) \/ In a (crightN (get bs0 b)) ->
      visited (get bs a) = true
}.

(** ** Concrete inputs used in examples *)

Definition mkInputs (l : list (Z * Z)) : list Input :=
  map (fun p => mkInput (fst p) (snd p)) l.

(** the initial values of the option variables: no tolerance, Method 1,
    DFS seeding, 100 iterations, [LPModel = 3] (any value other than 2
    selects LP model 1), no MILP *)
Definition defaultOptions : Options := mkOptions 0 1 1 0 100 3 0.

Definition withMethod (m : Z) (o : Options) : Options :=
  mkOptions (isTolerance o) m (applyDFS o) (dfsTolerance o) (LPIters o)
    (LPModel o) (MILP o).
Definition withIsTolerance (t : Z) (o : Options) : Options :=
  mkOptions t (ISMethod o) (applyDFS o) (dfsTolerance o) (LPIters o)
    (LPModel o) (MILP o).
Definition withLPModel (m : Z) (o : Options) : Options :=
  mkOptions (isTolerance o) (ISMethod o) (applyDFS o) (dfsTolerance o)
    (LPIters o) m (MILP o).
Definition withApplyDFS (m : Z) (o : Options) : Options :=
  mkOptions (isTolerance o) (ISMethod o) m (dfsTolerance o)
    (LPIters o) (LPModel o) (MILP o).
Definition withMILP (m : Z) (o : Options) : Options :=
  mkOptions (isTolerance o) (ISMethod o) (applyDFS o) (dfsTolerance o)
    (LPIters o) (LPModel o) m.

Definition single : list Input := mkInputs [(0, 60)].
Definition twoOverlapping : list Input := mkInputs [(0, 60); (30, 90)].
Definition nearlyDisjoint : list Input := mkInputs [(0, 60); (58, 100)].
Definition staircase : list Input := mkInputs [(0, 60); (30, 90); (60, 120)].

(** options that let blocks share a room when they overlap by up to five
    minutes *)
Definition tolerantOptions : Options := withIsTolerance 5 defaultOptions.

Definition example_C7 : list Input :=
  mkInputs [(0, 10); (5, 20); (12, 40); (15, 30)].


(** a long block, a short one, and a pair that overlaps it later *)
Definition example_C8 : list Input :=
  mkInputs [(0, 100); (10, 20); (30, 50); (40, 60)].

(** a solver that leaves every problem at the point
    [(0, 1/3, 2/3, 0, 0, ...)]: on [example_C8] with the default options
    one component is left to the LP loop, the block [10,20), and this
    point is an optimal point of both of its problems *)
Definition exampleSolver (lp : glp_prob) (c : nat) : Q :=
  nth c [0; 1 # 3; 2 # 3; 0]%Q 0%Q.

Definition withLPIters (k : Z) (o : Options) : Options :=
  mkOptions (isTolerance o) (ISMethod o) (applyDFS o) (dfsTolerance o)
    k (LPModel o) (MILP o).

(** the blocks as [compute] has them when the LP loop starts: what it
    returns when [LPIters = 0], in which case no solver is called *)
Definition loopEntry (o : Options) (arr : list Input) : list ScheduleBlock :=
  match compute (fun _ _ => 0%Q) (fun _ _ => 0%Q) (withLPIters 0 o) arr with
  | Some (st, _) => blocks st
  | None => []
  end.

(** a decision procedure for [adjInRange] *)
Definition adjInRangeb (bs : list ScheduleBlock) : bool :=
  forallb (fun b => forallb (fun a => (a <? length bs)%nat)
                            (cleftN b ++ crightN b)) bs.

(** three blocks in a staircase, then a long block, a short one under it
    that ends before the staircase's last block does, and a late one *)
Definition example_C9 : list Input :=
  mkInputs [(0, 10); (1, 10); (2, 10); (3, 30); (10, 50); (11, 20); (40, 45)].

(** the options with LP model 2 *)
Definition model2Options : Options := withLPModel 2 defaultOptions.

(** a solver that leaves every problem at the point
    [(0, 0, 3/8, 5/8, 3/8, 0, ...)]: an optimal point of the problem of the
    first iteration on [example_C9] with LP model 2 *)
Definition exampleSolver2 (lp : glp_prob) (c : nat) : Q :=
  nth c [0; 0; 3 # 8; 5 # 8; 3 # 8]%Q 0%Q.

(** the options with the MILP model *)
Definition milpOptions : Options := withMILP 1 defaultOptions.

(** a solver that leaves every problem at the point
    [(0, 1/2, 1/2, 1/2, 0, ...)]: on [twoOverlapping] the MILP model has
    the columns [l0, w0, l1, w1, y], and this point puts the two blocks
    side by side *)
Definition exampleSolverMILP (lp : glp_prob) (c : nat) : Q :=
  nth c [0; 0; 1 # 2; 1 # 2; 1 # 2; 0]%Q 0%Q.




(** the layout that a run returns, in lowest terms, and the number of
    problems it has handed to the solver *)
Definition layoutOf (r : option (State * list (glp_prob * (nat -> Q))))
    : option (list (Q * Q) * nat) :=
  option_map
    (fun r => (map (fun b => (Qred (left b), Qred (width b))) (blocks (fst r)),
               length (snd r))) r.

Definition twoDisjoint : list Input := mkInputs [(0, 60); (60, 120)].
Definition chainOfFour : list Input :=
  mkInputs [(0, 60); (15, 75); (30, 90); (45, 105)].

(** ** The meaning of a problem *)

Definition rowOf (e : nat * nat * Q) : nat := fst (fst e).
Definition colOf (e : nat * nat * Q) : nat := snd (fst e).

(** the value of the row [r] of the constraint matrix [t] at the point [x] *)
Definition rowActivity (t : list (nat * nat * Q)) (x : nat -> Q) (r : nat)
    : Q :=
  fold_right
    (fun e acc =>
       if (rowOf e =? r)%nat then (snd e * x (colOf e) + acc)%Q else acc)
    0%Q t.

(** the bounds of a row or of a column: those of the latest call, if any *)
Definition bndOf (l : list (nat * (glp_bnd * Q * Q))) (k : nat)
    : option (glp_bnd * Q * Q) :=
  match find (fun e => (fst e =? k)%nat) l with
  | Some e => Some (snd e)
  | None => None
  end.

Definition satisfies (b : glp_bnd * Q * Q) (v : Q) : Prop :=
  match b with
  | (GLP_LO, lb, _) => (lb <= v)%Q
  | (GLP_UP, _, ub) => (v <= ub)%Q
  | (GLP_DB, lb, ub) => (lb <= v)%Q /\ (v <= ub)%Q
  end.

Definition sat_rows (rb : list (nat * (glp_bnd * Q * Q)))
    (t : list (nat * nat * Q)) (x : nat -> Q) : Prop :=
  forall r b, bndOf rb r = Some b -> satisfies b (rowActivity t x r).

Definition sat_cols (cb : list (nat * (glp_bnd * Q * Q))) (x : nat -> Q)
    : Prop :=
  forall c b, bndOf cb c = Some b -> satisfies b (x c).

(** [x] is a feasible point of [lp]: it meets every bound the program has
    set on a row or on a column, and is 0 or 1 on the binary columns.  A
    row or a column on which the program has set no bound is not
    constrained here: whatever the solver takes for it by default, a point
    that is feasible for the solver is feasible in this sense. *)
Definition feasible (lp : glp_prob) (x : nat -> Q) : Prop :=
  sat_rows (row_bnds lp) (mat lp) x /\
  sat_cols (col_bnds lp) x /\
  forall c, In c (col_bin lp) -> (x c == 0)%Q \/ (x c == 1)%Q.


(** every problem of the trace was left at a feasible point *)
Definition solved (tr : list (glp_prob * (nat -> Q))) : Prop :=
  Forall (fun e => feasible (fst e) (snd e)) tr.

(** a decision procedure for [feasible] *)
Definition satisfiesb (b : glp_bnd * Q * Q) (v : Q) : bool :=
  match b with
  | (GLP_LO, lb, _) => Qle_bool lb v
  | (GLP_UP, _, ub) => Qle_bool v ub
  | (GLP_DB, lb, ub) => Qle_bool lb v && Qle_bool v ub
  end.

Definition feasibleb (lp : glp_prob) (x : nat -> Q) : bool :=
  forallb
    (fun e =>
       match bndOf (row_bnds lp) (fst e) with
       | Some b => satisfiesb b (rowActivity (mat lp) x (fst e))
       | None => true
       end) (row_bnds lp) &&
  forallb
    (fun e =>
       match bndOf (col_bnds lp) (fst e) with
       | Some b => satisfiesb b (x (fst e))
       | None => true
       end) (col_bnds lp) &&
  forallb (fun c => Qeq_bool (x c) 0 || Qeq_bool (x c) 1) (col_bin lp).

(** while a problem is built: the rows set so far, on the entries pushed so
    far *)
Definition build_sat (st : lp_build) (x : nat -> Q) : Prop :=
  sat_rows (row_bnds (b_lp st)) (b_trip st) x /\
  sat_cols (col_bnds (b_lp st)) x.

(** the rows set and the entries pushed are below the row counter *)
Definition build_wf (st : lp_build) : Prop :=
  (forall e, In e (row_bnds (b_lp st)) -> (fst e < b_aux st)%nat) /\
  (forall e, In e (b_trip st) -> (rowOf e < b_aux st)%nat).

(** the columns bounded so far are below [c] *)
Definition cols_below (c : nat) (lp : glp_prob) : Prop :=
  forall e, In e (col_bnds lp) -> (fst e < c)%nat.

(** the value of [maxLeftFixed] after the loop over [cleftN] *)
Fixpoint maxLeft (bs : list ScheduleBlock) (vs : list nat) (m : Q) : Q :=
  match vs with
  | [] => m
  | v :: vs' =>
      if isFixed (get bs v)
      then maxLeft bs vs' (dmax m (left (get bs v) + width (get bs v))%Q)
      else maxLeft bs vs' m
  end.

(** erasure of the layout written back from a solution *)
Definition eraseLW (b : ScheduleBlock) : ScheduleBlock :=
  mkBlock (isFixed b) (visited b) (startMin b) (endMin b) (duration b)
    (idx b) (depth b) (pathDepth b) 0%Q 0%Q (leftN b) (rightN b)
    (cleftN b) (crightN b).

(** the constraints of LP model 1 on [block], the [i]-th block of the
    buffer: the rows of its non-fixed [cleftN], the row of its right edge,
    and the bounds of its two columns *)
Definition lp1_block_ok (bs : list ScheduleBlock) (idxMap : list nat)
    (x : nat -> Q) (i block : nat) : Prop :=
  (forall v, In v (cleftN (get bs block)) -> isFixed (get bs v) = false ->
     (x (nth (idx (get bs v)) idxMap O)
      + x (nth (idx (get bs v)) idxMap O + 1)%nat
      <= x (2 * i + 1)%nat)%Q) /\
  (x (2 * i + 1)%nat + x (2 * i + 1 + 1)%nat
   <= minRight bs (crightN (get bs block)) 1)%Q /\
  (maxLeft bs (cleftN (get bs block)) 0 <= x (2 * i + 1)%nat)%Q /\
  (width (get bs block) <= x (2 * i + 1 + 1)%nat)%Q.

(** the constraints of LP model 2 on [block], the [i]-th block of the
    buffer; the column [NC + 1] is the common width *)
Definition lp2_block_ok (bs : list ScheduleBlock) (idxMap : list nat)
    (NC : nat) (x : nat -> Q) (i block : nat) : Prop :=
  (forall v, In v (cleftN (get bs block)) -> isFixed (get bs v) = false ->
     (x (nth (idx (get bs v)) idxMap O) + x (NC + 1)%nat
      <= x (i + 1)%nat)%Q) /\
  (x (i + 1)%nat + x (NC + 1)%nat
   <= minRight bs (crightN (get bs block)) 1)%Q /\
  (maxLeft bs (cleftN (get bs block)) 0 <= x (i + 1)%nat)%Q.


(** the program has set a bound on the row or column [k] *)
Definition has_bnd (l : list (nat * (glp_bnd * Q * Q))) (k : nat) : Prop :=
  exists b, bndOf l k = Some b.

(** every row below the row counter has its bounds *)
Definition rows_full (st : lp_build) : Prop :=
  forall r, (1 <= r < b_aux st)%nat -> has_bnd (row_bnds (b_lp st)) r.

(** ** The LP loop *)

(** erasure of what the first loop of an iteration writes: the [visited]
    flags and the layout *)
Definition eraseSolve (b : ScheduleBlock) : ScheduleBlock :=
  mkBlock (isFixed b) false (startMin b) (endMin b) (duration b) (idx b)
    (depth b) (pathDepth b) 0%Q 0%Q (leftN b) (rightN b)
    (cleftN b) (crightN b).

(** erasure of what an iteration writes: the two flags and the layout *)
Definition eraseIter (b : ScheduleBlock) : ScheduleBlock :=
  mkBlock false false (startMin b) (endMin b) (duration b) (idx b)
    (depth b) (pathDepth b) 0%Q 0%Q (leftN b) (rightN b)
    (cleftN b) (crightN b).

(** [getFixedCount] has run: the two flags agree *)
Definition flagsAgree (bs : list ScheduleBlock) : Prop :=
  forall p, visited (get bs p) = isFixed (get bs p).

(** The condensed graph as the LP loop uses it. *)
Record lpgraph (n : nat) (bs : list ScheduleBlock) : Prop := mkLpGraph {
  lg_len : length bs = n;
  lg_idx : forall p, (p < n)%nat -> idx (get bs p) = p;
  lg_range : adjInRange bs;
  lg_sym : forall p v,
      In v (crightN (get bs p)) <-> In p (cleftN (get bs v))
}.

(** Between two components of an iteration: a fixed block is visited, and
    the neighbours of a visited block that is not fixed are visited. *)
Record comp_inv (bs : list ScheduleBlock) : Prop := mkCompInv {
  ci_fixed : forall p, isFixed (get bs p) = true -> visited (get bs p) = true;
  ci_closed : forall v a,
      visited (get bs v) = true -> isFixed (get bs v) = false ->
      In a (cleftN (get bs v)) \/ In a (crightN (get bs v)) ->
      visited (get bs a) = true
}.



(** What a feasible solution of the model of a component gives: [bs1] are
    the blocks when the model is built, [bs2] the blocks with the solution
    written back; [l k] and [w k] are the values of the columns of the
    [k]-th block of the buffer, [nl v] and [nw v] the values of the columns
    that the index map gives for the block [v]. *)
Record lp_solution (o : Options) (bs1 : list ScheduleBlock)
    (buffer : list nat) (bs2 : list ScheduleBlock) (l w nl nw : nat -> Q)
    : Prop := mkLpSolution {
  ls_same : sameUpTo eraseLW bs1 bs2;
  ls_out : forall p, ~ In p buffer -> get bs2 p = get bs1 p;
  ls_left : forall k, (k < length buffer)%nat ->
      left (get bs2 (nth k buffer O)) = l k;
  ls_width : forall k, (k < length buffer)%nat ->
      width (get bs2 (nth k buffer O)) = w k;
  ls_maxLeft : forall k, (k < length buffer)%nat ->
      (maxLeft bs1 (cleftN (get bs1 (nth k buffer O))) 0 <= l k)%Q;
  ls_minRight : forall k, (k < length buffer)%nat ->
      (l k + w k <= minRight bs1 (crightN (get bs1 (nth k buffer O))) 1)%Q;
  ls_row : forall k v, (k < length buffer)%nat ->
      In v (cleftN (get bs1 (nth k buffer O))) ->
      isFixed (get bs1 v) = false -> (nl v + nw v <= l k)%Q;
  ls_nb : (forall b, In b buffer -> idx (get bs1 b) = b) ->
      forall j, (j < length buffer)%nat ->
        nl (nth j buffer O) = l j /\ nw (nth j buffer O) = w j;
  ls_grow : LPModel o <> 2 -> forall k, (k < length buffer)%nat ->
      (width (get bs1 (nth k buffer O)) <= w k)%Q;
  ls_unit : LPModel o = 2 -> forall k, (k < length buffer)%nat ->
      (0 <= w k)%Q
}.




(** * Further definitions *)

(** ** The statistics *)

(** the accumulators [r_sum] and [r_sumSq] *)
Record Results := mkResults { r_sum : Q; r_sumSq : Q }.

(** [computeResult]: the widths, in percent, and their squares are added
    to the accumulators *)
Definition computeResult (bs : list ScheduleBlock) (r : Results) : Results :=
  fold_left
    (fun r b =>
       let w := (width b * 100)%Q in
       mkResults (r_sum r + w)%Q (r_sumSq r + w * w)%Q)
    bs r.

Definition getSum (r : Results) : Q := r_sum r.
Definition getSumSq (r : Results) : Q := r_sumSq r.

(** The accumulators after [compute]: it clears them in its setup and
    calls [computeResult] once, before it returns, on each of its
    paths. *)
Definition computeStatistics (glp_simplex glp_intopt : glp_prob -> nat -> Q)
    (o : Options) (arr : list Input) : option Results :=
  match compute glp_simplex glp_intopt o arr with
  | Some (st, _) => Some (computeResult (blocks st) (mkResults 0 0))
  | None => None
  end.

(** ** Properties of the input and of the room assignment *)

(** the [p]-th block of the input *)
Definition inputAt (arr : list Input) (p : nat) : Input :=
  nth p arr (mkInput 0 0).

(** no two blocks of the input overlap by more than [t] *)
Definition conflictFree (t : Z) (arr : list Input) : Prop :=
  forall p q, (p < length arr)%nat -> (q < length arr)%nat -> p <> q ->
    in_endMin (inputAt arr p) <= in_startMin (inputAt arr q) + t \/
    in_endMin (inputAt arr q) <= in_startMin (inputAt arr p) + t.

(** the block [b] of the input overlaps no other block by more than [t] *)
Definition isolated (t : Z) (arr : list Input) (b : nat) : Prop :=
  forall q, (q < length arr)%nat -> q <> b ->
    in_endMin (inputAt arr q) <= in_startMin (inputAt arr b) + t \/
    in_endMin (inputAt arr b) <= in_startMin (inputAt arr q) + t.


(** every room below the room of [b] holds a block that comes before [b]
    in the order [ord] and has not ended, up to [t], when [b] starts *)
Definition lowestRoom (t : Z) (bs : list ScheduleBlock) (ord : list nat)
    (b : nat) : Prop :=
  forall d, 0 <= d < depth (get bs b) ->
    exists x, before ord x b /\ depth (get bs x) = d /\
              startMin (get bs b) + t < endMin (get bs x).

(** ** Components and fixed blocks *)

(** the blocks that [BFS] is to collect from [start]: those reached from
    it through condensed links, on either side, without entering a block
    that is already visited *)
Inductive component (bs : list ScheduleBlock) (start : nat) : nat -> Prop :=
| component_start : component bs start start
| component_step b a :
    component bs start b ->
    In a (cleftN (get bs b)) \/ In a (crightN (get bs b)) ->
    visited (get bs a) = false ->
    component bs start a.

(** the test of [DFSFindFixedNumerical] on a block of [cleftN]: the right
    edge of [adj] is at [startLeft], up to [DOUBLE_EPS] *)
Definition touches (bs : list ScheduleBlock) (startLeft : Q) (adj : nat)
    : Prop :=
  (Qabs (startLeft - left (get bs adj) - width (get bs adj)) < DOUBLE_EPS)%Q.

(** the left edge of [p] is held: it is at 0, or at the right edge of a
    fixed block of its [cleftN] *)
Definition pinned (bs : list ScheduleBlock) (p : nat) : Prop :=
  (left (get bs p) == 0)%Q \/
  exists adj, In adj (cleftN (get bs p)) /\ isFixed (get bs adj) = true /\
              touches bs (left (get bs p)) adj.

(** [bs'] is [bs] with flags written on blocks that were not visited *)
Definition flagsExtend (bs bs' : list ScheduleBlock) : Prop :=
  sameUpTo eraseFlags bs bs' /\
  forall p, visited (get bs p) = true -> get bs' p = get bs p.

(** What the fixed detector relies on and keeps: a fixed block is
    visited, and has the property [Pin]. *)
Record fixed_ok (Pin : list ScheduleBlock -> nat -> Prop)
    (bs : list ScheduleBlock) : Prop := mkFixedOk {
  fo_visited : forall p, isFixed (get bs p) = true -> visited (get bs p) = true;
  fo_pin : forall p, isFixed (get bs p) = true -> Pin bs p;
  fo_zero : forall p, visited (get bs p) = true ->
      (left (get bs p) == 0)%Q -> isFixed (get bs p) = true
}.

(** the blocks that are fixed in [bs] are fixed in [bs'], where they
    were *)
Definition frozen (bs bs' : list ScheduleBlock) : Prop :=
  forall p, isFixed (get bs p) = true ->
    isFixed (get bs' p) = true /\
    left (get bs' p) = left (get bs p) /\
    width (get bs' p) = width (get bs p).

(** the number of fixed blocks, as [getFixedCount] returns it *)
Definition fixedCount (bs : list ScheduleBlock) : Z := snd (getFixedCount bs).

(** ** Problems that GLPK accepts *)

(** What GLPK requires of the calls that set up a problem: a row index
    lies between 1 and the number of rows added, a column index between 1
    and the number of columns added, and [glp_load_matrix] is given no
    position of the matrix twice. *)
Record glp_wf (lp : glp_prob) : Prop := mkGlpWf {
  wf_rows : forall e, In e (row_bnds lp) -> (1 <= fst e <= n_rows lp)%nat;
  wf_cols : forall e, In e (col_bnds lp) -> (1 <= fst e <= n_cols lp)%nat;
  wf_obj : forall e, In e (obj_coef lp) -> (1 <= fst e <= n_cols lp)%nat;
  wf_bin : forall c, In c (col_bin lp) -> (1 <= c <= n_cols lp)%nat;
  wf_mat : forall e, In e (mat lp) ->
      (1 <= rowOf e <= n_rows lp)%nat /\ (1 <= colOf e <= n_cols lp)%nat;
  wf_nodup : NoDup (map fst (mat lp))
}.

(** While a problem with [R] rows and [C] columns is built: the rows used
    are below the row counter, the columns are among the [C] columns, and
    no position occurs twice. *)
Record build_ok (R C : nat) (st : lp_build) : Prop := mkBuildOk {
  bo_nrows : n_rows (b_lp st) = R;
  bo_ncols : n_cols (b_lp st) = C;
  bo_aux : (1 <= b_aux st)%nat;
  bo_rows : forall e, In e (row_bnds (b_lp st)) -> (1 <= fst e < b_aux st)%nat;
  bo_trip : forall e, In e (b_trip st) ->
      (1 <= rowOf e < b_aux st)%nat /\ (1 <= colOf e <= C)%nat;
  bo_nodup : NoDup (map fst (b_trip st));
  bo_cols : forall e, In e (col_bnds (b_lp st)) -> (1 <= fst e <= C)%nat;
  bo_obj : forall e, In e (obj_coef (b_lp st)) -> (1 <= fst e <= C)%nat;
  bo_bin : forall c, In c (col_bin (b_lp st)) -> (1 <= c <= C)%nat
}.

(** the blocks of [cleftN] that get a row in the model of a component *)
Definition movable (bs : list ScheduleBlock) (vs : list nat) : list nat :=
  filter (fun v => negb (isFixed (get bs v))) vs.

(** The graph as the models of the components need it: the condensed
    lists are those of [lpgraph], and no block is in its own [cleftN]. *)
Definition model_graph (n : nat) (bs : list ScheduleBlock) : Prop :=
  lpgraph n bs /\ forall p, ~ In p (cleftN (get bs p)).

(** ** The total width under LP model 1 *)

(** the sum of the widths of the blocks of a buffer *)
Definition totalWidth (bs : list ScheduleBlock) (buffer : list nat) : Q :=
  fold_right (fun b acc => (width (get bs b) + acc)%Q) 0%Q buffer.

(** the sum of the width columns of LP model 1 at the point [x], for a
    component of [NC] blocks *)
Definition sumWidthCols (x : nat -> Q) (NC : nat) : Q :=
  fold_right (fun k acc => (x (2 * k + 2)%nat + acc)%Q) 0%Q (seq 0 NC).

(** ** The neighbour lists *)

(** [j] is recorded as a neighbour of [a], on either side *)
Definition adjIn (bs : list ScheduleBlock) (a j : nat) : Prop :=
  In j (leftN (get bs a)) \/ In j (rightN (get bs a)).

(** no neighbour list holds a block twice *)
Definition adjNoDup (bs : list ScheduleBlock) : Prop :=
  forall a, NoDup (leftN (get bs a)) /\ NoDup (rightN (get bs a)).


(** * Verification *)

(** ** Arrays *)

Lemma length_upd p f bs : length (upd p f bs) = length bs.
Proof.
  revert p; induction bs as [|b bs IH]; intros [|p]; simpl; auto.
Qed.

Lemma get_upd_eq p f bs :
  (p < length bs)%nat -> get (upd p f bs) p = f (get bs p).
Proof.
  unfold get. revert p; induction bs as [|b bs IH]; intros [|p] H;
    simpl in *; try lia; auto.
  apply IH; lia.
Qed.

Lemma get_upd_ne p q f bs : p <> q -> get (upd p f bs) q = get bs q.
Proof.
  unfold get. revert p q; induction bs as [|b bs IH]; intros [|p] [|q] H;
    simpl; auto; try congruence.
Qed.

(** a store [f] that keeps the field [g] keeps it in the whole array *)
Lemma get_upd_field {A : Type} (g : ScheduleBlock -> A) p q f bs :
  (forall b, g (f b) = g b) -> g (get (upd p f bs) q) = g (get bs q).
Proof.
  intros Hf. destruct (Nat.eq_dec p q) as [->|Hne].
  - destruct (Nat.lt_ge_cases q (length bs)) as [Hlt|Hge].
    + rewrite get_upd_eq by assumption. apply Hf.
    + f_equal. unfold get. rewrite !nth_overflow; auto.
      rewrite length_upd; assumption.
  - rewrite get_upd_ne by assumption. reflexivity.
Qed.

Lemma get_upd_depth p d bs :
  (p < length bs)%nat -> depth (get (upd p (set_depth d) bs) p) = d.
Proof. intros H. rewrite get_upd_eq by assumption. reflexivity. Qed.

Lemma get_upd_startMin p q d bs :
  startMin (get (upd p (set_depth d) bs) q) = startMin (get bs q).
Proof. apply get_upd_field; reflexivity. Qed.

Lemma get_upd_endMin p q d bs :
  endMin (get (upd p (set_depth d) bs) q) = endMin (get bs q).
Proof. apply get_upd_field; reflexivity. Qed.

Lemma sameButDepth_refl bs : sameButDepth bs bs.
Proof. split; auto. Qed.

Lemma sameButDepth_trans bs1 bs2 bs3 :
  sameButDepth bs1 bs2 -> sameButDepth bs2 bs3 -> sameButDepth bs1 bs3.
Proof.
  intros [L1 H1] [L2 H2]; split; [congruence|].
  intros p. rewrite H2. apply H1.
Qed.

Lemma sameButDepth_upd p d bs : sameButDepth bs (upd p (set_depth d) bs).
Proof.
  split; [apply length_upd|].
  intros q. apply (get_upd_field (set_depth 0)). reflexivity.
Qed.

Lemma sameButDepth_startMin bs bs' p :
  sameButDepth bs bs' -> startMin (get bs' p) = startMin (get bs p).
Proof. intros [_ H]. exact (f_equal startMin (H p)). Qed.

Lemma sameButDepth_endMin bs bs' p :
  sameButDepth bs bs' -> endMin (get bs' p) = endMin (get bs p).
Proof. intros [_ H]. exact (f_equal endMin (H p)). Qed.

(** ** Buffers *)

Lemma pq_remove_In x y q :
  NoDup q -> (In y (pq_remove x q) <-> In y q /\ y <> x).
Proof.
  induction 1 as [|r q Hr Hq IH]; simpl; [tauto|].
  destruct (Nat.eqb_spec r x) as [->|Hne].
  - split.
    + intros Hy. split; [auto|]. intros ->. contradiction.
    + intros [[->|Hy] Hn]; [congruence|assumption].
  - simpl. rewrite IH. split.
    + intros [->|[Hy Hn]]; auto.
    + intros [[->|Hy] Hn]; auto.
Qed.

Lemma pq_remove_NoDup x q : NoDup q -> NoDup (pq_remove x q).
Proof.
  induction 1 as [|r q Hr Hq IH]; simpl; [constructor|].
  destruct (Nat.eqb_spec r x); [assumption|].
  constructor; [|assumption].
  intros Hin. apply pq_remove_In in Hin; tauto.
Qed.

Lemma pq_remove_length x q :
  In x q -> S (length (pq_remove x q)) = length q.
Proof.
  induction q as [|r q IH]; simpl; [tauto|].
  intros [->|Hin].
  - rewrite Nat.eqb_refl. reflexivity.
  - destruct (Nat.eqb_spec r x); [reflexivity|].
    simpl. rewrite IH; auto.
Qed.

Lemma store_perm (i x : nat) l :
  NoDup l -> (i < length l)%nat ->
  Permutation (store i x l) (x :: pq_remove (nth i l 0%nat) l).
Proof.
  intros Hnd; revert i. induction Hnd as [|y l Hy Hl IH]; intros [|i] Hi;
    simpl in *; try lia.
  - rewrite Nat.eqb_refl. apply Permutation_refl.
  - destruct (Nat.eqb_spec y (nth i l 0%nat)) as [E|_].
    + exfalso. apply Hy. rewrite E. apply nth_In. lia.
    + eapply Permutation_trans; [apply perm_skip, IH; lia|apply perm_swap].
Qed.

(** ** Sorting *)

Lemma insertBy_perm lt x l : Permutation (insertBy lt x l) (x :: l).
Proof.
  induction l as [|y l IH]; simpl; [apply Permutation_refl|].
  destruct (lt y x); [|apply Permutation_refl].
  eapply Permutation_trans; [apply perm_skip, IH|apply perm_swap].
Qed.

Lemma sortBy_perm lt l : Permutation (sortBy lt l) l.
Proof.
  induction l as [|x l IH]; simpl; [constructor|].
  eapply Permutation_trans; [apply insertBy_perm|apply perm_skip, IH].
Qed.

Lemma StronglySorted_weaken {A : Type} (R R' : A -> A -> Prop) l :
  (forall p q, R p q -> R' p q) -> StronglySorted R l -> StronglySorted R' l.
Proof.
  intros Himp. induction 1 as [|x l Hl IH Hx]; constructor; auto.
  eapply Forall_impl; [|exact Hx]. intros y. apply Himp.
Qed.

Section SortKey.
Variable lt : nat -> nat -> bool.
Variable key : nat -> Z.
Hypothesis lt_key : forall x y, lt x y = true -> key x <= key y.
Hypothesis nlt_key : forall x y, lt x y = false -> key y <= key x.

Let le_key (p q : nat) : Prop := key p <= key q.

Lemma insertBy_sorted x l :
  StronglySorted le_key l -> StronglySorted le_key (insertBy lt x l).
Proof.
  induction 1 as [|y l Hl IH Hy]; simpl.
  - constructor; constructor.
  - destruct (lt y x) eqn:E.
    + constructor; [assumption|].
      apply Forall_forall. intros z Hz.
      apply (Permutation_in _ (insertBy_perm lt x l)) in Hz.
      destruct Hz as [<-|Hz]; [apply lt_key; assumption|].
      rewrite Forall_forall in Hy. apply Hy; assumption.
    + constructor; [constructor; assumption|].
      constructor; [apply nlt_key; assumption|].
      apply Forall_forall. intros z Hz.
      rewrite Forall_forall in Hy. specialize (Hy z Hz).
      apply nlt_key in E. unfold le_key in *. lia.
Qed.

Lemma sortBy_sorted l : StronglySorted le_key (sortBy lt l).
Proof.
  induction l as [|x l IH]; simpl; [constructor|].
  apply insertBy_sorted; assumption.
Qed.
End SortKey.

Lemma startBefore_key bs x y :
  startBefore bs x y = true -> startMin (get bs x) <= startMin (get bs y).
Proof.
  unfold startBefore.
  destruct (Z.eqb_spec (startMin (get bs x) - startMin (get bs y)) 0);
    [lia|]. intros H%Z.ltb_lt. lia.
Qed.

Lemma startBefore_nkey bs x y :
  startBefore bs x y = false -> startMin (get bs y) <= startMin (get bs x).
Proof.
  unfold startBefore.
  destruct (Z.eqb_spec (startMin (get bs x) - startMin (get bs y)) 0);
    [lia|]. intros H%Z.ltb_ge. lia.
Qed.

Lemma sortByStartTime_sorted st :
  StronglySorted
    (fun p q => startMin (get (blocks st) p) <= startMin (get (blocks st) q))
    (blocksReordered (sortByStartTime st)).
Proof.
  simpl. apply sortBy_sorted with (key := fun p => startMin (get (blocks st) p)).
  - apply startBefore_key.
  - apply startBefore_nkey.
Qed.

Lemma sortByStartTime_perm st :
  Permutation (blocksReordered (sortByStartTime st)) (blocksReordered st).
Proof. simpl. apply sortBy_perm. Qed.

(** ** Orders *)

Lemma before_In l x y : before l x y -> In x l /\ In y l.
Proof.
  induction l as [|z l IH]; simpl; [tauto|].
  intros [[-> Hy]|H]; [auto|]. destruct (IH H). auto.
Qed.

Lemma pos_lt l x : In x l -> (pos l x < length l)%nat.
Proof.
  induction l as [|z l IH]; simpl; [tauto|].
  intros H. destruct (Nat.eqb_spec z x); [lia|].
  destruct H as [H|H]; [congruence|]. specialize (IH H). lia.
Qed.

Lemma before_pos l x y :
  NoDup l -> before l x y -> (pos l x < pos l y)%nat.
Proof.
  induction 1 as [|z l Hz Hl IH]; simpl; [tauto|].
  intros [[-> Hy]|H].
  - rewrite Nat.eqb_refl.
    destruct (Nat.eqb_spec x y) as [->|_]; [contradiction|lia].
  - destruct (before_In _ _ _ H) as [Hx Hy].
    destruct (Nat.eqb_spec z x) as [->|_]; [contradiction|].
    destruct (Nat.eqb_spec z y) as [->|_]; [contradiction|].
    specialize (IH H). lia.
Qed.


(** ** S1: the partitioners *)

Lemma conflict_startMin_endMin t bs bs' p q :
  (forall x, startMin (get bs' x) = startMin (get bs x)) ->
  (forall x, endMin (get bs' x) = endMin (get bs x)) ->
  conflict t bs p q -> conflict t bs' p q.
Proof.
  unfold conflict, conflictb. intros HS HE. rewrite !HS, !HE. auto.
Qed.

Lemma rooms_inv_init t bs b0 :
  depth (get bs b0) = 0 -> rooms_inv t bs [b0] [b0] 0.
Proof.
  intros Hd. constructor.
  - lia.
  - reflexivity.
  - constructor; [simpl; tauto|constructor].
  - apply incl_refl.
  - simpl. intros r1 r2 [<-|[]] [<-|[]] _. reflexivity.
  - simpl. intros x [<-|[]]. split; [lia|].
    exists b0. auto.
  - simpl. intros x y [<-|[]] [<-|[]] Hne. congruence.
  - intros _. exists [b0]. repeat split.
    + constructor; [simpl; tauto|constructor].
    + apply incl_refl.
    + simpl. intros p q [<-|[]] [<-|[]] Hne. congruence.
Qed.

(** the block [b] takes over the room of [r] *)
Lemma rooms_inv_reuse t bs done rooms nr b r rooms' :
  rooms_inv t bs done rooms nr ->
  ~ In b done -> (b < length bs)%nat ->
  (forall x, In x done -> startMin (get bs x) <= startMin (get bs b)) ->
  In r rooms -> endMin (get bs r) <= startMin (get bs b) + t ->
  Permutation rooms' (b :: pq_remove r rooms) ->
  rooms_inv t (upd b (set_depth (depth (get bs r))) bs) (b :: done) rooms' nr /\
  (forall y, In y done -> depth (get bs y) = depth (get bs r) ->
     endMin (get bs y) <= startMin (get bs b) + t).
Proof.
  intros [Hnr Hlen Hnd Hincl Hdep Hdone Hpair Hcl] Hb Hlt Hsort Hr Hend Hperm.
  set (bs' := upd b (set_depth (depth (get bs r))) bs).
  assert (HS : forall x, startMin (get bs' x) = startMin (get bs x))
    by (intros; apply get_upd_startMin).
  assert (HE : forall x, endMin (get bs' x) = endMin (get bs x))
    by (intros; apply get_upd_endMin).
  assert (Hdb : depth (get bs' b) = depth (get bs r))
    by (apply get_upd_depth; assumption).
  assert (Hdo : forall x, x <> b -> depth (get bs' x) = depth (get bs x))
    by (intros x Hx; unfold bs'; rewrite get_upd_ne; auto).
  assert (Hdd : forall x, In x done -> depth (get bs' x) = depth (get bs x))
    by (intros x Hx; apply Hdo; intros ->; contradiction).
  assert (Hin' : forall x, In x rooms' <-> x = b \/ (In x rooms /\ x <> r)).
  { intros x. split.
    - intros Hx. apply (Permutation_in _ Hperm) in Hx.
      destruct Hx as [<-|Hx]; [auto|]. right.
      apply pq_remove_In in Hx; assumption.
    - intros Hx. apply (Permutation_in _ (Permutation_sym Hperm)).
      destruct Hx as [->|Hx]; [left; reflexivity|right].
      apply pq_remove_In; assumption. }
  assert (Hrd : In r done) by (apply Hincl; assumption).
  assert (Hord : forall y, In y done -> depth (get bs y) = depth (get bs r) ->
            endMin (get bs y) <= startMin (get bs b) + t).
  { intros y Hy E.
    destruct (Hdone y Hy) as [_ [r' [Hr' [Hdr' Hy']]]].
    assert (r' = r) by (apply Hdep; auto; congruence). subst r'.
    destruct Hy' as [->|Hy']; [assumption|].
    specialize (Hsort r Hrd). lia. }
  split; [|exact Hord].
  constructor.
  - assumption.
  - rewrite (Permutation_length Hperm). simpl.
    pose proof (pq_remove_length r rooms Hr). lia.
  - apply (Permutation_NoDup (Permutation_sym Hperm)).
    constructor; [|apply pq_remove_NoDup; assumption].
    intros Hin. apply pq_remove_In in Hin; [|assumption].
    apply Hb, Hincl, Hin.
  - intros x Hx. apply Hin' in Hx. destruct Hx as [->|[Hx _]];
      [left; reflexivity|right; apply Hincl; assumption].
  - intros r1 r2 H1 H2. apply Hin' in H1. apply Hin' in H2.
    destruct H1 as [->|[H1 N1]], H2 as [->|[H2 N2]]; auto.
    + rewrite Hdb, Hdd by (apply Hincl; assumption).
      intros E. exfalso. apply N2. symmetry. apply Hdep; auto.
    + rewrite Hdb, Hdd by (apply Hincl; assumption).
      intros E. exfalso. apply N1. apply Hdep; auto.
    + rewrite !Hdd by (apply Hincl; assumption). apply Hdep; auto.
  - intros x [<-|Hx].
    + rewrite Hdb. split; [apply Hdone; assumption|].
      exists b. split; [apply Hin'; auto|]. split; [exact Hdb|auto].
    + rewrite Hdd by assumption.
      destruct (Hdone x Hx) as [Hrange [r' [Hr' [Hdr' Hx']]]].
      split; [assumption|].
      destruct (Nat.eq_dec r' r) as [->|Hne].
      * exists b. split; [apply Hin'; auto|]. split; [congruence|].
        right. rewrite HS, HE.
        destruct Hx' as [->|Hx']; [assumption|].
        specialize (Hsort r Hrd). lia.
      * exists r'. split; [apply Hin'; auto|].
        rewrite Hdd by (apply Hincl; assumption).
        split; [assumption|]. rewrite HS, HE. assumption.
  - assert (Hnew : forall y, In y done ->
              depth (get bs r) = depth (get bs y) -> disjoint_t t bs' y b).
    { intros y Hy E. unfold disjoint_t. rewrite !HS, !HE. left.
      apply Hord; auto. }
    intros x y [<-|Hx] [<-|Hy] Hne; try congruence.
    + rewrite Hdb, Hdd by assumption. intros E.
      destruct (Hnew y Hy E) as [H|H]; [right|left]; assumption.
    + rewrite Hdb, Hdd by assumption. intros E.
      apply Hnew; auto.
    + rewrite !Hdd by assumption. intros E.
      unfold disjoint_t. rewrite !HS, !HE. apply Hpair; assumption.
  - intros Hlong. destruct Hcl as [cl [Hn [Hi [Hl Hc]]]].
    + intros p Hp. rewrite <- HS, <- HE. apply Hlong. right; assumption.
    + exists cl. repeat split; auto.
      * intros x Hx. right. apply Hi; assumption.
      * intros p q Hp Hq Hne.
        apply conflict_startMin_endMin with (bs := bs); auto.
Qed.

(** every room is busy when [b] starts: [b] opens a new room *)
Lemma rooms_inv_open t bs done rooms nr b rooms' :
  rooms_inv t bs done rooms nr ->
  ~ In b done -> (b < length bs)%nat ->
  (forall x, In x done -> startMin (get bs x) <= startMin (get bs b)) ->
  (forall r, In r rooms -> startMin (get bs b) + t < endMin (get bs r)) ->
  Permutation rooms' (b :: rooms) ->
  rooms_inv t (upd b (set_depth (nr + 1)) bs) (b :: done) rooms' (nr + 1).
Proof.
  intros [Hnr Hlen Hnd Hincl Hdep Hdone Hpair Hcl] Hb Hlt Hsort Hbusy Hperm.
  set (bs' := upd b (set_depth (nr + 1)) bs).
  assert (HS : forall x, startMin (get bs' x) = startMin (get bs x))
    by (intros; apply get_upd_startMin).
  assert (HE : forall x, endMin (get bs' x) = endMin (get bs x))
    by (intros; apply get_upd_endMin).
  assert (Hdb : depth (get bs' b) = nr + 1)
    by (apply get_upd_depth; assumption).
  assert (Hdo : forall x, x <> b -> depth (get bs' x) = depth (get bs x))
    by (intros x Hx; unfold bs'; rewrite get_upd_ne; auto).
  assert (Hdd : forall x, In x done -> depth (get bs' x) = depth (get bs x))
    by (intros x Hx; apply Hdo; intros ->; contradiction).
  assert (Hin' : forall x, In x rooms' <-> x = b \/ In x rooms).
  { intros x. split.
    - intros Hx. apply (Permutation_in _ Hperm) in Hx.
      destruct Hx as [<-|Hx]; auto.
    - intros Hx. apply (Permutation_in _ (Permutation_sym Hperm)).
      destruct Hx as [->|Hx]; [left; reflexivity|right; assumption]. }
  assert (Hbr : ~ In b rooms) by (intros H; apply Hb, Hincl, H).
  constructor.
  - lia.
  - rewrite (Permutation_length Hperm). simpl. lia.
  - apply (Permutation_NoDup (Permutation_sym Hperm)).
    constructor; assumption.
  - intros x Hx. apply Hin' in Hx. destruct Hx as [->|Hx];
      [left; reflexivity|right; apply Hincl; assumption].
  - intros r1 r2 H1 H2. apply Hin' in H1. apply Hin' in H2.
    destruct H1 as [->|H1], H2 as [->|H2]; auto.
    + rewrite Hdb, Hdd by (apply Hincl; assumption).
      pose proof (Hdone r2 (Hincl _ H2)). lia.
    + rewrite Hdb, Hdd by (apply Hincl; assumption).
      pose proof (Hdone r1 (Hincl _ H1)). lia.
    + rewrite !Hdd by (apply Hincl; assumption). apply Hdep; auto.
  - intros x [<-|Hx].
    + rewrite Hdb. split; [lia|].
      exists b. split; [apply Hin'; auto|]. split; [exact Hdb|auto].
    + rewrite Hdd by assumption.
      destruct (Hdone x Hx) as [Hrange [r' [Hr' [Hdr' Hx']]]].
      split; [lia|].
      exists r'. split; [apply Hin'; auto|].
      rewrite Hdd by (apply Hincl; assumption).
      split; [assumption|]. rewrite HS, HE. assumption.
  - intros x y [<-|Hx] [<-|Hy] Hne; try congruence.
    + rewrite Hdb, Hdd by assumption.
      pose proof (Hdone y Hy). lia.
    + rewrite Hdb, Hdd by assumption.
      pose proof (Hdone x Hx). lia.
    + rewrite !Hdd by assumption. intros E.
      unfold disjoint_t. rewrite !HS, !HE. apply Hpair; assumption.
  - intros Hlong. exists (b :: rooms). repeat split.
    + constructor; assumption.
    + intros x [<-|Hx]; [left; reflexivity|right; apply Hincl; assumption].
    + simpl. lia.
    + assert (Hkey : forall p, In p (b :: rooms) ->
                startMin (get bs p) <= startMin (get bs b) /\
                startMin (get bs b) + t < endMin (get bs p)).
      { intros p [<-|Hp].
        - split; [lia|]. rewrite <- HS, <- HE. apply Hlong. left; reflexivity.
        - split; [apply Hsort, Hincl, Hp|apply Hbusy, Hp]. }
      intros p q Hp Hq _. unfold conflict, conflictb.
      rewrite !HS, !HE. apply Z.ltb_lt.
      pose proof (Hkey p Hp). pose proof (Hkey q Hq). lia.
Qed.

Lemma findRoom_spec bs tol block occ : forall k idx0 m i m',
  findRoom bs tol block occ k idx0 m = (i, m') ->
  (i = idx0 /\
   forall r, In r occ ->
     ~ (endMin (get bs r) <= startMin (get bs block) + tol /\
        depth (get bs r) < m)) \/
  (k <= i < k + Z.of_nat (length occ) /\
   endMin (get bs (nth (Z.to_nat (i - k)) occ 0%nat))
     <= startMin (get bs block) + tol).
Proof.
  induction occ as [|r occ IH]; intros k idx0 m i m'; simpl.
  - intros [= <- <-]. left. split; [reflexivity|tauto].
  - destruct (Z.leb_spec (endMin (get bs r)) (startMin (get bs block) + tol))
      as [Hc|Hc]; simpl.
    + destruct (Z.ltb_spec (depth (get bs r)) m) as [Hd|Hd].
      * intros H. apply IH in H. right. destruct H as [[-> _]|[Hr Hn]].
        -- split; [lia|]. replace (k - k) with 0 by lia. exact Hc.
        -- split; [lia|].
           replace (Z.to_nat (i - k)) with (S (Z.to_nat (i - (k + 1)))) by lia.
           exact Hn.
      * intros H. apply IH in H. destruct H as [[-> Hall]|[Hr Hn]].
        -- left. split; [reflexivity|].
           intros r' [<-|Hr']; [lia|apply Hall; assumption].
        -- right. split; [lia|].
           replace (Z.to_nat (i - k)) with (S (Z.to_nat (i - (k + 1)))) by lia.
           exact Hn.
    + intros H. apply IH in H. destruct H as [[-> Hall]|[Hr Hn]].
      * left. split; [reflexivity|].
        intros r' [<-|Hr']; [lia|apply Hall; assumption].
      * right. split; [lia|].
        replace (Z.to_nat (i - k)) with (S (Z.to_nat (i - (k + 1)))) by lia.
        exact Hn.
Qed.

Lemma comp_true bs t r :
  comp bs t r = true -> endMin (get bs r) <= endMin (get bs t).
Proof.
  unfold comp.
  destruct (Z.eqb_spec (endMin (get bs t) - endMin (get bs r)) 0); [lia|].
  intros H%Z.gtb_lt. lia.
Qed.

Lemma comp_false bs t r :
  comp bs t r = false -> endMin (get bs t) <= endMin (get bs r).
Proof.
  unfold comp.
  destruct (Z.eqb_spec (endMin (get bs t) - endMin (get bs r)) 0); [lia|].
  intros H. destruct (Z.gtb_spec (endMin (get bs t) - endMin (get bs r)) 0);
    [discriminate|lia].
Qed.

(** the top of the queue is an element with the least end time *)
Lemma pq_top_spec bs q : forall t,
  In (pq_top bs t q) (t :: q) /\
  forall x, In x (t :: q) ->
    endMin (get bs (pq_top bs t q)) <= endMin (get bs x).
Proof.
  induction q as [|r q IH]; intros t; simpl.
  - split; [auto|]. intros x [<-|[]]. lia.
  - destruct (comp bs t r) eqn:E.
    + destruct (IH r) as [Hin Hmin]. split.
      * simpl in Hin. tauto.
      * intros x [<-|Hx]; [|apply Hmin; exact Hx].
        apply comp_true in E. specialize (Hmin r (or_introl eq_refl)). lia.
    + destruct (IH t) as [Hin Hmin]. split.
      * simpl in Hin. tauto.
      * intros x [<-|[<-|Hx]].
        -- apply Hmin. left; reflexivity.
        -- apply comp_false in E. specialize (Hmin t (or_introl eq_refl)). lia.
        -- apply Hmin. right; exact Hx.
Qed.

(** What a partitioner loop does to the invariant. *)
Section Loops.
Variable t : Z.
Variable S0 : nat -> Z.

Let loop_post (loop : list nat -> list ScheduleBlock -> list nat -> Z ->
                       list ScheduleBlock * list nat * Z) : Prop :=
  forall rest bs rooms nr done bs' rooms' nr',
    rooms_inv t bs done rooms nr ->
    (forall p, startMin (get bs p) = S0 p) ->
    NoDup rest ->
    (forall x, In x rest -> ~ In x done) ->
    (forall x, In x rest -> (x < length bs)%nat) ->
    StronglySorted (fun p q => S0 p <= S0 q) rest ->
    (forall x y, In x done -> In y rest -> S0 x <= S0 y) ->
    nr + 1 + Z.of_nat (length rest) <= INT_MAX ->
    loop rest bs rooms nr = (bs', rooms', nr') ->
    exists done',
      (forall x, In x done' <-> In x done \/ In x rest) /\
      rooms_inv t bs' done' rooms' nr' /\
      sameButDepth bs bs' /\
      (forall x, ~ In x rest -> depth (get bs' x) = depth (get bs x)) /\
      nr' <= nr + Z.of_nat (length rest) /\
      (forall x y, In x done \/ before rest x y -> In y rest ->
         depth (get bs' x) = depth (get bs' y) ->
         endMin (get bs x) <= startMin (get bs y) + t).

Lemma loop_step (loop : list nat -> list ScheduleBlock -> list nat -> Z ->
                         list ScheduleBlock * list nat * Z)
    b rest bs done nr bs1 rooms1 nr1 bs' rooms' nr' :
  (forall bs rooms nr done bs' rooms' nr',
      rooms_inv t bs done rooms nr ->
      (forall p, startMin (get bs p) = S0 p) ->
      NoDup rest ->
      (forall x, In x rest -> ~ In x done) ->
      (forall x, In x rest -> (x < length bs)%nat) ->
      StronglySorted (fun p q => S0 p <= S0 q) rest ->
      (forall x y, In x done -> In y rest -> S0 x <= S0 y) ->
      nr + 1 + Z.of_nat (length rest) <= INT_MAX ->
      loop rest bs rooms nr = (bs', rooms', nr') ->
      exists done',
        (forall x, In x done' <-> In x done \/ In x rest) /\
        rooms_inv t bs' done' rooms' nr' /\
        sameButDepth bs bs' /\
        (forall x, ~ In x rest -> depth (get bs' x) = depth (get bs x)) /\
        nr' <= nr + Z.of_nat (length rest) /\
        (forall x y, In x done \/ before rest x y -> In y rest ->
           depth (get bs' x) = depth (get bs' y) ->
           endMin (get bs x) <= startMin (get bs y) + t)) ->
  (forall p, startMin (get bs p) = S0 p) ->
  NoDup (b :: rest) ->
  (forall x, In x (b :: rest) -> ~ In x done) ->
  (forall x, In x (b :: rest) -> (x < length bs)%nat) ->
  StronglySorted (fun p q => S0 p <= S0 q) (b :: rest) ->
  (forall x y, In x done -> In y (b :: rest) -> S0 x <= S0 y) ->
  nr + 1 + Z.of_nat (length (b :: rest)) <= INT_MAX ->
  rooms_inv t bs1 (b :: done) rooms1 nr1 ->
  sameButDepth bs bs1 ->
  (forall x, x <> b -> depth (get bs1 x) = depth (get bs x)) ->
  nr1 <= nr + 1 ->
  (forall y, In y done -> depth (get bs1 y) = depth (get bs1 b) ->
     endMin (get bs y) <= startMin (get bs b) + t) ->
  loop rest bs1 rooms1 nr1 = (bs', rooms', nr') ->
  exists done',
    (forall x, In x done' <-> In x done \/ In x (b :: rest)) /\
    rooms_inv t bs' done' rooms' nr' /\
    sameButDepth bs bs' /\
    (forall x, ~ In x (b :: rest) -> depth (get bs' x) = depth (get bs x)) /\
    nr' <= nr + Z.of_nat (length (b :: rest)) /\
    (forall x y, In x done \/ before (b :: rest) x y -> In y (b :: rest) ->
       depth (get bs' x) = depth (get bs' y) ->
       endMin (get bs x) <= startMin (get bs y) + t).
Proof.
  intros IH HS Hnd Hfresh Hrange Hsorted Hle Hmax Hinv1 Hsame Hdep Hnr Hord
    Hloop.
  apply NoDup_cons_iff in Hnd. destruct Hnd as [Hb Hnd'].
  apply StronglySorted_inv in Hsorted. destruct Hsorted as [Hsorted' Hfa].
  rewrite Forall_forall in Hfa.
  assert (Hbd : ~ In b done) by (apply Hfresh; left; reflexivity).
  apply IH with (done := b :: done) in Hloop; auto.
  - destruct Hloop as [done' [Hd [Hi [Hs [Hdp [Hn Ho]]]]]].
    exists done'. split; [|split; [|split; [|split; [|split]]]].
    + intros x. rewrite Hd. simpl. tauto.
    + exact Hi.
    + eapply sameButDepth_trans; eassumption.
    + intros x Hx. rewrite Hdp by (simpl in Hx; tauto).
      apply Hdep. intros ->. apply Hx. left; reflexivity.
    + simpl length. lia.
    + intros x y Hx Hy E.
      rewrite <- (sameButDepth_endMin x Hsame),
              <- (sameButDepth_startMin y Hsame).
      simpl in Hx. destruct Hy as [<-|Hy].
      * destruct Hx as [Hx|[[_ Hx]|Hx]];
          [|contradiction|apply before_In in Hx; tauto].
        rewrite (sameButDepth_endMin x Hsame),
                (sameButDepth_startMin b Hsame).
        apply Hord; [assumption|].
        rewrite <- (Hdp x), <- (Hdp b); auto.
        intros Hin. apply (Hfresh x); [right; assumption|assumption].
      * apply Ho; auto.
        destruct Hx as [Hx|[[<- _]|Hx]]; simpl; auto.
  - intros p. rewrite (sameButDepth_startMin _ Hsame). apply HS.
  - intros x Hx [<-|Hd]; [contradiction|].
    apply (Hfresh x); [right; assumption|assumption].
  - intros x Hx. destruct Hsame as [-> _]. apply Hrange. right; assumption.
  - intros x y [<-|Hx] Hy; [apply Hfa; assumption|].
    apply Hle; [assumption|right; assumption].
  - simpl length in Hmax. lia.
Qed.

Lemma is1_loop_post : loop_post (is1_loop t).
Proof.
  unfold loop_post. induction rest as [|b rest IH];
    intros bs occ nr done bs' occ' nr' Hinv HS Hnd Hfresh Hrange Hsorted
      Hle Hmax; simpl.
  - intros [= <- <- <-]. exists done.
    split; [intros x; simpl; tauto|].
    split; [assumption|]. split; [apply sameButDepth_refl|].
    split; [reflexivity|]. split; [simpl; lia|]. intros x y _ [].
  - assert (Hbd : ~ In b done) by (apply Hfresh; left; reflexivity).
    assert (Hbl : (b < length bs)%nat) by (apply Hrange; left; reflexivity).
    assert (Hsb : forall x, In x done ->
                    startMin (get bs x) <= startMin (get bs b)).
    { intros x Hx. rewrite !HS. apply Hle; [assumption|left; reflexivity]. }
    destruct (findRoom bs t b occ 0 (-1) INT_MAX) as [i m] eqn:Hfind.
    apply findRoom_spec in Hfind. simpl.
    destruct (Z.eqb_spec i (-1)) as [->|Hi].
    + assert (Hopen : rooms_inv t (upd b (set_depth (nr + 1)) bs) (b :: done)
                        (occ ++ [b]) (nr + 1)).
      { apply rooms_inv_open with (rooms := occ); auto.
        - destruct Hfind as [[_ Hall]|[Hr _]]; [|lia].
          intros r Hr.
          assert (depth (get bs r) < INT_MAX).
          { pose proof (ri_done Hinv r (ri_incl Hinv r Hr)).
            simpl length in Hmax. lia. }
          specialize (Hall r Hr). lia.
        - apply Permutation_sym, Permutation_cons_append. }
      apply (@loop_step (is1_loop t) b rest bs done nr); auto.
      * apply sameButDepth_upd.
      * intros x Hx. rewrite get_upd_ne; auto.
      * lia.
      * intros y Hy. rewrite get_upd_depth by assumption.
        rewrite get_upd_ne by (intros ->; contradiction).
        pose proof (ri_done Hinv y Hy). lia.
    + destruct Hfind as [[-> _]|[Hr Hend]]; [congruence|].
      replace (i - 0) with i in Hend by lia.
      assert (Hil : (Z.to_nat i < length occ)%nat) by lia.
      destruct (@rooms_inv_reuse t bs done occ nr b
                  (nth (Z.to_nat i) occ 0%nat) (store (Z.to_nat i) b occ))
        as [Hreuse Hord]; auto.
      { apply nth_In; assumption. }
      { apply store_perm; [apply (ri_nodup Hinv)|assumption]. }
      apply (@loop_step (is1_loop t) b rest bs done nr); auto.
      * apply sameButDepth_upd.
      * intros x Hx. rewrite get_upd_ne; auto.
      * lia.
      * intros y Hy. rewrite get_upd_depth by assumption.
        rewrite get_upd_ne by (intros ->; contradiction).
        apply Hord; assumption.
Qed.

Lemma is2_loop_post : loop_post (is2_loop (- t)).
Proof.
  unfold loop_post. induction rest as [|b rest IH];
    intros bs queue nr done bs' queue' nr' Hinv HS Hnd Hfresh Hrange Hsorted
      Hle Hmax; simpl.
  - intros [= <- <- <-]. exists done.
    split; [intros x; simpl; tauto|].
    split; [assumption|]. split; [apply sameButDepth_refl|].
    split; [reflexivity|]. split; [simpl; lia|]. intros x y _ [].
  - assert (Hbd : ~ In b done) by (apply Hfresh; left; reflexivity).
    assert (Hbl : (b < length bs)%nat) by (apply Hrange; left; reflexivity).
    assert (Hsb : forall x, In x done ->
                    startMin (get bs x) <= startMin (get bs b)).
    { intros x Hx. rewrite !HS. apply Hle; [assumption|left; reflexivity]. }
    destruct queue as [|q0 q].
    { pose proof (ri_len Hinv) as Hl. pose proof (ri_nr Hinv). simpl in Hl. lia. }
    destruct (pq_top_spec bs q q0) as [Htin Htmin].
    set (prev := pq_top bs q0 q) in *.
    destruct (Z.gtb_spec (endMin (get bs prev) + - t) (startMin (get bs b)))
      as [Hbusy|Hfree].
    + assert (Hopen : rooms_inv t (upd b (set_depth (nr + 1)) bs) (b :: done)
                        (b :: q0 :: q) (nr + 1)).
      { apply rooms_inv_open with (rooms := q0 :: q); auto.
        intros r Hr. specialize (Htmin r Hr). lia. }
      apply (@loop_step (is2_loop (- t)) b rest bs done nr); auto.
      * apply sameButDepth_upd.
      * intros x Hx. rewrite get_upd_ne; auto.
      * lia.
      * intros y Hy. rewrite get_upd_depth by assumption.
        rewrite get_upd_ne by (intros ->; contradiction).
        pose proof (ri_done Hinv y Hy). lia.
    + destruct (@rooms_inv_reuse t bs done (q0 :: q) nr b prev
                  (b :: pq_remove prev (q0 :: q)))
        as [Hreuse Hord]; auto.
      { lia. }
      apply (@loop_step (is2_loop (- t)) b rest bs done nr); auto.
      * apply sameButDepth_upd.
      * intros x Hx. rewrite get_upd_ne; auto.
      * lia.
      * intros y Hy. rewrite get_upd_depth by assumption.
        rewrite get_upd_ne by (intros ->; contradiction).
        apply Hord; assumption.
Qed.
End Loops.

(** *** The setup *)

Lemma setup_blocks_nth arr : forall s p d,
  (p < length arr)%nat ->
  nth p (map (fun ia => initBlock (fst ia) (snd ia))
             (combine (seq s (length arr)) arr)) nullBlock
  = initBlock (s + p) (nth p arr d).
Proof.
  induction arr as [|a arr IH]; intros s [|p] d H; simpl in *; try lia.
  - rewrite Nat.add_0_r. reflexivity.
  - rewrite IH with (d := d) by lia. f_equal. lia.
Qed.

Lemma length_setup arr : length (blocks (setup arr)) = length arr.
Proof.
  unfold setup; simpl. rewrite length_map, length_combine, length_seq. lia.
Qed.

Lemma get_setup arr p :
  (p < length arr)%nat ->
  get (blocks (setup arr)) p = initBlock p (nth p arr (mkInput 0 0)).
Proof. intros H. unfold get, setup; simpl. apply setup_blocks_nth; assumption. Qed.

Lemma depth_setup arr p : depth (get (blocks (setup arr)) p) = 0.
Proof.
  destruct (Nat.lt_ge_cases p (length arr)) as [H|H].
  - rewrite get_setup by assumption. reflexivity.
  - unfold get. rewrite nth_overflow; [reflexivity|].
    rewrite length_setup; assumption.
Qed.

Lemma seq_perm_lt n l x : Permutation l (seq 0 n) -> (In x l <-> (x < n)%nat).
Proof.
  intros H. split.
  - intros Hx. apply (Permutation_in _ H) in Hx. apply in_seq in Hx. lia.
  - intros Hx. apply (Permutation_in _ (Permutation_sym H)).
    apply in_seq. lia.
Qed.

(** *** The two partitioners establish the same facts *)

Section Partitioner.
Variable o : Options.
Variable t : Z.
Variable loop : list nat -> list ScheduleBlock -> list nat -> Z ->
                list ScheduleBlock * list nat * Z.
Hypothesis loop_post : forall (S0 : nat -> Z) rest bs rooms nr done bs' rooms' nr',
    rooms_inv t bs done rooms nr ->
    (forall p, startMin (get bs p) = S0 p) ->
    NoDup rest ->
    (forall x, In x rest -> ~ In x done) ->
    (forall x, In x rest -> (x < length bs)%nat) ->
    StronglySorted (fun p q => S0 p <= S0 q) rest ->
    (forall x y, In x done -> In y rest -> S0 x <= S0 y) ->
    nr + 1 + Z.of_nat (length rest) <= INT_MAX ->
    loop rest bs rooms nr = (bs', rooms', nr') ->
    exists done',
      (forall x, In x done' <-> In x done \/ In x rest) /\
      rooms_inv t bs' done' rooms' nr' /\
      sameButDepth bs bs' /\
      (forall x, ~ In x rest -> depth (get bs' x) = depth (get bs x)) /\
      nr' <= nr + Z.of_nat (length rest) /\
      (forall x y, In x done \/ before rest x y -> In y rest ->
         depth (get bs' x) = depth (get bs' y) ->
         endMin (get bs x) <= startMin (get bs y) + t).
Hypothesis t_room : roomTolerance o = t.

Lemma partitioner_post arr b0 rest bs rooms nr :
  Z.of_nat (length arr) <= INT_MAX ->
  blocksReordered (sortByStartTime (setup arr)) = b0 :: rest ->
  loop rest (blocks (setup arr)) [b0] 0 = (bs, rooms, nr) ->
  stage1_post o arr (with_blocks bs (sortByStartTime (setup arr))) (nr + 1).
Proof.
  intros Hmax Hord Hloop.
  pose proof (sortByStartTime_perm (setup arr)) as Hperm.
  pose proof (sortByStartTime_sorted (setup arr)) as Hsorted.
  rewrite Hord in Hperm, Hsorted. simpl blocksReordered in Hperm.
  assert (Hlen : length (b0 :: rest) = length arr).
  { rewrite (Permutation_length Hperm). apply length_seq. }
  assert (Hnd : NoDup (b0 :: rest)).
  { apply (Permutation_NoDup (Permutation_sym Hperm)), seq_NoDup. }
  apply NoDup_cons_iff in Hnd as Hnd0. destruct Hnd0 as [Hb0 Hnd'].
  apply StronglySorted_inv in Hsorted as Hs0. destruct Hs0 as [Hsorted' Hfa].
  rewrite Forall_forall in Hfa.
  apply loop_post
    with (S0 := fun p => startMin (get (blocks (setup arr)) p))
         (done := [b0]) in Hloop.
  - destruct Hloop as [done' [Hd [Hinv [Hsame [Hdp [Hnr Hordd]]]]]].
    assert (Hall : forall x, In x done' <-> (x < length arr)%nat).
    { intros x. rewrite Hd, <- (@seq_perm_lt _ _ x Hperm). simpl. tauto. }
    pose proof (ri_nr Hinv) as Hnr0.
    constructor; unfold with_blocks; cbn [blocks blocksReordered matrix].
    + exact Hsame.
    + reflexivity.
    + rewrite Hord. exact Hperm.
    + rewrite Hord.
      eapply StronglySorted_weaken; [|exact Hsorted].
      intros p q. cbv beta.
      rewrite !(sameButDepth_startMin _ Hsame). auto.
    + simpl length in Hlen. lia.
    + intros p Hp. apply Hall in Hp.
      pose proof (ri_done Hinv p Hp). lia.
    + rewrite Hord. simpl. rewrite Hdp by assumption. apply depth_setup.
    + intros p q Hp Hq. rewrite t_room.
      apply (ri_pair Hinv); apply Hall; assumption.
    + rewrite Hord, t_room. intros x y Hb E.
      rewrite (sameButDepth_endMin x Hsame), (sameButDepth_startMin y Hsame).
      apply Hordd; auto.
      * simpl in Hb. destruct Hb as [[<- _]|Hb]; simpl; auto.
      * simpl in Hb. destruct Hb as [[_ Hy]|Hb]; [assumption|].
        apply before_In in Hb. tauto.
    + rewrite t_room. intros Hlong.
      destruct (ri_clique Hinv) as [cl [Hn [Hi [Hl Hc]]]].
      * intros p Hp. apply Hlong, Hall, Hp.
      * exists cl. split; [|assumption].
        split; [assumption|]. split; [|assumption].
        intros p Hp. destruct Hsame as [-> _]. rewrite length_setup.
        apply Hall, Hi, Hp.
  - apply rooms_inv_init, depth_setup.
  - reflexivity.
  - assumption.
  - intros x Hx [<-|[]]. contradiction.
  - intros x Hx. rewrite length_setup, <- (@seq_perm_lt _ _ x Hperm).
    right; assumption.
  - assumption.
  - intros x y [<-|[]] Hy. apply Hfa; assumption.
  - simpl length in Hlen. lia.
Qed.
End Partitioner.

Lemma stage1_nonempty arr :
  arr <> [] ->
  exists b0 rest, blocksReordered (sortByStartTime (setup arr)) = b0 :: rest.
Proof.
  intros Hne.
  destruct (blocksReordered (sortByStartTime (setup arr))) as [|b0 rest] eqn:E.
  - pose proof (Permutation_length (sortByStartTime_perm (setup arr))) as H.
    rewrite E in H. simpl in H. rewrite length_seq in H.
    destruct arr; [congruence|discriminate].
  - eauto.
Qed.

(** STEP 1, with either method, on a non-empty input. *)
Lemma stage1_spec o arr :
  arr <> [] -> Z.of_nat (length arr) <= INT_MAX ->
  stage1_post o arr (fst (stage1 o arr)) (snd (stage1 o arr)).
Proof.
  intros Hne Hmax.
  destruct (stage1_nonempty Hne) as [b0 [rest Hord]].
  assert (Hn : (length (blocks (setup arr)) =? 0)%nat = false).
  { rewrite length_setup. destruct arr; [congruence|reflexivity]. }
  unfold stage1, roomTolerance.
  destruct (Z.eqb_spec (ISMethod o) 1) as [Hm|Hm].
  - unfold intervalScheduling. rewrite Hn, Hord.
    destruct (is1_loop (isTolerance o) rest (blocks (sortByStartTime (setup arr)))
                [b0] 0) as [[bs rooms] nr] eqn:Hloop.
    simpl fst; simpl snd.
    eapply partitioner_post with (t := isTolerance o); eauto.
    + intros S0. apply is1_loop_post.
    + unfold roomTolerance. rewrite (proj2 (Z.eqb_eq _ _) Hm). reflexivity.
  - unfold intervalScheduling2. rewrite Hn, Hord.
    destruct (is2_loop (isTolerance o) rest (blocks (sortByStartTime (setup arr)))
                [b0] 0) as [[bs rooms] nr] eqn:Hloop.
    simpl fst; simpl snd.
    eapply partitioner_post with (t := - isTolerance o); eauto.
    + intros S0. pose proof (@is2_loop_post (- isTolerance o) S0) as H.
      rewrite Z.opp_involutive in H. exact H.
    + unfold roomTolerance. rewrite (proj2 (Z.eqb_neq _ _) Hm). reflexivity.
Qed.

Lemma stage1_empty o : stage1 o [] = (setup [], 0).
Proof. unfold stage1. destruct (ISMethod o =? 1); reflexivity. Qed.

Example stage1_staircase :
  map depth (blocks (fst (stage1 defaultOptions staircase))) = [0; 1; 0] /\
  snd (stage1 defaultOptions staircase) = 2.
Proof. split; reflexivity. Qed.

Example stage1_method2 :
  map depth (blocks (fst (stage1 (withMethod 2 defaultOptions)
     (mkInputs [(0,10); (0,10); (0,10); (0,5); (20,30); (25,100); (40,50)]))))
  = [0; 1; 2; 3; 3; 0; 1].
Proof. reflexivity. Qed.

(** *** Cliques *)

Lemma conflict_not_disjoint t bs p q :
  conflict t bs p q -> ~ disjoint_t t bs p q.
Proof.
  unfold conflict, conflictb, disjoint_t. intros H%Z.ltb_lt. lia.
Qed.

Lemma is_clique_sameButDepth t bs bs' cl :
  sameButDepth bs bs' -> is_clique t bs cl -> is_clique t bs' cl.
Proof.
  intros Hs [Hn [Hr Hc]]. split; [assumption|]. split.
  - intros p Hp. destruct Hs as [-> _]. auto.
  - intros p q Hp Hq Hne.
    apply conflict_startMin_endMin with (bs := bs); auto.
    + intros x. apply sameButDepth_startMin; assumption.
    + intros x. apply sameButDepth_endMin; assumption.
Qed.

Lemma sameButDepth_sym bs bs' : sameButDepth bs bs' -> sameButDepth bs' bs.
Proof. intros [L H]. split; [congruence|]. intros p. symmetry. apply H. Qed.

Lemma max_clique_size_unique t bs bs' n m :
  sameButDepth bs bs' ->
  max_clique_size t bs n -> max_clique_size t bs' m -> n = m.
Proof.
  intros Hs [[c1 [Hc1 Hl1]] Hu1] [[c2 [Hc2 Hl2]] Hu2].
  pose proof (Hu2 c1 (is_clique_sameButDepth Hs Hc1)).
  pose proof (Hu1 c2 (is_clique_sameButDepth (sameButDepth_sym Hs) Hc2)).
  lia.
Qed.

Lemma NoDup_map_on {A B : Type} (f : A -> B) l :
  (forall x y, In x l -> In y l -> f x = f y -> x = y) ->
  NoDup l -> NoDup (map f l).
Proof.
  intros Hinj. induction 1 as [|x l Hx Hl IH]; simpl; constructor.
  - intros Hin. apply in_map_iff in Hin. destruct Hin as [y [Hy Hin]].
    assert (y = x) by (apply Hinj; simpl; auto). subst. contradiction.
  - apply IH. intros a b Ha Hb. apply Hinj; simpl; auto.
Qed.

(** blocks with pairwise different depths below [total] are at most
    [total] many *)
Lemma distinct_depths_bound bs total cl :
  NoDup cl ->
  (forall p, In p cl -> 0 <= depth (get bs p) < total) ->
  (forall p q, In p cl -> In q cl -> p <> q ->
     depth (get bs p) <> depth (get bs q)) ->
  Z.of_nat (length cl) <= Z.max 0 total.
Proof.
  intros Hn Hr Hd.
  assert (H : (length (map (fun p => Z.to_nat (depth (get bs p))) cl)
               <= length (seq 0 (Z.to_nat total)))%nat).
  { apply NoDup_incl_length.
    - apply NoDup_map_on; [|assumption].
      intros x y Hx Hy E.
      destruct (Nat.eq_dec x y) as [|Hne]; [assumption|].
      exfalso. apply (Hd x y Hx Hy Hne).
      pose proof (Hr x Hx). pose proof (Hr y Hy). lia.
    - intros d Hin. apply in_map_iff in Hin. destruct Hin as [p [<- Hp]].
      apply in_seq. pose proof (Hr p Hp). lia. }
  rewrite length_map, length_seq in H. lia.
Qed.

Lemma setup_times arr p :
  (p < length arr)%nat ->
  startMin (get (blocks (setup arr)) p) = in_startMin (nth p arr (mkInput 0 0)) /\
  endMin (get (blocks (setup arr)) p) = in_endMin (nth p arr (mkInput 0 0)).
Proof. intros H. rewrite get_setup by assumption. split; reflexivity. Qed.

(** The room count of S1 is the size of a largest set of blocks that
    pairwise overlap by more than the room tolerance, provided every
    block is longer than that tolerance. *)
Lemma stage1_max_clique o arr :
  Z.of_nat (length arr) <= INT_MAX ->
  Forall (fun a => in_startMin a + roomTolerance o < in_endMin a) arr ->
  max_clique_size (roomTolerance o) (blocks (fst (stage1 o arr)))
    (snd (stage1 o arr)).
Proof.
  intros Hmax Hlong. destruct arr as [|a0 arr0].
  - rewrite stage1_empty. split.
    + exists []. split; [|reflexivity].
      split; [constructor|]. split; [intros p []|intros p q []].
    + intros cl [_ [Hr _]]. destruct cl as [|p cl]; [simpl; lia|].
      specialize (Hr p (or_introl eq_refl)). simpl in Hr. lia.
  - set (arr := a0 :: arr0) in *.
    assert (Hne : arr <> []) by discriminate.
    pose proof (stage1_spec o Hne Hmax) as P.
    set (st := fst (stage1 o arr)) in *. set (total := snd (stage1 o arr)) in *.
    split.
    + apply (s1_clique P). intros p Hp.
      rewrite (sameButDepth_startMin _ (s1_same P)),
              (sameButDepth_endMin _ (s1_same P)).
      destruct (setup_times arr Hp) as [-> ->].
      rewrite Forall_forall in Hlong. apply Hlong, nth_In, Hp.
    + intros cl [Hn [Hr Hc]].
      assert (Hr' : forall p, In p cl -> (p < length arr)%nat).
      { intros p Hp. specialize (Hr p Hp).
        destruct (s1_same P) as [L _]. rewrite L, length_setup in Hr. exact Hr. }
      pose proof (s1_total P).
      replace total with (Z.max 0 total) by lia.
      apply distinct_depths_bound with (bs := blocks st); auto.
      * intros p Hp. apply (s1_depth P), Hr', Hp.
      * intros p q Hp Hq Hne' E.
        apply (conflict_not_disjoint (Hc p q Hp Hq Hne')).
        apply (s1_pair P); auto.
Qed.

(** *** Claims about S1 *)

Lemma stage1_same o arr :
  Z.of_nat (length arr) <= INT_MAX ->
  sameButDepth (blocks (setup arr)) (blocks (fst (stage1 o arr))).
Proof.
  intros Hmax. destruct arr as [|a arr].
  - rewrite stage1_empty. apply sameButDepth_refl.
  - apply (s1_same (stage1_spec o (ltac:(discriminate) : a :: arr <> []) Hmax)).
Qed.

Lemma roomTolerance_zero o : isTolerance o = 0 -> roomTolerance o = 0.
Proof. unfold roomTolerance. intros ->. destruct (ISMethod o =? 1); reflexivity. Qed.




(** C3 (amended). When [isTolerance = 0] and [dfsTolerance = 0], for every
    valid input and for both method selectors the room count returned by
    stage S1 equals the maximum clique size of the conflict graph, and
    every method selector returns the same count. *)
Theorem C3_room_count o arr :
  valid_input arr -> isTolerance o = 0 -> dfsTolerance o = 0 ->
  max_clique_size (dfsTolerance o) (blocks (fst (stage1 o arr)))
    (snd (stage1 o arr)) /\
  (forall o', isTolerance o' = 0 ->
     snd (stage1 o' arr) = snd (stage1 o arr)).
Proof.
  intros [Hvalid Hmax] Hi Hd.
  assert (Hcl : forall o1, isTolerance o1 = 0 ->
            max_clique_size 0 (blocks (fst (stage1 o1 arr)))
              (snd (stage1 o1 arr))).
  { intros o1 H1. rewrite <- (roomTolerance_zero o1 H1).
    apply stage1_max_clique; [assumption|].
    rewrite (roomTolerance_zero o1 H1).
    eapply Forall_impl; [|exact Hvalid]. intros a Ha. simpl in Ha. lia. }
  split.
  - rewrite Hd. apply Hcl; assumption.
  - intros o' Hi'.
    eapply max_clique_size_unique; [|apply Hcl; assumption|apply Hcl; assumption].
    eapply sameButDepth_trans;
      [apply sameButDepth_sym, stage1_same; assumption
      |apply stage1_same; assumption].
Qed.

Lemma C3_room_count_witness :
  (valid_input staircase /\ isTolerance defaultOptions = 0 /\
   dfsTolerance defaultOptions = 0) /\
  (max_clique_size (dfsTolerance defaultOptions)
     (blocks (fst (stage1 defaultOptions staircase)))
     (snd (stage1 defaultOptions staircase)) /\
   (forall o', isTolerance o' = 0 ->
      snd (stage1 o' staircase) = snd (stage1 defaultOptions staircase))).
Proof.
  assert (H1 : valid_input staircase).
  { split; [|vm_compute; discriminate].
    repeat constructor. }
  split; [split; [assumption|split; reflexivity]|].
  exact (@C3_room_count defaultOptions staircase H1 eq_refl eq_refl).
Defined.

(** With [isTolerance = 5] and [dfsTolerance = 0], the blocks [0,60) and
    [58,100) conflict, yet Method 1 puts them in one room; Method 2 uses
    two rooms on the same input. *)
Lemma C3_tolerance_counterexample :
  ~ max_clique_size (dfsTolerance tolerantOptions)
      (blocks (fst (stage1 tolerantOptions nearlyDisjoint)))
      (snd (stage1 tolerantOptions nearlyDisjoint)) /\
  snd (stage1 (withMethod 2 tolerantOptions) nearlyDisjoint)
    <> snd (stage1 tolerantOptions nearlyDisjoint).
Proof.
  split.
  - intros [_ Hub].
    specialize (Hub [0%nat; 1%nat]). vm_compute in Hub.
    apply Hub; [|reflexivity].
    split; [repeat constructor; simpl; intuition congruence|].
    split.
    + intros p [<-|[<-|[]]]; repeat constructor.
    + intros p q [<-|[<-|[]]] [<-|[<-|[]]] Hne; congruence.
  - vm_compute. discriminate.
Qed.

(** ** S2: the conflict graph *)

Lemma length_store {A : Type} i (x : A) l : length (store i x l) = length l.
Proof. revert i; induction l as [|y l IH]; intros [|i]; simpl; auto. Qed.

Lemma nth_store_eq {A : Type} i (x d : A) l :
  (i < length l)%nat -> nth i (store i x l) d = x.
Proof.
  revert i; induction l as [|y l IH]; intros [|i] H; simpl in *; try lia; auto.
  apply IH; lia.
Qed.

Lemma nth_store_ne {A : Type} i j (x d : A) l :
  i <> j -> nth j (store i x l) d = nth j l d.
Proof.
  revert i j; induction l as [|y l IH]; intros [|i] [|j] H; simpl; auto;
    try congruence.
Qed.

Lemma flat_index_inj n a b i j :
  (b < n)%nat -> (j < n)%nat -> (a * n + b = i * n + j)%nat -> a = i /\ b = j.
Proof.
  intros Hb Hj E. apply (Nat.div_mod_unique n); auto.
  rewrite !(Nat.mul_comm n). exact E.
Qed.

Lemma matGet_matSet m n i j a b :
  length m = (n * n)%nat ->
  (i < n)%nat -> (j < n)%nat -> (a < n)%nat -> (b < n)%nat ->
  (matGet (matSet m n i j) n a b = true <->
   (a = i /\ b = j) \/ matGet m n a b = true).
Proof.
  intros Hl Hi Hj Ha Hb. unfold matGet, matSet.
  destruct (Nat.eq_dec (i * n + j) (a * n + b)) as [E|E].
  - rewrite <- E, nth_store_eq by nia.
    apply flat_index_inj in E; auto. intuition.
  - rewrite nth_store_ne by assumption.
    split; [auto|]. intros [[-> ->]|H]; [congruence|assumption].
Qed.

Lemma length_matSet m n i j : length (matSet m n i j) = length m.
Proof. apply length_store. Qed.

(** *** Frames *)

Lemma sameUpTo_refl erase bs : sameUpTo erase bs bs.
Proof. split; auto. Qed.

Lemma sameUpTo_trans erase bs1 bs2 bs3 :
  sameUpTo erase bs1 bs2 -> sameUpTo erase bs2 bs3 -> sameUpTo erase bs1 bs3.
Proof.
  intros [L1 H1] [L2 H2]; split; [congruence|].
  intros p. rewrite H2. apply H1.
Qed.

Lemma sameUpTo_sym erase bs1 bs2 :
  sameUpTo erase bs1 bs2 -> sameUpTo erase bs2 bs1.
Proof. intros [L H]. split; [congruence|]. intros p. symmetry. apply H. Qed.

Lemma sameUpTo_upd erase p f bs :
  (forall b, erase (f b) = erase b) -> sameUpTo erase bs (upd p f bs).
Proof.
  intros Hf. split; [apply length_upd|].
  intros q. apply (get_upd_field erase). assumption.
Qed.

Lemma sameUpTo_field {A : Type} (g : ScheduleBlock -> A) erase bs bs' p :
  (forall b, g (erase b) = g b) ->
  sameUpTo erase bs bs' -> g (get bs' p) = g (get bs p).
Proof.
  intros Hg [_ H]. rewrite <- (Hg (get bs' p)), <- (Hg (get bs p)), H.
  reflexivity.
Qed.

Lemma sameUpTo_length erase bs bs' :
  sameUpTo erase bs bs' -> length bs' = length bs.
Proof. intros [L _]. exact L. Qed.

Ltac adj_fields H :=
  repeat first
    [ rewrite (sameUpTo_field startMin (erase := eraseAdj) _ (fun b => eq_refl) H)
    | rewrite (sameUpTo_field endMin (erase := eraseAdj) _ (fun b => eq_refl) H)
    | rewrite (sameUpTo_field depth (erase := eraseAdj) _ (fun b => eq_refl) H)
    | rewrite (sameUpTo_field idx (erase := eraseAdj) _ (fun b => eq_refl) H) ].

Lemma In_leftN_upd_push p x bs a j :
  (p < length bs)%nat ->
  (In j (leftN (get (upd p (push_leftN x) bs) a)) <->
   In j (leftN (get bs a)) \/ (a = p /\ j = x)).
Proof.
  intros Hp. destruct (Nat.eq_dec p a) as [->|Hne].
  - rewrite get_upd_eq by assumption. simpl. rewrite in_app_iff. simpl.
    intuition.
  - rewrite get_upd_ne by assumption. intuition congruence.
Qed.

Lemma In_rightN_upd_push p x bs a j :
  (p < length bs)%nat ->
  (In j (rightN (get (upd p (push_rightN x) bs) a)) <->
   In j (rightN (get bs a)) \/ (a = p /\ j = x)).
Proof.
  intros Hp. destruct (Nat.eq_dec p a) as [->|Hne].
  - rewrite get_upd_eq by assumption. simpl. rewrite in_app_iff. simpl.
    intuition.
  - rewrite get_upd_ne by assumption. intuition congruence.
Qed.

Lemma leftN_upd_push_rightN p x bs a :
  leftN (get (upd p (push_rightN x) bs) a) = leftN (get bs a).
Proof. apply get_upd_field. reflexivity. Qed.

Lemma rightN_upd_push_leftN p x bs a :
  rightN (get (upd p (push_leftN x) bs) a) = rightN (get bs a).
Proof. apply get_upd_field. reflexivity. Qed.

(** *** The scan *)

Section Scan.
Variable tol : Z.
Variable n : nat.
Variable bs0 : list ScheduleBlock.
Hypothesis idx_ok : forall p, (p < n)%nat -> idx (get bs0 p) = p.
Hypothesis n_len : n = length bs0.

Lemma newEdge_nil bi a j : ~ newEdge tol bs0 bi [] a j.
Proof. unfold newEdge. simpl. tauto. Qed.

Lemma newEdge_break bi bj js a j :
  StronglySorted
    (fun p q => startMin (get bs0 p) <= startMin (get bs0 q)) (bj :: js) ->
  endMin (get bs0 bi) <= startMin (get bs0 bj) + tol ->
  ~ newEdge tol bs0 bi (bj :: js) a j.
Proof.
  intros Hs Hb. apply StronglySorted_inv in Hs. destruct Hs as [_ Hfa].
  rewrite Forall_forall in Hfa.
  assert (Hall : forall y, In y (bj :: js) ->
            endMin (get bs0 bi) <= startMin (get bs0 y) + tol).
  { intros y [<-|Hy]; [assumption|]. specialize (Hfa y Hy). lia. }
  unfold newEdge. intros [[_ [Hin [Hlt _]]]|[_ [Hin [Hlt _]]]];
    specialize (Hall _ Hin); lia.
Qed.

Lemma newEdge_cons_right bi bj js a j :
  startMin (get bs0 bj) + tol < endMin (get bs0 bi) ->
  depth (get bs0 bi) < depth (get bs0 bj) ->
  (newEdge tol bs0 bi (bj :: js) a j <->
   (a = bj /\ j = bi) \/ newEdge tol bs0 bi js a j).
Proof.
  intros Hc Hd. unfold newEdge. simpl. split.
  - intros [[-> [[<-|Hj] [H1 H2]]]|[-> [[<-|Ha] [H1 H2]]]]; try lia; auto 10.
  - intros [[-> ->]|[[-> [Hj H]]|[-> [Ha H]]]]; auto 10.
Qed.

Lemma newEdge_cons_left bi bj js a j :
  startMin (get bs0 bj) + tol < endMin (get bs0 bi) ->
  depth (get bs0 bj) <= depth (get bs0 bi) ->
  (newEdge tol bs0 bi (bj :: js) a j <->
   (a = bi /\ j = bj) \/ newEdge tol bs0 bi js a j).
Proof.
  intros Hc Hd. unfold newEdge. simpl. split.
  - intros [[-> [[<-|Hj] [H1 H2]]]|[-> [[<-|Ha] [H1 H2]]]]; try lia; auto 10.
  - intros [[-> ->]|[[-> [Hj H]]|[-> [Ha H]]]]; auto 10.
Qed.

Lemma adjInner_spec bi :
  (bi < n)%nat ->
  forall js,
  (forall y, In y js -> (y < n)%nat) ->
  StronglySorted
    (fun p q => startMin (get bs0 p) <= startMin (get bs0 q)) js ->
  forall bs m bs' m',
  sameUpTo eraseAdj bs0 bs -> length m = (n * n)%nat ->
  adjInner tol n bi js bs m = (bs', m') ->
  sameUpTo eraseAdj bs0 bs' /\ length m' = (n * n)%nat /\
  (forall a j, In j (leftN (get bs' a)) <->
     In j (leftN (get bs a)) \/ newEdge tol bs0 bi js a j) /\
  (forall a j, In j (rightN (get bs' a)) <->
     In j (rightN (get bs a)) \/ newEdge tol bs0 bi js j a) /\
  (forall a j, (a < n)%nat -> (j < n)%nat ->
     (matGet m' n a j = true <->
      matGet m n a j = true \/ newEdge tol bs0 bi js a j)).
Proof.
  intros Hbi. induction js as [|bj js IH]; intros Hr Hs bs m bs' m' Hsame Hm;
    simpl.
  - intros [= <- <-]. pose proof newEdge_nil. repeat split; auto; firstorder.
  - assert (Hbj : (bj < n)%nat) by (apply Hr; left; reflexivity).
    assert (Hlen : length bs = n) by (rewrite n_len; apply Hsame).
    adj_fields Hsame. rewrite !idx_ok by assumption.
    destruct (Z.geb_spec (startMin (get bs0 bj) + tol) (endMin (get bs0 bi)))
      as [Hbreak|Hcont].
    + intros [= <- <-].
      assert (Hno : forall a j, ~ newEdge tol bs0 bi (bj :: js) a j).
      { intros a j. apply newEdge_break; [assumption|lia]. }
      repeat split; auto; firstorder.
    + apply StronglySorted_inv in Hs as Hs'. destruct Hs' as [Hs' _].
      assert (Hr' : forall y, In y js -> (y < n)%nat)
        by (intros y Hy; apply Hr; right; assumption).
      destruct (Z.ltb_spec (depth (get bs0 bi)) (depth (get bs0 bj)))
        as [Hd|Hd]; intros Hrec; apply (IH Hr' Hs') in Hrec.
      * destruct Hrec as [Hsame' [Hm' [HL [HR HM]]]].
        split; [assumption|]. split; [assumption|].
        pose proof (fun a j => @newEdge_cons_right bi bj js a j Hcont Hd) as Hne.
        split; [|split].
        -- intros a j. rewrite HL, Hne, leftN_upd_push_rightN,
             In_leftN_upd_push by lia. tauto.
        -- intros a j. rewrite HR, Hne, In_rightN_upd_push,
             rightN_upd_push_leftN by (rewrite length_upd; lia). tauto.
        -- intros a j Ha Hj. rewrite HM, Hne, matGet_matSet by assumption.
           tauto.
      * eapply sameUpTo_trans; [exact Hsame|].
        eapply sameUpTo_trans; apply sameUpTo_upd; reflexivity.
      * rewrite length_matSet; assumption.
      * destruct Hrec as [Hsame' [Hm' [HL [HR HM]]]].
        split; [assumption|]. split; [assumption|].
        pose proof (fun a j => @newEdge_cons_left bi bj js a j Hcont Hd) as Hne.
        split; [|split].
        -- intros a j. rewrite HL, Hne, In_leftN_upd_push,
             leftN_upd_push_rightN by (rewrite length_upd; lia). tauto.
        -- intros a j. rewrite HR, Hne, rightN_upd_push_leftN,
             In_rightN_upd_push by lia. tauto.
        -- intros a j Ha Hj. rewrite HM, Hne, matGet_matSet by assumption.
           tauto.
      * eapply sameUpTo_trans; [exact Hsame|].
        eapply sameUpTo_trans; apply sameUpTo_upd; reflexivity.
      * rewrite length_matSet; assumption.
Qed.

Lemma adjEdge_cons bi rest a j :
  adjEdge tol bs0 (bi :: rest) a j <->
  newEdge tol bs0 bi rest a j \/ adjEdge tol bs0 rest a j.
Proof.
  unfold adjEdge, newEdge. simpl. split.
  - intros [[[[-> Hin]|Hb] [H1 H2]]|[[[-> Hin]|Hb] [H1 H2]]]; auto 10.
  - intros [[[-> [Hin [H1 H2]]]|[-> [Hin [H1 H2]]]]
           |[[Hb [H1 H2]]|[Hb [H1 H2]]]]; auto 10.
Qed.

Lemma adjOuter_spec :
  forall ord,
  (forall y, In y ord -> (y < n)%nat) ->
  StronglySorted
    (fun p q => startMin (get bs0 p) <= startMin (get bs0 q)) ord ->
  forall bs m bs' m',
  sameUpTo eraseAdj bs0 bs -> length m = (n * n)%nat ->
  adjOuter tol n ord bs m = (bs', m') ->
  sameUpTo eraseAdj bs0 bs' /\ length m' = (n * n)%nat /\
  (forall a j, In j (leftN (get bs' a)) <->
     In j (leftN (get bs a)) \/ adjEdge tol bs0 ord a j) /\
  (forall a j, In j (rightN (get bs' a)) <->
     In j (rightN (get bs a)) \/ adjEdge tol bs0 ord j a) /\
  (forall a j, (a < n)%nat -> (j < n)%nat ->
     (matGet m' n a j = true <->
      matGet m n a j = true \/ adjEdge tol bs0 ord a j)).
Proof.
  induction ord as [|bi rest IH]; intros Hr Hs bs m bs' m' Hsame Hm; simpl.
  - intros [= <- <-]. unfold adjEdge. simpl.
    split; [assumption|]. split; [assumption|].
    split; [|split]; intros; tauto.
  - destruct (adjInner tol n bi rest bs m) as [bs1 m1] eqn:E1.
    apply StronglySorted_inv in Hs. destruct Hs as [Hs _].
    assert (Hbi : (bi < n)%nat) by (apply Hr; left; reflexivity).
    assert (Hr' : forall y, In y rest -> (y < n)%nat)
      by (intros y Hy; apply Hr; right; assumption).
    apply (@adjInner_spec bi Hbi rest Hr' Hs bs m bs1 m1 Hsame Hm) in E1.
    destruct E1 as [Hsame1 [Hm1 [HL1 [HR1 HM1]]]].
    intros E2. apply (IH Hr' Hs bs1 m1 bs' m' Hsame1 Hm1) in E2.
    destruct E2 as [Hsame2 [Hm2 [HL2 [HR2 HM2]]]].
    split; [assumption|]. split; [assumption|]. split; [|split].
    + intros a j. rewrite HL2, HL1, adjEdge_cons. tauto.
    + intros a j. rewrite HR2, HR1, adjEdge_cons. tauto.
    + intros a j Ha Hj. rewrite HM2, HM1, adjEdge_cons by assumption. tauto.
Qed.
End Scan.

(** *** STEP 2 after STEP 1 *)

Lemma is1_loop_same t rest : forall bs occ nr,
  sameButDepth bs (fst (fst (is1_loop t rest bs occ nr))).
Proof.
  induction rest as [|b rest IH]; intros bs occ nr; simpl.
  - apply sameButDepth_refl.
  - destruct (fst (findRoom bs t b occ 0 (-1) INT_MAX) =? -1);
      (eapply sameButDepth_trans; [apply sameButDepth_upd|apply IH]).
Qed.

Lemma is2_loop_same t rest : forall bs q nr,
  sameButDepth bs (fst (fst (is2_loop t rest bs q nr))).
Proof.
  induction rest as [|b rest IH]; intros bs q nr; simpl.
  - apply sameButDepth_refl.
  - destruct q as [|q0 q]; [apply sameButDepth_refl|].
    destruct (endMin (get bs (pq_top bs q0 q)) + t >? startMin (get bs b));
      (eapply sameButDepth_trans; [apply sameButDepth_upd|apply IH]).
Qed.

(** The part of STEP 1 that does not depend on the room assignment. *)
Lemma stage1_frame o arr :
  sameButDepth (blocks (setup arr)) (blocks (fst (stage1 o arr))) /\
  matrix (fst (stage1 o arr)) = matrix (setup arr) /\
  Permutation (blocksReordered (fst (stage1 o arr))) (seq 0 (length arr)) /\
  StronglySorted
    (fun p q => startMin (get (blocks (setup arr)) p)
                <= startMin (get (blocks (setup arr)) q))
    (blocksReordered (fst (stage1 o arr))).
Proof.
  destruct arr as [|a0 arr0].
  - rewrite stage1_empty. simpl. repeat split; auto; constructor.
  - set (arr := a0 :: arr0).
    destruct (@stage1_nonempty arr ltac:(discriminate)) as [b0 [rest Hord]].
    assert (Hn : (length (blocks (setup arr)) =? 0)%nat = false)
      by (rewrite length_setup; reflexivity).
    pose proof (sortByStartTime_perm (setup arr)) as Hperm.
    pose proof (sortByStartTime_sorted (setup arr)) as Hsorted.
    rewrite Hord in Hperm, Hsorted.
    unfold stage1.
    destruct (ISMethod o =? 1).
    + unfold intervalScheduling. rewrite Hn, Hord.
      pose proof (is1_loop_same (isTolerance o) rest
                    (blocks (sortByStartTime (setup arr))) [b0] 0) as Hs.
      destruct (is1_loop (isTolerance o) rest
                  (blocks (sortByStartTime (setup arr))) [b0] 0)
        as [[bs rooms] nr].
      unfold with_blocks; cbn [fst snd blocks blocksReordered matrix] in *.
      rewrite Hord. auto.
    + unfold intervalScheduling2. rewrite Hn, Hord.
      pose proof (is2_loop_same (isTolerance o) rest
                    (blocks (sortByStartTime (setup arr))) [b0] 0) as Hs.
      destruct (is2_loop (isTolerance o) rest
                  (blocks (sortByStartTime (setup arr))) [b0] 0)
        as [[bs rooms] nr].
      unfold with_blocks; cbn [fst snd blocks blocksReordered matrix] in *.
      rewrite Hord. auto.
Qed.

Lemma setup_fields arr p :
  idx (get (blocks (setup arr)) p) = (if (p <? length arr)%nat then p else O) /\
  leftN (get (blocks (setup arr)) p) = [] /\
  rightN (get (blocks (setup arr)) p) = [] /\
  cleftN (get (blocks (setup arr)) p) = [] /\
  crightN (get (blocks (setup arr)) p) = [] /\
  visited (get (blocks (setup arr)) p) = false /\
  isFixed (get (blocks (setup arr)) p) = false.
Proof.
  destruct (Nat.ltb_spec p (length arr)) as [H|H].
  - rewrite get_setup by assumption. simpl. auto 10.
  - unfold get. rewrite nth_overflow by (rewrite length_setup; assumption).
    simpl. auto 10.
Qed.

Lemma matGet_repeat k n i j : matGet (repeat false k) n i j = false.
Proof.
  unfold matGet.
  destruct (Nat.lt_ge_cases (i * n + j) k) as [H|H].
  - apply nth_repeat_lt; assumption.
  - apply nth_overflow. rewrite repeat_length; assumption.
Qed.

Lemma stage1_length o arr :
  length (blocks (fst (stage1 o arr))) = length arr.
Proof.
  destruct (stage1_frame o arr) as [[L _] _]. rewrite L. apply length_setup.
Qed.

Lemma stage1_idx o arr p :
  (p < length arr)%nat -> idx (get (blocks (fst (stage1 o arr))) p) = p.
Proof.
  intros Hp. destruct (stage1_frame o arr) as [Hs _].
  rewrite (sameUpTo_field idx (erase := set_depth 0) _ (fun b => eq_refl) Hs).
  destruct (setup_fields arr p) as [-> _].
  apply Nat.ltb_lt in Hp. rewrite Hp. reflexivity.
Qed.

Lemma stage1_sorted o arr :
  StronglySorted
    (fun p q => startMin (get (blocks (fst (stage1 o arr))) p)
                <= startMin (get (blocks (fst (stage1 o arr))) q))
    (blocksReordered (fst (stage1 o arr))).
Proof.
  destruct (stage1_frame o arr) as [Hs [_ [_ Hsorted]]].
  eapply StronglySorted_weaken; [|exact Hsorted].
  intros p q. cbv beta. rewrite !(sameButDepth_startMin _ Hs). auto.
Qed.

Lemma stage1_order_range o arr y :
  In y (blocksReordered (fst (stage1 o arr))) <-> (y < length arr)%nat.
Proof.
  destruct (stage1_frame o arr) as [_ [_ [Hperm _]]].
  apply seq_perm_lt; assumption.
Qed.

Lemma stage2_spec o arr :
  stage2_post (dfsTolerance o) (fst (stage1 o arr)) (stage2 o arr).
Proof.
  destruct (stage1_frame o arr) as [Hs [Hmat [Hperm Hsorted]]].
  set (st1 := fst (stage1 o arr)) in *.
  unfold stage2, constructAdjList. fold st1.
  destruct (adjOuter (dfsTolerance o) (length (blocks st1))
              (blocksReordered st1) (blocks st1) (matrix st1))
    as [bs m] eqn:E.
  assert (Hlen : length (blocks st1) = length arr) by apply stage1_length.
  apply adjOuter_spec with (bs0 := blocks st1) in E.
  - destruct E as [Hsame [Hm [HL [HR HM]]]].
    assert (Hnil : forall a, leftN (get (blocks st1) a) = [] /\
                             rightN (get (blocks st1) a) = []).
    { intros a.
      rewrite (sameUpTo_field leftN (erase := set_depth 0) _ (fun b => eq_refl) Hs),
        (sameUpTo_field rightN (erase := set_depth 0) _ (fun b => eq_refl) Hs).
      destruct (setup_fields arr a) as [_ [-> [-> _]]]. auto. }
    constructor; cbn [blocks blocksReordered matrix].
    + exact Hsame.
    + reflexivity.
    + exact Hm.
    + intros a j. rewrite HL. destruct (Hnil a) as [-> _]. simpl. tauto.
    + intros a j. rewrite HR. destruct (Hnil a) as [_ ->]. simpl. tauto.
    + intros a j Ha Hj. rewrite HM by assumption.
      rewrite Hmat. unfold setup; cbn [matrix]. rewrite matGet_repeat.
      intuition discriminate.
  - intros p Hp. rewrite Hlen in Hp. apply stage1_idx; assumption.
  - reflexivity.
  - intros y Hy. rewrite Hlen. apply (stage1_order_range o arr y), Hy.
  - apply stage1_sorted.
  - apply sameUpTo_refl.
  - rewrite Hmat. unfold setup; cbn [matrix]. rewrite repeat_length, Hlen.
    reflexivity.
Qed.

(** ** S3: the condensed lists *)

Lemma existsb_false_iff {A : Type} (f : A -> bool) l :
  existsb f l = false <-> forall x, In x l -> f x = false.
Proof.
  induction l as [|y l IH]; simpl.
  - split; [intros _ x []|reflexivity].
  - rewrite orb_false_iff, IH. split.
    + intros [Hy Hl] x [<-|Hx]; auto.
    + intros H. split; [apply H; auto|intros x Hx; apply H; auto].
Qed.

Lemma condenseLeft_spec m n bs all vs : forall b,
  eraseCond (condenseLeft m n bs all vs b) = eraseCond b /\
  crightN (condenseLeft m n bs all vs b) = crightN b /\
  forall v, In v (cleftN (condenseLeft m n bs all vs b)) <->
    In v (cleftN b) \/
    (In v vs /\ forall w, In w all ->
       matGet m n (idx (get bs w)) (idx (get bs v)) = false).
Proof.
  induction vs as [|v1 vs IH]; intros b; simpl.
  - repeat split; auto. tauto.
  - destruct (existsb (fun v => matGet m n (idx (get bs v)) (idx (get bs v1)))
                all) eqn:E.
    + destruct (IH b) as [H1 [H2 H3]]. repeat split; auto.
      * intros Hv. apply H3 in Hv. tauto.
      * intros [Hv|[[<-|Hv] Hw]]; apply H3; auto.
        apply existsb_false_iff in Hw. congruence.
    + destruct (IH (push_cleftN v1 b)) as [H1 [H2 H3]].
      rewrite existsb_false_iff in E. repeat split; auto.
      * intros Hv. apply H3 in Hv. simpl in Hv. rewrite in_app_iff in Hv.
        simpl in Hv. destruct Hv as [[Hv|[<-|[]]]|[Hv Hw]]; auto.
      * intros Hv. apply H3. simpl. rewrite in_app_iff. simpl.
        destruct Hv as [Hv|[[<-|Hv] Hw]]; auto.
Qed.

Lemma condenseRight_spec m n bs all vs : forall b,
  eraseCond (condenseRight m n bs all vs b) = eraseCond b /\
  cleftN (condenseRight m n bs all vs b) = cleftN b /\
  forall v, In v (crightN (condenseRight m n bs all vs b)) <->
    In v (crightN b) \/
    (In v vs /\ forall w, In w all ->
       matGet m n (idx (get bs v)) (idx (get bs w)) = false).
Proof.
  induction vs as [|v1 vs IH]; intros b; simpl.
  - repeat split; auto. tauto.
  - destruct (existsb (fun v => matGet m n (idx (get bs v1)) (idx (get bs v)))
                all) eqn:E.
    + destruct (IH b) as [H1 [H2 H3]]. repeat split; auto.
      * intros Hv. apply H3 in Hv. tauto.
      * intros [Hv|[[<-|Hv] Hw]]; apply H3; auto.
        apply existsb_false_iff in Hw. congruence.
    + destruct (IH (push_crightN v1 b)) as [H1 [H2 H3]].
      rewrite existsb_false_iff in E. repeat split; auto.
      * intros Hv. apply H3 in Hv. simpl in Hv. rewrite in_app_iff in Hv.
        simpl in Hv. destruct Hv as [[Hv|[<-|[]]]|[Hv Hw]]; auto.
      * intros Hv. apply H3. simpl. rewrite in_app_iff. simpl.
        destruct Hv as [Hv|[[<-|Hv] Hw]]; auto.
Qed.

Section Condense.
Variable m : list bool.
Variable n : nat.
Variable bs0 : list ScheduleBlock.

(** the condensed lists of [b'] are those computed from the block [b] *)
Let condensed (b b' : ScheduleBlock) : Prop :=
(forall v, In v (cleftN b') <->
   In v (cleftN b) \/
   (In v (leftN b) /\ forall w, In w (leftN b) ->
      matGet m n (idx (get bs0 w)) (idx (get bs0 v)) = false)) /\
(forall v, In v (crightN b') <->
   In v (crightN b) \/
   (In v (rightN b) /\ forall w, In w (rightN b) ->
      matGet m n (idx (get bs0 v)) (idx (get bs0 w)) = false)).

Lemma condenseBlock_spec bs b :
sameUpTo eraseCond bs0 bs ->
eraseCond (condenseBlock m n bs b) = eraseCond b /\
condensed b (condenseBlock m n bs b).
Proof.
  intros Hs. unfold condenseBlock, condensed.
  destruct (condenseLeft_spec m n bs (leftN b) (leftN b) b) as [L1 [L2 L3]].
  set (b1 := condenseLeft m n bs (leftN b) (leftN b) b) in *.
  destruct (condenseRight_spec m n bs (rightN b) (rightN b) b1) as [R1 [R2 R3]].
  assert (Hidx : forall p, idx (get bs p) = idx (get bs0 p)).
  { intros p.
    apply (sameUpTo_field idx (erase := eraseCond) _ (fun b => eq_refl) Hs). }
  split; [congruence|]. split.
  - intros v. rewrite R2, L3. setoid_rewrite Hidx. tauto.
  - intros v. rewrite R3, L2. setoid_rewrite Hidx. tauto.
Qed.

Lemma condense_fold k : forall s bs,
sameUpTo eraseCond bs0 bs ->
(forall p, (s <= p)%nat -> get bs p = get bs0 p) ->
(forall p, (p < s)%nat -> (p < length bs0)%nat ->
   condensed (get bs0 p) (get bs p)) ->
(s + k <= length bs0)%nat ->
let bs' := fold_left (fun bs p => upd p (condenseBlock m n bs) bs)
                     (seq s k) bs in
sameUpTo eraseCond bs0 bs' /\
(forall p, (s + k <= p)%nat -> get bs' p = get bs0 p) /\
(forall p, (p < s + k)%nat -> condensed (get bs0 p) (get bs' p)).
Proof.
  induction k as [|k IH]; intros s bs Hs Hrest Hdone Hk; simpl.
  - split; [assumption|]. split.
    + intros p Hp. apply Hrest. lia.
    + intros p Hp. apply Hdone; lia.
  - destruct (condenseBlock_spec (get bs s) Hs) as [He Hc].
    assert (Hl : length bs = length bs0) by apply Hs.
    specialize (IH (S s) (upd s (condenseBlock m n bs) bs)).
    destruct IH as [I1 [I2 I3]].
    + eapply sameUpTo_trans; [exact Hs|].
      split; [apply length_upd|]. intros q.
      destruct (Nat.eq_dec s q) as [<-|Hne].
      * rewrite get_upd_eq by lia. exact He.
      * rewrite get_upd_ne by assumption. reflexivity.
    + intros p Hp. rewrite get_upd_ne by lia. apply Hrest. lia.
    + intros p Hp Hpl. destruct (Nat.eq_dec p s) as [->|Hne].
      * rewrite get_upd_eq by lia. rewrite <- (Hrest s) by lia. exact Hc.
      * rewrite get_upd_ne by lia. apply Hdone; lia.
    + lia.
    + split; [assumption|]. split.
      * intros p Hp. apply I2. lia.
      * intros p Hp. apply I3; lia.
Qed.
End Condense.

Lemma stage3_spec_gen st2 :
  (forall p, (length (blocks st2) <= p)%nat ->
     cleftN (get (blocks st2) p) = [] /\ crightN (get (blocks st2) p) = [] /\
     leftN (get (blocks st2) p) = [] /\ rightN (get (blocks st2) p) = []) ->
  stage3_post st2 (condenseAdjList st2).
Proof.
  intros Hout.
  destruct (@condense_fold (matrix st2) (length (blocks st2)) (blocks st2)
              (length (blocks st2)) O (blocks st2))
    as [H1 [H2 H3]].
  - apply sameUpTo_refl.
  - reflexivity.
  - intros p Hp. lia.
  - lia.
  - unfold condenseAdjList.
    set (bs' := fold_left _ _ _) in *.
    constructor; unfold with_blocks; cbn [blocks blocksReordered matrix]; auto.
    + intros b v.
      destruct (Nat.lt_ge_cases b (length (blocks st2))) as [Hb|Hb].
      * apply (H3 b Hb).
      * rewrite (H2 b) by (simpl; lia).
        destruct (Hout b Hb) as [-> [_ [-> _]]]. simpl. tauto.
    + intros b v.
      destruct (Nat.lt_ge_cases b (length (blocks st2))) as [Hb|Hb].
      * apply (H3 b Hb).
      * rewrite (H2 b) by (simpl; lia).
        destruct (Hout b Hb) as [_ [-> [_ ->]]]. simpl. tauto.
Qed.

(** ** The graph after STEP 3 *)

Lemma adjEdge_rank tol bs ord a j :
  NoDup ord -> adjEdge tol bs ord a j -> rank bs ord j < rank bs ord a.
Proof.
  intros Hnd [[Hb [_ Hd]]|[Hb [_ Hd]]]; unfold rank;
    pose proof (@before_pos ord _ _ Hnd Hb) as Hp;
    destruct (before_In _ _ _ Hb) as [H1 H2];
    apply pos_lt in H1; apply pos_lt in H2;
    set (L := Z.of_nat (length ord) + 1).
  - assert (depth (get bs j) * L <= (depth (get bs a) - 1) * L)
      by (apply Z.mul_le_mono_nonneg_r; lia).
    lia.
  - assert (depth (get bs j) * L <= depth (get bs a) * L)
      by (apply Z.mul_le_mono_nonneg_r; lia).
    lia.
Qed.

Lemma adjEdge_depth tol bs ord a j :
  adjEdge tol bs ord a j -> depth (get bs j) <= depth (get bs a).
Proof. intros [[_ [_ H]]|[_ [_ H]]]; lia. Qed.

Lemma stage2_length o arr : length (blocks (stage2 o arr)) = length arr.
Proof.
  rewrite (sameUpTo_length (s2_same (stage2_spec o arr))).
  apply stage1_length.
Qed.

Lemma stage2_out_of_range o arr p :
  (length (blocks (stage2 o arr)) <= p)%nat ->
  cleftN (get (blocks (stage2 o arr)) p) = [] /\
  crightN (get (blocks (stage2 o arr)) p) = [] /\
  leftN (get (blocks (stage2 o arr)) p) = [] /\
  rightN (get (blocks (stage2 o arr)) p) = [].
Proof.
  intros H. unfold get. rewrite nth_overflow by assumption. simpl. auto.
Qed.

Lemma stage3_spec o arr : stage3_post (stage2 o arr) (stage3 o arr).
Proof. apply stage3_spec_gen. apply stage2_out_of_range. Qed.

Lemma stage2_cond_nil o arr p :
  cleftN (get (blocks (stage2 o arr)) p) = [] /\
  crightN (get (blocks (stage2 o arr)) p) = [].
Proof.
  pose proof (s2_same (stage2_spec o arr)) as H2.
  destruct (stage1_frame o arr) as [H1 _].
  rewrite (sameUpTo_field cleftN (erase := eraseAdj) _ (fun b => eq_refl) H2),
    (sameUpTo_field crightN (erase := eraseAdj) _ (fun b => eq_refl) H2),
    (sameUpTo_field cleftN (erase := set_depth 0) _ (fun b => eq_refl) H1),
    (sameUpTo_field crightN (erase := set_depth 0) _ (fun b => eq_refl) H1).
  destruct (setup_fields arr p) as [_ [_ [_ [-> [-> _]]]]]. auto.
Qed.

(** a field kept by STEP 2 and STEP 3 *)
Lemma stage3_field {A : Type} (g : ScheduleBlock -> A) o arr p :
  (forall b, g (eraseAdj b) = g b) -> (forall b, g (eraseCond b) = g b) ->
  g (get (blocks (stage3 o arr)) p) = g (get (blocks (fst (stage1 o arr))) p).
Proof.
  intros H1 H2.
  rewrite (sameUpTo_field g p H2 (s3_same (stage3_spec o arr))).
  apply (sameUpTo_field g p H1 (s2_same (stage2_spec o arr))).
Qed.

Lemma stage3_leftN o arr a j :
  In j (leftN (get (blocks (stage3 o arr)) a)) <->
  adjEdge (dfsTolerance o) (blocks (fst (stage1 o arr)))
    (blocksReordered (fst (stage1 o arr))) a j.
Proof.
  rewrite (sameUpTo_field leftN (erase := eraseCond) _ (fun b => eq_refl)
             (s3_same (stage3_spec o arr))).
  apply (s2_left (stage2_spec o arr)).
Qed.

Lemma stage3_rightN o arr a j :
  In j (rightN (get (blocks (stage3 o arr)) a)) <->
  In a (leftN (get (blocks (stage3 o arr)) j)).
Proof.
  rewrite stage3_leftN.
  rewrite (sameUpTo_field rightN (erase := eraseCond) _ (fun b => eq_refl)
             (s3_same (stage3_spec o arr))).
  apply (s2_right (stage2_spec o arr)).
Qed.

Lemma stage3_length o arr : length (blocks (stage3 o arr)) = length arr.
Proof.
  rewrite (sameUpTo_length (s3_same (stage3_spec o arr))).
  apply stage2_length.
Qed.

Lemma stage3_order o arr :
  blocksReordered (stage3 o arr) = blocksReordered (fst (stage1 o arr)).
Proof.
  rewrite (s3_order (stage3_spec o arr)).
  apply (s2_order (stage2_spec o arr)).
Qed.

Lemma stage1_order_NoDup o arr : NoDup (blocksReordered (fst (stage1 o arr))).
Proof.
  destruct (stage1_frame o arr) as [_ [_ [Hperm _]]].
  apply (Permutation_NoDup (Permutation_sym Hperm)), seq_NoDup.
Qed.

Lemma stage3_range o arr a j :
  In j (leftN (get (blocks (stage3 o arr)) a)) ->
  (a < length arr)%nat /\ (j < length arr)%nat.
Proof.
  rewrite stage3_leftN. intros [[Hb _]|[Hb _]];
    apply before_In in Hb; destruct Hb as [H1 H2];
    apply stage1_order_range in H1; apply stage1_order_range in H2; auto.
Qed.

Lemma stage3_idx o arr p :
  (p < length arr)%nat -> idx (get (blocks (stage3 o arr)) p) = p.
Proof.
  intros Hp. rewrite (stage3_field idx o arr p) by reflexivity.
  apply stage1_idx; assumption.
Qed.

Lemma stage3_matrix o arr a j :
  (a < length arr)%nat -> (j < length arr)%nat ->
  (matGet (matrix (stage3 o arr)) (length arr) a j = true <->
   In j (leftN (get (blocks (stage3 o arr)) a))).
Proof.
  intros Ha Hj. rewrite stage3_leftN, (s3_mat (stage3_spec o arr)).
  pose proof (s2_matrix (stage2_spec o arr)) as H.
  rewrite stage1_length in H. apply H; assumption.
Qed.

Lemma stage3_cleftN o arr b v :
  In v (cleftN (get (blocks (stage3 o arr)) b)) <->
  In v (leftN (get (blocks (stage3 o arr)) b)) /\
  forall w, In w (leftN (get (blocks (stage3 o arr)) b)) ->
    matGet (matrix (stage3 o arr)) (length arr)
      (idx (get (blocks (stage3 o arr)) w))
      (idx (get (blocks (stage3 o arr)) v)) = false.
Proof.
  pose proof (stage3_spec o arr) as P.
  rewrite (s3_cleft P), (s3_mat P), stage2_length.
  destruct (stage2_cond_nil o arr b) as [-> _].
  rewrite (sameUpTo_field leftN (erase := eraseCond) _ (fun b => eq_refl)
             (s3_same P)).
  assert (Hidx : forall p, idx (get (blocks (stage3 o arr)) p)
                           = idx (get (blocks (stage2 o arr)) p)).
  { intros p.
    apply (sameUpTo_field idx (erase := eraseCond) _ (fun b => eq_refl)
             (s3_same P)). }
  setoid_rewrite Hidx. simpl. tauto.
Qed.

Lemma stage3_crightN o arr b v :
  In v (crightN (get (blocks (stage3 o arr)) b)) <->
  In v (rightN (get (blocks (stage3 o arr)) b)) /\
  forall w, In w (rightN (get (blocks (stage3 o arr)) b)) ->
    matGet (matrix (stage3 o arr)) (length arr)
      (idx (get (blocks (stage3 o arr)) v))
      (idx (get (blocks (stage3 o arr)) w)) = false.
Proof.
  pose proof (stage3_spec o arr) as P.
  rewrite (s3_cright P), (s3_mat P), stage2_length.
  destruct (stage2_cond_nil o arr b) as [_ ->].
  rewrite (sameUpTo_field rightN (erase := eraseCond) _ (fun b => eq_refl)
             (s3_same P)).
  assert (Hidx : forall p, idx (get (blocks (stage3 o arr)) p)
                           = idx (get (blocks (stage2 o arr)) p)).
  { intros p.
    apply (sameUpTo_field idx (erase := eraseCond) _ (fun b => eq_refl)
             (s3_same P)). }
  setoid_rewrite Hidx. simpl. tauto.
Qed.

Lemma stage3_rank o arr a j :
  In j (leftN (get (blocks (stage3 o arr)) a)) ->
  rank (blocks (fst (stage1 o arr))) (blocksReordered (fst (stage1 o arr))) j
  < rank (blocks (fst (stage1 o arr))) (blocksReordered (fst (stage1 o arr))) a.
Proof.
  rewrite stage3_leftN. apply adjEdge_rank, stage1_order_NoDup.
Qed.

Lemma stage3_irrefl o arr v : ~ In v (leftN (get (blocks (stage3 o arr)) v)).
Proof. intros H. apply stage3_rank in H. lia. Qed.

Lemma stage3_graph o arr : graph_ok (length arr) (blocks (stage3 o arr)).
Proof.
  constructor.
  - apply stage3_length.
  - apply stage3_idx.
  - apply stage3_range.
  - apply stage3_rightN.
  - intros b v. rewrite stage3_cleftN. split.
    + intros [Hv Hw]. split; [assumption|]. intros w Hin Hvw.
      destruct (stage3_range _ _ _ _ Hin) as [_ Hwr].
      destruct (stage3_range _ _ _ _ Hv) as [_ Hvr].
      specialize (Hw w Hin). rewrite !stage3_idx in Hw by assumption.
      apply stage3_matrix in Hvw; [congruence|assumption|assumption].
    + intros [Hv Hw]. split; [assumption|]. intros w Hin.
      destruct (stage3_range _ _ _ _ Hin) as [_ Hwr].
      destruct (stage3_range _ _ _ _ Hv) as [_ Hvr].
      rewrite !stage3_idx by assumption.
      destruct (matGet (matrix (stage3 o arr)) (length arr) w v) eqn:E;
        [|reflexivity].
      apply stage3_matrix in E; [|assumption|assumption].
      exfalso. apply (Hw w Hin E).
  - intros b v. rewrite stage3_crightN. split.
    + intros [Hv Hw]. split; [assumption|]. intros w Hin Hvw.
      apply stage3_rightN in Hvw.
      destruct (stage3_range _ _ _ _ Hvw) as [Hvr Hwr].
      specialize (Hw w Hin). rewrite !stage3_idx in Hw by assumption.
      apply stage3_matrix in Hvw; [congruence|assumption|assumption].
    + intros [Hv Hw]. split; [assumption|]. intros w Hin.
      apply stage3_rightN in Hin as Hin'. apply stage3_rightN in Hv as Hv'.
      destruct (stage3_range _ _ _ _ Hin') as [Hwr _].
      destruct (stage3_range _ _ _ _ Hv') as [Hvr _].
      rewrite !stage3_idx by assumption.
      destruct (matGet (matrix (stage3 o arr)) (length arr) v w) eqn:E;
        [|reflexivity].
      apply stage3_matrix in E; [|assumption|assumption].
      exfalso. apply (Hw w Hin). apply stage3_rightN. exact E.
  - exists (rank (blocks (fst (stage1 o arr)))
                 (blocksReordered (fst (stage1 o arr)))).
    intros a j. apply stage3_rank.
  - intros a j Hin. rewrite !(stage3_field depth o arr) by reflexivity.
    apply stage3_leftN in Hin. eapply adjEdge_depth; eassumption.
Qed.

(** *** Claims about S2 and S3 *)

Lemma sorted_before {R : nat -> nat -> Prop} l x y :
  StronglySorted R l -> before l x y -> R x y.
Proof.
  induction 1 as [|z l Hl IH Hz]; simpl; [tauto|].
  intros [[-> Hy]|H]; [|auto].
  rewrite Forall_forall in Hz. auto.
Qed.


Lemma before_neq l x y : NoDup l -> before l x y -> x <> y.
Proof. intros Hnd Hb ->. apply (@before_pos l y y Hnd) in Hb. lia. Qed.



Lemma stage1_times o arr p :
  (p < length arr)%nat ->
  startMin (get (blocks (fst (stage1 o arr))) p)
    = in_startMin (nth p arr (mkInput 0 0)) /\
  endMin (get (blocks (fst (stage1 o arr))) p)
    = in_endMin (nth p arr (mkInput 0 0)).
Proof.
  intros Hp. destruct (stage1_frame o arr) as [Hs _].
  rewrite (sameButDepth_startMin _ Hs), (sameButDepth_endMin _ Hs).
  apply setup_times; assumption.
Qed.





(** C6. After stage S3, for every block [b], [cleftN(b)] is the set of the
    [v] in [leftN(b)] such that no other [w] in [leftN(b)] has [v] in
    [leftN(w)], equivalently such that [matrix[w.idx * N + v.idx]] is false
    for all [w] in [leftN(b)]; symmetrically for [crightN(b)]; in
    particular [cleftN(b)] is included in [leftN(b)] and [crightN(b)] in
    [rightN(b)]. *)
Theorem C6_condensed_lists o arr b :
  (forall v, In v (cleftN (get (blocks (stage3 o arr)) b)) <->
     In v (leftN (get (blocks (stage3 o arr)) b)) /\
     forall w, In w (leftN (get (blocks (stage3 o arr)) b)) -> w <> v ->
       ~ In v (leftN (get (blocks (stage3 o arr)) w))) /\
  (forall v, In v (cleftN (get (blocks (stage3 o arr)) b)) <->
     In v (leftN (get (blocks (stage3 o arr)) b)) /\
     forall w, In w (leftN (get (blocks (stage3 o arr)) b)) ->
       matGet (matrix (stage3 o arr)) (length (blocks (stage3 o arr)))
         (idx (get (blocks (stage3 o arr)) w))
         (idx (get (blocks (stage3 o arr)) v)) = false) /\
  (forall v, In v (crightN (get (blocks (stage3 o arr)) b)) <->
     In v (rightN (get (blocks (stage3 o arr)) b)) /\
     forall w, In w (rightN (get (blocks (stage3 o arr)) b)) -> w <> v ->
       ~ In v (rightN (get (blocks (stage3 o arr)) w))) /\
  (forall v, In v (crightN (get (blocks (stage3 o arr)) b)) <->
     In v (rightN (get (blocks (stage3 o arr)) b)) /\
     forall w, In w (rightN (get (blocks (stage3 o arr)) b)) ->
       matGet (matrix (stage3 o arr)) (length (blocks (stage3 o arr)))
         (idx (get (blocks (stage3 o arr)) v))
         (idx (get (blocks (stage3 o arr)) w)) = false) /\
  incl (cleftN (get (blocks (stage3 o arr)) b))
       (leftN (get (blocks (stage3 o arr)) b)) /\
  incl (crightN (get (blocks (stage3 o arr)) b))
       (rightN (get (blocks (stage3 o arr)) b)).
Proof.
  pose proof (stage3_graph o arr) as G.
  rewrite stage3_length.
  split; [|split; [|split; [|split; [|split]]]].
  - intros v. rewrite (g_cleft G). split.
    + intros [Hv Hw]. split; [assumption|]. intros w Hin _. auto.
    + intros [Hv Hw]. split; [assumption|]. intros w Hin Hvw.
      apply (Hw w Hin); [|assumption].
      intros ->. apply (@stage3_irrefl _ _ _ Hvw).
  - intros v. apply stage3_cleftN.
  - intros v. rewrite (g_cright G). split.
    + intros [Hv Hw]. split; [assumption|]. intros w Hin _. auto.
    + intros [Hv Hw]. split; [assumption|]. intros w Hin Hvw.
      apply (Hw w Hin); [|assumption].
      intros ->. apply stage3_rightN in Hvw. apply (@stage3_irrefl _ _ _ Hvw).
  - intros v. apply stage3_crightN.
  - intros v Hv. apply (g_cleft G) in Hv. tauto.
  - intros v Hv. apply (g_cright G) in Hv. tauto.
Qed.

Lemma reach_trans next bs b w v :
  reach next bs b w -> reach next bs w v -> reach next bs b v.
Proof.
  induction 1 as [b w H|b u w H Hr IH]; intros Hv.
  - eapply reach_step; eassumption.
  - eapply reach_step; [eassumption|]. apply IH; assumption.
Qed.

Lemma reach_incl (next next' : ScheduleBlock -> list nat) bs b v :
  (forall x y, In y (next (get bs x)) -> reach next' bs x y) ->
  reach next bs b v -> reach next' bs b v.
Proof.
  intros Hsub. induction 1 as [b v H|b w v H Hr IH].
  - apply Hsub; assumption.
  - eapply reach_trans; [apply Hsub; eassumption|assumption].
Qed.

Lemma In_nat_dec_bool (v : nat) l : existsb (Nat.eqb v) l = true <-> In v l.
Proof.
  rewrite existsb_exists. split.
  - intros [x [Hx E]]. apply Nat.eqb_eq in E. subst. assumption.
  - intros H. exists v. split; [assumption|apply Nat.eqb_refl].
Qed.

(** every member of [leftN(b)] is reached from [b] along [cleftN] links *)
Lemma leftN_reach n bs :
  graph_ok n bs ->
  forall b v, In v (leftN (get bs b)) -> reach cleftN bs b v.
Proof.
  intros G. destruct (g_rank G) as [mu Hmu].
  assert (H : forall k b v, mu b - mu v <= Z.of_nat k ->
            In v (leftN (get bs b)) -> reach cleftN bs b v).
  { induction k as [|k IH]; intros b v Hk Hv.
    - specialize (Hmu b v Hv). lia.
    - destruct (existsb (fun w => existsb (Nat.eqb v) (leftN (get bs w)))
                  (leftN (get bs b))) eqn:E.
      + apply existsb_exists in E. destruct E as [w [Hw Hvw]].
        apply In_nat_dec_bool in Hvw.
        pose proof (Hmu b w Hw). pose proof (Hmu w v Hvw).
        apply reach_trans with (w := w); apply IH; auto; lia.
      + apply reach_one. apply (g_cleft G). split; [assumption|].
        intros w Hw Hvw. rewrite existsb_false_iff in E.
        specialize (E w Hw). apply In_nat_dec_bool in Hvw. congruence. }
  intros b v Hv. apply (H (Z.to_nat (mu b - mu v))); [lia|assumption].
Qed.

(** C7 (amended). After stage S3, for every block [b], every member of
    [leftN(b)] is cleftN-reachable from [b], and the blocks
    cleftN-reachable from [b] are exactly the blocks reachable from [b]
    along [leftN] links: the reachability closure of [cleftN] is the
    reachability closure of [leftN] (which may be larger than
    [leftN(b)], the conflict relation not being transitive). *)
Theorem C7_reach_closure o arr b :
  (forall v, In v (leftN (get (blocks (stage3 o arr)) b)) ->
     reach cleftN (blocks (stage3 o arr)) b v) /\
  (forall v, reach cleftN (blocks (stage3 o arr)) b v <->
     reach leftN (blocks (stage3 o arr)) b v).
Proof.
  pose proof (stage3_graph o arr) as G.
  split.
  - apply (leftN_reach G).
  - intros v. split; apply reach_incl.
    + intros x y Hy. apply reach_one. apply (g_cleft G) in Hy. tauto.
    + intros x y Hy. apply (leftN_reach G). assumption.
Qed.

(** The blocks [0,10), [5,20), [12,40), [15,30) get the depths 0, 1, 0, 2.
    The last block reaches the first along [cleftN] (through the second),
    but the two do not overlap, so the first is not in its [leftN]. *)
Lemma C7_not_transitive_counterexample :
  reach cleftN (blocks (stage3 defaultOptions example_C7)) 3 0 /\
  ~ In 0%nat (leftN (get (blocks (stage3 defaultOptions example_C7)) 3)).
Proof.
  split.
  - apply reach_step with (w := 1%nat); [vm_compute; auto|].
    apply reach_one. vm_compute; auto.
  - vm_compute. intuition discriminate.
Qed.

(** ** S4: the DFS width seeder *)

Lemma upd_same p f bs : f (get bs p) = get bs p -> upd p f bs = bs.
Proof.
  unfold get. revert p; induction bs as [|b bs IH]; intros [|p] H; simpl in *;
    auto; f_equal; auto.
Qed.

Lemma list_sum_upd (w : ScheduleBlock -> nat) p f bs :
  (p < length bs)%nat ->
  (list_sum (map w (upd p f bs)) + w (get bs p)
   = list_sum (map w bs) + w (f (get bs p)))%nat.
Proof.
  unfold get. revert p; induction bs as [|b bs IH]; intros [|p] H;
    simpl in *; try lia.
  specialize (IH p ltac:(lia)). lia.
Qed.

Lemma filter_length_le {A : Type} (f : A -> bool) l :
  (length (filter f l) <= length l)%nat.
Proof.
  induction l as [|x l IH]; simpl; [lia|]. destruct (f x); simpl; lia.
Qed.

Lemma app_split_left {A : Type} (l1 R s1 s2 : list A) (v : A) :
  l1 ++ R = s1 ++ v :: s2 -> ~ In v l1 ->
  exists s1', s1 = l1 ++ s1' /\ R = s1' ++ v :: s2.
Proof.
  revert s1. induction l1 as [|x l1 IH]; intros s1 E Hv; simpl in *.
  - exists s1. auto.
  - destruct s1 as [|y s1]; simpl in E.
    + injection E as E1 E2. subst. tauto.
    + injection E as E1 E2. subst y.
      destruct (IH s1 E2) as [s1' [-> HR]]; [tauto|].
      exists s1'. auto.
Qed.

Lemma sameUpTo_cleftN_path bs0 bs x :
  sameUpTo erasePath bs0 bs -> cleftN (get bs x) = cleftN (get bs0 x).
Proof.
  intros H.
  apply (sameUpTo_field cleftN (erase := erasePath) x (fun b => eq_refl) H).
Qed.

Lemma reachOrSelf_step bs s x a :
  reachOrSelf bs s x -> In a (cleftN (get bs x)) -> reachOrSelf bs s a.
Proof.
  intros [->|Hr] Ha; right.
  - apply reach_one; assumption.
  - eapply reach_trans; [eassumption|apply reach_one; assumption].
Qed.

Section DfsLoop.
Variable n : nat.
Variable bs0 : list ScheduleBlock.
Variable s : nat.
Variable D : Z.
Hypothesis len0 : length bs0 = n.
Hypothesis range0 : forall v a, In a (cleftN (get bs0 v)) -> (a < n)%nat.

Let mark (b : ScheduleBlock) : ScheduleBlock :=
  set_pathDepth D (set_visited true b).

(** popping a block that is already visited changes nothing *)
Lemma dfs_inv_pop_visited x R bs :
  dfs_inv n bs0 s D (x :: R) bs -> visited (get bs x) = true ->
  upd x mark bs = bs /\
  filter (fun adj => negb (visited (get bs adj))) (cleftN (get bs x)) = [] /\
  dfs_inv n bs0 s D R bs.
Proof.
  intros I Hx.
  destruct (di_stack I x (or_introl eq_refl)) as [Hx0 [Hreach Hxn]].
  destruct (di_new I x Hx Hx0) as [Hpd _].
  split; [|split].
  - apply upd_same. unfold mark.
    destruct (get bs x); simpl in *. subst. reflexivity.
  - rewrite (sameUpTo_cleftN_path x (di_same I)).
    destruct (filter _ _) as [|a l] eqn:E; [reflexivity|].
    assert (Ha : In a (a :: l)) by (left; reflexivity).
    rewrite <- E in Ha. apply filter_In in Ha. destruct Ha as [Ha Hv].
    apply negb_true_iff in Hv.
    destruct (di_closed I x a Hx Ha Hv) as [_ Habove].
    destruct (Habove [] R eq_refl).
  - constructor.
    + apply (di_same I).
    + apply (di_old I).
    + apply (di_unv I).
    + apply (di_new I).
    + intros y Hy. apply (di_stack I). right; assumption.
    + destruct (di_start I) as [H|[<-|H]]; auto.
    + intros v a Hv Ha Hav.
      destruct (di_closed I v a Hv Ha Hav) as [Hin Habove].
      assert (Hne : a <> x) by (intros ->; congruence).
      split.
      * destruct Hin as [->|Hin]; [congruence|assumption].
      * intros s1 s2 E.
        destruct (Habove (x :: s1) s2) as [->|Hin1];
          [simpl; congruence|congruence|assumption].
Qed.

(** popping a block that is not visited yet marks it and pushes its
    neighbours that are not visited *)
Lemma dfs_inv_pop_fresh x R bs :
  dfs_inv n bs0 s D (x :: R) bs -> visited (get bs x) = false ->
  let bs1 := upd x mark bs in
  let pushed := filter (fun adj => negb (visited (get bs1 adj)))
                       (cleftN (get bs1 x)) in
  dfs_inv n bs0 s D (rev pushed ++ R) bs1 /\
  (length pushed + list_sum (map blockWeight bs1) + 1
   <= list_sum (map blockWeight bs))%nat.
Proof.
  intros I Hx bs1 pushed.
  destruct (di_stack I x (or_introl eq_refl)) as [Hx0 [Hreach Hxn]].
  assert (Hlen : length bs = n).
  { rewrite (sameUpTo_length (di_same I)). exact len0. }
  assert (Hx1 : get bs1 x = mark (get bs x)).
  { unfold bs1. apply get_upd_eq. lia. }
  assert (Hne1 : forall y, y <> x -> get bs1 y = get bs y).
  { intros y Hy. unfold bs1. apply get_upd_ne. auto. }
  assert (Hv1 : forall y, visited (get bs1 y) = false ->
            y <> x /\ visited (get bs y) = false).
  { intros y Hy. destruct (Nat.eq_dec y x) as [->|Hne].
    - rewrite Hx1 in Hy. discriminate.
    - rewrite Hne1 in Hy by assumption. auto. }
  assert (Hv1' : forall y, visited (get bs y) = true ->
            visited (get bs1 y) = true).
  { intros y Hy. destruct (Nat.eq_dec y x) as [->|Hne].
    - rewrite Hx1. reflexivity.
    - rewrite Hne1 by assumption. assumption. }
  assert (Hsame1 : sameUpTo erasePath bs0 bs1).
  { eapply sameUpTo_trans; [apply (di_same I)|].
    apply sameUpTo_upd. reflexivity. }
  assert (Hc1 : cleftN (get bs1 x) = cleftN (get bs0 x))
    by (apply sameUpTo_cleftN_path; assumption).
  assert (Hpushed : forall a, In a pushed <->
            In a (cleftN (get bs0 x)) /\ visited (get bs1 a) = false).
  { intros a. unfold pushed. rewrite filter_In, Hc1, negb_true_iff. tauto. }
  split.
  - constructor.
    + exact Hsame1.
    + intros y Hy. rewrite Hne1 by (intros ->; congruence).
      apply (di_old I); assumption.
    + intros y Hy. destruct (Hv1 y Hy) as [Hne Hy'].
      rewrite Hne1 by assumption. apply (di_unv I); assumption.
    + intros y Hy Hy0. destruct (Nat.eq_dec y x) as [->|Hne].
      * rewrite Hx1. split; [reflexivity|assumption].
      * rewrite Hne1 in * by assumption. apply (di_new I); assumption.
    + intros y Hy. apply in_app_or in Hy. destruct Hy as [Hy|Hy].
      * apply in_rev, Hpushed in Hy. destruct Hy as [Ha Hv].
        destruct (Hv1 y Hv) as [Hne Hv'].
        split; [|split].
        -- rewrite <- (di_unv I y Hv'). assumption.
        -- eapply reachOrSelf_step; eassumption.
        -- eapply range0; eassumption.
      * apply (di_stack I). right; assumption.
    + destruct (di_start I) as [H|[<-|H]].
      * left. apply Hv1'; assumption.
      * left. rewrite Hx1. reflexivity.
      * right. apply in_or_app. right; assumption.
    + intros v a Hv Ha Hav.
      destruct (Hv1 a Hav) as [Hane Hav'].
      destruct (Nat.eq_dec v x) as [->|Hvne].
      * assert (Hap : In a (rev pushed))
          by (apply -> in_rev; apply Hpushed; auto).
        split; [apply in_or_app; left; assumption|].
        intros s1 s2 E.
        apply app_split_left in E.
        -- destruct E as [s1' [-> _]]. apply in_or_app. left; assumption.
        -- intros Hin. apply in_rev, Hpushed in Hin.
           destruct Hin as [_ Hin]. rewrite Hx1 in Hin. discriminate.
      * rewrite Hne1 in Hv by assumption.
        destruct (di_closed I v a Hv Ha Hav') as [Hin Habove].
        split.
        -- apply in_or_app. right.
           destruct Hin as [->|Hin]; [congruence|assumption].
        -- intros s1 s2 E. apply app_split_left in E.
           ++ destruct E as [s1' [-> HR]]. apply in_or_app. right.
              destruct (Habove (x :: s1') s2) as [->|Hin1];
                [simpl; congruence|congruence|assumption].
           ++ intros Hin2. apply in_rev, Hpushed in Hin2.
              destruct Hin2 as [_ Hin2].
              rewrite Hne1 in Hin2 by assumption. congruence.
  - pose proof (@list_sum_upd blockWeight x mark bs ltac:(lia)) as Hw.
    fold bs1 in Hw.
    assert (Hw1 : blockWeight (mark (get bs x)) = O) by reflexivity.
    assert (Hw0 : blockWeight (get bs x) = S (length (cleftN (get bs x)))).
    { unfold blockWeight. rewrite Hx. reflexivity. }
    assert (Hp : (length pushed <= length (cleftN (get bs x)))%nat).
    { unfold pushed. rewrite Hc1, (sameUpTo_cleftN_path x (di_same I)).
      apply filter_length_le. }
    lia.
Qed.

Lemma dfs_loop_spec : forall fuel stack bs,
  dfs_inv n bs0 s D stack bs ->
  (length stack + list_sum (map blockWeight bs) <= fuel)%nat ->
  exists bs', dfs_loop fuel D stack bs = Some bs' /\
              dfs_inv n bs0 s D [] bs'.
Proof.
  induction fuel as [|fuel IH]; intros stack bs I Hf.
  - destruct stack as [|x R]; [|simpl in Hf; lia].
    exists bs. split; [reflexivity|assumption].
  - destruct stack as [|x R].
    + exists bs. split; [reflexivity|assumption].
    + simpl dfs_loop. fold mark.
      destruct (visited (get bs x)) eqn:Hx.
      * destruct (dfs_inv_pop_visited I Hx) as [E1 [E2 I']].
        rewrite E1, E2. simpl. apply IH; [assumption|].
        simpl in Hf. lia.
      * destruct (dfs_inv_pop_fresh I Hx) as [I' Hm].
        apply IH; [exact I'|].
        rewrite length_app, length_rev. simpl in Hf. lia.
Qed.

Lemma dfs_inv_init :
  closedVisited bs0 -> (s < n)%nat -> visited (get bs0 s) = false ->
  dfs_inv n bs0 s D [s] bs0.
Proof.
  intros Hc Hs Hv. constructor; auto.
  - apply sameUpTo_refl.
  - intros x Hx Hx0. congruence.
  - intros x [<-|[]]. split; [assumption|]. split; [left; reflexivity|assumption].
  - right. left. reflexivity.
  - intros v a Hvv Ha Hav. rewrite (Hc v a Hvv Ha) in Hav. discriminate.
Qed.

Lemma dfs_inv_final bs : dfs_inv n bs0 s D [] bs -> dfs_post bs0 s D bs.
Proof.
  intros I. split; [apply (di_same I)|].
  assert (Hs : visited (get bs s) = true).
  { destruct (di_start I) as [H|[]]. assumption. }
  assert (Hclosed : forall v a, visited (get bs v) = true ->
            In a (cleftN (get bs0 v)) -> visited (get bs a) = true).
  { intros v a Hv Ha. destruct (visited (get bs a)) eqn:E; [reflexivity|].
    destruct (di_closed I v a Hv Ha E) as [[] _]. }
  assert (Hreach : forall x, reach cleftN bs0 s x -> visited (get bs x) = true).
  { intros x Hr.
    assert (H : forall b v, reach cleftN bs0 b v ->
              visited (get bs b) = true -> visited (get bs v) = true).
    { induction 1 as [b v Hin|b w v Hin Hr' IH]; intros Hb.
      - eapply Hclosed; eassumption.
      - apply IH. eapply Hclosed; eassumption. }
    eapply H; eassumption. }
  intros x. split; [|split; [|split]].
  - intros Hx0 Hr.
    assert (Hx : visited (get bs x) = true).
    { destruct Hr as [->|Hr]; [assumption|apply Hreach; assumption]. }
    split; [assumption|]. apply (di_new I); assumption.
  - intros [Hx0|Hn].
    + apply (di_old I); assumption.
    + destruct (visited (get bs x)) eqn:Hx; [|apply (di_unv I); assumption].
      destruct (visited (get bs0 x)) eqn:Hx0; [apply (di_old I); assumption|].
      destruct (di_new I x Hx Hx0) as [_ Hr]. contradiction.
  - intros Hx Hx0. apply (di_new I); assumption.
  - apply (di_unv I).
Qed.

(** [depthFirstSearchRec] returns, and marks exactly the blocks not
    visited yet that are the start or are reached from it. *)
Lemma depthFirstSearchRec_spec :
  closedVisited bs0 -> (s < n)%nat -> visited (get bs0 s) = false ->
  exists bs, depthFirstSearchRec bs0 s D = Some bs /\ dfs_post bs0 s D bs.
Proof.
  intros Hc Hs Hv. unfold depthFirstSearchRec, dfsFuel.
  destruct (@dfs_loop_spec (S (list_sum (map blockWeight bs0))) [s] bs0)
    as [bs [E I]].
  - apply dfs_inv_init; assumption.
  - simpl. lia.
  - exists bs. split; [assumption|]. apply dfs_inv_final; assumption.
Qed.
End DfsLoop.

(** *** All starts, in the order of decreasing depth *)

Lemma reach_ext (next : ScheduleBlock -> list nat) bs bs' b v :
  (forall p, next (get bs' p) = next (get bs p)) ->
  reach next bs b v -> reach next bs' b v.
Proof.
  intros E. induction 1 as [b v H|b w v H Hr IH].
  - apply reach_one. rewrite E. assumption.
  - eapply reach_step; [rewrite E; eassumption|assumption].
Qed.

Lemma reachOrSelf_ext bs bs' s x :
  sameUpTo erasePath bs bs' -> reachOrSelf bs' s x -> reachOrSelf bs s x.
Proof.
  intros Hs [->|Hr]; [left; reflexivity|right].
  eapply reach_ext; [|eassumption].
  intros p. symmetry. apply sameUpTo_cleftN_path. assumption.
Qed.

Section DfsAll.
Variable n : nat.
Variable bs0 : list ScheduleBlock.
Hypothesis len0 : length bs0 = n.
Hypothesis range0 : forall v a, In a (cleftN (get bs0 v)) -> (a < n)%nat.

Lemma dfsall_inv_skip s rest bs :
  dfsall_inv n bs0 (s :: rest) bs -> dfsall_inv n bs0 rest bs.
Proof.
  intros I. constructor; try apply I.
  intros x m Hx Hm. apply (da_low I); [assumption|right; assumption].
Qed.

Lemma dfsall_inv_step s rest bs bs1 :
  dfsall_inv n bs0 (s :: rest) bs ->
  (s < n)%nat ->
  Forall (fun m => depth (get bs0 m) <= depth (get bs0 s)) rest ->
  dfs_post bs s (depth (get bs s) + 1) bs1 ->
  dfsall_inv n bs0 rest bs1.
Proof.
  intros I Hs Hsorted [Hsame P].
  assert (Hds : depth (get bs s) = depth (get bs0 s)).
  { apply (sameUpTo_field depth (erase := erasePath) s (fun b => eq_refl)
             (da_same I)). }
  rewrite Hds in P.
  assert (Hold : forall x, visited (get bs x) = true -> get bs1 x = get bs x).
  { intros x Hx. destruct (P x) as [_ [Pu _]]. apply Pu. left; assumption. }
  assert (Hnew : forall x, visited (get bs1 x) = true ->
            visited (get bs x) = false ->
            pathDepth (get bs1 x) = depth (get bs0 s) + 1 /\
            reachOrSelf bs s x).
  { intros x H1 H0. destruct (P x) as [Pf [_ [Pc _]]].
    specialize (Pc H1 H0). split; [apply Pf; assumption|assumption]. }
  assert (Hc : forall p, cleftN (get bs p) = cleftN (get bs0 p)).
  { intros p. apply sameUpTo_cleftN_path, (da_same I). }
  assert (Hc1 : forall p, cleftN (get bs1 p) = cleftN (get bs0 p)).
  { intros p. rewrite (sameUpTo_cleftN_path p Hsame). apply Hc. }
  assert (Hadj : forall b a, visited (get bs1 b) = true ->
            In a (cleftN (get bs0 b)) ->
            (visited (get bs b) = true /\ visited (get bs a) = true) \/
            (visited (get bs b) = false /\ reachOrSelf bs s a)).
  { intros b a Hb Ha. destruct (visited (get bs b)) eqn:Hb0.
    - left. split; [reflexivity|].
      apply (da_closed I b a Hb0). rewrite Hc. assumption.
    - right. split; [reflexivity|].
      destruct (Hnew b Hb Hb0) as [_ Hr].
      eapply reachOrSelf_step; [eassumption|]. rewrite Hc. assumption. }
  constructor.
  - eapply sameUpTo_trans; [apply (da_same I)|assumption].
  - intros v a Hv Ha. rewrite Hc1 in Ha.
    destruct (Hadj v a Hv Ha) as [[_ Ha0]|[_ Hr]].
    + rewrite Hold; assumption.
    + destruct (visited (get bs a)) eqn:Ha0.
      * rewrite Hold; assumption.
      * destruct (P a) as [Pf _]. apply Pf; assumption.
  - intros x Hx. destruct (visited (get bs x)) eqn:Hx0.
    + rewrite Hold by assumption. apply (da_path I); assumption.
    + destruct (Hnew x Hx Hx0) as [Hp Hr].
      exists s. split; [|split; assumption].
      eapply reachOrSelf_ext; [apply (da_same I)|assumption].
  - intros x m Hx Hm. destruct (visited (get bs x)) eqn:Hx0.
    + rewrite Hold by assumption.
      apply (da_low I); [assumption|right; assumption].
    + destruct (Hnew x Hx Hx0) as [-> _].
      rewrite Forall_forall in Hsorted. specialize (Hsorted m Hm). lia.
  - intros b a Hb Ha.
    destruct (Hadj b a Hb Ha) as [[Hb0 Ha0]|[Hb0 Hr]].
    + rewrite !Hold by assumption. apply (da_edge I); assumption.
    + destruct (Hnew b Hb Hb0) as [-> _].
      destruct (visited (get bs a)) eqn:Ha0.
      * rewrite Hold by assumption.
        apply (da_low I); [assumption|left; reflexivity].
      * destruct (P a) as [Pf _]. destruct (Pf Ha0 Hr) as [_ ->]. lia.
Qed.

Lemma dfs_all_spec : forall ord bs,
  dfsall_inv n bs0 ord bs ->
  StronglySorted (fun p q => depth (get bs0 q) <= depth (get bs0 p)) ord ->
  (forall x, In x ord -> (x < n)%nat) ->
  exists bs', dfs_all ord bs = Some bs' /\ dfsall_inv n bs0 [] bs' /\
    forall x, In x ord \/ visited (get bs x) = true ->
      visited (get bs' x) = true.
Proof.
  induction ord as [|s rest IH]; intros bs I Hsorted Hr.
  - exists bs. split; [reflexivity|]. split; [assumption|].
    intros x [[]|Hx]. assumption.
  - apply StronglySorted_inv in Hsorted. destruct Hsorted as [Hs' Hfa].
    assert (Hsn : (s < n)%nat) by (apply Hr; left; reflexivity).
    assert (Hr' : forall x, In x rest -> (x < n)%nat)
      by (intros x Hx; apply Hr; right; assumption).
    simpl. destruct (visited (get bs s)) eqn:Hv.
    + destruct (IH bs (dfsall_inv_skip I) Hs' Hr') as [bs' [E [I' Hvis]]].
      exists bs'. split; [assumption|]. split; [assumption|].
      intros x [[<-|Hx]|Hx]; apply Hvis; auto.
    + destruct (@depthFirstSearchRec_spec n bs s (depth (get bs s) + 1))
        as [bs1 [E1 P1]]; auto.
      * rewrite (sameUpTo_length (da_same I)). assumption.
      * intros v a Ha. apply (range0 v).
        rewrite <- (sameUpTo_cleftN_path v (da_same I)). assumption.
      * apply (da_closed I).
      * rewrite E1.
        pose proof (dfsall_inv_step I Hsn Hfa P1) as I1.
        destruct (IH bs1 I1 Hs' Hr') as [bs' [E [I' Hvis]]].
        exists bs'. split; [assumption|]. split; [assumption|].
        destruct P1 as [_ P1].
        intros x [[<-|Hx]|Hx]; apply Hvis; auto.
        -- right. destruct (P1 s) as [Pf _].
           apply Pf; [assumption|left; reflexivity].
        -- right. destruct (P1 x) as [_ [Pu _]]. rewrite Pu; auto.
Qed.
End DfsAll.

(** *** STEP 4 *)

Lemma get_map (f : ScheduleBlock -> ScheduleBlock) bs p :
  f nullBlock = nullBlock -> get (map f bs) p = f (get bs p).
Proof.
  intros Hf. unfold get. rewrite <- Hf at 1. apply map_nth.
Qed.

Lemma get_map_lt (f : ScheduleBlock -> ScheduleBlock) bs p :
  (p < length bs)%nat -> get (map f bs) p = f (get bs p).
Proof.
  intros Hp. unfold get.
  rewrite (nth_indep _ nullBlock (f nullBlock)) by (rewrite length_map; assumption).
  apply map_nth.
Qed.

Lemma sameUpTo_map erase f bs :
  (forall b, erase (f b) = erase b) -> sameUpTo erase bs (map f bs).
Proof.
  intros Hf. split; [apply length_map|].
  intros p. destruct (Nat.lt_ge_cases p (length bs)) as [H|H].
  - rewrite get_map_lt by assumption. apply Hf.
  - unfold get. rewrite !nth_overflow; auto. rewrite length_map; assumption.
Qed.

Lemma depthAfter_sorted bs ord :
  StronglySorted (fun p q => depth (get bs q) <= depth (get bs p))
    (sortBy (depthAfter bs) ord).
Proof.
  eapply StronglySorted_weaken;
    [|apply sortBy_sorted with (key := fun p => - depth (get bs p))].
  - intros p q H. cbv beta in H. lia.
  - intros x y H. unfold depthAfter in H. apply Z.ltb_lt in H. lia.
  - intros x y H. unfold depthAfter in H. apply Z.ltb_ge in H. lia.
Qed.

Lemma stage3_unvisited o arr p :
  visited (get (blocks (stage3 o arr)) p) = false /\
  isFixed (get (blocks (stage3 o arr)) p) = false.
Proof.
  rewrite (stage3_field visited o arr p), (stage3_field isFixed o arr p)
    by reflexivity.
  destruct (stage1_frame o arr) as [Hs _].
  rewrite (sameUpTo_field visited (erase := set_depth 0) p (fun b => eq_refl) Hs),
    (sameUpTo_field isFixed (erase := set_depth 0) p (fun b => eq_refl) Hs).
  destruct (setup_fields arr p) as [_ [_ [_ [_ [_ [-> ->]]]]]]. auto.
Qed.

Lemma stage3_cleft_range o arr v a :
  In a (cleftN (get (blocks (stage3 o arr)) v)) ->
  (v < length arr)%nat /\ (a < length arr)%nat.
Proof.
  intros H. apply (g_cleft (stage3_graph o arr)) in H.
  destruct H as [H _]. apply (g_range (stage3_graph o arr)) in H. exact H.
Qed.

Lemma dfsall_inv_init n bs ord :
  (forall p, visited (get bs p) = false) -> dfsall_inv n bs ord bs.
Proof.
  intros Hv. constructor.
  - apply sameUpTo_refl.
  - intros v a H. rewrite Hv in H. discriminate.
  - intros x H. rewrite Hv in H. discriminate.
  - intros x m H. rewrite Hv in H. discriminate.
  - intros b a H. rewrite Hv in H. discriminate.
Qed.

(** the first loop of [dfsWidthExpansion] on the blocks left by STEP 3 *)
Lemma dfs_all_stage3 o arr :
  exists bs,
    dfs_all (sortBy (depthAfter (blocks (stage3 o arr)))
                    (blocksReordered (stage3 o arr)))
            (blocks (stage3 o arr)) = Some bs /\
    dfsall_inv (length arr) (blocks (stage3 o arr)) [] bs /\
    forall x, (x < length arr)%nat -> visited (get bs x) = true.
Proof.
  set (bs3 := blocks (stage3 o arr)).
  set (ord := sortBy (depthAfter bs3) (blocksReordered (stage3 o arr))).
  assert (Hperm : Permutation ord (seq 0 (length arr))).
  { unfold ord. eapply Permutation_trans; [apply sortBy_perm|].
    rewrite stage3_order. apply (stage1_frame o arr). }
  destruct (@dfs_all_spec (length arr) bs3) with (ord := ord) (bs := bs3)
    as [bs [E [I Hvis]]].
  - apply stage3_length.
  - intros v a H. apply (stage3_cleft_range _ _ _ _ H).
  - apply dfsall_inv_init. intros p. apply stage3_unvisited.
  - apply depthAfter_sorted.
  - intros x Hx. apply (@seq_perm_lt _ _ x Hperm). assumption.
  - exists bs. split; [assumption|]. split; [assumption|].
    intros x Hx. apply Hvis. left. apply (@seq_perm_lt _ _ x Hperm). assumption.
Qed.

Lemma reach_depth_le n bs b v :
  graph_ok n bs -> reach cleftN bs b v -> depth (get bs v) <= depth (get bs b).
Proof.
  intros G. induction 1 as [b v H|b w v H Hr IH].
  - apply (g_depth G). apply (g_cleft G) in H. tauto.
  - apply (g_cleft G) in H. destruct H as [H _].
    apply (g_depth G) in H. lia.
Qed.

Lemma seedFromPath_null : seedFromPath nullBlock = nullBlock.
Proof. reflexivity. Qed.

Lemma stage1_depth_range o arr p :
  Z.of_nat (length arr) <= INT_MAX -> (p < length arr)%nat ->
  0 <= depth (get (blocks (fst (stage1 o arr))) p) < snd (stage1 o arr).
Proof.
  intros Hmax Hp.
  assert (Harr : arr <> []) by (destruct arr; [simpl in Hp; lia|discriminate]).
  apply (s1_depth (stage1_spec o Harr Hmax)). assumption.
Qed.

Lemma stage3_depth o arr p :
  depth (get (blocks (stage3 o arr)) p)
  = depth (get (blocks (fst (stage1 o arr))) p).
Proof. apply stage3_field; reflexivity. Qed.

(** STEP 4 returns, and seeds every block with a number of columns between
    its depth plus one and [total]. *)
Lemma stage4_spec o arr :
  Z.of_nat (length arr) <= INT_MAX ->
  exists st4 P,
    stage4 o (snd (stage1 o arr)) (stage3 o arr) = Some st4 /\
    matrix st4 = matrix (stage3 o arr) /\
    seed_post (length arr) (snd (stage1 o arr))
      (blocks (stage3 o arr)) (blocks st4) P.
Proof.
  intros Hmax. set (total := snd (stage1 o arr)).
  set (bs3 := blocks (stage3 o arr)).
  pose proof (stage3_graph o arr) as G. fold bs3 in G.
  assert (Hd : forall p, (p < length arr)%nat -> 0 <= depth (get bs3 p) < total).
  { intros p Hp. unfold bs3. rewrite stage3_depth.
    apply stage1_depth_range; assumption. }
  unfold stage4. destruct (Z.eqb_spec (applyDFS o) 0) as [Hno|Hyes].
  - exists (computeInitialWidth total (stage3 o arr)), (fun _ => total).
    split; [reflexivity|]. split; [reflexivity|].
    unfold computeInitialWidth, with_blocks; cbn [blocks]. fold bs3.
    constructor.
    + apply sameUpTo_map. reflexivity.
    + intros p.
      destruct (Nat.lt_ge_cases p (length bs3)) as [H|H].
      * rewrite get_map_lt by assumption. simpl. apply stage3_unvisited.
      * unfold get. rewrite nth_overflow by (rewrite length_map; assumption).
        auto.
    + intros p Hp. specialize (Hd p Hp). lia.
    + intros p Hp. rewrite get_map_lt by (rewrite (g_len G); assumption).
      reflexivity.
    + intros p Hp. rewrite get_map_lt by (rewrite (g_len G); assumption).
      reflexivity.
    + intros b a _. lia.
  - destruct (dfs_all_stage3 o arr) as [bs [E [I Hvis]]].
    unfold dfsWidthExpansion. fold bs3 in E, I |- *. rewrite E.
    eexists. exists (fun p => pathDepth (get bs p)).
    split; [reflexivity|]. split; [reflexivity|].
    unfold with_blocks; cbn [blocks].
    assert (Hpath : forall p, (p < length arr)%nat ->
              depth (get bs3 p) + 1 <= pathDepth (get bs p) <= total).
    { intros p Hp. destruct (da_path I p (Hvis p Hp)) as [s [Hr [Hs ->]]].
      specialize (Hd s Hs). split; [|lia].
      destruct Hr as [->|Hr]; [lia|].
      pose proof (reach_depth_le G Hr). lia. }
    assert (Hlen : length bs = length arr).
    { rewrite (sameUpTo_length (da_same I)). apply (g_len G). }
    assert (Hdep : forall p, depth (get bs p) = depth (get bs3 p)).
    { intros p.
      apply (sameUpTo_field depth (erase := erasePath) p (fun b => eq_refl)
               (da_same I)). }
    constructor.
    + eapply sameUpTo_trans; [|apply sameUpTo_map; reflexivity].
      eapply sameUpTo_trans; [|apply sameUpTo_map; reflexivity].
      split; [apply (da_same I)|]. intros p.
      pose proof (proj2 (da_same I) p) as Hp.
      change (eraseLayout (erasePath (get bs p))
              = eraseLayout (erasePath (get bs3 p))).
      rewrite Hp. reflexivity.
    + intros p. rewrite get_map by reflexivity. simpl.
      rewrite get_map by reflexivity. simpl. split; [reflexivity|].
      rewrite (sameUpTo_field isFixed (erase := erasePath) p
                 (fun b => eq_refl) (da_same I)).
      apply stage3_unvisited.
    + exact Hpath.
    + intros p Hp. rewrite !get_map by reflexivity. simpl.
      rewrite Hdep. reflexivity.
    + intros p Hp. rewrite !get_map by reflexivity. reflexivity.
    + intros b a Ha.
      destruct (stage3_cleft_range _ _ _ _ Ha) as [Hb _].
      apply (da_edge I); [apply Hvis; assumption|assumption].
Qed.

(** *** Claim about S4 *)

Lemma StronglySorted_app_l {A : Type} (R : A -> A -> Prop) l1 l2 :
  StronglySorted R (l1 ++ l2) -> StronglySorted R l1.
Proof.
  induction l1 as [|x l1 IH]; simpl; intros H; [constructor|].
  apply StronglySorted_inv in H. destruct H as [H Hx].
  constructor; [apply IH; assumption|].
  rewrite Forall_forall in *. intros y Hy. apply Hx, in_or_app. left; assumption.
Qed.

(** C8 (amended). When applyDFS is enabled, stage S4 processes the blocks
    in descending depth order and, for each block [s] that is still
    unvisited when its turn comes, sets [pathDepth = s.depth + 1] on [s]
    and on every block reachable from [s] along cleftN edges that is not
    visited yet, marking them visited; the blocks already visited (by a
    start of greater or equal depth) and the blocks not reachable are left
    as they are.  Afterwards every block satisfies
    [left = depth / pathDepth] and [width = 1 / pathDepth], and after
    seeding the visited flag of every block is cleared. *)
Theorem C8_dfs_width_seeding o arr total :
  applyDFS o <> 0 ->
  exists st4 st4',
    dfsWidthExpansion (stage3 o arr) = Some st4 /\
    stage4 o total (stage3 o arr) = Some st4' /\
    StronglySorted
      (fun p q => depth (get (blocks st4) q) <= depth (get (blocks st4) p))
      (blocksReordered st4) /\
    Permutation (blocksReordered st4) (seq 0 (length arr)) /\
    (forall pre s post, blocksReordered st4 = pre ++ s :: post ->
       exists bs, dfs_all pre (blocks (stage3 o arr)) = Some bs /\
         (visited (get bs s) = false ->
          exists bs',
            depthFirstSearchRec bs s (depth (get bs s) + 1) = Some bs' /\
            forall x,
              (visited (get bs x) = false -> reachOrSelf bs s x ->
                 visited (get bs' x) = true /\
                 pathDepth (get bs' x) = depth (get bs s) + 1) /\
              (visited (get bs x) = true \/ ~ reachOrSelf bs s x ->
                 get bs' x = get bs x))) /\
    (forall b, In b (blocks st4) ->
       left b = (inject_Z (depth b) / inject_Z (pathDepth b))%Q /\
       width b = (1 / inject_Z (pathDepth b))%Q) /\
    (forall b, In b (blocks st4') -> visited b = false).
Proof.
  intros Hdfs.
  destruct (dfs_all_stage3 o arr) as [bs4 [E [I Hvis]]].
  set (bs3 := blocks (stage3 o arr)) in *.
  set (ord := sortBy (depthAfter bs3) (blocksReordered (stage3 o arr))) in *.
  assert (Hperm : Permutation ord (seq 0 (length arr))).
  { unfold ord. eapply Permutation_trans; [apply sortBy_perm|].
    rewrite stage3_order. apply (stage1_frame o arr). }
  assert (Hsorted : StronglySorted
            (fun p q => depth (get bs3 q) <= depth (get bs3 p)) ord)
    by apply depthAfter_sorted.
  exists (mkState (map seedFromPath bs4) ord (matrix (stage3 o arr))).
  exists (mkState (map (set_visited false) (map seedFromPath bs4)) ord
                  (matrix (stage3 o arr))).
  assert (E4 : dfsWidthExpansion (stage3 o arr)
               = Some (mkState (map seedFromPath bs4) ord
                               (matrix (stage3 o arr)))).
  { unfold dfsWidthExpansion. fold bs3. fold ord. rewrite E. reflexivity. }
  split; [exact E4|]. split.
  { unfold stage4. destruct (Z.eqb_spec (applyDFS o) 0); [contradiction|].
    rewrite E4. reflexivity. }
  cbn [blocks blocksReordered].
  split; [|split; [|split; [|split]]].
  - eapply StronglySorted_weaken; [|exact Hsorted].
    intros p q. cbv beta. rewrite !get_map by reflexivity. simpl.
    rewrite !(sameUpTo_field depth (erase := erasePath) _ (fun b => eq_refl)
                (da_same I)). auto.
  - exact Hperm.
  - intros pre s post Hord.
    assert (Hr : forall x, In x (pre ++ s :: post) -> (x < length arr)%nat).
    { intros x Hx. rewrite <- Hord in Hx.
      apply (@seq_perm_lt _ _ x Hperm). assumption. }
    destruct (@dfs_all_spec (length arr) bs3) with (ord := pre) (bs := bs3)
      as [bs [Ep [Ip _]]].
    + apply stage3_length.
    + intros v a H. apply (stage3_cleft_range _ _ _ _ H).
    + apply dfsall_inv_init. intros p. apply stage3_unvisited.
    + rewrite Hord in Hsorted. apply (StronglySorted_app_l _ _ Hsorted).
    + intros x Hx. apply Hr, in_or_app. left; assumption.
    + exists bs. split; [assumption|]. intros Hs.
      destruct (@depthFirstSearchRec_spec (length arr) bs s
                  (depth (get bs s) + 1)) as [bs' [E' [_ P]]].
      * rewrite (sameUpTo_length (da_same Ip)). apply stage3_length.
      * intros v a H. rewrite (sameUpTo_cleftN_path v (da_same Ip)) in H.
        apply (stage3_cleft_range _ _ _ _ H).
      * apply (da_closed Ip).
      * apply Hr, in_or_app. right. left. reflexivity.
      * assumption.
      * exists bs'. split; [assumption|]. intros x.
        destruct (P x) as [P1 [P2 _]]. split; assumption.
  - intros b Hb. apply in_map_iff in Hb. destruct Hb as [b0 [<- _]].
    split; reflexivity.
  - intros b Hb. apply in_map_iff in Hb. destruct Hb as [b0 [<- _]].
    reflexivity.
Qed.

Lemma C8_dfs_width_seeding_witness :
  applyDFS defaultOptions <> 0 /\
  exists st4 st4',
    dfsWidthExpansion (stage3 defaultOptions example_C8) = Some st4 /\
    stage4 defaultOptions 3 (stage3 defaultOptions example_C8) = Some st4' /\
    StronglySorted
      (fun p q => depth (get (blocks st4) q) <= depth (get (blocks st4) p))
      (blocksReordered st4) /\
    Permutation (blocksReordered st4) (seq 0 (length example_C8)) /\
    (forall pre s post, blocksReordered st4 = pre ++ s :: post ->
       exists bs,
         dfs_all pre (blocks (stage3 defaultOptions example_C8)) = Some bs /\
         (visited (get bs s) = false ->
          exists bs',
            depthFirstSearchRec bs s (depth (get bs s) + 1) = Some bs' /\
            forall x,
              (visited (get bs x) = false -> reachOrSelf bs s x ->
                 visited (get bs' x) = true /\
                 pathDepth (get bs' x) = depth (get bs s) + 1) /\
              (visited (get bs x) = true \/ ~ reachOrSelf bs s x ->
                 get bs' x = get bs x))) /\
    (forall b, In b (blocks st4) ->
       left b = (inject_Z (depth b) / inject_Z (pathDepth b))%Q /\
       width b = (1 / inject_Z (pathDepth b))%Q) /\
    (forall b, In b (blocks st4') -> visited b = false).
Proof.
  assert (H : applyDFS defaultOptions <> 0) by discriminate.
  split; [exact H|].
  exact (@C8_dfs_width_seeding defaultOptions example_C8 3 H).
Defined.

(** On the blocks [0,100), [10,20), [30,50), [40,60) (depths 0, 1, 1, 2)
    the order of the starts is 3, 1, 2, 0.  The start 3 marks the blocks
    3, 2 and 0 with [pathDepth = 3].  Block 1 is then still unvisited and
    reaches block 0, but its traversal leaves [pathDepth = 3] on block 0
    instead of setting [depth(1) + 1 = 2]. *)
Lemma C8_visited_kept_counterexample :
  sortBy (depthAfter (blocks (stage3 defaultOptions example_C8)))
         (blocksReordered (stage3 defaultOptions example_C8))
    = [3%nat; 1%nat; 2%nat; 0%nat] /\
  match dfs_all [3%nat] (blocks (stage3 defaultOptions example_C8)) with
  | Some bs =>
      visited (get bs 1) = false /\
      In 0%nat (cleftN (get bs 1)) /\
      match depthFirstSearchRec bs 1 (depth (get bs 1) + 1) with
      | Some bs' => pathDepth (get bs' 0) <> depth (get bs 1) + 1
      | None => False
      end
  | None => False
  end.
Proof.
  split; [vm_compute; reflexivity|].
  vm_compute. split; [reflexivity|]. split; [auto|]. discriminate.
Qed.

(** ** S5: the fixed detector *)

Lemma list_sum_pointwise (w : ScheduleBlock -> nat) : forall bs bs',
  length bs' = length bs ->
  (forall p, (w (get bs' p) <= w (get bs p))%nat) ->
  (list_sum (map w bs') <= list_sum (map w bs))%nat.
Proof.
  induction bs as [|b bs IH]; intros [|b' bs'] Hl Hp; simpl in *;
    try discriminate; [lia|].
  pose proof (Hp O) as H0. unfold get in H0. simpl in H0.
  specialize (IH bs' ltac:(lia) (fun p => Hp (S p))). lia.
Qed.

Lemma unvisitedCount_le_length bs : (unvisitedCount bs <= length bs)%nat.
Proof.
  unfold unvisitedCount. induction bs as [|b bs IH]; simpl; [lia|].
  unfold unvisitedWeight at 1. destruct (visited b); lia.
Qed.

Lemma unvisitedCount_mark p bs :
  (p < length bs)%nat -> visited (get bs p) = false ->
  (unvisitedCount (upd p (set_visited true) bs) + 1 = unvisitedCount bs)%nat.
Proof.
  intros Hp Hv. unfold unvisitedCount.
  pose proof (@list_sum_upd unvisitedWeight p (set_visited true) bs Hp) as H.
  assert (H1 : unvisitedWeight (get bs p) = 1%nat)
    by (unfold unvisitedWeight; rewrite Hv; reflexivity).
  assert (H2 : unvisitedWeight (set_visited true (get bs p)) = O)
    by reflexivity.
  rewrite H1, H2 in H. lia.
Qed.

Lemma unvisitedCount_mono bs bs' :
  length bs' = length bs -> visitedMono bs bs' ->
  (unvisitedCount bs' <= unvisitedCount bs)%nat.
Proof.
  intros Hl Hm. apply list_sum_pointwise; [assumption|].
  intros p. unfold unvisitedWeight.
  destruct (visited (get bs p)) eqn:E.
  - rewrite (Hm p E). lia.
  - destruct (visited (get bs' p)); lia.
Qed.

Lemma visitedMono_refl bs : visitedMono bs bs.
Proof. intros p H. exact H. Qed.

Lemma visitedMono_trans bs1 bs2 bs3 :
  visitedMono bs1 bs2 -> visitedMono bs2 bs3 -> visitedMono bs1 bs3.
Proof. intros H1 H2 p H. apply H2, H1, H. Qed.

Lemma visitedMono_mark p bs : visitedMono bs (upd p (set_visited true) bs).
Proof.
  intros q H. destruct (Nat.eq_dec p q) as [->|Hne].
  - destruct (Nat.lt_ge_cases q (length bs)) as [Hl|Hl].
    + rewrite get_upd_eq by assumption. reflexivity.
    + unfold get in *. rewrite nth_overflow in H by assumption. discriminate.
  - rewrite get_upd_ne by assumption. assumption.
Qed.

Lemma visitedMono_setFixed p v bs : visitedMono bs (upd p (set_isFixed v) bs).
Proof.
  intros q H. rewrite (get_upd_field visited); [assumption|reflexivity].
Qed.

Lemma adjInRange_same erase bs bs' :
  (forall b, cleftN (erase b) = cleftN b) ->
  (forall b, crightN (erase b) = crightN b) ->
  sameUpTo erase bs bs' -> adjInRange bs -> adjInRange bs'.
Proof.
  intros H1 H2 Hs Hr v a Ha.
  rewrite (sameUpTo_length Hs).
  rewrite (sameUpTo_field cleftN v H1 Hs),
          (sameUpTo_field crightN v H2 Hs) in Ha.
  eapply Hr; eassumption.
Qed.

Lemma adjInRange_flags bs bs' :
  sameUpTo eraseFlags bs bs' -> adjInRange bs -> adjInRange bs'.
Proof. apply adjInRange_same; reflexivity. Qed.

Section FixedLoop.
Variable fuel : nat.
Hypothesis rec_spec : forall start bs,
  (start < length bs)%nat -> visited (get bs start) = false ->
  adjInRange bs -> (unvisitedCount bs <= fuel)%nat ->
  exists bs' r, DFSFindFixedNumerical fuel start bs = Some (bs', r) /\
    sameUpTo eraseFlags bs bs' /\ visitedMono bs bs'.

Lemma fixedLoop_spec startLeft : forall adjs bs flag,
  (forall a, In a adjs -> (a < length bs)%nat) ->
  adjInRange bs -> (unvisitedCount bs <= fuel)%nat ->
  exists bs' r,
    fixedLoop (DFSFindFixedNumerical fuel) startLeft adjs bs flag
      = Some (bs', r) /\
    sameUpTo eraseFlags bs bs' /\ visitedMono bs bs'.
Proof.
  induction adjs as [|adj adjs IH]; intros bs flag Hr Hadj Hc; simpl.
  - exists bs, flag. split; [reflexivity|].
    split; [apply sameUpTo_refl|apply visitedMono_refl].
  - assert (Hr' : forall a, In a adjs -> (a < length bs)%nat)
      by (intros a Ha; apply Hr; right; assumption).
    destruct (Qltb _ DOUBLE_EPS); [|apply IH; assumption].
    destruct (visited (get bs adj)) eqn:Hv; [apply IH; assumption|].
    destruct (@rec_spec adj bs) as [bs1 [r [E [Hs Hm]]]]; auto.
    { apply Hr. left; reflexivity. }
    rewrite E.
    destruct (IH bs1 (r || flag)) as [bs' [r' [E' [Hs' Hm']]]].
    + intros a Ha. rewrite (sameUpTo_length Hs). apply Hr'; assumption.
    + eapply adjInRange_flags; eassumption.
    + pose proof (@unvisitedCount_mono bs bs1 (sameUpTo_length Hs) Hm). lia.
    + exists bs', r'. split; [assumption|].
      split; [eapply sameUpTo_trans; eassumption
             |eapply visitedMono_trans; eassumption].
Qed.
End FixedLoop.

(** [DFSFindFixedNumerical] returns, and writes the two flags only. *)
Lemma DFSFindFixedNumerical_spec : forall fuel start bs,
  (start < length bs)%nat -> visited (get bs start) = false ->
  adjInRange bs -> (unvisitedCount bs <= fuel)%nat ->
  exists bs' r, DFSFindFixedNumerical fuel start bs = Some (bs', r) /\
    sameUpTo eraseFlags bs bs' /\ visitedMono bs bs'.
Proof.
  induction fuel as [|fuel IH]; intros start bs Hs Hv Hadj Hc.
  - pose proof (@unvisitedCount_mark start bs Hs Hv). lia.
  - simpl.
    set (bs1 := upd start (set_visited true) bs).
    assert (Hs1 : sameUpTo eraseFlags bs bs1)
      by (apply sameUpTo_upd; reflexivity).
    assert (Hm1 : visitedMono bs bs1) by apply visitedMono_mark.
    destruct (Qeq_bool (left (get bs1 start)) 0).
    + eexists _, _. split; [reflexivity|]. split.
      * eapply sameUpTo_trans; [exact Hs1|apply sameUpTo_upd; reflexivity].
      * eapply visitedMono_trans; [exact Hm1|apply visitedMono_setFixed].
    + destruct (@fixedLoop_spec fuel IH (left (get bs1 start))
                  (cleftN (get bs1 start)) bs1 false)
        as [bs2 [flag [E [Hs2 Hm2]]]].
      * intros a Ha. unfold bs1 at 1. rewrite length_upd.
        apply (Hadj start a). left.
        rewrite <- (sameUpTo_field cleftN (erase := eraseFlags) start
                      (fun b => eq_refl) Hs1). assumption.
      * eapply adjInRange_flags; eassumption.
      * pose proof (@unvisitedCount_mark start bs Hs Hv). fold bs1 in H. lia.
      * rewrite E. eexists _, _. split; [reflexivity|]. split.
        -- eapply sameUpTo_trans; [exact Hs1|].
           eapply sameUpTo_trans; [exact Hs2|apply sameUpTo_upd; reflexivity].
        -- eapply visitedMono_trans; [exact Hm1|].
           eapply visitedMono_trans; [exact Hm2|apply visitedMono_setFixed].
Qed.

Lemma fixedPass0_spec : forall ps bs,
  (forall p, In p ps -> (p < length bs)%nat) -> adjInRange bs ->
  exists bs', fixedPass0 ps bs = Some bs' /\ sameUpTo eraseFlags bs bs'.
Proof.
  induction ps as [|p ps IH]; intros bs Hr Hadj; simpl.
  - exists bs. split; [reflexivity|apply sameUpTo_refl].
  - assert (Hr' : forall q, In q ps -> (q < length bs)%nat)
      by (intros q Hq; apply Hr; right; assumption).
    destruct (visited (get bs p)) eqn:Hv; [apply IH; assumption|].
    destruct (Qltb _ DOUBLE_EPS); [|apply IH; assumption].
    destruct (@DFSFindFixedNumerical_spec (length bs) p bs)
      as [bs1 [r [E [Hs Hm]]]]; auto.
    { apply Hr. left; reflexivity. }
    { apply unvisitedCount_le_length. }
    rewrite E. destruct (IH bs1) as [bs' [E' Hs']].
    + intros q Hq. rewrite (sameUpTo_length Hs). apply Hr'; assumption.
    + eapply adjInRange_flags; eassumption.
    + exists bs'. split; [assumption|]. eapply sameUpTo_trans; eassumption.
Qed.

Lemma fixedPass_spec : forall ps bs,
  (forall p, In p ps -> (p < length bs)%nat) -> adjInRange bs ->
  exists bs', fixedPass ps bs = Some bs' /\ sameUpTo eraseFlags bs bs'.
Proof.
  induction ps as [|p ps IH]; intros bs Hr Hadj; simpl.
  - exists bs. split; [reflexivity|apply sameUpTo_refl].
  - assert (Hr' : forall q, In q ps -> (q < length bs)%nat)
      by (intros q Hq; apply Hr; right; assumption).
    destruct (visited (get bs p)) eqn:Hv; [apply IH; assumption|].
    destruct (_ || _); [|apply IH; assumption].
    destruct (@DFSFindFixedNumerical_spec (length bs) p bs)
      as [bs1 [r [E [Hs Hm]]]]; auto.
    { apply Hr. left; reflexivity. }
    { apply unvisitedCount_le_length. }
    rewrite E. destruct (IH bs1) as [bs' [E' Hs']].
    + intros q Hq. rewrite (sameUpTo_length Hs). apply Hr'; assumption.
    + eapply adjInRange_flags; eassumption.
    + exists bs'. split; [assumption|]. eapply sameUpTo_trans; eassumption.
Qed.

Lemma getFixedCount_spec bs :
  sameUpTo eraseFlags bs (fst (getFixedCount bs)) /\
  forall p, visited (get (fst (getFixedCount bs)) p)
            = isFixed (get (fst (getFixedCount bs)) p).
Proof.
  unfold getFixedCount; cbn [fst]. split.
  - apply sameUpTo_map. reflexivity.
  - intros p. rewrite get_map by reflexivity. reflexivity.
Qed.
(** ** S6: the components *)

Lemma visited_upd_true p q bs :
  (p < length bs)%nat ->
  (visited (get (upd p (set_visited true) bs) q) = true <->
   visited (get bs q) = true \/ q = p).
Proof.
  intros Hp. destruct (Nat.eq_dec p q) as [->|Hne].
  - rewrite get_upd_eq by assumption. simpl. tauto.
  - rewrite get_upd_ne by assumption. split; [tauto|].
    intros [H|H]; [assumption|congruence].
Qed.

Section BfsVisit.
Variable bs0 : list ScheduleBlock.
Variable M : nat.

Lemma bfs_visit_spec : forall nodes buffer bs buffer' bs',
  (forall a, In a nodes -> (a < length bs0)%nat) ->
  bfs_inv bs0 M buffer bs ->
  bfs_visit nodes buffer bs = (buffer', bs') ->
  bfs_inv bs0 M buffer' bs' /\ visitedMono bs bs' /\
  (forall a, In a nodes -> visited (get bs' a) = true) /\
  exists new, buffer' = buffer ++ new.
Proof.
  induction nodes as [|node nodes IH]; intros buffer bs buffer' bs' Hr I E;
    simpl in E.
  - injection E as <- <-. split; [assumption|].
    split; [apply visitedMono_refl|]. split; [intros a []|].
    exists []. rewrite app_nil_r. reflexivity.
  - assert (Hr' : forall a, In a nodes -> (a < length bs0)%nat)
      by (intros a Ha; apply Hr; right; assumption).
    assert (Hn : (node < length bs)%nat).
    { rewrite (sameUpTo_length (bi_same I)). apply Hr. left; reflexivity. }
    destruct (visited (get bs node)) eqn:Hv.
    + destruct (IH _ _ _ _ Hr' I E) as [I' [Hm [Hall Hnew]]].
      split; [assumption|]. split; [assumption|]. split; [|assumption].
      intros a [<-|Ha]; [apply Hm; assumption|apply Hall; assumption].
    + assert (I1 : bfs_inv bs0 M (buffer ++ [node])
                     (upd node (set_visited true) bs)).
      { assert (Hnb : ~ In node buffer).
        { intros Hin.
          assert (visited (get bs node) = true)
            by (apply (bi_visited I); right; assumption).
          congruence. }
        assert (Hv0 : visited (get bs0 node) = false).
        { destruct (visited (get bs0 node)) eqn:Hv0; [|reflexivity].
          assert (visited (get bs node) = true)
            by (apply (bi_visited I); left; assumption).
          congruence. }
        constructor.
        - eapply sameUpTo_trans; [apply (bi_same I)|].
          apply sameUpTo_upd. reflexivity.
        - intros p. rewrite visited_upd_true by assumption.
          rewrite (bi_visited I p), in_app_iff. simpl.
          split; [intros [[H|H]|H]|intros [H|[H|[H|[]]]]]; auto.
        - apply NoDup_app.
          + apply (bi_nodup I).
          + constructor; [intros []|constructor].
          + intros x Hx [<-|[]]. contradiction.
        - intros x Hx. apply in_app_iff in Hx.
          destruct Hx as [Hx|[<-|[]]]; [apply (bi_fresh I); assumption|].
          split; [apply Hr; left; reflexivity|assumption].
        - rewrite length_app. simpl.
          pose proof (@unvisitedCount_mark node bs Hn Hv).
          pose proof (bi_measure I). lia. }
      destruct (IH _ _ _ _ Hr' I1 E) as [I' [Hm [Hall [new Hnew]]]].
      split; [assumption|]. split.
      * eapply visitedMono_trans; [apply visitedMono_mark|exact Hm].
      * split.
        -- intros a [<-|Ha]; [|apply Hall; assumption].
           apply Hm. rewrite get_upd_eq by assumption. reflexivity.
        -- exists (node :: new). rewrite Hnew, <- app_assoc. reflexivity.
Qed.
End BfsVisit.

Section BfsLoop.
Variable bs0 : list ScheduleBlock.
Variable M : nat.
Hypothesis adj_range : adjInRange bs0.

Lemma bfs_loop_spec : forall fuel qIdx buffer bs,
  bfs_inv bs0 M buffer bs ->
  (qIdx <= length buffer)%nat ->
  (M - qIdx <= fuel)%nat ->
  (forall k a, (k < qIdx)%nat ->
     In a (cleftN (get bs0 (nth k buffer O))) \/
     In a (crightN (get bs0 (nth k buffer O))) ->
     visited (get bs a) = true) ->
  exists buffer' bs',
    bfs_loop fuel qIdx buffer bs = Some (buffer', bs') /\
    bfs_inv bs0 M buffer' bs' /\
    (exists new, buffer' = buffer ++ new) /\
    forall b a, In b buffer' ->
      In a (cleftN (get bs0 b)) \/ In a (crightN (get bs0 b)) ->
      visited (get bs' a) = true.
Proof.
  induction fuel as [|fuel IH]; intros qIdx buffer bs I Hq Hf Hc.
  - assert (Hlen : (length buffer <= M)%nat)
      by (pose proof (bi_measure I); lia).
    assert (qIdx = length buffer) by lia. subst qIdx.
    simpl. rewrite Nat.ltb_irrefl.
    exists buffer, bs. split; [reflexivity|]. split; [assumption|].
    split; [exists []; rewrite app_nil_r; reflexivity|].
    intros b a Hb Ha. destruct (In_nth _ _ O Hb) as [k [Hk <-]].
    apply (Hc k a); assumption.
  - simpl. destruct (qIdx <? length buffer)%nat eqn:Hlt.
    + apply Nat.ltb_lt in Hlt.
      set (node := nth qIdx buffer O).
      assert (Hcl : cleftN (get bs node) = cleftN (get bs0 node))
        by (apply (sameUpTo_field cleftN (erase := eraseVisited) node
                     (fun b => eq_refl) (bi_same I))).
      destruct (bfs_visit (cleftN (get bs node)) buffer bs)
        as [buffer1 bs1] eqn:E1.
      destruct (@bfs_visit_spec bs0 M _ _ _ _ _
                  (fun a Ha => adj_range node a
                     (or_introl (eq_ind _ (fun l => In a l) Ha _ Hcl))) I E1)
        as [I1 [Hm1 [Hall1 [new1 Hnew1]]]].
      assert (Hcr : crightN (get bs1 node) = crightN (get bs0 node))
        by (apply (sameUpTo_field crightN (erase := eraseVisited) node
                     (fun b => eq_refl) (bi_same I1))).
      destruct (bfs_visit (crightN (get bs1 node)) buffer1 bs1)
        as [buffer2 bs2] eqn:E2.
      destruct (@bfs_visit_spec bs0 M _ _ _ _ _
                  (fun a Ha => adj_range node a
                     (or_intror (eq_ind _ (fun l => In a l) Ha _ Hcr))) I1 E2)
        as [I2 [Hm2 [Hall2 [new2 Hnew2]]]].
      destruct (IH (S qIdx) buffer2 bs2 I2) as [buffer' [bs' [E [I' [Hn Hc']]]]].
      * rewrite Hnew2, Hnew1, !length_app. lia.
      * lia.
      * intros k a Hk Ha.
        assert (Hnth : forall j, (j < length buffer)%nat ->
                  nth j buffer2 O = nth j buffer O).
        { intros j Hj. rewrite Hnew2, Hnew1, <- app_assoc.
          apply app_nth1. assumption. }
        rewrite Hnth in Ha by lia.
        destruct (Nat.eq_dec k qIdx) as [->|Hne].
        -- fold node in Ha. destruct Ha as [Ha|Ha].
           ++ apply Hm2, Hall1. rewrite Hcl. assumption.
           ++ apply Hall2. rewrite Hcr. assumption.
        -- apply Hm2, Hm1. apply (Hc k a); [lia|assumption].
      * exists buffer', bs'. split; [assumption|]. split; [assumption|].
        split; [|assumption].
        destruct Hn as [new Hn]. exists (new1 ++ new2 ++ new).
        rewrite Hn, Hnew2, Hnew1, <- !app_assoc. reflexivity.
    + apply Nat.ltb_ge in Hlt.
      assert (qIdx = length buffer) by lia. subst qIdx.
      exists buffer, bs. split; [reflexivity|]. split; [assumption|].
      split; [exists []; rewrite app_nil_r; reflexivity|].
      intros b a Hb Ha. destruct (In_nth _ _ O Hb) as [k [Hk <-]].
      apply (Hc k a); assumption.
Qed.

End BfsLoop.

(** [BFS] returns. *)
Lemma BFS_spec bs0 start :
  adjInRange bs0 ->
  (start < length bs0)%nat -> visited (get bs0 start) = false ->
  exists buffer bs, BFS bs0 start = Some (buffer, bs) /\
                    bfs_post bs0 start buffer bs.
Proof.
  intros adj_range Hs Hv. unfold BFS.
  assert (I : bfs_inv bs0 (unvisitedCount bs0) [start]
                (upd start (set_visited true) bs0)).
  { constructor.
    - apply sameUpTo_upd. reflexivity.
    - intros p. rewrite visited_upd_true by assumption. simpl.
      split; [intros [H|H]|intros [H|[H|[]]]]; auto.
    - constructor; [intros []|constructor].
    - intros x [<-|[]]. split; assumption.
    - simpl. pose proof (@unvisitedCount_mark start bs0 Hs Hv). lia. }
  destruct (@bfs_loop_spec bs0 (unvisitedCount bs0) adj_range
              (length bs0) O _ _ I)
    as [buffer [bs [E [I' [[new Hn] Hc]]]]].
  - simpl. lia.
  - pose proof (unvisitedCount_le_length bs0). lia.
  - intros k a Hk. lia.
  - exists buffer, bs. split; [assumption|]. constructor.
    + apply (bi_same I').
    + apply (bi_visited I').
    + apply (bi_nodup I').
    + apply (bi_fresh I').
    + rewrite Hn. left. reflexivity.
    + assumption.
Qed.
(** ** The problems handed to the solver *)

Lemma Qltb_true x y : Qltb x y = true <-> (x < y)%Q.
Proof.
  unfold Qltb. rewrite negb_true_iff. split.
  - intros H. apply Qnot_le_lt. intros Hle.
    apply Qle_bool_iff in Hle. congruence.
  - intros H. destruct (Qle_bool y x) eqn:E; [|reflexivity].
    apply Qle_bool_iff in E. exfalso. apply (Qlt_not_le _ _ H E).
Qed.

Lemma Qltb_false x y : Qltb x y = false <-> (y <= x)%Q.
Proof.
  unfold Qltb. rewrite negb_false_iff. apply Qle_bool_iff.
Qed.





(** *** Rows and columns *)

Lemma satisfies_compat b v v' : (v == v')%Q -> satisfies b v -> satisfies b v'.
Proof.
  intros E. destruct b as [[[] lb] ub]; simpl; rewrite E; auto.
Qed.

Lemma rowActivity_app t ts x r :
  (rowActivity (t ++ ts) x r == rowActivity t x r + rowActivity ts x r)%Q.
Proof.
  induction t as [|e t IH]; simpl.
  - lra.
  - destruct (rowOf e =? r)%nat; rewrite IH; lra.
Qed.

Lemma rowActivity_other t x r :
  (forall e, In e t -> rowOf e <> r) -> rowActivity t x r = 0%Q.
Proof.
  induction t as [|e t IH]; intros H; simpl; [reflexivity|].
  destruct (Nat.eqb_spec (rowOf e) r) as [E|E].
  - exfalso. apply (H e); [left; reflexivity|assumption].
  - apply IH. intros e' He'. apply H. right; assumption.
Qed.

Lemma bndOf_cons_eq k b l : bndOf ((k, b) :: l) k = Some b.
Proof. unfold bndOf. simpl. rewrite Nat.eqb_refl. reflexivity. Qed.

Lemma bndOf_cons_ne k k' b l : k <> k' -> bndOf ((k, b) :: l) k' = bndOf l k'.
Proof.
  intros H. unfold bndOf. simpl.
  destruct (Nat.eqb_spec k k'); [contradiction|reflexivity].
Qed.

Lemma bndOf_In l k b : bndOf l k = Some b -> In (k, b) l.
Proof.
  unfold bndOf. destruct (find _ l) as [e|] eqn:E; [|discriminate].
  intros H. injection H as <-. apply find_some in E. destruct E as [Hin Hk].
  apply Nat.eqb_eq in Hk. simpl in Hk. subst k.
  destruct e; assumption.
Qed.

(** a row set on a fresh index adds its constraint *)
Lemma sat_rows_add rb t a b ts x :
  (forall e, In e rb -> (fst e < a)%nat) ->
  (forall e, In e t -> (rowOf e < a)%nat) ->
  (forall e, In e ts -> rowOf e = a) ->
  (sat_rows ((a, b) :: rb) (t ++ ts) x <->
   sat_rows rb t x /\ satisfies b (rowActivity ts x a)).
Proof.
  intros Hrb Ht Hts.
  assert (Ha : rowActivity t x a = 0%Q).
  { apply rowActivity_other. intros e He. specialize (Ht e He). lia. }
  assert (Hother : forall r, (r < a)%nat -> rowActivity ts x r = 0%Q).
  { intros r Hr. apply rowActivity_other. intros e He.
    rewrite (Hts e He). lia. }
  split.
  - intros H. split.
    + intros r b' Hb.
      assert (Hr : (r < a)%nat) by (apply (Hrb _ (bndOf_In _ _ Hb))).
      specialize (H r b'). rewrite bndOf_cons_ne in H by lia.
      specialize (H Hb). eapply satisfies_compat; [|exact H].
      rewrite rowActivity_app, (Hother r Hr). lra.
    + specialize (H a b (bndOf_cons_eq _ _ _)).
      eapply satisfies_compat; [|exact H].
      rewrite rowActivity_app, Ha. lra.
  - intros [H1 H2] r b' Hb.
    destruct (Nat.eq_dec a r) as [<-|Hne].
    + rewrite bndOf_cons_eq in Hb. injection Hb as <-.
      eapply satisfies_compat; [|exact H2].
      rewrite rowActivity_app, Ha. lra.
    + rewrite bndOf_cons_ne in Hb by assumption.
      assert (Hr : (r < a)%nat) by (apply (Hrb _ (bndOf_In _ _ Hb))).
      eapply satisfies_compat; [|exact (H1 r b' Hb)].
      rewrite rowActivity_app, (Hother r Hr). lra.
Qed.

(** a column bound set on a fresh index adds its constraint *)
Lemma sat_cols_add cb c b x :
  (forall e, In e cb -> fst e <> c) ->
  (sat_cols ((c, b) :: cb) x <-> sat_cols cb x /\ satisfies b (x c)).
Proof.
  intros Hcb. split.
  - intros H. split.
    + intros c' b' Hb.
      assert (Hc : c' <> c) by (apply (Hcb _ (bndOf_In _ _ Hb))).
      apply H. rewrite bndOf_cons_ne by auto. assumption.
    + apply H. apply bndOf_cons_eq.
  - intros [H1 H2] c' b' Hb.
    destruct (Nat.eq_dec c c') as [<-|Hne].
    + rewrite bndOf_cons_eq in Hb. injection Hb as <-. assumption.
    + rewrite bndOf_cons_ne in Hb by assumption. apply H1. assumption.
Qed.

Lemma satisfiesb_true b v : satisfiesb b v = true -> satisfies b v.
Proof.
  destruct b as [[[] lb] ub]; simpl; intros H.
  - apply Qle_bool_iff. assumption.
  - apply Qle_bool_iff. assumption.
  - apply andb_true_iff in H. destruct H as [H1 H2].
    split; apply Qle_bool_iff; assumption.
Qed.

(** [feasibleb] decides in favour of [feasible] only when it holds. *)
Lemma feasibleb_sound lp x : feasibleb lp x = true -> feasible lp x.
Proof.
  unfold feasibleb. rewrite !andb_true_iff, !forallb_forall.
  intros [[Hr Hc] Hb]. split; [|split].
  - intros r b Hrb. specialize (Hr _ (bndOf_In _ _ Hrb)). simpl in Hr.
    rewrite Hrb in Hr. apply satisfiesb_true. assumption.
  - intros c b Hcb. specialize (Hc _ (bndOf_In _ _ Hcb)). simpl in Hc.
    rewrite Hcb in Hc. apply satisfiesb_true. assumption.
  - intros c Hin. specialize (Hb c Hin). apply orb_true_iff in Hb.
    destruct Hb as [H|H]; apply Qeq_bool_iff in H; auto.
Qed.

(** *** LP model 1 *)

Ltac row_list :=
  unfold addConstraint; rewrite <- ?app_assoc; cbn [app].

Lemma build_wf_row st b ts :
  build_wf st -> (forall e, In e ts -> rowOf e = b_aux st) ->
  build_wf (mkBuild
              (mkProb (obj_dir (b_lp st)) (n_cols (b_lp st)) (n_rows (b_lp st))
                 ((b_aux st, b) :: row_bnds (b_lp st)) (col_bnds (b_lp st))
                 (obj_coef (b_lp st)) (col_bin (b_lp st)) (mat (b_lp st)))
              (b_trip st ++ ts) (S (b_aux st))).
Proof.
  intros [W1 W2] Hts. split; cbn [b_lp b_trip b_aux row_bnds].
  - intros e [<-|He]; [simpl; lia|]. specialize (W1 e He). lia.
  - intros e He. apply in_app_iff in He. destruct He as [He|He].
    + specialize (W2 e He). lia.
    + rewrite (Hts e He). lia.
Qed.

Lemma lp1_cleft_sem bs idxMap leftVar x : forall vs st mlf st' mlf',
  build_wf st ->
  lp1_cleft bs idxMap leftVar vs st mlf = (st', mlf') ->
  build_wf st' /\ (b_aux st <= b_aux st')%nat /\
  col_bnds (b_lp st') = col_bnds (b_lp st) /\
  mlf' = maxLeft bs vs mlf /\
  (sat_rows (row_bnds (b_lp st')) (b_trip st') x <->
   sat_rows (row_bnds (b_lp st)) (b_trip st) x /\
   forall v, In v vs -> isFixed (get bs v) = false ->
     (x (nth (idx (get bs v)) idxMap O)
      + x (nth (idx (get bs v)) idxMap O + 1)%nat <= x leftVar)%Q).
Proof.
  induction vs as [|v vs IH]; intros st mlf st' mlf' W E; simpl in E.
  - injection E as <- <-. split; [assumption|]. split; [lia|].
    split; [reflexivity|]. split; [reflexivity|].
    split; [intros H; split; [assumption|intros v []]|tauto].
  - simpl maxLeft. destruct (isFixed (get bs v)) eqn:Hf.
    + destruct (IH _ _ _ _ W E) as [W' [Ha [Hc [Hm Hs]]]].
      split; [assumption|]. split; [assumption|]. split; [assumption|].
      split; [assumption|]. rewrite Hs. split.
      * intros [H1 H2]. split; [assumption|].
        intros u [<-|Hu] Hfu; [congruence|apply H2; assumption].
      * intros [H1 H2]. split; [assumption|].
        intros u Hu. apply H2. right; assumption.
    + revert E. row_list. intros E.
      set (jv := nth (idx (get bs v)) idxMap O) in *.
      set (ts := [(b_aux st, leftVar, 1%Q); (b_aux st, jv, (-1)%Q);
                  (b_aux st, (jv + 1)%nat, (-1)%Q)]) in *.
      assert (Hts : forall e, In e ts -> rowOf e = b_aux st).
      { intros e [<-|[<-|[<-|[]]]]; reflexivity. }
      pose proof (@build_wf_row st (GLP_LO, 0%Q, 0%Q) ts W Hts) as W1.
      destruct (IH _ _ _ _ W1 E) as [W' [Ha [Hc [Hm Hs]]]].
      cbn [b_lp b_trip b_aux row_bnds col_bnds] in Ha, Hc, Hs.
      split; [assumption|]. split; [lia|]. split; [assumption|].
      split; [assumption|]. rewrite Hs.
      rewrite (@sat_rows_add _ _ _ _ ts x (proj1 W) (proj2 W) Hts).
      assert (Hrow : satisfies (GLP_LO, 0%Q, 0%Q) (rowActivity ts x (b_aux st))
                     <-> (x jv + x (jv + 1)%nat <= x leftVar)%Q).
      { unfold ts, rowActivity, rowOf, colOf. cbn [fold_right fst snd].
        rewrite !Nat.eqb_refl. simpl satisfies. split; intros H; lra. }
      rewrite Hrow. split.
      * intros [[H1 H2] H3]. split; [assumption|].
        intros u [<-|Hu] Hfu; [assumption|apply H3; assumption].
      * intros [H1 H2]. split; [split; [assumption|]|].
        -- apply H2; [left; reflexivity|assumption].
        -- intros u Hu. apply H2. right; assumption.
Qed.

Lemma lp1_blocks_sem bs idxMap x : forall buffer i st,
  build_wf st -> cols_below (2 * i + 1) (b_lp st) ->
  build_wf (lp1_blocks bs idxMap buffer i st) /\
  (b_aux st <= b_aux (lp1_blocks bs idxMap buffer i st))%nat /\
  cols_below (2 * (i + length buffer) + 1)
    (b_lp (lp1_blocks bs idxMap buffer i st)) /\
  (build_sat (lp1_blocks bs idxMap buffer i st) x <->
   build_sat st x /\
   forall k, (k < length buffer)%nat ->
     lp1_block_ok bs idxMap x (i + k) (nth k buffer O)).
Proof.
  induction buffer as [|block buffer IH]; intros i st W C.
  - cbn [lp1_blocks length]. split; [assumption|]. split; [lia|].
    split; [rewrite Nat.add_0_r; assumption|].
    split; [intros H; split; [assumption|intros k Hk; inversion Hk]|tauto].
  - cbn [lp1_blocks].
    destruct (lp1_cleft bs idxMap (2 * i + 1) (cleftN (get bs block)) st 0%Q)
      as [st1 mlf] eqn:E.
    destruct (@lp1_cleft_sem bs idxMap (2 * i + 1)%nat x _ _ _ _ _ W E)
      as [W1 [Ha1 [Hc1 [Hm Hs1]]]].
    revert IH. row_list. intros IH.
    set (ts := [(b_aux st1, (2 * i + 1)%nat, 1%Q);
                (b_aux st1, (2 * i + 1 + 1)%nat, 1%Q)]).
    assert (Hts : forall e, In e ts -> rowOf e = b_aux st1).
    { intros e [<-|[<-|[]]]; reflexivity. }
    set (mr := minRight bs (crightN (get bs block)) 1%Q).
    match goal with
    | |- context [lp1_blocks bs idxMap buffer (S i) ?s] => set (st2 := s)
    end.
    assert (W2 : build_wf st2).
    { apply (@build_wf_row st1 (GLP_UP, 0%Q, mr) ts W1 Hts). }
    assert (C2 : cols_below (2 * S i + 1) (b_lp st2)).
    { intros e He. unfold st2 in He.
      cbn [b_lp col_bnds glp_set_obj_coef glp_set_col_bnds glp_set_row_bnds]
        in He.
      destruct He as [<-|[<-|He]]; [simpl; lia|simpl; lia|].
      rewrite Hc1 in He. specialize (C e He). lia. }
    destruct (IH (S i) st2 W2 C2) as [W' [Ha' [C' Hs']]].
    split; [assumption|].
    split.
    { assert (b_aux st2 = S (b_aux st1)) by reflexivity. lia. }
    split.
    { cbn [length]. replace (i + S (length buffer))%nat
        with (S i + length buffer)%nat by lia. assumption. }
    rewrite Hs'.
    assert (Hst2 : build_sat st2 x <->
              build_sat st x /\ lp1_block_ok bs idxMap x i block).
    { unfold build_sat, st2.
      cbn [b_lp b_trip row_bnds col_bnds glp_set_obj_coef glp_set_col_bnds
           glp_set_row_bnds].
      rewrite (@sat_rows_add _ _ _ _ ts x (proj1 W1) (proj2 W1) Hts).
      rewrite sat_cols_add.
      2:{ intros e [<-|He]; [simpl; lia|].
          rewrite Hc1 in He. specialize (C e He). lia. }
      rewrite sat_cols_add.
      2:{ intros e He. rewrite Hc1 in He. specialize (C e He). lia. }
      rewrite Hs1, Hc1. unfold lp1_block_ok. fold mr. rewrite <- Hm.
      assert (Hrow : satisfies (GLP_UP, 0%Q, mr)
                       (rowActivity ts x (b_aux st1))
                     <-> (x (2 * i + 1)%nat + x (2 * i + 1 + 1)%nat <= mr)%Q).
      { unfold ts, rowActivity, rowOf, colOf. cbn [fold_right fst snd].
        rewrite !Nat.eqb_refl. unfold satisfies. split; intros H; lra. }
      rewrite Hrow. unfold satisfies. tauto. }
    rewrite Hst2. split.
    + intros [[H1 H2] H3]. split; [assumption|].
      intros [|k] Hk.
      * rewrite Nat.add_0_r. assumption.
      * cbn [nth]. replace (i + S k)%nat with (S i + k)%nat by lia.
        apply H3. cbn [length] in Hk. lia.
    + intros [H1 H2]. split; [split; [assumption|]|].
      * specialize (H2 O). rewrite Nat.add_0_r in H2. apply H2.
        cbn [length]. lia.
      * intros k Hk. specialize (H2 (S k)). cbn [nth] in H2.
        replace (i + S k)%nat with (S i + k)%nat in H2 by lia.
        apply H2. cbn [length]. lia.
Qed.

Lemma build_wf_ext st st' b ts :
  build_wf st -> (forall e, In e ts -> rowOf e = b_aux st) ->
  row_bnds (b_lp st') = (b_aux st, b) :: row_bnds (b_lp st) ->
  b_trip st' = b_trip st ++ ts -> b_aux st' = S (b_aux st) ->
  build_wf st'.
Proof.
  intros [W1 W2] Hts Hr Ht Ha. split; rewrite ?Hr, ?Ht, Ha.
  - intros e [<-|He]; [simpl; lia|]. specialize (W1 e He). lia.
  - intros e He. apply in_app_iff in He. destruct He as [He|He].
    + specialize (W2 e He). lia.
    + rewrite (Hts e He). lia.
Qed.

(** the rows of the second phase leave the rows of the first in place *)
Lemma lp1_deviation_sem NC mean x : forall ks st,
  build_wf st ->
  build_wf (lp1_deviation NC mean ks st) /\
  col_bnds (b_lp (lp1_deviation NC mean ks st)) = col_bnds (b_lp st) /\
  (sat_rows (row_bnds (b_lp (lp1_deviation NC mean ks st)))
            (b_trip (lp1_deviation NC mean ks st)) x ->
   sat_rows (row_bnds (b_lp st)) (b_trip st) x).
Proof.
  induction ks as [|i ks IH]; intros st W.
  - cbn [lp1_deviation]. auto.
  - cbn [lp1_deviation]. revert IH. row_list. intros IH.
    set (ts1 := [(b_aux st, (2 * NC + i + 1)%nat, 1%Q);
                 (b_aux st, (2 * i + 2)%nat, 1%Q)]).
    set (ts2 := [(S (b_aux st), (2 * NC + i + 1)%nat, 1%Q);
                 (S (b_aux st), (2 * i + 2)%nat, (-1)%Q)]).
    assert (Hts1 : forall e, In e ts1 -> rowOf e = b_aux st).
    { intros e [<-|[<-|[]]]; reflexivity. }
    assert (Hts2 : forall e, In e ts2 -> rowOf e = S (b_aux st)).
    { intros e [<-|[<-|[]]]; reflexivity. }
    set (stA := mkBuild (glp_set_row_bnds (b_aux st) GLP_LO mean 0%Q (b_lp st))
                  (b_trip st ++ ts1) (S (b_aux st))).
    assert (WA : build_wf stA).
    { apply (@build_wf_ext st stA (GLP_LO, mean, 0%Q) ts1 W Hts1);
        reflexivity. }
    match goal with
    | |- context [lp1_deviation NC mean ks ?s] => set (stB := s)
    end.
    assert (WB : build_wf stB).
    { apply (@build_wf_ext stA stB (GLP_LO, (- mean)%Q, 0%Q) ts2 WA Hts2);
        try reflexivity.
      unfold stB, stA. cbn [b_trip]. rewrite <- app_assoc. reflexivity. }
    destruct (IH stB WB) as [W' [Hc' Hs']].
    split; [assumption|]. split; [rewrite Hc'; reflexivity|].
    intros H. apply Hs' in H.
    assert (HB : sat_rows (row_bnds (b_lp stA)) (b_trip stA) x).
    { assert (E : b_trip stB = b_trip stA ++ ts2).
      { unfold stB, stA. cbn [b_trip]. rewrite <- app_assoc. reflexivity. }
      rewrite E in H.
      change (row_bnds (b_lp stB))
        with ((b_aux stA, (GLP_LO, (- mean)%Q, 0%Q)) :: row_bnds (b_lp stA))
        in H.
      apply (@sat_rows_add _ _ _ _ ts2 x (proj1 WA) (proj2 WA) Hts2) in H.
      apply H. }
    change (row_bnds (b_lp stA))
      with ((b_aux st, (GLP_LO, mean, 0%Q)) :: row_bnds (b_lp st)) in HB.
    change (b_trip stA) with (b_trip st ++ ts1) in HB.
    apply (@sat_rows_add _ _ _ _ ts1 x (proj1 W) (proj2 W) Hts1) in HB.
    apply HB.
Qed.

Lemma fold_addConstraint a (f : nat -> nat) c : forall ks t,
  fold_left (fun t i => addConstraint a (f i) c t) ks t
  = t ++ map (fun i => (a, f i, c)) ks.
Proof.
  induction ks as [|k ks IH]; intros t; simpl.
  - rewrite app_nil_r. reflexivity.
  - rewrite IH. unfold addConstraint. rewrite <- app_assoc. reflexivity.
Qed.

(** Every point that is feasible for the second problem of LP model 1
    meets the constraints of the first on each block. *)
Lemma buildLPModel1_sem glp_simplex buffer bs x :
  let idxMap :=
    fillIdxMap (fun i => 2 * i + 1)%nat bs buffer O (repeat O (length bs)) in
  feasible (fst (nth 1 (snd (buildLPModel1 glp_simplex buffer bs))
                    (glp_create_prob, x))) x ->
  forall k, (k < length buffer)%nat ->
    lp1_block_ok bs idxMap x k (nth k buffer O).
Proof.
  intros idxMap. unfold buildLPModel1. fold idxMap.
  cbn [snd nth fst].
  set (lp0 := glp_add_rows _ _).
  set (st1 := lp1_blocks bs idxMap buffer O (mkBuild lp0 [] 1)).
  set (lpA := glp_load_matrix (b_trip st1) (b_lp st1)).
  set (sumWidth := glp_get_obj_val _ _).
  set (mean := (sumWidth / _)%Q).
  set (stB0 := mkBuild _ (b_trip st1) (b_aux st1)).
  set (st2 := lp1_deviation (length buffer) mean (seq 0 (length buffer)) stB0).
  rewrite fold_addConstraint.
  intros [Hrows [Hcols _]].
  cbn [mat row_bnds col_bnds glp_load_matrix glp_set_row_bnds] in Hrows, Hcols.
  assert (W0 : build_wf (mkBuild lp0 [] 1)).
  { split; intros e []. }
  assert (C0 : cols_below (2 * 0 + 1) (b_lp (mkBuild lp0 [] 1))).
  { intros e []. }
  destruct (@lp1_blocks_sem bs idxMap x buffer O _ W0 C0)
    as [W1 [_ [_ Hs1]]].
  fold st1 in W1, Hs1.
  assert (WB0 : build_wf stB0) by exact W1.
  destruct (@lp1_deviation_sem (length buffer) mean x
              (seq 0 (length buffer)) stB0 WB0) as [W2 [Hc2 Hs2]].
  fold st2 in W2, Hc2, Hs2.
  apply (@sat_rows_add _ _ _ _ _ x (proj1 W2) (proj2 W2)) in Hrows.
  2:{ intros e He. apply in_map_iff in He. destruct He as [i [<- _]].
      reflexivity. }
  destruct Hrows as [Hrows _]. apply Hs2 in Hrows.
  rewrite Hc2 in Hcols.
  assert (Hsat : build_sat st1 x) by (split; assumption).
  apply Hs1 in Hsat. destruct Hsat as [_ H]. exact H.
Qed.

(** *** The index map and the write-back *)

Lemma fillIdxMap_spec (f : nat -> nat) bs : forall buffer i m,
  NoDup buffer ->
  (forall b, In b buffer -> (b < length m)%nat /\ idx (get bs b) = b) ->
  length (fillIdxMap f bs buffer i m) = length m /\
  (forall k, (k < length buffer)%nat ->
     nth (nth k buffer O) (fillIdxMap f bs buffer i m) O = f (i + k)%nat) /\
  (forall p, ~ In p buffer -> nth p (fillIdxMap f bs buffer i m) O = nth p m O).
Proof.
  induction buffer as [|b buffer IH]; intros i m Hnd Hr; cbn [fillIdxMap].
  - split; [reflexivity|]. split; [intros k Hk; inversion Hk|reflexivity].
  - apply NoDup_cons_iff in Hnd. destruct Hnd as [Hnb Hnd].
    destruct (Hr b (or_introl eq_refl)) as [Hb Hidx]. rewrite Hidx.
    destruct (IH (S i) (store b (f i) m) Hnd) as [Hl [Hk Hp]].
    { intros b' Hb'. rewrite length_store. apply Hr. right; assumption. }
    rewrite length_store in Hl. split; [assumption|]. split.
    + intros [|k] Hlt.
      * cbn [nth]. rewrite (Hp b Hnb), Nat.add_0_r.
        apply nth_store_eq. assumption.
      * cbn [nth]. replace (i + S k)%nat with (S i + k)%nat by lia.
        apply Hk. cbn [length] in Hlt. lia.
    + intros p Hnp. rewrite Hp by (intros H; apply Hnp; right; assumption).
      apply nth_store_ne. intros ->. apply Hnp. left; reflexivity.
Qed.

Lemma writeBack_spec x lcol wcol : forall buffer i bs,
  NoDup buffer -> (forall b, In b buffer -> (b < length bs)%nat) ->
  sameUpTo eraseLW bs (writeBack x lcol wcol buffer i bs) /\
  (forall k, (k < length buffer)%nat ->
     left (get (writeBack x lcol wcol buffer i bs) (nth k buffer O))
       = x (lcol (i + k)%nat) /\
     width (get (writeBack x lcol wcol buffer i bs) (nth k buffer O))
       = x (wcol (i + k)%nat)) /\
  (forall p, ~ In p buffer ->
     get (writeBack x lcol wcol buffer i bs) p = get bs p).
Proof.
  induction buffer as [|b buffer IH]; intros i bs Hnd Hr; cbn [writeBack].
  - split; [apply sameUpTo_refl|].
    split; [intros k Hk; inversion Hk|reflexivity].
  - apply NoDup_cons_iff in Hnd. destruct Hnd as [Hnb Hnd].
    set (bs1 := upd b (fun blk => set_width (x (wcol i))
                                    (set_left (x (lcol i)) blk)) bs).
    destruct (IH (S i) bs1 Hnd) as [Hs [Hk Hp]].
    { intros b' Hb'. unfold bs1. rewrite length_upd. apply Hr.
      right; assumption. }
    split; [|split].
    + eapply sameUpTo_trans; [|exact Hs]. apply sameUpTo_upd. reflexivity.
    + intros [|k] Hlt.
      * cbn [nth]. rewrite (Hp b Hnb), Nat.add_0_r. unfold bs1.
        rewrite get_upd_eq by (apply Hr; left; reflexivity).
        split; reflexivity.
      * cbn [nth]. replace (i + S k)%nat with (S i + k)%nat by lia.
        apply Hk. cbn [length] in Hlt. lia.
    + intros p Hnp. rewrite Hp by (intros H; apply Hnp; right; assumption).
      unfold bs1. apply get_upd_ne. intros ->. apply Hnp. left; reflexivity.
Qed.

(** *** LP model 2 *)

Lemma lp2_cleft_sem bs idxMap NC leftVar x : forall vs st mlf st' mlf',
  build_wf st ->
  lp2_cleft bs idxMap NC leftVar vs st mlf = (st', mlf') ->
  build_wf st' /\ (b_aux st <= b_aux st')%nat /\
  col_bnds (b_lp st') = col_bnds (b_lp st) /\
  obj_coef (b_lp st') = obj_coef (b_lp st) /\
  n_cols (b_lp st') = n_cols (b_lp st) /\
  obj_dir (b_lp st') = obj_dir (b_lp st) /\
  col_bin (b_lp st') = col_bin (b_lp st) /\
  mlf' = maxLeft bs vs mlf /\
  (sat_rows (row_bnds (b_lp st')) (b_trip st') x <->
   sat_rows (row_bnds (b_lp st)) (b_trip st) x /\
   forall v, In v vs -> isFixed (get bs v) = false ->
     (x (nth (idx (get bs v)) idxMap O) + x (NC + 1)%nat <= x leftVar)%Q).
Proof.
  induction vs as [|v vs IH]; intros st mlf st' mlf' W E; simpl in E.
  - injection E as <- <-. split; [assumption|]. split; [lia|].
    do 6 (split; [reflexivity|]).
    split; [intros H; split; [assumption|intros v []]|tauto].
  - simpl maxLeft. destruct (isFixed (get bs v)) eqn:Hf.
    + destruct (IH _ _ _ _ W E)
        as [W' [Ha [Hc [Ho [Hn [Hd [Hb [Hm Hs]]]]]]]].
      split; [assumption|]. split; [assumption|].
      do 6 (split; [assumption|]). rewrite Hs. split.
      * intros [H1 H2]. split; [assumption|].
        intros u [<-|Hu] Hfu; [congruence|apply H2; assumption].
      * intros [H1 H2]. split; [assumption|].
        intros u Hu. apply H2. right; assumption.
    + revert E. row_list. intros E.
      set (jv := nth (idx (get bs v)) idxMap O) in *.
      set (ts := [(b_aux st, leftVar, 1%Q); (b_aux st, jv, (-1)%Q);
                  (b_aux st, (NC + 1)%nat, (-1)%Q)]) in *.
      assert (Hts : forall e, In e ts -> rowOf e = b_aux st).
      { intros e [<-|[<-|[<-|[]]]]; reflexivity. }
      pose proof (@build_wf_row st (GLP_LO, 0%Q, 0%Q) ts W Hts) as W1.
      destruct (IH _ _ _ _ W1 E)
        as [W' [Ha [Hc [Ho [Hn [Hd [Hb [Hm Hs]]]]]]]].
      cbn [b_lp b_trip b_aux row_bnds col_bnds obj_coef n_cols obj_dir col_bin]
        in Ha, Hc, Ho, Hn, Hd, Hb, Hs.
      split; [assumption|]. split; [lia|].
      do 6 (split; [assumption|]). rewrite Hs.
      rewrite (@sat_rows_add _ _ _ _ ts x (proj1 W) (proj2 W) Hts).
      assert (Hrow : satisfies (GLP_LO, 0%Q, 0%Q) (rowActivity ts x (b_aux st))
                     <-> (x jv + x (NC + 1)%nat <= x leftVar)%Q).
      { unfold ts, rowActivity, rowOf, colOf. cbn [fold_right fst snd].
        rewrite !Nat.eqb_refl. unfold satisfies. split; intros H; lra. }
      rewrite Hrow. split.
      * intros [[H1 H2] H3]. split; [assumption|].
        intros u [<-|Hu] Hfu; [assumption|apply H3; assumption].
      * intros [H1 H2]. split; [split; [assumption|]|].
        -- apply H2; [left; reflexivity|assumption].
        -- intros u Hu. apply H2. right; assumption.
Qed.

Lemma lp2_blocks_sem bs idxMap NC x : forall buffer i st,
  build_wf st -> cols_below (i + 1) (b_lp st) ->
  build_wf (lp2_blocks bs idxMap NC buffer i st) /\
  cols_below (i + length buffer + 1)
    (b_lp (lp2_blocks bs idxMap NC buffer i st)) /\
  n_cols (b_lp (lp2_blocks bs idxMap NC buffer i st)) = n_cols (b_lp st) /\
  obj_dir (b_lp (lp2_blocks bs idxMap NC buffer i st)) = obj_dir (b_lp st) /\
  col_bin (b_lp (lp2_blocks bs idxMap NC buffer i st)) = col_bin (b_lp st) /\
  ((forall e, In e (obj_coef (b_lp st)) -> snd e = 0%Q) ->
   forall e, In e (obj_coef (b_lp (lp2_blocks bs idxMap NC buffer i st))) ->
     snd e = 0%Q) /\
  (build_sat (lp2_blocks bs idxMap NC buffer i st) x <->
   build_sat st x /\
   forall k, (k < length buffer)%nat ->
     lp2_block_ok bs idxMap NC x (i + k) (nth k buffer O)).
Proof.
  induction buffer as [|block buffer IH]; intros i st W C.
  - cbn [lp2_blocks length]. split; [assumption|].
    split; [rewrite Nat.add_0_r; assumption|].
    do 3 (split; [reflexivity|]). split; [auto|].
    split; [intros H; split; [assumption|intros k Hk; inversion Hk]|tauto].
  - cbn [lp2_blocks].
    destruct (lp2_cleft bs idxMap NC (i + 1) (cleftN (get bs block)) st 0%Q)
      as [st1 mlf] eqn:E.
    destruct (@lp2_cleft_sem bs idxMap NC (i + 1)%nat x _ _ _ _ _ W E)
      as [W1 [Ha1 [Hc1 [Ho1 [Hn1 [Hd1 [Hb1 [Hm Hs1]]]]]]]].
    revert IH. row_list. intros IH.
    set (ts := [(b_aux st1, (i + 1)%nat, 1%Q);
                (b_aux st1, (NC + 1)%nat, 1%Q)]).
    assert (Hts : forall e, In e ts -> rowOf e = b_aux st1).
    { intros e [<-|[<-|[]]]; reflexivity. }
    set (mr := minRight bs (crightN (get bs block)) 1%Q).
    match goal with
    | |- context [lp2_blocks bs idxMap NC buffer (S i) ?s] => set (st2 := s)
    end.
    assert (W2 : build_wf st2).
    { apply (@build_wf_row st1 (GLP_UP, 0%Q, mr) ts W1 Hts). }
    assert (C2 : cols_below (S i + 1) (b_lp st2)).
    { intros e He. unfold st2 in He.
      cbn [b_lp col_bnds glp_set_obj_coef glp_set_col_bnds glp_set_row_bnds]
        in He.
      destruct He as [<-|He]; [simpl; lia|].
      rewrite Hc1 in He. specialize (C e He). lia. }
    destruct (IH (S i) st2 W2 C2) as [W' [C' [Hn' [Hd' [Hb' [Ho' Hs']]]]]].
    split; [assumption|].
    split.
    { cbn [length]. replace (i + S (length buffer))%nat
        with (S i + length buffer)%nat by lia. assumption. }
    split; [rewrite Hn'; exact Hn1|].
    split; [rewrite Hd'; exact Hd1|].
    split; [rewrite Hb'; exact Hb1|].
    split.
    { intros Hz. apply Ho'. unfold st2.
      cbn [b_lp obj_coef glp_set_obj_coef glp_set_col_bnds glp_set_row_bnds].
      intros e [<-|He]; [reflexivity|]. rewrite Ho1 in He. auto. }
    rewrite Hs'.
    assert (Hst2 : build_sat st2 x <->
              build_sat st x /\ lp2_block_ok bs idxMap NC x i block).
    { unfold build_sat, st2.
      cbn [b_lp b_trip row_bnds col_bnds glp_set_obj_coef glp_set_col_bnds
           glp_set_row_bnds].
      rewrite (@sat_rows_add _ _ _ _ ts x (proj1 W1) (proj2 W1) Hts).
      rewrite sat_cols_add.
      2:{ intros e He. rewrite Hc1 in He. specialize (C e He). lia. }
      rewrite Hs1, Hc1. unfold lp2_block_ok. fold mr. rewrite <- Hm.
      assert (Hrow : satisfies (GLP_UP, 0%Q, mr)
                       (rowActivity ts x (b_aux st1))
                     <-> (x (i + 1)%nat + x (NC + 1)%nat <= mr)%Q).
      { unfold ts, rowActivity, rowOf, colOf. cbn [fold_right fst snd].
        rewrite !Nat.eqb_refl. unfold satisfies. split; intros H; lra. }
      rewrite Hrow. unfold satisfies. tauto. }
    rewrite Hst2. split.
    + intros [[H1 H2] H3]. split; [assumption|].
      intros [|k] Hk.
      * rewrite Nat.add_0_r. assumption.
      * cbn [nth]. replace (i + S k)%nat with (S i + k)%nat by lia.
        apply H3. cbn [length] in Hk. lia.
    + intros [H1 H2]. split; [split; [assumption|]|].
      * specialize (H2 O). rewrite Nat.add_0_r in H2. apply H2.
        cbn [length]. lia.
      * intros k Hk. specialize (H2 (S k)). cbn [nth] in H2.
        replace (i + S k)%nat with (S i + k)%nat in H2 by lia.
        apply H2. cbn [length]. lia.
Qed.

(** The feasible points of the problem of LP model 2. *)
Lemma buildLPModel2_sem glp_simplex buffer bs x :
  let NC := length buffer in
  let idxMap :=
    fillIdxMap (fun i => i + 1)%nat bs buffer O (repeat O (length bs)) in
  feasible (fst (nth 0 (snd (buildLPModel2 glp_simplex buffer bs))
                    (glp_create_prob, x))) x <->
  (forall k, (k < NC)%nat -> lp2_block_ok bs idxMap NC x k (nth k buffer O)) /\
  (0 <= x (NC + 1)%nat)%Q /\ (x (NC + 1)%nat <= 1)%Q.
Proof.
  intros NC idxMap. unfold buildLPModel2. fold NC idxMap.
  cbn [snd nth fst].
  set (lp0 := glp_add_rows _ _).
  set (st1 := lp2_blocks bs idxMap NC buffer O (mkBuild lp0 [] 1)).
  assert (W0 : build_wf (mkBuild lp0 [] 1)).
  { split; intros e []. }
  assert (C0 : cols_below (0 + 1) (b_lp (mkBuild lp0 [] 1))).
  { intros e []. }
  destruct (@lp2_blocks_sem bs idxMap NC x buffer O _ W0 C0)
    as [W1 [C1 [Hn1 [Hd1 [Hb1 [_ Hs1]]]]]].
  fold st1 in W1, C1, Hn1, Hd1, Hb1, Hs1.
  unfold feasible.
  cbn [mat row_bnds col_bnds col_bin glp_load_matrix glp_set_obj_coef
       glp_set_col_bnds].
  rewrite sat_cols_add.
  2:{ intros e He. specialize (C1 e He). fold NC in C1. lia. }
  rewrite Hb1. cbn [b_lp col_bin glp_add_rows glp_add_cols glp_set_obj_dir
                    glp_create_prob lp0].
  unfold build_sat in Hs1. unfold satisfies.
  assert (Hnil : build_sat (mkBuild lp0 [] 1) x).
  { split; intros r b Hb; discriminate. }
  unfold build_sat in Hnil. split.
  - intros [Hr [[Hc Hw] _]]. split; [|assumption].
    apply Hs1. split; assumption.
  - intros [Hk Hw]. split; [|split; [split; [|assumption]|intros c []]].
    + apply Hs1. split; assumption.
    + apply Hs1. split; assumption.
Qed.

(** *** The two models, as [buildLPModel] uses them *)

Lemma buildLPModel1_result glp_simplex buffer bs :
  exists lpA lpB,
    buildLPModel1 glp_simplex buffer bs
    = (writeBack (glp_simplex lpB) (fun i => 2 * i + 1)%nat
         (fun i => 2 * i + 2)%nat buffer O bs,
       [(lpA, glp_simplex lpA); (lpB, glp_simplex lpB)]) /\
    forall x, feasible lpB x ->
      forall k, (k < length buffer)%nat ->
        lp1_block_ok bs
          (fillIdxMap (fun i => 2 * i + 1)%nat bs buffer O
             (repeat O (length bs))) x k (nth k buffer O).
Proof.
  eexists _, _. split; [reflexivity|].
  intros x Hx. apply (@buildLPModel1_sem glp_simplex buffer bs x). exact Hx.
Qed.

Lemma coefOf_head c v lp :
  coefOf (glp_set_obj_coef c v lp) c = v.
Proof.
  unfold coefOf. cbn [obj_coef glp_set_obj_coef find fst snd].
  rewrite Nat.eqb_refl. reflexivity.
Qed.

Lemma coefOf_zero lp c :
  (forall e, In e (obj_coef lp) -> snd e = 0%Q) -> coefOf lp c = 0%Q.
Proof.
  intros H. unfold coefOf.
  destruct (find _ (obj_coef lp)) as [e|] eqn:E; [|reflexivity].
  apply find_some in E. apply H. apply E.
Qed.

Lemma obj_val_single lp x n c :
  (forall c', c' <> c -> coefOf lp c' = 0%Q) -> coefOf lp c = 1%Q ->
  forall s,
    (fold_right (fun c acc => (coefOf lp c * x c + acc)%Q) 0%Q (seq s n)
     == if (s <=? c)%nat && (c <? s + n)%nat then x c else 0)%Q.
Proof.
  intros Hz Ho. induction n as [|n IH]; intros s.
  - simpl. destruct (s <=? c)%nat eqn:E1; [|reflexivity].
    destruct (c <? s + 0)%nat eqn:E2; [|reflexivity].
    apply Nat.leb_le in E1. apply Nat.ltb_lt in E2. lia.
  - cbn [seq fold_right]. rewrite IH.
    destruct (Nat.eq_dec s c) as [->|Hne].
    + rewrite Ho.
      replace (S c <=? c)%nat with false by (symmetry; apply Nat.leb_gt; lia).
      replace (c <=? c)%nat with true by (symmetry; apply Nat.leb_le; lia).
      replace (c <? c + S n)%nat with true
        by (symmetry; apply Nat.ltb_lt; lia).
      simpl. lra.
    + rewrite (Hz s Hne).
      destruct (Nat.le_gt_cases (S s) c) as [Hle|Hgt].
      * replace (S s <=? c)%nat with true by (symmetry; apply Nat.leb_le; lia).
        replace (s <=? c)%nat with true by (symmetry; apply Nat.leb_le; lia).
        replace (S s + n)%nat with (s + S n)%nat by lia.
        destruct (c <? s + S n)%nat; simpl; lra.
      * replace (S s <=? c)%nat with false
          by (symmetry; apply Nat.leb_gt; lia).
        replace (s <=? c)%nat with false by (symmetry; apply Nat.leb_gt; lia).
        simpl. lra.
Qed.

Lemma buildLPModel2_result glp_simplex buffer bs :
  exists lp,
    buildLPModel2 glp_simplex buffer bs
    = (writeBack (glp_simplex lp) (fun i => i + 1)%nat
         (fun _ => length buffer + 1)%nat buffer O bs,
       [(lp, glp_simplex lp)]) /\
    obj_dir lp = GLP_MAX /\
    (forall x, (glp_get_obj_val lp x == x (length buffer + 1)%nat)%Q) /\
    forall x, feasible lp x <->
      (forall k, (k < length buffer)%nat ->
         lp2_block_ok bs
           (fillIdxMap (fun i => i + 1)%nat bs buffer O
              (repeat O (length bs))) (length buffer) x k (nth k buffer O)) /\
      (0 <= x (length buffer + 1)%nat)%Q /\ (x (length buffer + 1)%nat <= 1)%Q.
Proof.
  eexists. split; [reflexivity|].
  set (idxMap := fillIdxMap _ bs buffer O _).
  set (lp0 := glp_add_rows _ _).
  assert (W0 : build_wf (mkBuild lp0 [] 1)).
  { split; intros e []. }
  assert (C0 : cols_below (0 + 1) (b_lp (mkBuild lp0 [] 1))).
  { intros e []. }
  destruct (@lp2_blocks_sem bs idxMap (length buffer) (fun _ => 0%Q) buffer O
              _ W0 C0) as [_ [_ [Hn1 [Hd1 [_ [Ho1 _]]]]]].
  split; [|split].
  - cbn [obj_dir glp_load_matrix glp_set_obj_coef glp_set_col_bnds].
    rewrite Hd1. reflexivity.
  - intros x. unfold glp_get_obj_val.
    cbn [n_cols glp_load_matrix glp_set_obj_coef glp_set_col_bnds].
    rewrite Hn1. cbn [b_lp n_cols lp0 glp_add_rows glp_add_cols
                      glp_set_obj_dir glp_create_prob].
    rewrite (@obj_val_single _ x _ (length buffer + 1)%nat).
    + replace (1 <=? length buffer + 1)%nat with true
        by (symmetry; apply Nat.leb_le; lia).
      replace (length buffer + 1 <? 1 + (0 + (length buffer + 1)))%nat
        with true by (symmetry; apply Nat.ltb_lt; lia).
      reflexivity.
    + intros c' Hc'. unfold coefOf.
      cbn [obj_coef glp_load_matrix glp_set_obj_coef glp_set_col_bnds find
           fst snd].
      destruct (Nat.eqb_spec (length buffer + 1) c') as [E|E];
        [congruence|].
      apply (@coefOf_zero _ c'). apply Ho1. intros e [].
    + unfold coefOf.
      cbn [obj_coef glp_load_matrix glp_set_obj_coef glp_set_col_bnds find
           fst snd].
      rewrite Nat.eqb_refl. reflexivity.
  - intros x. apply (@buildLPModel2_sem glp_simplex buffer bs x).
Qed.

(** *** Every row and column of the problem of LP model 2 is bounded *)

Lemma has_bnd_cons k' b l k :
  has_bnd ((k', b) :: l) k <-> k' = k \/ has_bnd l k.
Proof.
  unfold has_bnd. destruct (Nat.eq_dec k' k) as [->|Hne].
  - rewrite bndOf_cons_eq. split; [auto|]. intros _. eauto.
  - rewrite bndOf_cons_ne by assumption. split; [auto|].
    intros [H|H]; [contradiction|assumption].
Qed.

Lemma lp2_cleft_rows bs idxMap NC leftVar : forall vs st mlf,
  rows_full st ->
  rows_full (fst (lp2_cleft bs idxMap NC leftVar vs st mlf)) /\
  b_aux (fst (lp2_cleft bs idxMap NC leftVar vs st mlf))
  = (b_aux st
     + length (filter (fun v => negb (isFixed (get bs v))) vs))%nat /\
  col_bnds (b_lp (fst (lp2_cleft bs idxMap NC leftVar vs st mlf)))
  = col_bnds (b_lp st) /\
  n_rows (b_lp (fst (lp2_cleft bs idxMap NC leftVar vs st mlf)))
  = n_rows (b_lp st).
Proof.
  induction vs as [|v vs IH]; intros st mlf R; cbn [lp2_cleft filter].
  - cbn [fst length]. rewrite Nat.add_0_r. auto.
  - destruct (isFixed (get bs v)); cbn [negb].
    + apply IH. assumption.
    + match goal with
      | |- context [lp2_cleft bs idxMap NC leftVar vs ?s ?m] =>
          destruct (IH s m) as [R' [Ha [Hc Hn]]]
      end.
      { intros r Hr. cbn [b_lp b_aux row_bnds glp_set_row_bnds] in Hr |- *.
        apply has_bnd_cons.
        destruct (Nat.eq_dec (b_aux st) r); [left; assumption|right].
        apply R. lia. }
      split; [assumption|]. rewrite Ha, Hc, Hn. cbn [b_aux length].
      split; [lia|]. split; reflexivity.
Qed.

Lemma countRows_cons bs b buffer :
  countRows bs (b :: buffer)
  = (length (filter (fun v => negb (isFixed (get bs v))) (cleftN (get bs b)))
     + countRows bs buffer)%nat.
Proof. reflexivity. Qed.

Lemma lp2_blocks_bounded bs idxMap NC : forall buffer i st,
  rows_full st ->
  rows_full (lp2_blocks bs idxMap NC buffer i st) /\
  b_aux (lp2_blocks bs idxMap NC buffer i st)
  = (b_aux st + countRows bs buffer + length buffer)%nat /\
  n_rows (b_lp (lp2_blocks bs idxMap NC buffer i st)) = n_rows (b_lp st) /\
  forall c,
    (i + 1 <= c < i + 1 + length buffer)%nat \/ has_bnd (col_bnds (b_lp st)) c ->
    has_bnd (col_bnds (b_lp (lp2_blocks bs idxMap NC buffer i st))) c.
Proof.
  induction buffer as [|block buffer IH]; intros i st R;
    cbn [lp2_blocks length].
  - split; [assumption|].
    change (countRows bs []) with O.
    split; [lia|]. split; [reflexivity|].
    intros c [Hc|Hc]; [lia|assumption].
  - destruct (lp2_cleft bs idxMap NC (i + 1) (cleftN (get bs block)) st 0%Q)
      as [st1 mlf] eqn:E.
    destruct (@lp2_cleft_rows bs idxMap NC (i + 1)%nat
                (cleftN (get bs block)) st 0%Q R) as [R1 [Ha1 [Hc1 Hn1]]].
    rewrite E in R1, Ha1, Hc1, Hn1. cbn [fst] in R1, Ha1, Hc1, Hn1.
    match goal with
    | |- context [lp2_blocks bs idxMap NC buffer (S i) ?s] =>
        destruct (IH (S i) s) as [R' [Ha' [Hn' Hc']]]
    end.
    { intros r Hr.
      cbn [b_lp b_aux row_bnds glp_set_obj_coef glp_set_col_bnds
           glp_set_row_bnds] in Hr |- *.
      apply has_bnd_cons.
      destruct (Nat.eq_dec (b_aux st1) r); [left; assumption|right].
      apply R1. lia. }
    split; [assumption|]. rewrite Ha', Hn'.
    cbn [b_lp b_aux n_rows col_bnds glp_set_obj_coef glp_set_col_bnds
         glp_set_row_bnds] in Hc' |- *.
    split.
    { rewrite Ha1, countRows_cons. lia. }
    split; [assumption|].
    intros c Hc. apply Hc'.
    destruct (Nat.eq_dec c (i + 1)) as [->|Hne].
    + right. apply has_bnd_cons. left. reflexivity.
    + destruct Hc as [Hc|Hc]; [left; lia|right].
      apply has_bnd_cons. right. rewrite Hc1. assumption.
Qed.

(** In the problem of LP model 2 the program has set the bounds of every
    row and of every column. *)
Lemma buildLPModel2_bounded glp_simplex buffer bs lp x :
  snd (buildLPModel2 glp_simplex buffer bs) = [(lp, x)] ->
  (forall c, (1 <= c <= n_cols lp)%nat -> has_bnd (col_bnds lp) c) /\
  (forall r, (1 <= r <= n_rows lp)%nat -> has_bnd (row_bnds lp) r).
Proof.
  unfold buildLPModel2. cbn [snd]. intros E. injection E as <- _.
  set (idxMap := fillIdxMap _ bs buffer O _).
  set (lp0 := glp_add_rows _ _).
  assert (R0 : rows_full (mkBuild lp0 [] 1)).
  { intros r Hr. cbn [b_aux] in Hr. lia. }
  destruct (@lp2_blocks_bounded bs idxMap (length buffer) buffer O _ R0)
    as [R1 [Ha1 [Hn1 Hc1]]].
  assert (W0 : build_wf (mkBuild lp0 [] 1)) by (split; intros e []).
  assert (C0 : cols_below (0 + 1) (b_lp (mkBuild lp0 [] 1)))
    by (intros e []).
  destruct (@lp2_blocks_sem bs idxMap (length buffer) (fun _ => 0%Q) buffer O
              _ W0 C0) as [_ [_ [Hnc _]]].
  cbn [n_cols n_rows col_bnds row_bnds glp_load_matrix glp_set_obj_coef
       glp_set_col_bnds].
  rewrite Hnc, Hn1.
  cbn [b_lp b_aux n_cols n_rows lp0 glp_add_rows glp_add_cols glp_set_obj_dir
       glp_create_prob] in Ha1 |- *.
  split.
  - intros c Hc. apply has_bnd_cons.
    destruct (Nat.eq_dec (length buffer + 1) c); [left; assumption|right].
    apply Hc1. left. lia.
  - intros r Hr. apply R1. rewrite Ha1. lia.
Qed.
(** ** The LP loop *)

Lemma sameUpTo_coarse e1 e2 bs bs' :
  (forall b, e2 (e1 b) = e2 b) ->
  sameUpTo e1 bs bs' -> sameUpTo e2 bs bs'.
Proof.
  intros H [L S]. split; [assumption|]. intros p.
  rewrite <- (H (get bs' p)), <- (H (get bs p)), S. reflexivity.
Qed.

Lemma buildLPModel_blocks glp_simplex o buffer bs :
  exists x lcol wcol,
    fst (buildLPModel glp_simplex o buffer bs)
    = writeBack x lcol wcol buffer O bs.
Proof.
  unfold buildLPModel. destruct (LPModel o =? 2).
  - unfold buildLPModel2. cbn [fst]. eauto.
  - unfold buildLPModel1. cbn [fst]. eauto.
Qed.

Lemma buildLPModel_frame glp_simplex o buffer bs :
  NoDup buffer -> (forall b, In b buffer -> (b < length bs)%nat) ->
  sameUpTo eraseLW bs (fst (buildLPModel glp_simplex o buffer bs)) /\
  forall p, ~ In p buffer ->
    get (fst (buildLPModel glp_simplex o buffer bs)) p = get bs p.
Proof.
  intros Hnd Hr.
  destruct (buildLPModel_blocks glp_simplex o buffer bs)
    as [x [lcol [wcol ->]]].
  destruct (@writeBack_spec x lcol wcol buffer O bs Hnd Hr) as [H1 [_ H3]].
  split; assumption.
Qed.

Lemma bfs_post_range bs block buffer bs1 b :
  bfs_post bs block buffer bs1 -> In b buffer -> (b < length bs1)%nat.
Proof.
  intros P Hb. rewrite (sameUpTo_length (bp_same P)).
  apply (bp_fresh P). assumption.
Qed.

Section Components.
Variable glp_simplex : glp_prob -> nat -> Q.
Variable o : Options.
Variable F : glp_prob * (nat -> Q) -> Prop.
Variable I : list ScheduleBlock -> Prop.
Hypothesis I_step : forall bs block buffer bs1,
  adjInRange bs -> (block < length bs)%nat ->
  visited (get bs block) = false ->
  bfs_post bs block buffer bs1 -> I bs ->
  Forall F (snd (buildLPModel glp_simplex o buffer bs1)) ->
  I (fst (buildLPModel glp_simplex o buffer bs1)).

(** The first loop of an iteration returns; it writes the [visited]
    flags and the layout only. *)
Lemma lp_components_spec : forall ps bs tr,
  adjInRange bs -> (forall p, In p ps -> (p < length bs)%nat) ->
  exists bs' new,
    lp_components glp_simplex o ps bs tr = Some (bs', tr ++ new) /\
    sameUpTo eraseSolve bs bs' /\
    (I bs -> Forall F new -> I bs').
Proof.
  induction ps as [|block ps IH]; intros bs tr Hadj Hr; cbn [lp_components].
  - exists bs, []. rewrite app_nil_r. split; [reflexivity|].
    split; [apply sameUpTo_refl|auto].
  - assert (Hr' : forall p, In p ps -> (p < length bs)%nat)
      by (intros p Hp; apply Hr; right; assumption).
    destruct (visited (get bs block)) eqn:Hv; [apply IH; assumption|].
    assert (Hb : (block < length bs)%nat) by (apply Hr; left; reflexivity).
    destruct (@BFS_spec bs block Hadj Hb Hv) as [buffer [bs1 [E P]]].
    rewrite E.
    destruct (buildLPModel glp_simplex o buffer bs1) as [bs2 lps] eqn:EB.
    assert (Hfr : sameUpTo eraseLW bs1 bs2).
    { pose proof (@buildLPModel_frame glp_simplex o buffer bs1 (bp_nodup P)
                    (fun b Hb => @bfs_post_range _ _ _ _ b P Hb)) as [H _].
      rewrite EB in H. exact H. }
    assert (Hs2 : sameUpTo eraseSolve bs bs2).
    { eapply sameUpTo_trans.
      - apply (@sameUpTo_coarse eraseVisited eraseSolve bs bs1);
          [reflexivity|apply (bp_same P)].
      - apply (@sameUpTo_coarse eraseLW eraseSolve bs1 bs2);
          [reflexivity|assumption]. }
    destruct (IH bs2 (tr ++ lps)) as [bs' [new [E' [Hs' HI]]]].
    + eapply adjInRange_same; [| |exact Hs2|exact Hadj]; reflexivity.
    + intros p Hp. rewrite (sameUpTo_length Hs2). apply Hr'. assumption.
    + exists bs', (lps ++ new). rewrite app_assoc. split; [assumption|].
      split; [eapply sameUpTo_trans; eassumption|].
      intros Hi Hf. apply Forall_app in Hf. destruct Hf as [Hf1 Hf2].
      apply HI; [|assumption].
      pose proof (@I_step bs block buffer bs1 Hadj Hb Hv P Hi) as H.
      rewrite EB in H. apply H. assumption.
Qed.

Variable J : list ScheduleBlock -> Prop.
Variable A : list ScheduleBlock -> Prop.
Hypothesis J_enter : forall bs, adjInRange bs -> A bs -> J bs -> I bs.
Hypothesis J_exit : forall bs bs', sameUpTo eraseFlags bs bs' -> I bs -> J bs'.
Hypothesis A_flags : forall bs, flagsAgree bs -> A bs.

Lemma seq_range n p : In p (seq 0 n) -> (p < n)%nat.
Proof. intros H. apply in_seq in H. lia. Qed.

(** An iteration of the LP loop returns; it writes the flags and the
    layout only, and leaves the two flags equal. *)
Lemma lp_iteration_spec bs tr :
  adjInRange bs ->
  exists bs' new c,
    lp_iteration glp_simplex o bs tr = Some (bs', tr ++ new, c) /\
    sameUpTo eraseIter bs bs' /\ flagsAgree bs' /\
    (J bs -> A bs -> Forall F new -> J bs').
Proof.
  intros Hadj. unfold lp_iteration.
  destruct (@lp_components_spec (seq 0 (length bs)) bs tr Hadj
              (@seq_range (length bs))) as [bs1 [new [E [Hs1 HI]]]].
  rewrite E.
  set (bs2 := map (fun b => set_visited (isFixed b) b) bs1).
  assert (Hs2 : sameUpTo eraseFlags bs1 bs2)
    by (apply sameUpTo_map; reflexivity).
  assert (Hadj1 : adjInRange bs1).
  { eapply adjInRange_same; [| |exact Hs1|exact Hadj]; reflexivity. }
  assert (Hadj2 : adjInRange bs2) by (eapply adjInRange_flags; eassumption).
  destruct (@fixedPass_spec (seq 0 (length bs2)) bs2 (@seq_range (length bs2))
              Hadj2) as [bs3 [E3 Hs3]].
  rewrite E3.
  destruct (getFixedCount bs3) as [bs4 c] eqn:E4.
  pose proof (getFixedCount_spec bs3) as [Hs4 Hf4]. rewrite E4 in Hs4, Hf4.
  cbn [fst] in Hs4, Hf4.
  exists bs4, new, c. split; [reflexivity|].
  assert (Hflags : sameUpTo eraseFlags bs1 bs4).
  { eapply sameUpTo_trans; [exact Hs2|].
    eapply sameUpTo_trans; [exact Hs3|exact Hs4]. }
  split.
  { eapply sameUpTo_trans.
    - apply (@sameUpTo_coarse eraseSolve eraseIter bs bs1);
        [reflexivity|assumption].
    - apply (@sameUpTo_coarse eraseFlags eraseIter bs1 bs4);
        [reflexivity|assumption]. }
  split; [exact Hf4|].
  intros Hj Hfa Hf. apply (J_exit Hflags). apply HI; [|assumption].
  apply J_enter; assumption.
Qed.

Lemma adjInRange_iter bs bs' :
  sameUpTo eraseIter bs bs' -> adjInRange bs -> adjInRange bs'.
Proof. apply adjInRange_same; reflexivity. Qed.

(** The LP loop returns. *)
Lemma lp_loop_spec : forall iters prev bs tr,
  adjInRange bs ->
  exists bs' new,
    lp_loop glp_simplex o iters prev bs tr = Some (bs', tr ++ new) /\
    sameUpTo eraseIter bs bs' /\
    (flagsAgree bs -> flagsAgree bs') /\
    (J bs -> A bs -> Forall F new -> J bs').
Proof.
  induction iters as [|iters IH]; intros prev bs tr Hadj; cbn [lp_loop].
  - exists bs, []. rewrite app_nil_r. split; [reflexivity|].
    split; [apply sameUpTo_refl|auto].
  - destruct (@lp_iteration_spec bs tr Hadj)
      as [bs1 [new1 [c [E [Hs1 [Hf1 HJ1]]]]]].
    rewrite E.
    destruct (c =? prev).
    + exists bs1, new1. split; [reflexivity|]. split; [assumption|].
      split; [auto|assumption].
    + destruct (IH c bs1 (tr ++ new1) (adjInRange_iter Hs1 Hadj))
        as [bs' [new [E' [Hs' [Hf' HJ']]]]].
      exists bs', (new1 ++ new). rewrite app_assoc.
      split; [assumption|].
      split; [eapply sameUpTo_trans; eassumption|].
      split; [auto|].
      intros Hj Hfa Hf. apply Forall_app in Hf. destruct Hf as [Hfa1 Hfa2].
      apply HJ'; auto.
Qed.
End Components.

(** *** One component *)

Lemma writeBack_spec0 x lcol wcol buffer bs :
  NoDup buffer -> (forall b, In b buffer -> (b < length bs)%nat) ->
  sameUpTo eraseLW bs (writeBack x lcol wcol buffer O bs) /\
  (forall k, (k < length buffer)%nat ->
     left (get (writeBack x lcol wcol buffer O bs) (nth k buffer O))
       = x (lcol k) /\
     width (get (writeBack x lcol wcol buffer O bs) (nth k buffer O))
       = x (wcol k)) /\
  (forall p, ~ In p buffer ->
     get (writeBack x lcol wcol buffer O bs) p = get bs p).
Proof.
  intros Hnd Hr. exact (@writeBack_spec x lcol wcol buffer O bs Hnd Hr).
Qed.

(** A feasible solution of the model of a component, written back. *)
Lemma buildLPModel_sound glp_simplex o buffer bs1 :
  NoDup buffer -> (forall b, In b buffer -> (b < length bs1)%nat) ->
  solved (snd (buildLPModel glp_simplex o buffer bs1)) ->
  exists l w nl nw,
    lp_solution o bs1 buffer (fst (buildLPModel glp_simplex o buffer bs1))
      l w nl nw.
Proof.
  intros Hnd Hr Hf. unfold buildLPModel in *.
  destruct (Z.eqb_spec (LPModel o) 2) as [Hm|Hm].
  - destruct (buildLPModel2_result glp_simplex buffer bs1)
      as [lp [E [_ [_ Hsem]]]].
    rewrite E in Hf |- *. cbn [fst snd] in Hf |- *.
    apply Forall_inv in Hf. cbn [fst snd] in Hf.
    apply Hsem in Hf. destruct Hf as [Hk [Hw0 Hw1]].
    set (x := glp_simplex lp) in *.
    set (idxMap := fillIdxMap _ bs1 buffer O _) in *.
    destruct (@writeBack_spec0 x (fun i => (i + 1)%nat)
                (fun _ => (length buffer + 1)%nat) buffer bs1 Hnd Hr)
      as [Hs [Hlw Hout]].
    exists (fun k => x (k + 1)%nat), (fun _ => x (length buffer + 1)%nat),
           (fun v => x (nth (idx (get bs1 v)) idxMap O)),
           (fun _ => x (length buffer + 1)%nat).
    constructor; try assumption.
    + intros k Hlt. apply (Hlw k Hlt).
    + intros k Hlt. apply (Hlw k Hlt).
    + intros k Hlt. apply (Hk k Hlt).
    + intros k Hlt. apply (Hk k Hlt).
    + intros k v Hlt Hv Hfx.
      destruct (Hk k Hlt) as [H1 _]. apply (H1 v Hv Hfx).
    + intros Hidx j Hj. split; [|reflexivity].
      destruct (@fillIdxMap_spec (fun i => (i + 1)%nat) bs1 buffer O
                  (repeat O (length bs1)) Hnd) as [_ [H _]].
      { intros b Hb. rewrite repeat_length. split; auto. }
      rewrite Hidx by (apply nth_In; assumption).
      fold idxMap in H. rewrite (H j Hj). reflexivity.
    + intros Hne. contradiction.
    + intros _ k _. exact Hw0.
  - destruct (buildLPModel1_result glp_simplex buffer bs1)
      as [lpA [lpB [E Hsem]]].
    rewrite E in Hf |- *. cbn [fst snd] in Hf |- *.
    apply Forall_inv_tail, Forall_inv in Hf. cbn [fst snd] in Hf.
    pose proof (Hsem _ Hf) as Hk.
    set (x := glp_simplex lpB) in *.
    set (idxMap := fillIdxMap _ bs1 buffer O _) in *.
    destruct (@writeBack_spec0 x (fun i => (2 * i + 1)%nat)
                (fun i => (2 * i + 2)%nat) buffer bs1 Hnd Hr)
      as [Hs [Hlw Hout]].
    assert (Hw : forall k, (2 * k + 2 = 2 * k + 1 + 1)%nat)
      by (intros; lia).
    exists (fun k => x (2 * k + 1)%nat), (fun k => x (2 * k + 1 + 1)%nat),
           (fun v => x (nth (idx (get bs1 v)) idxMap O)),
           (fun v => x (nth (idx (get bs1 v)) idxMap O + 1)%nat).
    constructor; try assumption.
    + intros k Hlt. apply (Hlw k Hlt).
    + intros k Hlt. rewrite <- Hw. apply (Hlw k Hlt).
    + intros k Hlt. apply (Hk k Hlt).
    + intros k Hlt. apply (Hk k Hlt).
    + intros k v Hlt Hv Hfx.
      destruct (Hk k Hlt) as [H1 _]. apply (H1 v Hv Hfx).
    + intros Hidx j Hj.
      destruct (@fillIdxMap_spec (fun i => (2 * i + 1)%nat) bs1 buffer O
                  (repeat O (length bs1)) Hnd) as [_ [H _]].
      { intros b Hb. rewrite repeat_length. split; auto. }
      rewrite Hidx by (apply nth_In; assumption).
      fold idxMap in H. rewrite (H j Hj). split; reflexivity.
    + intros _ k Hlt. apply (Hk k Hlt).
    + intros He. contradiction.
Qed.

Lemma In_buffer_nth (buffer : list nat) p :
  In p buffer -> exists k, (k < length buffer)%nat /\ nth k buffer O = p.
Proof. intros H. apply (In_nth _ _ O H). Qed.

Lemma lpgraph_same erase n bs bs' :
  (forall b, idx (erase b) = idx b) ->
  (forall b, cleftN (erase b) = cleftN b) ->
  (forall b, crightN (erase b) = crightN b) ->
  sameUpTo erase bs bs' -> lpgraph n bs -> lpgraph n bs'.
Proof.
  intros Hi Hl Hr Hs G. constructor.
  - rewrite (sameUpTo_length Hs). apply (lg_len G).
  - intros p Hp. rewrite (sameUpTo_field idx p Hi Hs). apply (lg_idx G Hp).
  - eapply adjInRange_same; [exact Hl|exact Hr|exact Hs|apply (lg_range G)].
  - intros p v. rewrite (sameUpTo_field crightN p Hr Hs),
                        (sameUpTo_field cleftN v Hl Hs).
    apply (lg_sym G).
Qed.




(** under LP model 1 no width decreases *)
Lemma step_mono o bs1 buffer bs2 l w nl nw :
  lp_solution o bs1 buffer bs2 l w nl nw -> LPModel o <> 2 ->
  forall p, (width (get bs1 p) <= width (get bs2 p))%Q.
Proof.
  intros S Hm p. destruct (in_dec Nat.eq_dec p buffer) as [Hin|Hout].
  - destruct (In_buffer_nth _ _ Hin) as [k [Hk <-]].
    rewrite (ls_width S Hk). apply (ls_grow S Hm Hk).
  - rewrite (ls_out S _ Hout). lra.
Qed.

Lemma visited_fields bs bs1 p :
  sameUpTo eraseVisited bs bs1 ->
  isFixed (get bs1 p) = isFixed (get bs p) /\
  cleftN (get bs1 p) = cleftN (get bs p) /\
  crightN (get bs1 p) = crightN (get bs p) /\
  idx (get bs1 p) = idx (get bs p) /\
  left (get bs1 p) = left (get bs p) /\
  width (get bs1 p) = width (get bs p).
Proof.
  intros [_ H]. specialize (H p). unfold eraseVisited in H.
  injection H as H1 H2 H3 H4 H5 H6 H7 H8 H9 H10 H11 H12 H13.
  repeat split; assumption.
Qed.

Lemma lw_fields bs1 bs2 p :
  sameUpTo eraseLW bs1 bs2 ->
  isFixed (get bs2 p) = isFixed (get bs1 p) /\
  visited (get bs2 p) = visited (get bs1 p) /\
  cleftN (get bs2 p) = cleftN (get bs1 p) /\
  crightN (get bs2 p) = crightN (get bs1 p) /\
  idx (get bs2 p) = idx (get bs1 p).
Proof.
  intros [_ H]. specialize (H p). unfold eraseLW in H.
  injection H as H1 H2 H3 H4 H5 H6 H7 H8 H9 H10 H11 H12.
  repeat split; assumption.
Qed.

Lemma comp_inv_step bs block buffer bs1 bs2 :
  comp_inv bs -> bfs_post bs block buffer bs1 -> sameUpTo eraseLW bs1 bs2 ->
  comp_inv bs2.
Proof.
  intros C P Hs.
  assert (Hvis : forall p, visited (get bs2 p) = visited (get bs1 p))
    by (intros p; apply (lw_fields p Hs)).
  assert (Hfix : forall p, isFixed (get bs2 p) = isFixed (get bs p)).
  { intros p. destruct (lw_fields p Hs) as [-> _].
    apply (visited_fields p (bp_same P)). }
  assert (Hcl : forall p, cleftN (get bs2 p) = cleftN (get bs p)).
  { intros p. destruct (lw_fields p Hs) as [_ [_ [-> _]]].
    apply (visited_fields p (bp_same P)). }
  assert (Hcr : forall p, crightN (get bs2 p) = crightN (get bs p)).
  { intros p. destruct (lw_fields p Hs) as [_ [_ [_ [-> _]]]].
    apply (visited_fields p (bp_same P)). }
  constructor.
  - intros p Hf. rewrite Hfix in Hf. rewrite Hvis.
    apply (bp_visited P). left. apply (ci_fixed C). assumption.
  - intros v a Hv Hf Ha. rewrite Hvis in *. rewrite Hfix in Hf.
    rewrite Hcl, Hcr in Ha.
    apply (bp_visited P) in Hv. destruct Hv as [Hv|Hv].
    + apply (bp_visited P). left. apply (ci_closed C v a); assumption.
    + apply (bp_closed P v a); assumption.
Qed.


(** *** The loop inside [compute] *)

Lemma graph_ok_lpgraph n bs : graph_ok n bs -> lpgraph n bs.
Proof.
  intros G. constructor.
  - apply (g_len G).
  - apply (g_idx G).
  - intros v a [Ha|Ha]; rewrite (g_len G).
    + apply (g_cleft G) in Ha. destruct Ha as [Ha _].
      apply (g_range G) in Ha. apply Ha.
    + apply (g_cright G) in Ha. destruct Ha as [Ha _].
      apply (g_right G) in Ha. apply (g_range G) in Ha. apply Ha.
  - intros p v. rewrite (g_cright G), (g_cleft G). split.
    + intros [H1 H2]. split; [apply (g_right G); assumption|].
      intros w Hw Hp. apply (H2 w).
      * apply (g_right G). assumption.
      * apply (g_right G). assumption.
    + intros [H1 H2]. split; [apply (g_right G); assumption|].
      intros w Hw Hv. apply (H2 w).
      * apply (g_right G). assumption.
      * apply (g_right G). assumption.
Qed.

Lemma stage4_lpgraph o arr st4 P :
  seed_post (length arr) (snd (stage1 o arr)) (blocks (stage3 o arr))
    (blocks st4) P ->
  lpgraph (length arr) (blocks st4).
Proof.
  intros S.
  apply (@lpgraph_same eraseLayout (length arr) (blocks (stage3 o arr)));
    try reflexivity.
  - apply (sp_same S).
  - apply graph_ok_lpgraph. apply stage3_graph.
Qed.

Section Compute.
Variable glp_simplex : glp_prob -> nat -> Q.
Variable glp_intopt : glp_prob -> nat -> Q.
Variable o : Options.
Variable F : glp_prob * (nat -> Q) -> Prop.
Variable I : list ScheduleBlock -> Prop.
Variable J : list ScheduleBlock -> Prop.
Hypothesis I_step : forall bs block buffer bs1,
  adjInRange bs -> (block < length bs)%nat ->
  visited (get bs block) = false ->
  bfs_post bs block buffer bs1 -> I bs ->
  Forall F (snd (buildLPModel glp_simplex o buffer bs1)) ->
  I (fst (buildLPModel glp_simplex o buffer bs1)).
Hypothesis J_enter : forall bs, adjInRange bs -> flagsAgree bs -> J bs -> I bs.
Hypothesis J_exit : forall bs bs', sameUpTo eraseFlags bs bs' -> I bs -> J bs'.
Hypothesis J_flags : forall bs bs', sameUpTo eraseFlags bs bs' -> J bs -> J bs'.

(** On the path through the LP loop [compute] returns: [st4] is the state
    after STEP 4, seeded with [P] columns for each block. *)
Lemma compute_lp arr :
  Z.of_nat (length arr) <= INT_MAX -> MILP o = 0 ->
  1 < snd (stage1 o arr) ->
  exists st4 P bs7 tr,
    compute glp_simplex glp_intopt o arr = Some (with_blocks bs7 st4, tr) /\
    seed_post (length arr) (snd (stage1 o arr)) (blocks (stage3 o arr))
      (blocks st4) P /\
    sameUpTo eraseIter (blocks st4) bs7 /\
    (J (blocks st4) -> Forall F tr -> J bs7).
Proof.
  intros Hmax Hmilp Htot.
  destruct (@stage4_spec o arr Hmax) as [st4 [P [E4 [_ S]]]].
  pose proof (@stage4_lpgraph o arr st4 P S) as G.
  assert (Hadj : adjInRange (blocks st4)) by apply (lg_range G).
  destruct (@fixedPass0_spec (seq 0 (length (blocks st4))) (blocks st4)
              (@seq_range (length (blocks st4))) Hadj) as [bs5 [E5 Hs5]].
  pose proof (getFixedCount_spec bs5) as [Hs6 Hf6].
  assert (Hflags : sameUpTo eraseFlags (blocks st4) (fst (getFixedCount bs5)))
    by (eapply sameUpTo_trans; eassumption).
  assert (Hadj6 : adjInRange (fst (getFixedCount bs5)))
    by (eapply adjInRange_flags; eassumption).
  destruct (@lp_loop_spec glp_simplex o F I I_step J flagsAgree J_enter J_exit
              (fun bs H => H) (Z.to_nat (LPIters o)) (snd (getFixedCount bs5))
              (fst (getFixedCount bs5)) [] Hadj6)
    as [bs7 [new [E7 [Hs7 [_ HJ]]]]].
  exists st4, P, bs7, new. split.
  - unfold compute. destruct (stage1 o arr) as [st1 total] eqn:E1.
    cbn [snd] in *. rewrite Hmilp. cbn [Z.eqb negb].
    replace (total <=? 1) with false by (symmetry; apply Z.leb_gt; lia).
    rewrite E4, E5. destruct (getFixedCount bs5) as [bs6 prev].
    cbn [fst snd] in E7. rewrite E7. reflexivity.
  - split; [assumption|]. split.
    + eapply sameUpTo_trans; [|exact Hs7].
      apply (@sameUpTo_coarse eraseFlags eraseIter); [reflexivity|assumption].
    + intros Hj Hf. apply HJ; [|exact Hf6|assumption].
      apply (J_flags Hflags). assumption.
Qed.
End Compute.
(** ** The MILP model *)

Lemma milp_inner_frame tol n bs bi : forall js st bv,
  col_bnds (b_lp (fst (milp_inner tol n bs bi js st bv))) = col_bnds (b_lp st) /\
  col_bin (b_lp (fst (milp_inner tol n bs bi js st bv))) = col_bin (b_lp st) /\
  snd (milp_inner tol n bs bi js st bv) = (bv + countInner tol bs bi js)%nat.
Proof.
  induction js as [|bj js IH]; intros st bv; cbn [milp_inner countInner].
  - cbn [fst snd]. rewrite Nat.add_0_r. auto.
  - destruct (startMin (get bs bj) + tol >=? endMin (get bs bi)).
    + cbn [fst snd]. rewrite Nat.add_0_r. auto.
    + match goal with
      | |- context [milp_inner tol n bs bi js ?s ?b] =>
          destruct (IH s b) as [H1 [H2 H3]]
      end.
      rewrite H1, H2, H3. cbn [b_lp col_bnds col_bin glp_set_row_bnds].
      split; [reflexivity|]. split; [reflexivity|]. lia.
Qed.






(** ** Claims about the layout *)




Lemma get_overflow bs p : (length bs <= p)%nat -> get bs p = nullBlock.
Proof. intros H. unfold get. apply nth_overflow. assumption. Qed.



Section Bounds.
Variable glp_simplex : glp_prob -> nat -> Q.
Variable o : Options.


End Bounds.

Lemma initial_layout o arr p :
  arr <> [] -> Z.of_nat (length arr) <= INT_MAX ->
  snd (stage1 o arr) <= 1 -> (p < length arr)%nat ->
  (left (get (blocks (computeInitialWidth (snd (stage1 o arr))
                        (fst (stage1 o arr)))) p) == 0)%Q /\
  (width (get (blocks (computeInitialWidth (snd (stage1 o arr))
                         (fst (stage1 o arr)))) p) == 1)%Q.
Proof.
  intros Hne Hmax Htot Hp.
  pose proof (s1_total (stage1_spec o Hne Hmax)) as Ht.
  pose proof (@stage1_depth_range o arr p Hmax Hp) as Hd.
  assert (E1 : snd (stage1 o arr) = 1) by lia.
  unfold computeInitialWidth, with_blocks. cbn [blocks].
  rewrite get_map_lt by (rewrite stage1_length; assumption).
  cbn [left width set_width set_left].
  assert (E0 : depth (get (blocks (fst (stage1 o arr))) p) = 0) by lia.
  rewrite E0, E1. split; reflexivity.
Qed.



Lemma adjInRangeb_sound bs : adjInRangeb bs = true -> adjInRange bs.
Proof.
  unfold adjInRangeb. rewrite forallb_forall. intros H v a Ha.
  destruct (Nat.lt_ge_cases v (length bs)) as [Hv|Hv].
  - specialize (H (get bs v) (nth_In _ _ Hv)).
    rewrite forallb_forall in H. apply Nat.ltb_lt. apply H.
    apply in_app_iff. assumption.
  - rewrite get_overflow in Ha by assumption. simpl in Ha. tauto.
Qed.

Section Monotone.
Variable glp_simplex : glp_prob -> nat -> Q.
Variable o : Options.
Hypothesis model1 : LPModel o <> 2.
Variable bs0 : list ScheduleBlock.

Lemma mono_step bs block buffer bs1 :
  adjInRange bs -> (block < length bs)%nat ->
  visited (get bs block) = false ->
  bfs_post bs block buffer bs1 ->
  (forall p, (width (get bs0 p) <= width (get bs p))%Q) ->
  Forall (fun e => feasible (fst e) (snd e))
    (snd (buildLPModel glp_simplex o buffer bs1)) ->
  forall p, (width (get bs0 p)
             <= width (get (fst (buildLPModel glp_simplex o buffer bs1)) p))%Q.
Proof.
  intros _ _ _ P B Hf p.
  destruct (@buildLPModel_sound glp_simplex o buffer bs1 (bp_nodup P)
              (fun b Hb => @bfs_post_range _ _ _ _ b P Hb) Hf)
    as [l [w [nl [nw S]]]].
  pose proof (step_mono S model1 p) as H1.
  destruct (visited_fields p (bp_same P)) as [_ [_ [_ [_ [_ Hw]]]]].
  rewrite Hw in H1. specialize (B p). lra.
Qed.

Lemma mono_flags bs bs' :
  sameUpTo eraseFlags bs bs' ->
  (forall p, (width (get bs0 p) <= width (get bs p))%Q) ->
  forall p, (width (get bs0 p) <= width (get bs' p))%Q.
Proof.
  intros Hs H p.
  rewrite (sameUpTo_field width (erase := eraseFlags) p (fun b => eq_refl) Hs).
  apply H.
Qed.
End Monotone.

(** C9 (amended).  Under LP model 1 ([LPModel] other than 2) an iteration
    of the LP loop returns, and when each of its problems was left at a
    feasible point no block's width is smaller after the iteration than
    before it.  The state [bs] is any state whose condensed lists point
    into the array, as they do in [compute]; the state after the iteration
    is again such a state. *)
Theorem C9_widths_never_shrink glp_simplex o bs tr :
  LPModel o <> 2 -> adjInRange bs ->
  exists bs' new c,
    lp_iteration glp_simplex o bs tr = Some (bs', tr ++ new, c) /\
    adjInRange bs' /\
    (solved new ->
     forall p, (width (get bs p) <= width (get bs' p))%Q).
Proof.
  intros Hm Hadj.
  destruct (@lp_iteration_spec glp_simplex o
              (fun e => feasible (fst e) (snd e))
              (fun b => forall p, (width (get bs p) <= width (get b p))%Q)
              (@mono_step glp_simplex o Hm bs)
              (fun b => forall p, (width (get bs p) <= width (get b p))%Q)
              (fun _ => True)
              (fun b _ _ H => H) (@mono_flags bs) bs tr Hadj)
    as [bs' [new [c [E [Hs [_ HJ]]]]]].
  exists bs', new, c. split; [exact E|].
  split; [apply (adjInRange_iter Hs Hadj)|].
  intros Hsol. apply HJ; [intros p; lra|exact Logic.I|exact Hsol].
Qed.

Lemma C9_widths_never_shrink_witness :
  (LPModel defaultOptions <> 2 /\
   adjInRange (loopEntry defaultOptions example_C8)) /\
  exists bs' new c,
    lp_iteration exampleSolver defaultOptions
      (loopEntry defaultOptions example_C8) [] = Some (bs', new, c) /\
    solved new /\
    forall p, (width (get (loopEntry defaultOptions example_C8) p)
               <= width (get bs' p))%Q.
Proof.
  assert (H1 : LPModel defaultOptions <> 2) by discriminate.
  assert (H2 : adjInRange (loopEntry defaultOptions example_C8))
    by (apply adjInRangeb_sound; vm_compute; reflexivity).
  split; [split; assumption|].
  destruct (@C9_widths_never_shrink exampleSolver defaultOptions
              (loopEntry defaultOptions example_C8) [] H1 H2)
    as [bs' [new [c [E [_ Hw]]]]].
  exists bs', new, c. split; [exact E|].
  assert (Hs : solved new).
  { pose proof E as E'. vm_compute in E'. injection E' as _ <- _.
    unfold solved.
    apply Forall_cons; [|apply Forall_cons; [|apply Forall_nil]];
      apply feasibleb_sound; vm_compute; reflexivity. }
  split; [exact Hs|]. apply Hw. exact Hs.
Defined.

(** With LP model 2 the blocks of a component get one common width.  On
    [example_C9] the blocks [10,50), [11,20) and [40,45) form the one
    component of the first iteration: [40,45) was seeded with the width
    1/2, and [11,20) has to fit between [10,50) and the fixed block
    [3,30), which starts at 3/4, so that every feasible point of the
    problem has a width of at most 3/8.  The point (0, 3/8, 5/8; 3/8) is
    feasible, and gives 3/8. *)
Lemma C9_model2_shrinks_counterexample :
  (width (get (loopEntry model2Options example_C9) 6) == 1 # 2)%Q /\
  (forall glp_simplex : glp_prob -> nat -> Q,
   exists bs' new c,
     lp_iteration glp_simplex model2Options
       (loopEntry model2Options example_C9) [] = Some (bs', new, c) /\
     (solved new -> (width (get bs' 6) <= 3 # 8)%Q)) /\
  (exists bs' new c,
     lp_iteration exampleSolver2 model2Options
       (loopEntry model2Options example_C9) [] = Some (bs', new, c) /\
     solved new /\ (width (get bs' 6) == 3 # 8)%Q).
Proof.
  split; [vm_compute; reflexivity|]. split.
  - intros s. unfold lp_iteration.
    destruct (lp_components s model2Options
                (seq 0 (length (loopEntry model2Options example_C9)))
                (loopEntry model2Options example_C9) [])
      as [[bsC trC]|] eqn:EC; vm_compute in EC; [|discriminate].
    injection EC as <- <-.
    match goal with
    | |- context [fixedPass ?ps ?b] =>
        destruct (@fixedPass_spec ps b) as [bs3 [E3 Hs3]]
    end.
    { intros p Hp. apply in_seq in Hp. lia. }
    { apply adjInRangeb_sound. vm_compute. reflexivity. }
    rewrite E3.
    pose proof (getFixedCount_spec bs3) as [Hs4 _].
    destruct (getFixedCount bs3) as [bs4 c]. cbn [fst] in Hs4.
    eexists _, _, _. split; [reflexivity|].
    intros Hsol.
    rewrite (sameUpTo_field width (erase := eraseFlags) 6
               (fun b => eq_refl) Hs4).
    rewrite (sameUpTo_field width (erase := eraseFlags) 6
               (fun b => eq_refl) Hs3).
    cbn [get nth map width set_visited].
    apply Forall_inv in Hsol. cbn [fst snd] in Hsol.
    destruct Hsol as [Hrows [Hcols _]].
    pose proof (Hrows 2%nat _ eq_refl) as R2.
    pose proof (Hrows 3%nat _ eq_refl) as R3.
    pose proof (Hcols 1%nat _ eq_refl) as C1.
    cbn in R2, R3, C1. lra.
  - destruct (lp_iteration exampleSolver2 model2Options
                (loopEntry model2Options example_C9) [])
      as [[[bs' new] c]|] eqn:E; vm_compute in E; [|discriminate].
    injection E as <- <- <-.
    eexists _, _, _. split; [reflexivity|]. split.
    + unfold solved. apply Forall_cons; [|apply Forall_nil].
      apply feasibleb_sound. vm_compute. reflexivity.
    + vm_compute. reflexivity.
Qed.

(** *** No overlap *)




Section Layout.
Variable glp_simplex : glp_prob -> nat -> Q.
Variable o : Options.
Variable n : nat.




End Layout.





(** the MILP path on two overlapping blocks, with a feasible point *)
Example compute_milp_twoOverlapping :
  exists st tr,
    compute exampleSolverMILP exampleSolverMILP milpOptions twoOverlapping
      = Some (st, tr) /\
    solved tr /\
    map (fun b => (Qred (left b), Qred (width b))) (blocks st)
      = [(0, 1 # 2); (1 # 2, 1 # 2)]%Q.
Proof.
  destruct (compute exampleSolverMILP exampleSolverMILP milpOptions
              twoOverlapping) as [[st tr]|] eqn:E;
    vm_compute in E; [|discriminate].
  injection E as <- <-. eexists _, _. split; [reflexivity|]. split.
  - unfold solved. apply Forall_cons; [|apply Forall_nil].
    apply feasibleb_sound. vm_compute. reflexivity.
  - vm_compute. reflexivity.
Qed.


(** *** The states of the LP loop in [compute] *)

Lemma stage1_cond_nil o arr p :
  cleftN (get (blocks (fst (stage1 o arr))) p) = [] /\
  crightN (get (blocks (fst (stage1 o arr))) p) = [].
Proof.
  destruct (stage1_frame o arr) as [Hs _].
  rewrite (sameUpTo_field cleftN (erase := set_depth 0) p
             (fun b => eq_refl) Hs),
          (sameUpTo_field crightN (erase := set_depth 0) p
             (fun b => eq_refl) Hs).
  destruct (setup_fields arr p) as [_ [_ [_ [-> [-> _]]]]]. auto.
Qed.

Lemma adjInRange_nil bs :
  (forall p, cleftN (get bs p) = [] /\ crightN (get bs p) = []) ->
  adjInRange bs.
Proof.
  intros H v a Ha. destruct (H v) as [E1 E2]. rewrite E1, E2 in Ha.
  destruct Ha as [[]|[]].
Qed.

(** The blocks with which [compute] enters the LP loop have condensed
    lists that point into the array; an iteration keeps this. *)
Lemma loopEntry_adjInRange o arr :
  Z.of_nat (length arr) <= INT_MAX -> adjInRange (loopEntry o arr).
Proof.
  intros Hmax. unfold loopEntry.
  set (o' := withLPIters 0 o). set (z := fun (_ : glp_prob) (_ : nat) => 0%Q).
  destruct (Z.eq_dec (MILP o') 0) as [Hmilp|Hmilp].
  - destruct (Z.le_gt_cases (snd (stage1 o' arr)) 1) as [Htot|Htot].
    + unfold compute. rewrite (surjective_pairing (stage1 o' arr)).
      rewrite Hmilp. cbn [Z.eqb negb].
      replace (snd (stage1 o' arr) <=? 1) with true
        by (symmetry; apply Z.leb_le; assumption).
      apply adjInRange_nil. intros p.
      unfold computeInitialWidth, with_blocks. cbn [blocks].
      destruct (Nat.lt_ge_cases p (length (blocks (fst (stage1 o' arr)))))
        as [Hp|Hp].
      * rewrite !get_map_lt by assumption.
        cbn [cleftN crightN set_width set_left]. apply stage1_cond_nil.
      * rewrite get_overflow by (rewrite length_map; assumption).
        split; reflexivity.
    + destruct (@compute_lp z z o' (fun _ => True) (fun _ => True)
                  (fun _ => True)
                  (fun _ _ _ _ _ _ _ _ _ _ => Logic.I)
                  (fun _ _ _ _ => Logic.I) (fun _ _ _ _ => Logic.I)
                  (fun _ _ _ _ => Logic.I) arr Hmax Hmilp ltac:(lia))
        as [st4 [P [bs7 [tr [E [S [Hs7 _]]]]]]].
      rewrite E. cbn [blocks with_blocks].
      apply (adjInRange_iter Hs7). apply (lg_range (@stage4_lpgraph o' arr st4 P S)).
  - unfold compute. rewrite (surjective_pairing (stage1 o' arr)).
    replace (MILP o' =? 0) with false
      by (symmetry; apply Z.eqb_neq; assumption).
    cbn [negb]. rewrite (surjective_pairing (buildMILPModel _ _ _ _)).
    apply adjInRange_nil. intros p. unfold buildMILPModel.
    destruct (milp_outer _ _ _ _ _ _ _) as [st1 bv].
    cbn [fst blocks with_blocks].
    destruct (@writeBack_spec0
                (z (glp_load_matrix (b_trip st1)
                      (fold_left
                         (fun lp i => glp_set_obj_coef (i + 1) 0%Q
                                        (glp_set_col_kind_BV (i + 1) lp))
                         (seq (2 * length (blocks (fst (stage1 o' arr))))
                              (countPairs (dfsTolerance o')
                                 (blocks (fst (stage1 o' arr)))
                                 (blocksReordered (fst (stage1 o' arr)))))
                         (b_lp st1))))
                (fun i => (2 * i + 1)%nat) (fun i => (2 * i + 2)%nat)
                (seq 0 (length (blocks (fst (stage1 o' arr)))))
                (blocks (fst (stage1 o' arr)))
                (seq_NoDup _ 0)) as [Hs _].
    { intros b Hb. apply in_seq in Hb. lia. }
    destruct (lw_fields p Hs) as [_ [_ [-> [-> _]]]].
    apply stage1_cond_nil.
Qed.
(** ** The lower bound on the widths *)



(** the blocks of a component are not fixed, and their neighbours that are
    not fixed are in the component *)
Lemma component_facts n bs block buffer bs1 :
  lpgraph n bs -> comp_inv bs -> bfs_post bs block buffer bs1 ->
  (forall b, In b buffer -> idx (get bs1 b) = b) /\
  (forall b, In b buffer -> isFixed (get bs1 b) = false) /\
  (forall b a, In b buffer ->
     In a (cleftN (get bs1 b)) \/ In a (crightN (get bs1 b)) ->
     isFixed (get bs1 a) = false -> In a buffer).
Proof.
  intros G C P.
  assert (Hfix : forall p, isFixed (get bs1 p) = isFixed (get bs p))
    by (intros p; apply (visited_fields p (bp_same P))).
  assert (Hcl : forall p, cleftN (get bs1 p) = cleftN (get bs p))
    by (intros p; apply (visited_fields p (bp_same P))).
  assert (Hcr : forall p, crightN (get bs1 p) = crightN (get bs p))
    by (intros p; apply (visited_fields p (bp_same P))).
  split; [|split].
  - intros b Hb.
    destruct (visited_fields b (bp_same P)) as [_ [_ [_ [-> _]]]].
    apply (lg_idx G). rewrite <- (lg_len G). apply (bp_fresh P). assumption.
  - intros b Hb. rewrite Hfix.
    destruct (isFixed (get bs b)) eqn:E; [|reflexivity].
    apply (ci_fixed C) in E. destruct (bp_fresh P b Hb) as [_ Hv].
    congruence.
  - intros b a Hb Ha Hf. rewrite Hcl, Hcr in Ha.
    pose proof (bp_closed P b a Hb Ha) as Hv.
    apply (bp_visited P) in Hv. destruct Hv as [Hv|Hv]; [|assumption].
    exfalso. rewrite Hfix in Hf.
    assert (Hba : In b (cleftN (get bs a)) \/ In b (crightN (get bs a))).
    { destruct Ha as [Ha|Ha].
      - right. apply (lg_sym G). assumption.
      - left. apply (lg_sym G). assumption. }
    pose proof (ci_closed C a b Hv Hf Hba) as Hvb.
    destruct (bp_fresh P b Hb) as [_ Hnv]. congruence.
Qed.




Section MinWidth.
Variable glp_simplex : glp_prob -> nat -> Q.
Variable o : Options.
Variable n : nat.
Variable w0 : Q.
Hypothesis w0_unit : (0 <= w0)%Q /\ (w0 <= 1)%Q.




End MinWidth.



(** ** Runs of [compute] *)

(** On these inputs every block is found fixed after the seeding, and
    [compute] returns without calling the solver. *)
Section Scenarios.
Variable glp_simplex : glp_prob -> nat -> Q.
Variable glp_intopt : glp_prob -> nat -> Q.

Example compute_empty :
  layoutOf (compute glp_simplex glp_intopt defaultOptions [])
  = Some ([], O).
Proof. vm_compute. reflexivity. Qed.

Example compute_single :
  layoutOf (compute glp_simplex glp_intopt defaultOptions single)
  = Some ([(0, 1)]%Q, O).
Proof. vm_compute. reflexivity. Qed.

Example compute_twoDisjoint :
  layoutOf (compute glp_simplex glp_intopt defaultOptions twoDisjoint)
  = Some ([(0, 1); (0, 1)]%Q, O).
Proof. vm_compute. reflexivity. Qed.

Example compute_twoOverlapping :
  layoutOf (compute glp_simplex glp_intopt defaultOptions twoOverlapping)
  = Some ([(0, 1 # 2); (1 # 2, 1 # 2)]%Q, O).
Proof. vm_compute. reflexivity. Qed.

Example compute_staircase :
  layoutOf (compute glp_simplex glp_intopt defaultOptions staircase)
  = Some ([(0, 1 # 2); (1 # 2, 1 # 2); (0, 1 # 2)]%Q, O).
Proof. vm_compute. reflexivity. Qed.

Example compute_chainOfFour :
  layoutOf (compute glp_simplex glp_intopt defaultOptions chainOfFour)
  = Some ([(0, 1 # 4); (1 # 4, 1 # 4); (1 # 2, 1 # 4); (3 # 4, 1 # 4)]%Q, O).
Proof. vm_compute. reflexivity. Qed.
End Scenarios.

(** On [example_C8] the block [10,20) is left to the LP loop: it is seeded
    at [1/2] with the width [1/2], beside a fixed block that ends at
    [1/3], and the solver moves it to [1/3] with the width [2/3]. *)
Example compute_example_C8 :
  layoutOf (compute exampleSolver exampleSolver defaultOptions example_C8)
  = Some ([(0, 1 # 3); (1 # 3, 2 # 3); (1 # 3, 1 # 3); (2 # 3, 1 # 3)]%Q,
          2%nat).
Proof. vm_compute. reflexivity. Qed.
(** * The sorted order *)

Section SortRel.
Variable lt : nat -> nat -> bool.
Variable R : nat -> nat -> Prop.
Hypothesis lt_R : forall x y, lt x y = true -> R x y.
Hypothesis nlt_R : forall x y, lt x y = false -> R y x.
Hypothesis R_trans : forall x y z, R x y -> R y z -> R x z.


End SortRel.




(** * Rooms, the condensed graph and the path depth *)



Lemma reach_rank (mu : nat -> Z) bs :
  (forall a j, In j (cleftN (get bs a)) -> mu j < mu a) ->
  forall p v, reach cleftN bs p v -> mu v < mu p.
Proof.
  intros H p v. induction 1 as [b v Hv|b w v Hw _ IH].
  - apply H. assumption.
  - specialize (H b w Hw). lia.
Qed.

(** X4.  After stage S3 the condensed lists mirror each other ([v] is in
    [crightN(p)] exactly when [p] is in [cleftN(v)]), the blocks of
    [cleftN(p)] are blocks of the input whose depth is at most that of [p],
    and no block reaches itself along [cleftN] links. *)
Theorem condensed_graph_shape o arr :
  (forall p v, In v (crightN (get (blocks (stage3 o arr)) p)) <->
               In p (cleftN (get (blocks (stage3 o arr)) v))) /\
  (forall p v, In v (cleftN (get (blocks (stage3 o arr)) p)) ->
     (p < length arr)%nat /\ (v < length arr)%nat /\
     depth (get (blocks (stage3 o arr)) v)
       <= depth (get (blocks (stage3 o arr)) p)) /\
  (forall p, ~ reach cleftN (blocks (stage3 o arr)) p p).
Proof.
  pose proof (stage3_graph o arr) as G.
  split; [|split].
  - apply (lg_sym (graph_ok_lpgraph G)).
  - intros p v H. destruct (stage3_cleft_range _ _ _ _ H) as [Hp Hv].
    split; [assumption|]. split; [assumption|].
    apply (g_depth G). apply (g_cleft G) in H. tauto.
  - intros p Hr. destruct (g_rank G) as [mu Hmu].
    assert (mu p < mu p); [|lia].
    apply (@reach_rank mu (blocks (stage3 o arr))); [|assumption].
    intros a j Hj. apply Hmu. apply (g_cleft G) in Hj. tauto.
Qed.

Lemma reachOrSelf_range o arr s x :
  reachOrSelf (blocks (stage3 o arr)) s x -> (x < length arr)%nat ->
  (s < length arr)%nat.
Proof.
  intros [->|H] Hx; [assumption|].
  destruct H as [b v H|b w v H _]; apply (stage3_cleft_range _ _ _ _ H).
Qed.

(** X5.  With [applyDFS] set, stage S4 returns, and the [pathDepth] it
    leaves on a block [x] is one more than the greatest depth among [x] and
    the blocks from which [x] is reached along [cleftN] links: it is
    [depth s + 1] for one such [s], and at least that for every such
    [s]. *)
Theorem pathDepth_greatest_depth o arr total :
  applyDFS o <> 0 ->
  exists st4,
    stage4 o total (stage3 o arr) = Some st4 /\
    forall x, (x < length arr)%nat ->
      (exists s, reachOrSelf (blocks (stage3 o arr)) s x /\
         pathDepth (get (blocks st4) x)
         = depth (get (blocks (stage3 o arr)) s) + 1) /\
      (forall s, reachOrSelf (blocks (stage3 o arr)) s x ->
         depth (get (blocks (stage3 o arr)) s) + 1
           <= pathDepth (get (blocks st4) x)).
Proof.
  intros Hdfs.
  destruct (dfs_all_stage3 o arr) as [bs [E [I Hvis]]].
  pose proof (stage3_graph o arr) as G.
  set (bs3 := blocks (stage3 o arr)) in *.
  unfold stage4, dfsWidthExpansion.
  destruct (Z.eqb_spec (applyDFS o) 0) as [|_]; [contradiction|].
  fold bs3. rewrite E. eexists. split; [reflexivity|].
  cbn [blocks with_blocks].
  assert (Hpd : forall x, pathDepth (get (map (set_visited false)
                                       (map seedFromPath bs)) x)
                          = pathDepth (get bs x)).
  { intros x. rewrite !get_map by reflexivity. reflexivity. }
  assert (Hlow : forall s, (s < length arr)%nat ->
            depth (get bs3 s) + 1 <= pathDepth (get bs s)).
  { intros s Hs. destruct (da_path I s (Hvis s Hs)) as [s' [Hr [_ ->]]].
    destruct Hr as [->|Hr]; [lia|].
    pose proof (reach_depth_le G Hr). lia. }
  assert (Hmono : forall s x, reach cleftN bs3 s x ->
            pathDepth (get bs s) <= pathDepth (get bs x)).
  { intros s x. induction 1 as [b v Hv|b w v Hw _ IH].
    - apply (da_edge I); [|assumption].
      apply Hvis. apply (stage3_cleft_range _ _ _ _ Hv).
    - assert (pathDepth (get bs b) <= pathDepth (get bs w)); [|lia].
      apply (da_edge I); [|assumption].
      apply Hvis. apply (stage3_cleft_range _ _ _ _ Hw). }
  intros x Hx. rewrite Hpd. split.
  - destruct (da_path I x (Hvis x Hx)) as [s [Hr [_ Hp]]]. eauto.
  - intros s Hr.
    pose proof (Hlow s (@reachOrSelf_range o arr s x Hr Hx)).
    destruct Hr as [->|Hr]; [assumption|].
    pose proof (Hmono s x Hr). lia.
Qed.

Lemma pathDepth_greatest_depth_witness :
  exists st4,
    stage4 defaultOptions 3 (stage3 defaultOptions example_C8) = Some st4 /\
    forall x, (x < length example_C8)%nat ->
      (exists s, reachOrSelf (blocks (stage3 defaultOptions example_C8)) s x /\
         pathDepth (get (blocks st4) x)
         = depth (get (blocks (stage3 defaultOptions example_C8)) s) + 1) /\
      (forall s, reachOrSelf (blocks (stage3 defaultOptions example_C8)) s x ->
         depth (get (blocks (stage3 defaultOptions example_C8)) s) + 1
           <= pathDepth (get (blocks st4) x)).
Proof.
  apply (@pathDepth_greatest_depth defaultOptions example_C8 3).
  discriminate.
Defined.

(** * The component that [BFS] collects *)

Lemma bfs_visit_origin : forall nodes buffer bs buffer' bs',
  bfs_visit nodes buffer bs = (buffer', bs') ->
  forall x, In x buffer' ->
    In x buffer \/ (In x nodes /\ visited (get bs x) = false).
Proof.
  induction nodes as [|node nodes IH]; intros buffer bs buffer' bs' E x Hx;
    simpl in E.
  - injection E as <- <-. left. assumption.
  - destruct (visited (get bs node)) eqn:Hv.
    + destruct (IH _ _ _ _ E x Hx) as [H|[H1 H2]]; [left; assumption|].
      right. split; [right; assumption|assumption].
    + destruct (IH _ _ _ _ E x Hx) as [H|[H1 H2]].
      * apply in_app_iff in H. destruct H as [H|[<-|[]]]; [left; assumption|].
        right. split; [left; reflexivity|assumption].
      * right. split; [right; assumption|].
        destruct (Nat.eq_dec node x) as [<-|Hne]; [assumption|].
        rewrite get_upd_ne in H2 by assumption. assumption.
Qed.

Section BfsComponent.
Variable bs0 : list ScheduleBlock.
Variable M : nat.
Variable start : nat.
Hypothesis adj_range : adjInRange bs0.

Lemma bfs_visit_component nodes node buffer bs buffer' bs' :
  bfs_inv bs0 M buffer bs ->
  component bs0 start node ->
  (forall a, In a nodes ->
     In a (cleftN (get bs0 node)) \/ In a (crightN (get bs0 node))) ->
  (forall x, In x buffer -> component bs0 start x) ->
  bfs_visit nodes buffer bs = (buffer', bs') ->
  bfs_inv bs0 M buffer' bs' /\
  forall x, In x buffer' -> component bs0 start x.
Proof.
  intros I Hn Hnodes Hb E.
  destruct (@bfs_visit_spec bs0 M nodes buffer bs buffer' bs') as [I' _];
    try assumption.
  { intros a Ha. apply (adj_range node a). apply Hnodes. assumption. }
  split; [assumption|].
  intros x Hx. destruct (bfs_visit_origin _ _ _ E x Hx) as [H|[H1 H2]].
  - apply Hb. assumption.
  - apply component_step with (b := node); [assumption|apply Hnodes, H1|].
    destruct (visited (get bs0 x)) eqn:Hv0; [|reflexivity].
    assert (visited (get bs x) = true)
      by (apply (bi_visited I); left; assumption).
    congruence.
Qed.

Lemma bfs_loop_component : forall fuel qIdx buffer bs buffer' bs',
  bfs_inv bs0 M buffer bs ->
  (forall x, In x buffer -> component bs0 start x) ->
  bfs_loop fuel qIdx buffer bs = Some (buffer', bs') ->
  forall x, In x buffer' -> component bs0 start x.
Proof.
  induction fuel as [|fuel IH]; intros qIdx buffer bs buffer' bs' I Hb E;
    simpl in E.
  - destruct (qIdx <? length buffer)%nat; [discriminate|].
    injection E as <- <-. assumption.
  - destruct (qIdx <? length buffer)%nat eqn:Hlt.
    + apply Nat.ltb_lt in Hlt.
      set (node := nth qIdx buffer O) in *.
      assert (Hnode : component bs0 start node)
        by (apply Hb, nth_In; assumption).
      destruct (bfs_visit (cleftN (get bs node)) buffer bs)
        as [buffer1 bs1] eqn:E1.
      assert (Hn1 : forall a, In a (cleftN (get bs node)) ->
                In a (cleftN (get bs0 node)) \/ In a (crightN (get bs0 node))).
      { intros a Ha. left.
        rewrite <- (sameUpTo_field cleftN (erase := eraseVisited) node
                      (fun b => eq_refl) (bi_same I)). assumption. }
      destruct (@bfs_visit_component _ node _ _ _ _ I Hnode Hn1 Hb E1)
        as [I1 Hb1].
      destruct (bfs_visit (crightN (get bs1 node)) buffer1 bs1)
        as [buffer2 bs2] eqn:E2.
      assert (Hn2 : forall a, In a (crightN (get bs1 node)) ->
                In a (cleftN (get bs0 node)) \/ In a (crightN (get bs0 node))).
      { intros a Ha. right.
        rewrite <- (sameUpTo_field crightN (erase := eraseVisited) node
                      (fun b => eq_refl) (bi_same I1)). assumption. }
      destruct (@bfs_visit_component _ node _ _ _ _ I1 Hnode Hn2 Hb1 E2)
        as [I2 Hb2].
      apply (IH _ _ _ _ _ I2 Hb2 E).
    + injection E as <- <-. assumption.
Qed.
End BfsComponent.

Lemma eraseVisited_inj b b' :
  eraseVisited b = eraseVisited b' -> visited b = visited b' -> b = b'.
Proof.
  destruct b, b'. unfold eraseVisited. simpl. intros H ->.
  injection H as -> -> -> -> -> -> -> -> -> -> -> -> ->. reflexivity.
Qed.

(** X6.  [BFS] from an unvisited block [start] returns.  The buffer it
    fills begins with [start], holds no block twice and no more blocks than
    there are, and holds exactly the component of [start]: the blocks
    reached from it through [cleftN] and [crightN] links without entering a
    block that was visited before the call.  [BFS] sets the visited flag of
    these blocks and changes nothing else. *)
Theorem BFS_component bs0 start :
  adjInRange bs0 ->
  (start < length bs0)%nat -> visited (get bs0 start) = false ->
  exists rest bs,
    BFS bs0 start = Some (start :: rest, bs) /\
    NoDup (start :: rest) /\
    (length (start :: rest) <= length bs0)%nat /\
    (forall x, In x (start :: rest) <-> component bs0 start x) /\
    (forall p, In p (start :: rest) ->
       get bs p = set_visited true (get bs0 p)) /\
    (forall p, ~ In p (start :: rest) -> get bs p = get bs0 p).
Proof.
  intros adj_range Hs Hv. unfold BFS.
  assert (I : bfs_inv bs0 (unvisitedCount bs0) [start]
                (upd start (set_visited true) bs0)).
  { constructor.
    - apply sameUpTo_upd. reflexivity.
    - intros p. rewrite visited_upd_true by assumption. simpl.
      split; [intros [H|H]|intros [H|[H|[]]]]; auto.
    - constructor; [intros []|constructor].
    - intros x [<-|[]]. split; assumption.
    - simpl. pose proof (@unvisitedCount_mark start bs0 Hs Hv). lia. }
  destruct (@bfs_loop_spec bs0 (unvisitedCount bs0) adj_range
              (length bs0) O _ _ I)
    as [buffer [bs [E [I' [[new Hn] Hc]]]]].
  { simpl. lia. }
  { pose proof (unvisitedCount_le_length bs0). lia. }
  { intros k a Hk. lia. }
  subst buffer. cbn [app] in *.
  exists new, bs. split; [assumption|].
  split; [apply (bi_nodup I')|].
  split.
  { pose proof (bi_measure I').
    pose proof (unvisitedCount_le_length bs0). lia. }
  assert (Hfield : forall p, eraseVisited (get bs p) = eraseVisited (get bs0 p))
    by apply (bi_same I').
  split; [|split].
  - intros x. split.
    + revert x.
      apply (@bfs_loop_component bs0 (unvisitedCount bs0) start adj_range
               (length bs0) O [start] (upd start (set_visited true) bs0)
               (start :: new) bs I); [|exact E].
      intros y [<-|[]]. constructor.
    + induction 1 as [|b a Hb IH Ha Hva]; [left; reflexivity|].
      assert (Hvis : visited (get bs a) = true) by (apply (Hc b a); assumption).
      apply (bi_visited I') in Hvis. destruct Hvis as [Hvis|Hin];
        [congruence|assumption].
  - intros p Hp. apply eraseVisited_inj.
    + rewrite Hfield. reflexivity.
    + simpl. apply (bi_visited I'). right. assumption.
  - intros p Hp. apply eraseVisited_inj; [apply Hfield|].
    destruct (visited (get bs p)) eqn:Hvp.
    + apply (bi_visited I') in Hvp. destruct Hvp as [Hvp|Hin];
        [congruence|contradiction].
    + destruct (visited (get bs0 p)) eqn:Hv0; [|reflexivity].
      assert (visited (get bs p) = true)
        by (apply (bi_visited I'); left; assumption).
      congruence.
Qed.

Lemma BFS_component_witness :
  exists rest bs,
    BFS (loopEntry defaultOptions example_C8) 1 = Some (1%nat :: rest, bs) /\
    NoDup (1%nat :: rest) /\
    (length (1%nat :: rest) <= length (loopEntry defaultOptions example_C8))%nat /\
    (forall x, In x (1%nat :: rest)
               <-> component (loopEntry defaultOptions example_C8) 1 x) /\
    (forall p, In p (1%nat :: rest) ->
       get bs p = set_visited true (get (loopEntry defaultOptions example_C8) p)) /\
    (forall p, ~ In p (1%nat :: rest) ->
       get bs p = get (loopEntry defaultOptions example_C8) p).
Proof.
  apply (@BFS_component (loopEntry defaultOptions example_C8) 1).
  - apply adjInRangeb_sound. vm_compute. reflexivity.
  - vm_compute. lia.
  - vm_compute. reflexivity.
Defined.

(** * The lowest free room *)

Lemma before_app_l l l' x y : before l x y -> before (l ++ l') x y.
Proof.
  induction l as [|z l IH]; simpl; [tauto|].
  intros [[-> Hy]|H]; [left|right; auto].
  split; [reflexivity|apply in_or_app; left; assumption].
Qed.

Lemma before_last l x b : In x l -> before (l ++ [b]) x b.
Proof.
  induction l as [|z l IH]; simpl; [tauto|].
  intros [->|H]; [left|right; auto].
  split; [reflexivity|apply in_or_app; right; left; reflexivity].
Qed.

(** the inner loop of [intervalScheduling] finds a room of least depth
    among those that are free *)
Lemma findRoom_min bs tol block occ : forall k idx0 m i m',
  findRoom bs tol block occ k idx0 m = (i, m') ->
  m' <= m /\
  (forall r, In r occ ->
     endMin (get bs r) <= startMin (get bs block) + tol ->
     m' <= depth (get bs r)) /\
  ((i = idx0 /\ m' = m) \/
   (k <= i < k + Z.of_nat (length occ) /\
    endMin (get bs (nth (Z.to_nat (i - k)) occ 0%nat))
      <= startMin (get bs block) + tol /\
    depth (get bs (nth (Z.to_nat (i - k)) occ 0%nat)) = m')).
Proof.
  induction occ as [|r occ IH]; intros k idx0 m i m'; simpl.
  - intros [= <- <-]. split; [lia|]. split; [intros r []|]. left. auto.
  - destruct (Z.leb_spec (endMin (get bs r)) (startMin (get bs block) + tol))
      as [Hc|Hc]; simpl.
    + destruct (Z.ltb_spec (depth (get bs r)) m) as [Hd|Hd].
      * intros H. apply IH in H. destruct H as [Hle [Hall Hsel]].
        split; [lia|]. split.
        -- intros r' [<-|Hr'] Hp; [lia|apply Hall; assumption].
        -- right. destruct Hsel as [[-> ->]|[Hr [Hp He]]].
           ++ split; [lia|]. replace (k - k) with 0 by lia. simpl. auto.
           ++ split; [lia|].
              replace (Z.to_nat (i - k)) with (S (Z.to_nat (i - (k + 1))))
                by lia.
              simpl. auto.
      * intros H. apply IH in H. destruct H as [Hle [Hall Hsel]].
        split; [lia|]. split.
        -- intros r' [<-|Hr'] Hp; [lia|apply Hall; assumption].
        -- destruct Hsel as [[-> ->]|[Hr [Hp He]]]; [left; auto|].
           right. split; [lia|].
           replace (Z.to_nat (i - k)) with (S (Z.to_nat (i - (k + 1))))
             by lia.
           simpl. auto.
    + intros H. apply IH in H. destruct H as [Hle [Hall Hsel]].
      split; [lia|]. split.
      * intros r' [<-|Hr'] Hp; [lia|apply Hall; assumption].
      * destruct Hsel as [[-> ->]|[Hr [Hp He]]]; [left; auto|].
        right. split; [lia|].
        replace (Z.to_nat (i - k)) with (S (Z.to_nat (i - (k + 1))))
          by lia.
        simpl. auto.
Qed.

Lemma lowestRoom_keep t bs pre b d y :
  ~ In b pre -> In y pre -> lowestRoom t bs pre y ->
  lowestRoom t (upd b (set_depth d) bs) (pre ++ [b]) y.
Proof.
  intros Hb Hy L d' Hd'.
  assert (Hyb : b <> y) by (intros ->; contradiction).
  rewrite get_upd_ne in Hd' by assumption.
  destruct (L d' Hd') as [x [Hx [Hdx Hs]]].
  exists x. split; [apply before_app_l; assumption|].
  assert (Hxb : b <> x).
  { intros ->. apply Hb. apply (before_In _ _ _ Hx). }
  rewrite get_upd_ne by assumption. split; [assumption|].
  rewrite ?get_upd_startMin, ?get_upd_endMin. assumption.
Qed.

Lemma is1_loop_lowest t : forall rest pre bs occ nr bs' occ' nr',
  NoDup (pre ++ rest) ->
  (forall x, In x (pre ++ rest) -> (x < length bs)%nat) ->
  Z.of_nat (length occ) = nr + 1 ->
  nr + 1 + Z.of_nat (length rest) <= INT_MAX ->
  (forall k, (k < length occ)%nat ->
     depth (get bs (nth k occ O)) = Z.of_nat k /\ In (nth k occ O) pre) ->
  (forall y, In y pre -> lowestRoom t bs pre y) ->
  is1_loop t rest bs occ nr = (bs', occ', nr') ->
  forall y, In y (pre ++ rest) -> lowestRoom t bs' (pre ++ rest) y.
Proof.
  induction rest as [|b rest IH];
    intros pre bs occ nr bs' occ' nr' Hnd Hr Hlen Hmax Hocc Hlow E.
  - simpl in E. injection E as <- <- <-. rewrite app_nil_r. assumption.
  - cbn [is1_loop] in E.
    assert (Hb : ~ In b pre).
    { apply NoDup_remove_2 in Hnd. intros H. apply Hnd.
      apply in_or_app. left; assumption. }
    assert (Hbl : (b < length bs)%nat).
    { apply Hr. apply in_or_app. right. left. reflexivity. }
    assert (Hnd' : NoDup ((pre ++ [b]) ++ rest))
      by (rewrite <- app_assoc; assumption).
    assert (Heq : (pre ++ [b]) ++ rest = pre ++ b :: rest)
      by (rewrite <- app_assoc; reflexivity).
    destruct (findRoom bs t b occ 0 (-1) INT_MAX) as [idx1 m'] eqn:Ef.
    apply findRoom_min in Ef. destruct Ef as [Hle [Hall Hsel]].
    cbn [fst] in E.
    assert (Hoccb : forall k, (k < length occ)%nat -> nth k occ O <> b).
    { intros k Hk Heqb. apply Hb. rewrite <- Heqb. apply Hocc. assumption. }
    destruct (Z.eqb_spec idx1 (-1)) as [Hneg|Hpos].
    + (* a new room *)
      assert (Hnone : forall r, In r occ ->
                startMin (get bs b) + t < endMin (get bs r)).
      { intros r Hr'.
        destruct (Z.lt_ge_cases (startMin (get bs b) + t) (endMin (get bs r)))
          as [H|H]; [assumption|].
        destruct Hsel as [[_ ->]|[Hrange _]]; [|lia].
        assert (Hdr : INT_MAX <= depth (get bs r)) by (apply Hall; auto; lia).
        destruct (In_nth _ _ O Hr') as [k [Hk Hnth]].
        destruct (Hocc k Hk) as [Hd _]. rewrite Hnth in Hd. lia. }
      rewrite <- Heq.
      apply (IH (pre ++ [b]) (upd b (set_depth (nr + 1)) bs) (occ ++ [b])
               (nr + 1) bs' occ' nr'); try assumption.
      * intros x Hx. rewrite length_upd. apply Hr. rewrite <- Heq. assumption.
      * rewrite length_app. simpl. lia.
      * simpl length in Hmax. lia.
      * intros k Hk. rewrite length_app in Hk. simpl in Hk.
        destruct (Nat.lt_ge_cases k (length occ)) as [Hlt|Hge].
        -- rewrite app_nth1 by assumption.
           rewrite get_upd_ne by (apply not_eq_sym, Hoccb; assumption).
           destruct (Hocc k Hlt) as [Hd Hin]. split; [assumption|].
           apply in_or_app. left; assumption.
        -- assert (k = length occ) by lia. subst k.
           rewrite app_nth2, Nat.sub_diag by lia. simpl.
           rewrite get_upd_depth by assumption.
           split; [lia|]. apply in_or_app. right. left. reflexivity.
      * intros y Hy. apply in_app_iff in Hy. destruct Hy as [Hy|[<-|[]]].
        -- apply lowestRoom_keep; auto.
        -- intros d Hd. rewrite get_upd_depth in Hd by assumption.
           assert (Hk : (Z.to_nat d < length occ)%nat) by lia.
           destruct (Hocc _ Hk) as [Hdx Hin].
           exists (nth (Z.to_nat d) occ O).
           split; [apply before_last; assumption|].
           rewrite get_upd_ne by (apply not_eq_sym, Hoccb; assumption).
           split; [lia|].
           rewrite ?get_upd_startMin, ?get_upd_endMin.
           apply Hnone. apply nth_In. assumption.
    + (* an occupied room *)
      destruct Hsel as [[Hi _]|[Hrange [Hpass Hdep]]]; [contradiction|].
      rewrite Z.sub_0_r in Hpass, Hdep.
      set (i := Z.to_nat idx1) in *.
      assert (Hi : (i < length occ)%nat) by lia.
      destruct (Hocc i Hi) as [Hdi _].
      assert (Hm' : m' = Z.of_nat i) by lia.
      rewrite <- Heq.
      apply (IH (pre ++ [b])
               (upd b (set_depth (depth (get bs (nth i occ O)))) bs)
               (store i b occ) nr bs' occ' nr'); try assumption.
      * intros x Hx. rewrite length_upd. apply Hr. rewrite <- Heq. assumption.
      * rewrite length_store. assumption.
      * simpl length in Hmax. lia.
      * intros k Hk. rewrite length_store in Hk.
        destruct (Nat.eq_dec i k) as [<-|Hne].
        -- rewrite nth_store_eq by assumption.
           rewrite get_upd_depth by assumption.
           split; [assumption|]. apply in_or_app. right. left. reflexivity.
        -- rewrite nth_store_ne by assumption.
           rewrite get_upd_ne by (apply not_eq_sym, Hoccb; assumption).
           destruct (Hocc k Hk) as [Hd Hin]. split; [assumption|].
           apply in_or_app. left; assumption.
      * intros y Hy. apply in_app_iff in Hy. destruct Hy as [Hy|[<-|[]]].
        -- apply lowestRoom_keep; auto.
        -- intros d Hd. rewrite get_upd_depth in Hd by assumption.
           assert (Hk : (Z.to_nat d < length occ)%nat) by lia.
           destruct (Hocc _ Hk) as [Hdx Hin].
           exists (nth (Z.to_nat d) occ O).
           split; [apply before_last; assumption|].
           rewrite get_upd_ne by (apply not_eq_sym, Hoccb; assumption).
           split; [lia|].
           rewrite ?get_upd_startMin, ?get_upd_endMin.
           destruct (Z.lt_ge_cases (startMin (get bs b) + t)
                       (endMin (get bs (nth (Z.to_nat d) occ O))))
             as [H|H]; [assumption|].
           assert (m' <= depth (get bs (nth (Z.to_nat d) occ O))).
           { apply Hall; [apply nth_In; assumption|lia]. }
           lia.
Qed.

Lemma stage1_lowestRoom o arr b :
  ISMethod o = 1 -> Z.of_nat (length arr) <= INT_MAX ->
  (b < length arr)%nat ->
  lowestRoom (isTolerance o) (blocks (fst (stage1 o arr)))
    (blocksReordered (fst (stage1 o arr))) b.
Proof.
  intros Hm Hmax Hb.
  assert (Hne : arr <> []) by (destruct arr; [simpl in Hb; lia|discriminate]).
  destruct (stage1_nonempty Hne) as [b0 [rest Hord]].
  pose proof (sortByStartTime_perm (setup arr)) as Hperm.
  rewrite Hord in Hperm. cbn [setup blocksReordered] in Hperm.
  assert (Hn : (length (blocks (setup arr)) =? 0)%nat = false).
  { rewrite length_setup. destruct arr; [congruence|reflexivity]. }
  unfold stage1. rewrite (proj2 (Z.eqb_eq _ _) Hm).
  unfold intervalScheduling. rewrite Hn, Hord.
  destruct (is1_loop (isTolerance o) rest (blocks (sortByStartTime (setup arr)))
              [b0] 0) as [[bs occ] nr] eqn:E.
  cbn [fst blocks blocksReordered with_blocks]. rewrite Hord.
  change (b0 :: rest) with ([b0] ++ rest) in Hperm |- *.
  assert (Hlen : length ([b0] ++ rest) = length arr).
  { rewrite (Permutation_length Hperm). apply length_seq. }
  apply (@is1_loop_lowest (isTolerance o) rest [b0]
           (blocks (sortByStartTime (setup arr))) [b0] 0 bs occ nr).
  - apply (Permutation_NoDup (Permutation_sym Hperm)). apply seq_NoDup.
  - intros x Hx. change (blocks (sortByStartTime (setup arr)))
      with (blocks (setup arr)). rewrite length_setup.
    apply (@seq_perm_lt _ _ x Hperm). assumption.
  - reflexivity.
  - rewrite length_app in Hlen. simpl in Hlen. lia.
  - intros [|k] Hk; [|simpl in Hk; lia]. cbn [nth].
    change (blocks (sortByStartTime (setup arr))) with (blocks (setup arr)).
    rewrite depth_setup. split; [reflexivity|left; reflexivity].
  - intros y [<-|[]] d Hd.
    change (blocks (sortByStartTime (setup arr))) with (blocks (setup arr))
      in Hd.
    rewrite depth_setup in Hd. lia.
  - exact E.
  - apply (@seq_perm_lt _ _ b Hperm). assumption.
Qed.



(** * Inputs without conflicts, and the statistics *)

Lemma computeResult_uniform w : forall bs r,
  (forall b, In b bs -> (width b == w)%Q) ->
  (r_sum (computeResult bs r)
   == r_sum r + inject_Z (Z.of_nat (length bs)) * (w * 100))%Q /\
  (r_sumSq (computeResult bs r)
   == r_sumSq r + inject_Z (Z.of_nat (length bs)) * (w * 100 * (w * 100)))%Q.
Proof.
  induction bs as [|b bs IH]; intros r Hw.
  - simpl. split; ring.
  - cbn [computeResult fold_left].
    destruct (IH (mkResults (r_sum r + width b * 100)
                            (r_sumSq r + width b * 100 * (width b * 100)))
                 (fun b' Hb' => Hw b' (or_intror Hb'))) as [H1 H2].
    unfold computeResult in H1, H2. cbn [r_sum r_sumSq] in H1, H2.
    rewrite H1, H2. rewrite (Hw b (or_introl eq_refl)).
    replace (Z.of_nat (length (b :: bs))) with (Z.of_nat (length bs) + 1)
      by (simpl length; lia).
    rewrite inject_Z_plus. split; ring.
Qed.

Lemma conflictFree_one_room o arr :
  Z.of_nat (length arr) <= INT_MAX ->
  Forall (fun a => in_startMin a + roomTolerance o < in_endMin a) arr ->
  conflictFree (roomTolerance o) arr ->
  snd (stage1 o arr) <= 1.
Proof.
  intros Hmax Hlong Hfree.
  destruct (stage1_max_clique o Hmax Hlong) as [[cl [[Hnd [Hr Hc]] Hlen]] _].
  destruct cl as [|p [|q cl]]; [simpl in Hlen; lia|simpl in Hlen; lia|].
  exfalso.
  assert (Hpq : p <> q).
  { intros ->. apply NoDup_cons_iff in Hnd. apply (proj1 Hnd). left; reflexivity. }
  assert (Hp : (p < length arr)%nat).
  { rewrite <- (stage1_length o arr). apply Hr. left; reflexivity. }
  assert (Hq : (q < length arr)%nat).
  { rewrite <- (stage1_length o arr). apply Hr. right; left; reflexivity. }
  specialize (Hc p q (or_introl eq_refl) (or_intror (or_introl eq_refl)) Hpq).
  apply conflict_not_disjoint in Hc. apply Hc.
  destruct (stage1_frame o arr) as [Hs _].
  unfold disjoint_t.
  rewrite !(sameButDepth_startMin _ Hs), !(sameButDepth_endMin _ Hs).
  destruct (setup_times arr Hp) as [-> ->].
  destruct (setup_times arr Hq) as [-> ->].
  apply Hfree; assumption.
Qed.

(** X14.  With [MILP] off, on an input whose blocks are all longer than the
    tolerance of the room assignment and of which no two overlap by more
    than that tolerance, [compute] returns without a call of the solver,
    every block has its left edge at 0 and width 1, and the statistics
    read by [getSum] and [getSumSq] are [100 N] and [10000 N]. *)
Theorem conflict_free_full_width glp_simplex glp_intopt o arr :
  Z.of_nat (length arr) <= INT_MAX -> MILP o = 0 ->
  Forall (fun a => in_startMin a + roomTolerance o < in_endMin a) arr ->
  conflictFree (roomTolerance o) arr ->
  exists st r,
    compute glp_simplex glp_intopt o arr = Some (st, []) /\
    computeStatistics glp_simplex glp_intopt o arr = Some r /\
    length (blocks st) = length arr /\
    (forall p, (p < length arr)%nat ->
       (left (get (blocks st) p) == 0)%Q /\
       (width (get (blocks st) p) == 1)%Q) /\
    (getSum r == 100 * inject_Z (Z.of_nat (length arr)))%Q /\
    (getSumSq r == 10000 * inject_Z (Z.of_nat (length arr)))%Q.
Proof.
  intros Hmax Hmilp Hlong Hfree.
  pose proof (conflictFree_one_room o Hmax Hlong Hfree) as Htot.
  assert (E : compute glp_simplex glp_intopt o arr
              = Some (computeInitialWidth (snd (stage1 o arr))
                        (fst (stage1 o arr)), [])).
  { unfold compute. rewrite (surjective_pairing (stage1 o arr)).
    rewrite Hmilp. cbn [Z.eqb negb].
    replace (snd (stage1 o arr) <=? 1) with true
      by (symmetry; apply Z.leb_le; assumption).
    reflexivity. }
  set (st := computeInitialWidth (snd (stage1 o arr)) (fst (stage1 o arr)))
    in *.
  assert (Hlen : length (blocks st) = length arr).
  { unfold st, computeInitialWidth, with_blocks. cbn [blocks].
    rewrite length_map. apply stage1_length. }
  assert (Hlay : forall p, (p < length arr)%nat ->
            (left (get (blocks st) p) == 0)%Q /\
            (width (get (blocks st) p) == 1)%Q).
  { intros p Hp. apply initial_layout; try assumption.
    destruct arr; [simpl in Hp; lia|discriminate]. }
  exists st, (computeResult (blocks st) (mkResults 0 0)).
  split; [assumption|]. split; [unfold computeStatistics; rewrite E; reflexivity|].
  split; [assumption|]. split; [assumption|].
  destruct (@computeResult_uniform 1 (blocks st) (mkResults 0 0)) as [H1 H2].
  { intros b Hb. destruct (In_nth _ _ nullBlock Hb) as [p [Hp <-]].
    apply Hlay. rewrite <- Hlen. assumption. }
  unfold getSum, getSumSq. rewrite H1, H2, Hlen. cbn [r_sum r_sumSq].
  split; ring.
Qed.

Lemma conflict_free_full_width_witness :
  exists st r,
    compute exampleSolver exampleSolver defaultOptions twoDisjoint
      = Some (st, []) /\
    computeStatistics exampleSolver exampleSolver defaultOptions twoDisjoint
      = Some r /\
    length (blocks st) = length twoDisjoint /\
    (forall p, (p < length twoDisjoint)%nat ->
       (left (get (blocks st) p) == 0)%Q /\
       (width (get (blocks st) p) == 1)%Q) /\
    (getSum r == 100 * inject_Z (Z.of_nat (length twoDisjoint)))%Q /\
    (getSumSq r == 10000 * inject_Z (Z.of_nat (length twoDisjoint)))%Q.
Proof.
  apply (@conflict_free_full_width exampleSolver exampleSolver defaultOptions
           twoDisjoint).
  - vm_compute. discriminate.
  - reflexivity.
  - repeat constructor.
  - intros [|[|p]] [|[|q]] Hp Hq Hne; simpl in *; try lia.
Defined.

(** * The detector of fixed blocks *)

Lemma flags_fields bs bs' p :
  sameUpTo eraseFlags bs bs' ->
  left (get bs' p) = left (get bs p) /\
  width (get bs' p) = width (get bs p) /\
  cleftN (get bs' p) = cleftN (get bs p) /\
  crightN (get bs' p) = crightN (get bs p) /\
  rightN (get bs' p) = rightN (get bs p).
Proof.
  intros [_ H]. specialize (H p). unfold eraseFlags in H.
  injection H as H1 H2 H3 H4 H5 H6 H7 H8 H9 H10 H11 H12.
  repeat split; assumption.
Qed.

Lemma flagsExtend_refl bs : flagsExtend bs bs.
Proof. split; [apply sameUpTo_refl|auto]. Qed.

Lemma flagsExtend_trans bs1 bs2 bs3 :
  visitedMono bs1 bs2 ->
  flagsExtend bs1 bs2 -> flagsExtend bs2 bs3 -> flagsExtend bs1 bs3.
Proof.
  intros Hm [S1 K1] [S2 K2]. split; [eapply sameUpTo_trans; eassumption|].
  intros p Hp. rewrite K2 by (apply Hm; assumption). apply K1. assumption.
Qed.

Lemma touches_ext bs bs' x adj :
  sameUpTo eraseFlags bs bs' -> touches bs x adj -> touches bs' x adj.
Proof.
  intros Hs. unfold touches.
  destruct (flags_fields adj Hs) as [-> [-> _]]. auto.
Qed.

Lemma flagsExtend_mark p bs :
  visited (get bs p) = false ->
  flagsExtend bs (upd p (set_visited true) bs).
Proof.
  intros Hv. split; [apply sameUpTo_upd; reflexivity|].
  intros q Hq. apply get_upd_ne. intros ->. congruence.
Qed.

Lemma flagsExtend_setFixed p v bs bs0 :
  visited (get bs0 p) = false -> flagsExtend bs0 bs ->
  flagsExtend bs0 (upd p (set_isFixed v) bs).
Proof.
  intros Hv [Hs Hk]. split.
  - eapply sameUpTo_trans; [exact Hs|apply sameUpTo_upd; reflexivity].
  - intros q Hq. rewrite get_upd_ne by (intros ->; congruence).
    apply Hk. assumption.
Qed.

(** *** The detector, for a property of the fixed blocks *)

Section Detector.
Variable Pin : list ScheduleBlock -> nat -> Prop.
Hypothesis Pin_ext : forall bs bs' p,
  flagsExtend bs bs' ->
  (forall q, isFixed (get bs q) = true -> visited (get bs q) = true) ->
  Pin bs p -> Pin bs' p.
Hypothesis Pin_set : forall start v bs p,
  isFixed (get bs start) = false -> Pin bs p ->
  Pin (upd start (set_isFixed v) bs) p.
Hypothesis Pin_zero : forall bs p, (left (get bs p) == 0)%Q -> Pin bs p.
Hypothesis Pin_touch : forall bs p adj,
  In adj (cleftN (get bs p)) -> isFixed (get bs adj) = true ->
  touches bs (left (get bs p)) adj -> Pin bs p.
Hypothesis Pin_solve : forall bs bs' p,
  sameUpTo eraseSolve bs bs' ->
  (forall q, isFixed (get bs q) = true ->
     left (get bs' q) = left (get bs q) /\
     width (get bs' q) = width (get bs q)) ->
  isFixed (get bs p) = true -> Pin bs p -> Pin bs' p.

Lemma fixed_ok_ext bs bs' :
  flagsExtend bs bs' -> visitedMono bs bs' -> fixed_ok Pin bs ->
  (forall p, visited (get bs p) = false ->
     (isFixed (get bs' p) = true ->
        visited (get bs' p) = true /\ Pin bs' p) /\
     (visited (get bs' p) = true -> (left (get bs' p) == 0)%Q ->
        isFixed (get bs' p) = true)) ->
  fixed_ok Pin bs'.
Proof.
  intros E Hm F Hnew. constructor.
  - intros p Hp. destruct (visited (get bs p)) eqn:Hv.
    + apply Hm. assumption.
    + apply Hnew; assumption.
  - intros p Hp. destruct (visited (get bs p)) eqn:Hv.
    + apply (Pin_ext E (fo_visited F)). apply (fo_pin F).
      rewrite <- (proj2 E p Hv). assumption.
    + apply Hnew; assumption.
  - intros p Hp H0. destruct (visited (get bs p)) eqn:Hv.
    + rewrite (proj2 E p Hv) in *. apply (fo_zero F); assumption.
    + apply Hnew; assumption.
Qed.

Section FixedLoopSound.
Variable fuel : nat.
Hypothesis rec_sound : forall start bs,
  (start < length bs)%nat -> visited (get bs start) = false ->
  adjInRange bs -> (unvisitedCount bs <= fuel)%nat -> fixed_ok Pin bs ->
  exists bs' r, DFSFindFixedNumerical fuel start bs = Some (bs', r) /\
    flagsExtend bs bs' /\ visitedMono bs bs' /\ fixed_ok Pin bs' /\
    visited (get bs' start) = true /\ r = isFixed (get bs' start).

Lemma fixedLoop_sound startLeft : forall adjs bs flag,
  (forall a, In a adjs -> (a < length bs)%nat) ->
  adjInRange bs -> (unvisitedCount bs <= fuel)%nat -> fixed_ok Pin bs ->
  exists bs' r,
    fixedLoop (DFSFindFixedNumerical fuel) startLeft adjs bs flag
      = Some (bs', r) /\
    flagsExtend bs bs' /\ visitedMono bs bs' /\ fixed_ok Pin bs' /\
    (r = true -> flag = true \/
       exists adj, In adj adjs /\ isFixed (get bs' adj) = true /\
                   touches bs' startLeft adj).
Proof.
  induction adjs as [|adj adjs IH]; intros bs flag Hr Hadj Hc F; simpl.
  - exists bs, flag. split; [reflexivity|].
    split; [apply flagsExtend_refl|]. split; [apply visitedMono_refl|].
    split; [assumption|]. auto.
  - assert (Hr' : forall a, In a adjs -> (a < length bs)%nat)
      by (intros a Ha; apply Hr; right; assumption).
    destruct (Qltb _ DOUBLE_EPS) eqn:Ht.
    2:{ destruct (IH bs flag Hr' Hadj Hc F) as [bs' [r [E [X [M [F' Hflag]]]]]].
        exists bs', r. repeat (split; [assumption|]).
        intros Hrt. destruct (Hflag Hrt) as [H|[a [Ha H]]]; [left; assumption|].
        right. exists a. split; [right; assumption|assumption]. }
    apply Qltb_true in Ht.
    destruct (visited (get bs adj)) eqn:Hv.
    + destruct (IH bs (isFixed (get bs adj) || flag) Hr' Hadj Hc F)
        as [bs' [r [E [X [M [F' Hflag]]]]]].
      exists bs', r. repeat (split; [assumption|]).
      intros Hrt. destruct (Hflag Hrt) as [H|[a [Ha H]]].
      * apply orb_true_iff in H. destruct H as [H|H]; [|left; assumption].
        right. exists adj. split; [left; reflexivity|]. split.
        -- rewrite (proj2 X adj Hv). assumption.
        -- apply (touches_ext (proj1 X)). exact Ht.
      * right. exists a. split; [right; assumption|assumption].
    + destruct (@rec_sound adj bs) as [bs1 [r1 [E1 [X1 [M1 [F1 [V1 R1]]]]]]];
        auto.
      { apply Hr. left; reflexivity. }
      rewrite E1.
      destruct (IH bs1 (r1 || flag)) as [bs' [r [E [X [M [F' Hflag]]]]]].
      * intros a Ha. rewrite (sameUpTo_length (proj1 X1)). apply Hr'; assumption.
      * eapply adjInRange_flags; [apply (proj1 X1)|assumption].
      * pose proof (@unvisitedCount_mono bs bs1
                      (sameUpTo_length (proj1 X1)) M1). lia.
      * assumption.
      * exists bs', r. split; [assumption|].
        split; [eapply flagsExtend_trans; eassumption|].
        split; [eapply visitedMono_trans; eassumption|].
        split; [assumption|].
        intros Hrt. destruct (Hflag Hrt) as [H|[a [Ha H]]].
        -- apply orb_true_iff in H. destruct H as [H|H]; [|left; assumption].
           right. exists adj. split; [left; reflexivity|]. split.
           ++ rewrite (proj2 X adj V1). congruence.
           ++ apply (touches_ext (proj1 X)).
              apply (touches_ext (proj1 X1)). exact Ht.
        -- right. exists a. split; [right; assumption|assumption].
Qed.
End FixedLoopSound.

(** [DFSFindFixedNumerical] returns the flag it leaves on [start]; it
    writes the flags of blocks that were not visited only. *)
Lemma DFSFindFixedNumerical_sound : forall fuel start bs,
  (start < length bs)%nat -> visited (get bs start) = false ->
  adjInRange bs -> (unvisitedCount bs <= fuel)%nat -> fixed_ok Pin bs ->
  exists bs' r, DFSFindFixedNumerical fuel start bs = Some (bs', r) /\
    flagsExtend bs bs' /\ visitedMono bs bs' /\ fixed_ok Pin bs' /\
    visited (get bs' start) = true /\ r = isFixed (get bs' start).
Proof.
  induction fuel as [|fuel IH]; intros start bs Hs Hv Hadj Hc F.
  - pose proof (@unvisitedCount_mark start bs Hs Hv). lia.
  - cbn [DFSFindFixedNumerical].
    set (bs1 := upd start (set_visited true) bs).
    assert (X1 : flagsExtend bs bs1) by (apply flagsExtend_mark; assumption).
    assert (M1 : visitedMono bs bs1) by apply visitedMono_mark.
    assert (L1 : length bs1 = length bs) by apply length_upd.
    assert (V1 : visited (get bs1 start) = true).
    { unfold bs1. rewrite get_upd_eq by assumption. reflexivity. }
    assert (Hnf : isFixed (get bs start) = false).
    { destruct (isFixed (get bs start)) eqn:Hf; [|reflexivity].
      apply (fo_visited F) in Hf. congruence. }
    assert (Hnf1 : isFixed (get bs1 start) = false).
    { unfold bs1. rewrite (get_upd_field isFixed) by reflexivity. assumption. }
    assert (Hother : forall p, start <> p -> visited (get bs p) = false ->
              visited (get bs1 p) = false).
    { intros p Hne Hp. unfold bs1. rewrite get_upd_ne by assumption.
      assumption. }
    destruct (Qeq_bool (left (get bs1 start)) 0) eqn:E0.
    + eexists _, _. split; [reflexivity|].
      set (bs2 := upd start (set_isFixed true) bs1).
      assert (X2 : flagsExtend bs bs2).
      { apply flagsExtend_setFixed; assumption. }
      assert (M2 : visitedMono bs bs2).
      { eapply visitedMono_trans; [exact M1|apply visitedMono_setFixed]. }
      assert (G2 : get bs2 start = set_isFixed true (get bs1 start)).
      { unfold bs2. apply get_upd_eq. lia. }
      split; [assumption|]. split; [assumption|]. split; [|split].
      * apply (fixed_ok_ext X2 M2 F). intros p Hp.
        destruct (Nat.eq_dec start p) as [<-|Hne].
        -- split.
           ++ intros _. split; [rewrite G2; simpl; assumption|].
              apply Pin_zero. rewrite G2. simpl. apply Qeq_bool_iff.
              assumption.
           ++ intros _ _. rewrite G2. reflexivity.
        -- unfold bs2, bs1. rewrite !get_upd_ne by assumption. split.
           ++ intros Hf. apply (fo_visited F) in Hf. congruence.
           ++ intros Hv'. congruence.
      * rewrite G2. simpl. assumption.
      * rewrite G2. reflexivity.
    + assert (F1 : fixed_ok Pin bs1).
      { apply (fixed_ok_ext X1 M1 F). intros p Hp.
        destruct (Nat.eq_dec start p) as [<-|Hne].
        - split.
          + intros Hf. congruence.
          + intros _ H0. apply Qeq_bool_iff in H0. congruence.
        - rewrite (Hother p Hne Hp). unfold bs1.
          rewrite get_upd_ne by assumption. split.
          + intros Hf. apply (fo_visited F) in Hf. congruence.
          + discriminate. }
      destruct (@fixedLoop_sound fuel IH (left (get bs1 start))
                  (cleftN (get bs1 start)) bs1 false)
        as [bs2 [flag [E [X2 [M2 [F2 Hflag]]]]]].
      * intros a Ha. rewrite L1. apply (Hadj start a). left.
        destruct (flags_fields start (proj1 X1)) as [_ [_ [<- _]]]. assumption.
      * eapply adjInRange_flags; [apply (proj1 X1)|assumption].
      * pose proof (@unvisitedCount_mark start bs Hs Hv). fold bs1 in H. lia.
      * assumption.
      * rewrite E. eexists _, _. split; [reflexivity|].
        set (bs3 := upd start (set_isFixed flag) bs2).
        assert (X12 : flagsExtend bs bs2)
          by (eapply flagsExtend_trans; eassumption).
        assert (M12 : visitedMono bs bs2)
          by (eapply visitedMono_trans; eassumption).
        assert (X3 : flagsExtend bs bs3)
          by (apply flagsExtend_setFixed; assumption).
        assert (M3 : visitedMono bs bs3).
        { eapply visitedMono_trans; [exact M12|apply visitedMono_setFixed]. }
        assert (L2 : length bs2 = length bs).
        { rewrite (sameUpTo_length (proj1 X2)). assumption. }
        assert (G2 : get bs2 start = get bs1 start) by (apply (proj2 X2), V1).
        assert (G3 : get bs3 start = set_isFixed flag (get bs1 start)).
        { unfold bs3. rewrite get_upd_eq by lia. rewrite G2. reflexivity. }
        split; [assumption|]. split; [assumption|]. split; [|split].
        -- apply (fixed_ok_ext X3 M3 F). intros p Hp.
           destruct (Nat.eq_dec start p) as [<-|Hne].
           ++ split.
              ** intros Hf. rewrite G3 in Hf. simpl in Hf. subst flag.
                 split; [rewrite G3; simpl; assumption|].
                 destruct (Hflag eq_refl) as [H|[adj [Ha [Hfa Hta]]]];
                   [discriminate|].
                 apply Pin_touch with (adj := adj).
                 --- rewrite G3. simpl. assumption.
                 --- destruct (Nat.eq_dec start adj) as [<-|Hna].
                     +++ rewrite G3. reflexivity.
                     +++ unfold bs3. rewrite get_upd_ne by assumption.
                         assumption.
                 --- rewrite G3. simpl.
                     apply (@touches_ext bs2 bs3); [|assumption].
                     apply sameUpTo_upd. reflexivity.
              ** intros _ H0. rewrite G3 in H0. simpl in H0.
                 apply Qeq_bool_iff in H0. congruence.
           ++ unfold bs3. rewrite get_upd_ne by assumption. split.
              ** intros Hf. split; [apply (fo_visited F2); assumption|].
                 replace (upd start (set_isFixed flag) bs2) with bs3
                   by reflexivity.
                 apply Pin_set; [|apply (fo_pin F2); assumption].
                 rewrite G2. assumption.
              ** apply (fo_zero F2).
        -- rewrite G3. simpl. assumption.
        -- rewrite G3. reflexivity.
Qed.

Lemma fixedPass0_sound : forall ps bs,
  (forall p, In p ps -> (p < length bs)%nat) -> adjInRange bs ->
  fixed_ok Pin bs ->
  exists bs', fixedPass0 ps bs = Some bs' /\
    flagsExtend bs bs' /\ visitedMono bs bs' /\ fixed_ok Pin bs' /\
    forall p, In p ps -> (left (get bs p) == 0)%Q ->
      (Qabs (left (get bs p) + width (get bs p) - 1) < DOUBLE_EPS)%Q ->
      isFixed (get bs' p) = true.
Proof.
  induction ps as [|p ps IH]; intros bs Hr Hadj F; simpl.
  - exists bs. split; [reflexivity|].
    split; [apply flagsExtend_refl|]. split; [apply visitedMono_refl|].
    split; [assumption|]. intros p [].
  - assert (Hr' : forall q, In q ps -> (q < length bs)%nat)
      by (intros q Hq; apply Hr; right; assumption).
    destruct (visited (get bs p)) eqn:Hv.
    { destruct (IH bs Hr' Hadj F) as [bs' [E' [X' [M' [F' Hall]]]]].
      exists bs'. repeat (split; [assumption|]).
      intros q [<-|Hq] H0 H1; [|apply Hall; assumption].
      rewrite (proj2 X' p Hv). apply (fo_zero F); assumption. }
    destruct (Qltb _ DOUBLE_EPS) eqn:Ht.
    2:{ destruct (IH bs Hr' Hadj F) as [bs' [E' [X' [M' [F' Hall]]]]].
        exists bs'. repeat (split; [assumption|]).
        intros q [<-|Hq] H0 H1; [|apply Hall; assumption].
        apply Qltb_false in Ht. exfalso.
        apply (Qlt_not_le _ _ H1). exact Ht. }
    destruct (@DFSFindFixedNumerical_sound (length bs) p bs)
      as [bs1 [r [E [X [M [F1 [V1 _]]]]]]]; auto.
    { apply Hr. left; reflexivity. }
    { apply unvisitedCount_le_length. }
    rewrite E. destruct (IH bs1) as [bs' [E' [X' [M' [F' Hall]]]]].
    + intros q Hq. rewrite (sameUpTo_length (proj1 X)). apply Hr'; assumption.
    + eapply adjInRange_flags; [apply (proj1 X)|assumption].
    + assumption.
    + exists bs'. split; [assumption|].
      split; [eapply flagsExtend_trans; eassumption|].
      split; [eapply visitedMono_trans; eassumption|].
      split; [assumption|].
      intros q Hq H0 H1.
      destruct (flags_fields q (proj1 X)) as [Hl [Hw _]].
      destruct Hq as [<-|Hq].
      * rewrite (proj2 X' p V1). apply (fo_zero F1); [assumption|].
        rewrite Hl. assumption.
      * apply Hall; [assumption|rewrite Hl; assumption|].
        rewrite Hl, Hw. assumption.
Qed.

Lemma fixedPass_sound : forall ps bs,
  (forall p, In p ps -> (p < length bs)%nat) -> adjInRange bs ->
  fixed_ok Pin bs ->
  exists bs', fixedPass ps bs = Some bs' /\
    flagsExtend bs bs' /\ visitedMono bs bs' /\ fixed_ok Pin bs'.
Proof.
  induction ps as [|p ps IH]; intros bs Hr Hadj F; simpl.
  - exists bs. split; [reflexivity|].
    split; [apply flagsExtend_refl|]. split; [apply visitedMono_refl|assumption].
  - assert (Hr' : forall q, In q ps -> (q < length bs)%nat)
      by (intros q Hq; apply Hr; right; assumption).
    destruct (visited (get bs p)) eqn:Hv; [apply IH; assumption|].
    destruct (_ || _); [|apply IH; assumption].
    destruct (@DFSFindFixedNumerical_sound (length bs) p bs)
      as [bs1 [r [E [X [M [F1 _]]]]]]; auto.
    { apply Hr. left; reflexivity. }
    { apply unvisitedCount_le_length. }
    rewrite E. destruct (IH bs1) as [bs' [E' [X' [M' F']]]].
    + intros q Hq. rewrite (sameUpTo_length (proj1 X)). apply Hr'; assumption.
    + eapply adjInRange_flags; [apply (proj1 X)|assumption].
    + assumption.
    + exists bs'. split; [assumption|].
      split; [eapply flagsExtend_trans; eassumption|].
      split; [eapply visitedMono_trans; eassumption|assumption].
Qed.

End Detector.

(** *** Counting the fixed blocks *)

Lemma fold_count (f : ScheduleBlock -> bool) : forall bs c,
  fold_left (fun c b => c + (if f b then 1 else 0)) bs c
  = c + Z.of_nat (length (filter f bs)).
Proof.
  induction bs as [|b bs IH]; intros c; simpl; [lia|].
  rewrite IH. destruct (f b); simpl length; lia.
Qed.

Lemma fixedCount_filter bs :
  fixedCount bs = Z.of_nat (length (filter isFixed bs)).
Proof. unfold fixedCount, getFixedCount. cbn [snd]. apply fold_count. Qed.

Lemma fixedCount_range bs : 0 <= fixedCount bs <= Z.of_nat (length bs).
Proof.
  rewrite fixedCount_filter. pose proof (filter_length_le isFixed bs). lia.
Qed.

Lemma filter_length_mono (f : ScheduleBlock -> bool) : forall bs bs',
  length bs = length bs' ->
  (forall p, f (get bs p) = true -> f (get bs' p) = true) ->
  (length (filter f bs) <= length (filter f bs'))%nat.
Proof.
  induction bs as [|b bs IH]; intros [|b' bs'] L H; simpl in *; try lia.
  assert (IH' : (length (filter f bs) <= length (filter f bs'))%nat).
  { apply IH; [lia|]. intros p. apply (H (S p)). }
  destruct (f b) eqn:E.
  - pose proof (H O E) as E'. unfold get in E'. simpl in E'. rewrite E'.
    simpl. lia.
  - destruct (f b'); simpl; lia.
Qed.

Lemma fixedCount_mono bs bs' :
  length bs = length bs' ->
  (forall p, isFixed (get bs p) = true -> isFixed (get bs' p) = true) ->
  fixedCount bs <= fixedCount bs'.
Proof.
  intros L H. rewrite !fixedCount_filter.
  pose proof (filter_length_mono isFixed bs bs' L H). lia.
Qed.

Lemma fixedCount_flags bs :
  fixedCount (fst (getFixedCount bs)) = fixedCount bs.
Proof.
  rewrite !fixedCount_filter. unfold getFixedCount. cbn [fst].
  induction bs as [|b bs IH]; simpl; [reflexivity|].
  destruct (isFixed b); simpl; lia.
Qed.

(** *** The trace *)

Lemma buildLPModel_count glp_simplex o buffer bs :
  (length (snd (buildLPModel glp_simplex o buffer bs)) <= 2)%nat.
Proof.
  unfold buildLPModel. destruct (LPModel o =? 2).
  - unfold buildLPModel2. simpl. lia.
  - unfold buildLPModel1. simpl. lia.
Qed.

Lemma lp_components_length glp_simplex o : forall ps bs tr bs' tr',
  lp_components glp_simplex o ps bs tr = Some (bs', tr') ->
  (length tr' <= length tr + 2 * length ps)%nat.
Proof.
  induction ps as [|p ps IH]; intros bs tr bs' tr' E; cbn [lp_components] in E.
  - injection E as <- <-. simpl. lia.
  - destruct (visited (get bs p)).
    + apply IH in E. simpl length. lia.
    + destruct (BFS bs p) as [[buffer bs1]|]; [|discriminate].
      pose proof (buildLPModel_count glp_simplex o buffer bs1) as Hc.
      destruct (buildLPModel glp_simplex o buffer bs1) as [bs2 lps].
      apply IH in E. rewrite length_app in E. cbn [snd] in Hc.
      simpl length. lia.
Qed.

(** *** An iteration *)

Lemma frozen_refl bs : frozen bs bs.
Proof. intros p H. auto. Qed.

Lemma frozen_trans bs1 bs2 bs3 :
  frozen bs1 bs2 -> frozen bs2 bs3 -> frozen bs1 bs3.
Proof.
  intros H1 H2 p Hp. destruct (H1 p Hp) as [Hf [Hl Hw]].
  destruct (H2 p Hf) as [Hf' [Hl' Hw']].
  split; [assumption|]. split; congruence.
Qed.

Lemma solve_fields bs bs' p :
  sameUpTo eraseSolve bs bs' ->
  isFixed (get bs' p) = isFixed (get bs p) /\
  cleftN (get bs' p) = cleftN (get bs p).
Proof.
  intros [_ H]. specialize (H p). unfold eraseSolve in H.
  injection H as H1 H2 H3 H4 H5 H6 H7 H8 H9 H10 H11.
  split; assumption.
Qed.

Section Iteration.
Variable glp_simplex : glp_prob -> nat -> Q.
Variable o : Options.
Variable Pin : list ScheduleBlock -> nat -> Prop.
Hypothesis Pin_ext : forall bs bs' p,
  flagsExtend bs bs' ->
  (forall q, isFixed (get bs q) = true -> visited (get bs q) = true) ->
  Pin bs p -> Pin bs' p.
Hypothesis Pin_set : forall start v bs p,
  isFixed (get bs start) = false -> Pin bs p ->
  Pin (upd start (set_isFixed v) bs) p.
Hypothesis Pin_zero : forall bs p, (left (get bs p) == 0)%Q -> Pin bs p.
Hypothesis Pin_touch : forall bs p adj,
  In adj (cleftN (get bs p)) -> isFixed (get bs adj) = true ->
  touches bs (left (get bs p)) adj -> Pin bs p.
Hypothesis Pin_solve : forall bs bs' p,
  sameUpTo eraseSolve bs bs' ->
  (forall q, isFixed (get bs q) = true ->
     left (get bs' q) = left (get bs q) /\
     width (get bs' q) = width (get bs q)) ->
  isFixed (get bs p) = true -> Pin bs p -> Pin bs' p.
Hypothesis Pin_flags : forall bs bs' p,
  (forall q, get bs' q = set_visited (isFixed (get bs q)) (get bs q)) ->
  Pin bs p -> Pin bs' p.

(** the blocks fixed in [bs0] are visited, and are where they were *)
Let kept (bs0 bs : list ScheduleBlock) : Prop :=
  forall p, isFixed (get bs0 p) = true ->
    visited (get bs p) = true /\
    left (get bs p) = left (get bs0 p) /\
    width (get bs p) = width (get bs0 p).

Lemma kept_step bs0 bs block buffer bs1 :
  adjInRange bs -> (block < length bs)%nat ->
  visited (get bs block) = false ->
  bfs_post bs block buffer bs1 -> kept bs0 bs ->
  Forall (fun _ => True) (snd (buildLPModel glp_simplex o buffer bs1)) ->
  kept bs0 (fst (buildLPModel glp_simplex o buffer bs1)).
Proof.
  intros _ _ _ P K _ p Hp. destruct (K p Hp) as [Hv [Hl Hw]].
  assert (Hout : ~ In p buffer).
  { intros Hin. apply (bp_fresh P) in Hin. destruct Hin. congruence. }
  destruct (@buildLPModel_frame glp_simplex o buffer bs1 (bp_nodup P))
    as [_ Hf].
  { intros b Hb. apply (@bfs_post_range _ _ _ _ _ P Hb). }
  rewrite (Hf p Hout).
  split; [apply (bp_visited P); left; assumption|].
  destruct (visited_fields p (bp_same P)) as [_ [_ [_ [_ [-> ->]]]]].
  split; assumption.
Qed.

Lemma get_flags_reset bs q :
  get (map (fun b => set_visited (isFixed b) b) bs) q
  = set_visited (isFixed (get bs q)) (get bs q).
Proof. rewrite get_map by reflexivity. reflexivity. Qed.

(** An iteration of the LP loop returns.  The blocks that were fixed stay
    fixed where they were; the count it returns is the number of fixed
    blocks; it hands at most two problems to the solver for each block. *)
Lemma lp_iteration_fixed bs tr :
  adjInRange bs -> flagsAgree bs ->
  exists bs' new,
    lp_iteration glp_simplex o bs tr = Some (bs', tr ++ new, fixedCount bs') /\
    sameUpTo eraseIter bs bs' /\ flagsAgree bs' /\ frozen bs bs' /\
    (length new <= 2 * length bs)%nat /\
    ((forall p, isFixed (get bs p) = true -> Pin bs p) ->
     forall p, isFixed (get bs' p) = true -> Pin bs' p).
Proof.
  intros Hadj Hfa. unfold lp_iteration.
  destruct (@lp_components_spec glp_simplex o (fun _ => True) (kept bs)
              (@kept_step bs) (seq 0 (length bs)) bs tr Hadj
              (@seq_range (length bs))) as [bs1 [new [E [Hs1 HI]]]].
  pose proof (lp_components_length _ _ _ _ _ E) as Hlen.
  rewrite length_app, length_seq in Hlen.
  rewrite E.
  assert (K1 : kept bs bs1).
  { apply HI.
    - intros p Hp. rewrite Hfa. auto.
    - apply Forall_forall. auto. }
  set (bs2 := map (fun b => set_visited (isFixed b) b) bs1).
  assert (Hs2 : sameUpTo eraseFlags bs1 bs2)
    by (apply sameUpTo_map; reflexivity).
  assert (G2 : forall q, get bs2 q = set_visited (isFixed (get bs1 q)) (get bs1 q))
    by (intros q; apply get_flags_reset).
  assert (Hadj1 : adjInRange bs1).
  { eapply adjInRange_same; [| |exact Hs1|exact Hadj]; reflexivity. }
  assert (Hadj2 : adjInRange bs2) by (eapply adjInRange_flags; eassumption).
  assert (Hfix1 : forall p, isFixed (get bs1 p) = isFixed (get bs p))
    by (intros p; apply (solve_fields p Hs1)).
  assert (V2 : forall p, isFixed (get bs2 p) = true -> visited (get bs2 p) = true).
  { intros p. rewrite G2. simpl. auto. }
  assert (T : fixed_ok (fun _ _ => True) bs2).
  { constructor; auto. intros p. rewrite G2. simpl. auto. }
  destruct (@fixedPass_sound (fun _ _ => True)
              (fun _ _ _ _ _ _ => Logic.I) (fun _ _ _ _ _ _ => Logic.I)
              (fun _ _ _ => Logic.I) (fun _ _ _ _ _ _ => Logic.I)
              (seq 0 (length bs2)) bs2 (@seq_range (length bs2)) Hadj2 T)
    as [bs3 [E3 [X3 [M3 _]]]].
  rewrite E3.
  pose proof (getFixedCount_spec bs3) as [Hs4 Hf4].
  pose proof (fixedCount_flags bs3) as Hc4.
  unfold fixedCount in Hc4 at 2.
  destruct (getFixedCount bs3) as [bs4 c] eqn:E4.
  cbn [fst snd] in Hs4, Hf4, Hc4. subst c.
  exists bs4, new. split; [reflexivity|].
  assert (Hflags : sameUpTo eraseFlags bs1 bs4).
  { eapply sameUpTo_trans; [exact Hs2|].
    eapply sameUpTo_trans; [apply (proj1 X3)|exact Hs4]. }
  assert (G4 : forall q, get bs4 q = set_visited (isFixed (get bs3 q)) (get bs3 q)).
  { intros q. replace bs4 with (fst (getFixedCount bs3)) by (rewrite E4; reflexivity).
    unfold getFixedCount. cbn [fst]. apply get_flags_reset. }
  assert (Hfro : frozen bs bs4).
  { intros p Hp. destruct (K1 p Hp) as [_ [Hl Hw]].
    assert (Hf2 : isFixed (get bs2 p) = true).
    { rewrite G2. simpl. rewrite Hfix1. assumption. }
    assert (Hk : get bs3 p = get bs2 p) by (apply (proj2 X3), V2, Hf2).
    rewrite G4, Hk, G2. simpl. rewrite Hfix1.
    split; [assumption|]. split; assumption. }
  split.
  { eapply sameUpTo_trans.
    - apply (@sameUpTo_coarse eraseSolve eraseIter bs bs1);
        [reflexivity|assumption].
    - apply (@sameUpTo_coarse eraseFlags eraseIter bs1 bs4);
        [reflexivity|assumption]. }
  split; [exact Hf4|]. split; [assumption|]. split; [lia|].
  intros HP.
  assert (F2 : fixed_ok Pin bs2).
  { constructor; [assumption| |apply (fo_zero T)]. intros p Hp.
    apply (@Pin_flags bs1 bs2 p G2).
    assert (Hp0 : isFixed (get bs p) = true).
    { rewrite G2 in Hp. simpl in Hp. rewrite Hfix1 in Hp. assumption. }
    apply (@Pin_solve bs bs1 p Hs1); [|assumption|apply HP; assumption].
    intros q Hq. apply (K1 q Hq). }
  destruct (@fixedPass_sound Pin Pin_ext Pin_set Pin_zero Pin_touch
              (seq 0 (length bs2)) bs2 (@seq_range (length bs2)) Hadj2 F2)
    as [bs3' [E3' [_ [_ F3]]]].
  rewrite E3 in E3'. injection E3' as <-.
  intros p Hp. rewrite G4 in Hp. simpl in Hp.
  apply (@Pin_flags bs3 bs4 p G4). apply (fo_pin F3). assumption.
Qed.

(** The LP loop returns.  With [N] blocks, [prev] of them fixed, it runs
    at most [N - prev + 1] iterations: an iteration that fixes no block is
    the last one. *)
Lemma lp_loop_fixed : forall iters prev bs tr,
  adjInRange bs -> flagsAgree bs ->
  exists bs' new,
    lp_loop glp_simplex o iters prev bs tr = Some (bs', tr ++ new) /\
    sameUpTo eraseIter bs bs' /\ flagsAgree bs' /\ frozen bs bs' /\
    (prev = fixedCount bs ->
     Z.of_nat (length new)
     <= 2 * Z.of_nat (length bs)
        * Z.min (Z.of_nat iters) (Z.of_nat (length bs) - prev + 1)) /\
    ((forall p, isFixed (get bs p) = true -> Pin bs p) ->
     forall p, isFixed (get bs' p) = true -> Pin bs' p).
Proof.
  induction iters as [|iters IH]; intros prev bs tr Hadj Hfa; cbn [lp_loop].
  - exists bs, []. rewrite app_nil_r. split; [reflexivity|].
    split; [apply sameUpTo_refl|]. split; [assumption|].
    split; [apply frozen_refl|]. split; [|auto].
    intros ->. pose proof (fixedCount_range bs). simpl length. lia.
  - destruct (@lp_iteration_fixed bs tr Hadj Hfa)
      as [bs1 [new1 [E [Hs1 [Hf1 [Hfro1 [Hlen1 HP1]]]]]]].
    rewrite E.
    pose proof (sameUpTo_length Hs1) as L1.
    assert (Hmono : fixedCount bs <= fixedCount bs1).
    { apply fixedCount_mono; [congruence|].
      intros p Hp. apply (Hfro1 p Hp). }
    pose proof (fixedCount_range bs) as R0.
    pose proof (fixedCount_range bs1) as R1.
    destruct (Z.eqb_spec (fixedCount bs1) prev) as [Heq|Hne].
    + exists bs1, new1. split; [reflexivity|]. split; [assumption|].
      split; [assumption|]. split; [assumption|]. split; [|assumption].
      intros ->. nia.
    + destruct (IH (fixedCount bs1) bs1 (tr ++ new1)
                  (adjInRange_iter Hs1 Hadj) Hf1)
        as [bs' [new [E' [Hs' [Hf' [Hfro' [Hlen' HP']]]]]]].
      exists bs', (new1 ++ new). rewrite app_assoc.
      split; [assumption|].
      split; [eapply sameUpTo_trans; eassumption|].
      split; [assumption|].
      split; [eapply frozen_trans; eassumption|]. split; [|auto].
      intros ->. specialize (Hlen' eq_refl). rewrite L1 in Hlen'.
      rewrite length_app. nia.
Qed.
End Iteration.

(** *** The property [pinned] *)

Lemma pinned_ext bs bs' p :
  flagsExtend bs bs' ->
  (forall q, isFixed (get bs q) = true -> visited (get bs q) = true) ->
  pinned bs p -> pinned bs' p.
Proof.
  intros [Hs Hk] Hv [H|[adj [Hin [Hf Ht]]]]; unfold pinned.
  - left. destruct (flags_fields p Hs) as [-> _]. assumption.
  - right. exists adj. destruct (flags_fields p Hs) as [-> [_ [-> _]]].
    split; [assumption|]. split.
    + rewrite Hk by (apply Hv; assumption). assumption.
    + apply (touches_ext Hs). assumption.
Qed.

Lemma pinned_setFixed start v bs p :
  isFixed (get bs start) = false -> pinned bs p ->
  pinned (upd start (set_isFixed v) bs) p.
Proof.
  intros Hnf [H|[adj [Ha [Hf Ht]]]]; unfold pinned;
    rewrite (get_upd_field left) by reflexivity.
  - left. assumption.
  - right. exists adj. rewrite (get_upd_field cleftN) by reflexivity.
    split; [assumption|]. split.
    + rewrite get_upd_ne by (intros ->; congruence). assumption.
    + apply (@touches_ext bs); [apply sameUpTo_upd; reflexivity|assumption].
Qed.

Lemma pinned_zero bs p : (left (get bs p) == 0)%Q -> pinned bs p.
Proof. intros H. left. assumption. Qed.

Lemma pinned_touch bs p adj :
  In adj (cleftN (get bs p)) -> isFixed (get bs adj) = true ->
  touches bs (left (get bs p)) adj -> pinned bs p.
Proof. intros H1 H2 H3. right. exists adj. auto. Qed.

Lemma pinned_solve bs bs' p :
  sameUpTo eraseSolve bs bs' ->
  (forall q, isFixed (get bs q) = true ->
     left (get bs' q) = left (get bs q) /\
     width (get bs' q) = width (get bs q)) ->
  isFixed (get bs p) = true -> pinned bs p -> pinned bs' p.
Proof.
  intros Hs Hk Hp [H|[adj [Ha [Hf Ht]]]]; unfold pinned;
    destruct (Hk p Hp) as [-> _].
  - left. assumption.
  - right. exists adj. destruct (solve_fields p Hs) as [_ ->].
    split; [assumption|]. destruct (solve_fields adj Hs) as [-> _].
    split; [assumption|]. unfold touches in *.
    destruct (Hk adj Hf) as [-> ->]. assumption.
Qed.

Lemma pinned_flags bs bs' p :
  (forall q, get bs' q = set_visited (isFixed (get bs q)) (get bs q)) ->
  pinned bs p -> pinned bs' p.
Proof.
  intros G [H|[adj [Ha [Hf Ht]]]]; unfold pinned; rewrite G; simpl.
  - left. assumption.
  - right. exists adj. split; [assumption|]. rewrite G. simpl.
    split; [assumption|]. unfold touches in *. rewrite G. simpl. assumption.
Qed.

(** *** The loop inside [compute] *)

Section ComputeFixed.
Variable glp_simplex : glp_prob -> nat -> Q.
Variable glp_intopt : glp_prob -> nat -> Q.
Variable o : Options.
Variable Pin : list ScheduleBlock -> nat -> Prop.
Hypothesis Pin_ext : forall bs bs' p,
  flagsExtend bs bs' ->
  (forall q, isFixed (get bs q) = true -> visited (get bs q) = true) ->
  Pin bs p -> Pin bs' p.
Hypothesis Pin_set : forall start v bs p,
  isFixed (get bs start) = false -> Pin bs p ->
  Pin (upd start (set_isFixed v) bs) p.
Hypothesis Pin_zero : forall bs p, (left (get bs p) == 0)%Q -> Pin bs p.
Hypothesis Pin_touch : forall bs p adj,
  In adj (cleftN (get bs p)) -> isFixed (get bs adj) = true ->
  touches bs (left (get bs p)) adj -> Pin bs p.
Hypothesis Pin_solve : forall bs bs' p,
  sameUpTo eraseSolve bs bs' ->
  (forall q, isFixed (get bs q) = true ->
     left (get bs' q) = left (get bs q) /\
     width (get bs' q) = width (get bs q)) ->
  isFixed (get bs p) = true -> Pin bs p -> Pin bs' p.
Hypothesis Pin_flags : forall bs bs' p,
  (forall q, get bs' q = set_visited (isFixed (get bs q)) (get bs q)) ->
  Pin bs p -> Pin bs' p.

(** On the path through the LP loop: [st4] is the state after STEP 4,
    [bs5] the blocks after STEP 5, [bs7] the blocks returned. *)
Lemma compute_fixed arr :
  Z.of_nat (length arr) <= INT_MAX -> MILP o = 0 ->
  1 < snd (stage1 o arr) ->
  exists st4 P bs5 bs7 tr,
    stage4 o (snd (stage1 o arr)) (stage3 o arr) = Some st4 /\
    seed_post (length arr) (snd (stage1 o arr)) (blocks (stage3 o arr))
      (blocks st4) P /\
    flagsExtend (blocks st4) bs5 /\
    (forall p, (p < length arr)%nat -> (left (get (blocks st4) p) == 0)%Q ->
       (Qabs (left (get (blocks st4) p) + width (get (blocks st4) p) - 1)
        < DOUBLE_EPS)%Q ->
       isFixed (get bs5 p) = true) /\
    compute glp_simplex glp_intopt o arr = Some (with_blocks bs7 st4, tr) /\
    sameUpTo eraseIter bs5 bs7 /\ flagsAgree bs7 /\ frozen bs5 bs7 /\
    (forall p, isFixed (get bs7 p) = true -> Pin bs7 p) /\
    Z.of_nat (length tr)
    <= 2 * Z.of_nat (length arr)
       * Z.min (Z.of_nat (Z.to_nat (LPIters o)))
               (Z.of_nat (length arr) - fixedCount bs5 + 1).
Proof.
  intros Hmax Hmilp Htot.
  destruct (@stage4_spec o arr Hmax) as [st4 [P [E4 [_ S]]]].
  pose proof (@stage4_lpgraph o arr st4 P S) as G.
  assert (Hadj : adjInRange (blocks st4)) by apply (lg_range G).
  assert (F4 : fixed_ok Pin (blocks st4)).
  { constructor.
    - intros p Hp. destruct (sp_flags S p). congruence.
    - intros p Hp. destruct (sp_flags S p). congruence.
    - intros p Hp. destruct (sp_flags S p). congruence. }
  destruct (@fixedPass0_sound Pin Pin_ext Pin_set Pin_zero Pin_touch
              (seq 0 (length (blocks st4))) (blocks st4)
              (@seq_range (length (blocks st4))) Hadj F4)
    as [bs5 [E5 [X5 [M5 [F5 Hfull]]]]].
  pose proof (getFixedCount_spec bs5) as [Hs6 Hf6].
  set (bs6 := fst (getFixedCount bs5)) in *.
  assert (G6 : forall q, get bs6 q = set_visited (isFixed (get bs5 q)) (get bs5 q)).
  { intros q. unfold bs6, getFixedCount. cbn [fst]. apply get_flags_reset. }
  assert (Hadj6 : adjInRange bs6).
  { eapply adjInRange_flags; [exact Hs6|].
    eapply adjInRange_flags; [apply (proj1 X5)|assumption]. }
  destruct (@lp_loop_fixed glp_simplex o Pin Pin_ext Pin_set Pin_zero Pin_touch
              Pin_solve Pin_flags (Z.to_nat (LPIters o)) (fixedCount bs5)
              bs6 [] Hadj6 Hf6)
    as [bs7 [tr [E7 [Hs7 [Hf7 [Hfro [Hlen HP]]]]]]].
  cbn [app] in E7.
  assert (L4 : length (blocks st4) = length arr) by apply (lg_len G).
  assert (L6 : length bs6 = length arr).
  { rewrite (sameUpTo_length Hs6), (sameUpTo_length (proj1 X5)). assumption. }
  exists st4, P, bs5, bs7, tr.
  split; [assumption|].
  split; [assumption|]. split; [assumption|]. split.
  { intros p Hp. apply Hfull. apply in_seq. lia. }
  split.
  { unfold compute. destruct (stage1 o arr) as [st1 total] eqn:E1.
    cbn [snd] in *. rewrite Hmilp. cbn [Z.eqb negb].
    replace (total <=? 1) with false by (symmetry; apply Z.leb_gt; lia).
    rewrite E4, E5. unfold fixedCount in E7. unfold bs6 in E7.
    destruct (getFixedCount bs5) as [bs6' prev].
    cbn [fst snd] in E7. rewrite E7. reflexivity. }
  split.
  { eapply sameUpTo_trans; [|exact Hs7].
    apply (@sameUpTo_coarse eraseFlags eraseIter); [reflexivity|assumption]. }
  split; [assumption|]. split.
  { intros p Hp.
    assert (Hp6 : isFixed (get bs6 p) = true) by (rewrite G6; assumption).
    destruct (Hfro p Hp6) as [H1 [H2 H3]]. rewrite G6 in H2, H3.
    simpl in H2, H3. auto. }
  split.
  { apply HP. intros p Hp. apply (@Pin_flags bs5 bs6 p G6).
    apply (fo_pin F5). rewrite G6 in Hp. assumption. }
  rewrite L6 in Hlen. apply Hlen. unfold bs6. symmetry.
  apply fixedCount_flags.
Qed.
End ComputeFixed.

Lemma compute_fixed_plain glp_simplex glp_intopt o arr :
  Z.of_nat (length arr) <= INT_MAX -> MILP o = 0 ->
  1 < snd (stage1 o arr) ->
  exists st4 P bs5 bs7 tr,
    stage4 o (snd (stage1 o arr)) (stage3 o arr) = Some st4 /\
    seed_post (length arr) (snd (stage1 o arr)) (blocks (stage3 o arr))
      (blocks st4) P /\
    flagsExtend (blocks st4) bs5 /\
    (forall p, (p < length arr)%nat -> (left (get (blocks st4) p) == 0)%Q ->
       (Qabs (left (get (blocks st4) p) + width (get (blocks st4) p) - 1)
        < DOUBLE_EPS)%Q ->
       isFixed (get bs5 p) = true) /\
    compute glp_simplex glp_intopt o arr = Some (with_blocks bs7 st4, tr) /\
    sameUpTo eraseIter bs5 bs7 /\ flagsAgree bs7 /\ frozen bs5 bs7 /\
    Z.of_nat (length tr)
    <= 2 * Z.of_nat (length arr)
       * Z.min (Z.of_nat (Z.to_nat (LPIters o)))
               (Z.of_nat (length arr) - fixedCount bs5 + 1).
Proof.
  intros Hmax Hmilp Htot.
  destruct (@compute_fixed glp_simplex glp_intopt o (fun _ _ => True)
              (fun _ _ _ _ _ _ => Logic.I) (fun _ _ _ _ _ _ => Logic.I)
              (fun _ _ _ => Logic.I) (fun _ _ _ _ _ _ => Logic.I)
              (fun _ _ _ _ _ _ _ => Logic.I) (fun _ _ _ _ _ => Logic.I)
              arr Hmax Hmilp Htot)
    as [st4 [P [bs5 [bs7 [tr [H0 [H1 [H2 [H3 [H4 [H5 [H6 [H7 [_ H9]]]]]]]]]]]]]].
  exists st4, P, bs5, bs7, tr. auto 10.
Qed.

(** X8.  The LP loop returns, whatever the solver leaves in the columns,
    and a block that is fixed when the loop starts is fixed when it ends,
    with the same left edge and the same width.  The state [bs] is any
    state whose condensed lists point into the array and whose visited
    flags equal the fixed flags, as they do in [compute] when the loop
    starts. *)
Theorem fixed_blocks_stay glp_simplex o iters prev bs tr :
  adjInRange bs -> flagsAgree bs ->
  exists bs' new,
    lp_loop glp_simplex o iters prev bs tr = Some (bs', tr ++ new) /\
    forall p, isFixed (get bs p) = true ->
      isFixed (get bs' p) = true /\
      left (get bs' p) = left (get bs p) /\
      width (get bs' p) = width (get bs p).
Proof.
  intros Hadj Hfa.
  destruct (@lp_loop_fixed glp_simplex o (fun _ _ => True)
              (fun _ _ _ _ _ _ => Logic.I) (fun _ _ _ _ _ _ => Logic.I)
              (fun _ _ _ => Logic.I) (fun _ _ _ _ _ _ => Logic.I)
              (fun _ _ _ _ _ _ _ => Logic.I) (fun _ _ _ _ _ => Logic.I)
              iters prev bs tr Hadj Hfa)
    as [bs' [new [E [_ [_ [Hfro _]]]]]].
  exists bs', new. split; [assumption|]. exact Hfro.
Qed.

(** a check of [flagsAgree] on a concrete list of blocks *)
Lemma flagsAgree_forallb bs :
  forallb (fun b => Bool.eqb (visited b) (isFixed b)) bs = true ->
  flagsAgree bs.
Proof.
  intros H p. rewrite forallb_forall in H.
  destruct (Nat.lt_ge_cases p (length bs)) as [Hp|Hp].
  - apply eqb_prop. apply H. apply nth_In. assumption.
  - unfold get. rewrite nth_overflow by assumption. reflexivity.
Qed.

Lemma fixed_blocks_stay_witness :
  exists bs' new,
    lp_loop exampleSolver defaultOptions 1 0
      (loopEntry defaultOptions example_C8) []
    = Some (bs', [] ++ new) /\
    forall p, isFixed (get (loopEntry defaultOptions example_C8) p) = true ->
      isFixed (get bs' p) = true /\
      left (get bs' p) = left (get (loopEntry defaultOptions example_C8) p) /\
      width (get bs' p) = width (get (loopEntry defaultOptions example_C8) p).
Proof.
  apply (@fixed_blocks_stay exampleSolver defaultOptions 1 0
           (loopEntry defaultOptions example_C8) []).
  - apply adjInRangeb_sound. vm_compute. reflexivity.
  - apply flagsAgree_forallb. vm_compute. reflexivity.
Defined.

Lemma stage1_flags o arr p :
  isFixed (get (blocks (fst (stage1 o arr))) p) = false /\
  visited (get (blocks (fst (stage1 o arr))) p) = false.
Proof.
  destruct (stage1_frame o arr) as [Hs _].
  rewrite (sameUpTo_field visited (erase := set_depth 0) p (fun b => eq_refl) Hs),
    (sameUpTo_field isFixed (erase := set_depth 0) p (fun b => eq_refl) Hs).
  destruct (setup_fields arr p) as [_ [_ [_ [_ [_ [-> ->]]]]]]. auto.
Qed.

Lemma computeInitialWidth_flags total st p :
  isFixed (get (blocks (computeInitialWidth total st)) p)
  = isFixed (get (blocks st) p).
Proof.
  unfold computeInitialWidth, with_blocks. cbn [blocks].
  destruct (Nat.lt_ge_cases p (length (blocks st))) as [H|H].
  - rewrite get_map_lt by assumption. reflexivity.
  - rewrite !get_overflow; [reflexivity|assumption|rewrite length_map; assumption].
Qed.

(** X9.  [compute] returns, and the number of problems it hands to the
    solver is bounded: exactly one with [MILP] set; otherwise at most
    [2 N] in each iteration of the LP loop, over at most
    [min (max 0 LPIters) (N + 1)] iterations, where [N] is the number of
    blocks.  In particular no problem is solved when [LPIters <= 0]. *)
Theorem solver_calls_bounded glp_simplex glp_intopt o arr :
  Z.of_nat (length arr) <= INT_MAX ->
  exists st tr,
    compute glp_simplex glp_intopt o arr = Some (st, tr) /\
    (MILP o <> 0 -> length tr = 1%nat) /\
    (MILP o = 0 ->
     Z.of_nat (length tr)
     <= 2 * Z.of_nat (length arr)
        * Z.min (Z.max 0 (LPIters o)) (Z.of_nat (length arr) + 1)).
Proof.
  intros Hmax.
  destruct (Z.eq_dec (MILP o) 0) as [Hmilp|Hmilp].
  - destruct (Z.le_gt_cases (snd (stage1 o arr)) 1) as [Htot|Htot].
    + eexists _, []. split; [|split; [contradiction|]].
      * unfold compute. rewrite (surjective_pairing (stage1 o arr)).
        rewrite Hmilp. cbn [Z.eqb negb].
        replace (snd (stage1 o arr) <=? 1) with true
          by (symmetry; apply Z.leb_le; assumption).
        reflexivity.
      * intros _. simpl length. apply Z.mul_nonneg_nonneg; lia.
    + destruct (@compute_fixed_plain glp_simplex glp_intopt o arr Hmax Hmilp
                  ltac:(lia))
        as [st4 [P [bs5 [bs7 [tr [_ [_ [_ [_ [E [_ [_ [_ Hlen]]]]]]]]]]]]].
      exists (with_blocks bs7 st4), tr. split; [assumption|].
      split; [contradiction|]. intros _.
      pose proof (fixedCount_range bs5) as R.
      eapply Z.le_trans; [exact Hlen|].
      apply Z.mul_le_mono_nonneg_l; lia.
  - exists (fst (buildMILPModel glp_intopt o (snd (stage1 o arr))
                   (fst (stage1 o arr)))),
           (snd (buildMILPModel glp_intopt o (snd (stage1 o arr))
                   (fst (stage1 o arr)))).
    split; [|split; [|contradiction]].
    + unfold compute. rewrite (surjective_pairing (stage1 o arr)).
      cbn [fst snd].
      replace (MILP o =? 0) with false by (symmetry; apply Z.eqb_neq; assumption).
      cbn [negb]. rewrite <- surjective_pairing. reflexivity.
    + intros _. unfold buildMILPModel.
      destruct (milp_outer _ _ _ _ _ _ _). reflexivity.
Qed.

Lemma solver_calls_bounded_witness :
  exists st tr,
    compute exampleSolver exampleSolver defaultOptions example_C8
      = Some (st, tr) /\
    (MILP defaultOptions <> 0 -> length tr = 1%nat) /\
    (MILP defaultOptions = 0 ->
     Z.of_nat (length tr)
     <= 2 * Z.of_nat (length example_C8)
        * Z.min (Z.max 0 (LPIters defaultOptions))
            (Z.of_nat (length example_C8) + 1)).
Proof.
  apply (@solver_calls_bounded exampleSolver exampleSolver defaultOptions
           example_C8).
  vm_compute. discriminate.
Defined.

(** X7.  [compute] returns, and every block that it leaves marked fixed is
    also marked visited and has its left edge held in place: the left edge
    is at 0, or within [DOUBLE_EPS] of the right edge of a fixed block of
    its [cleftN]. *)
Theorem fixed_blocks_pinned glp_simplex glp_intopt o arr :
  Z.of_nat (length arr) <= INT_MAX ->
  exists st tr,
    compute glp_simplex glp_intopt o arr = Some (st, tr) /\
    forall p, isFixed (get (blocks st) p) = true ->
      visited (get (blocks st) p) = true /\ pinned (blocks st) p.
Proof.
  intros Hmax.
  destruct (Z.eq_dec (MILP o) 0) as [Hmilp|Hmilp].
  - destruct (Z.le_gt_cases (snd (stage1 o arr)) 1) as [Htot|Htot].
    + eexists _, []. split.
      * unfold compute. rewrite (surjective_pairing (stage1 o arr)).
        rewrite Hmilp. cbn [Z.eqb negb].
        replace (snd (stage1 o arr) <=? 1) with true
          by (symmetry; apply Z.leb_le; assumption).
        reflexivity.
      * intros p Hp. rewrite computeInitialWidth_flags in Hp.
        destruct (stage1_flags o arr p). congruence.
    + destruct (@compute_fixed glp_simplex glp_intopt o pinned
                  pinned_ext pinned_setFixed pinned_zero pinned_touch
                  pinned_solve pinned_flags arr Hmax Hmilp ltac:(lia))
        as [st4 [P [bs5 [bs7 [tr [_ [_ [_ [_ [E [_ [Hfa [_ [Hpin _]]]]]]]]]]]]]].
      exists (with_blocks bs7 st4), tr. split; [assumption|].
      cbn [blocks with_blocks]. intros p Hp.
      split; [rewrite Hfa; assumption|apply Hpin; assumption].
  - exists (fst (buildMILPModel glp_intopt o (snd (stage1 o arr))
                   (fst (stage1 o arr)))),
           (snd (buildMILPModel glp_intopt o (snd (stage1 o arr))
                   (fst (stage1 o arr)))).
    split.
    + unfold compute. rewrite (surjective_pairing (stage1 o arr)).
      cbn [fst snd].
      replace (MILP o =? 0) with false by (symmetry; apply Z.eqb_neq; assumption).
      cbn [negb]. rewrite <- surjective_pairing. reflexivity.
    + intros p Hp. exfalso. revert Hp. unfold buildMILPModel.
      destruct (milp_outer _ _ _ _ _ _ _) as [st1 bv]. cbn [fst blocks with_blocks].
      set (x := glp_intopt _).
      pose proof (stage1_order_NoDup o arr) as Hnd.
      destruct (@writeBack_spec0 x (fun i => 2 * i + 1)%nat
                  (fun i => 2 * i + 2)%nat
                  (seq 0 (length (blocks (fst (stage1 o arr)))))
                  (blocks (fst (stage1 o arr)))) as [Hs _].
      { apply seq_NoDup. }
      { intros b Hb. apply in_seq in Hb. lia. }
      destruct (lw_fields p Hs) as [-> _].
      destruct (stage1_flags o arr p). congruence.
Qed.

Lemma fixed_blocks_pinned_witness :
  exists st tr,
    compute exampleSolver exampleSolver defaultOptions example_C8
      = Some (st, tr) /\
    forall p, isFixed (get (blocks st) p) = true ->
      visited (get (blocks st) p) = true /\ pinned (blocks st) p.
Proof.
  apply (@fixed_blocks_pinned exampleSolver exampleSolver defaultOptions
           example_C8).
  vm_compute. discriminate.
Defined.

(** * An isolated block *)

(** the first loop of [dfsWidthExpansion] inside STEP 4 *)
Lemma stage4_dfs o arr total :
  applyDFS o <> 0 ->
  exists bs,
    dfsall_inv (length arr) (blocks (stage3 o arr)) [] bs /\
    (forall x, (x < length arr)%nat -> visited (get bs x) = true) /\
    stage4 o total (stage3 o arr)
    = Some (mkState (map (set_visited false) (map seedFromPath bs))
              (sortBy (depthAfter (blocks (stage3 o arr)))
                      (blocksReordered (stage3 o arr)))
              (matrix (stage3 o arr))).
Proof.
  intros Hdfs. destruct (dfs_all_stage3 o arr) as [bs [E [I Hvis]]].
  exists bs. split; [assumption|]. split; [assumption|].
  unfold stage4, dfsWidthExpansion.
  destruct (Z.eqb_spec (applyDFS o) 0) as [|_]; [contradiction|].
  rewrite E. reflexivity.
Qed.

Lemma reach_last (next : ScheduleBlock -> list nat) bs s x :
  reach next bs s x -> exists w, In x (next (get bs w)).
Proof. induction 1 as [b v H|b w v _ _ IH]; eauto. Qed.

Section Isolated.
Variable o : Options.
Variable arr : list Input.
Variable b : nat.
Hypothesis Hmax : Z.of_nat (length arr) <= INT_MAX.
Hypothesis Hlong :
  Forall (fun a => in_startMin a + dfsTolerance o < in_endMin a) arr.
Hypothesis Hb : (b < length arr)%nat.
Hypothesis Hiso : isolated (dfsTolerance o) arr b.

Let bs1 := blocks (fst (stage1 o arr)).
Let ord := blocksReordered (fst (stage1 o arr)).

Lemma long_block p :
  (p < length arr)%nat ->
  startMin (get bs1 p) + dfsTolerance o < endMin (get bs1 p).
Proof.
  intros Hp. unfold bs1. destruct (stage1_times o arr Hp) as [-> ->].
  rewrite Forall_forall in Hlong. apply Hlong, nth_In, Hp.
Qed.

(** a block that comes before [b] has ended when [b] starts, and [b] has
    ended when a block that comes after it starts *)
Lemma isolated_before x :
  before ord x b ->
  endMin (get bs1 x) <= startMin (get bs1 b) + dfsTolerance o.
Proof.
  intros Hbef.
  assert (Hx : (x < length arr)%nat).
  { apply (stage1_order_range o arr). apply (before_In _ _ _ Hbef). }
  assert (Hne : x <> b)
    by (apply (@before_neq _ _ _ (stage1_order_NoDup o arr) Hbef)).
  pose proof (@sorted_before _ _ _ _ (stage1_sorted o arr) Hbef) as Hs.
  pose proof (long_block Hb) as Hl. fold bs1 in Hs.
  specialize (Hiso Hx Hne). unfold inputAt in Hiso.
  destruct (stage1_times o arr Hx) as [Sx Ex].
  destruct (stage1_times o arr Hb) as [Sb Eb].
  fold bs1 in Sx, Ex, Sb, Eb.
  rewrite <- Sx, <- Ex, <- Sb, <- Eb in Hiso. cbv beta in Hs. lia.
Qed.

Lemma isolated_after x :
  before ord b x ->
  endMin (get bs1 b) <= startMin (get bs1 x) + dfsTolerance o.
Proof.
  intros Hbef.
  assert (Hx : (x < length arr)%nat).
  { apply (stage1_order_range o arr). apply (before_In _ _ _ Hbef). }
  assert (Hne : x <> b).
  { intros ->. apply (@before_neq _ _ _ (stage1_order_NoDup o arr) Hbef).
    reflexivity. }
  pose proof (@sorted_before _ _ _ _ (stage1_sorted o arr) Hbef) as Hs.
  pose proof (long_block Hx) as Hl. fold bs1 in Hs.
  specialize (Hiso Hx Hne). unfold inputAt in Hiso.
  destruct (stage1_times o arr Hx) as [Sx Ex].
  destruct (stage1_times o arr Hb) as [Sb Eb].
  fold bs1 in Sx, Ex, Sb, Eb.
  rewrite <- Sx, <- Ex, <- Sb, <- Eb in Hiso. cbv beta in Hs. lia.
Qed.

Lemma isolated_no_edge a j :
  a = b \/ j = b -> ~ adjEdge (dfsTolerance o) bs1 ord a j.
Proof.
  intros Hab [[Hbef [Ht _]]|[Hbef [Ht _]]]; destruct Hab as [->| ->].
  - pose proof (@isolated_before _ Hbef). lia.
  - pose proof (@isolated_after _ Hbef). lia.
  - pose proof (@isolated_after _ Hbef). lia.
  - pose proof (@isolated_before _ Hbef). lia.
Qed.

Lemma isolated_cleftN :
  cleftN (get (blocks (stage3 o arr)) b) = [] /\
  forall w, ~ In b (cleftN (get (blocks (stage3 o arr)) w)).
Proof.
  split.
  - destruct (cleftN (get (blocks (stage3 o arr)) b)) as [|v l] eqn:E;
      [reflexivity|].
    exfalso. assert (Hv : In v (cleftN (get (blocks (stage3 o arr)) b)))
      by (rewrite E; left; reflexivity).
    apply stage3_cleftN in Hv. destruct Hv as [Hv _].
    apply stage3_leftN in Hv. revert Hv. apply isolated_no_edge. auto.
  - intros w Hw. apply stage3_cleftN in Hw. destruct Hw as [Hw _].
    apply stage3_leftN in Hw. revert Hw. apply isolated_no_edge. auto.
Qed.

Lemma isolated_depth :
  ISMethod o = 1 -> isTolerance o = dfsTolerance o -> depth (get bs1 b) = 0.
Proof.
  intros Hm Htol.
  pose proof (@stage1_depth_range o arr b Hmax Hb) as Hd. fold bs1 in Hd.
  destruct (Z.eq_dec (depth (get bs1 b)) 0) as [|Hne]; [assumption|].
  exfalso.
  destruct (@stage1_lowestRoom o arr b Hm Hmax Hb 0) as [x [Hbef [_ Hx]]].
  { fold bs1. lia. }
  fold bs1 ord in Hbef, Hx. rewrite Htol in Hx.
  pose proof (@isolated_before _ Hbef). lia.
Qed.
End Isolated.

(** X13.  With Method 1, [isTolerance = dfsTolerance], [applyDFS] set and
    [MILP] off, on an input whose blocks are all longer than
    [dfsTolerance], a block that overlaps no other block by more than
    [dfsTolerance] gets the full width: [compute] returns with its left
    edge at 0 and its width 1, whatever the solver leaves in the
    columns. *)
Theorem isolated_block_full_width glp_simplex glp_intopt o arr b :
  Z.of_nat (length arr) <= INT_MAX ->
  ISMethod o = 1 -> isTolerance o = dfsTolerance o ->
  applyDFS o <> 0 -> MILP o = 0 ->
  Forall (fun a => in_startMin a + dfsTolerance o < in_endMin a) arr ->
  (b < length arr)%nat -> isolated (dfsTolerance o) arr b ->
  exists st tr,
    compute glp_simplex glp_intopt o arr = Some (st, tr) /\
    (left (get (blocks st) b) == 0)%Q /\
    (width (get (blocks st) b) == 1)%Q.
Proof.
  intros Hmax Hm Htol Hdfs Hmilp Hlong Hb Hiso.
  destruct (Z.le_gt_cases (snd (stage1 o arr)) 1) as [Htot|Htot].
  - eexists _, []. split.
    + unfold compute. rewrite (surjective_pairing (stage1 o arr)).
      rewrite Hmilp. cbn [Z.eqb negb].
      replace (snd (stage1 o arr) <=? 1) with true
        by (symmetry; apply Z.leb_le; assumption).
      reflexivity.
    + apply initial_layout; try assumption.
      destruct arr; [simpl in Hb; lia|discriminate].
  - destruct (@compute_fixed_plain glp_simplex glp_intopt o arr Hmax Hmilp
                ltac:(lia))
      as [st4 [P [bs5 [bs7 [tr [E4 [_ [X5 [Hfull [E [_ [_ [Hfro _]]]]]]]]]]]]].
    exists (with_blocks bs7 st4), tr. split; [assumption|].
    cbn [blocks with_blocks].
    destruct (@stage4_dfs o arr (snd (stage1 o arr)) Hdfs)
      as [bs [I [Hvis E4']]].
    set (bs4 := map (set_visited false) (map seedFromPath bs)) in *.
    assert (B4 : blocks st4 = bs4).
    { rewrite E4 in E4'. injection E4' as ->. reflexivity. }
    rewrite B4 in *. clear E4 E4' B4.
    destruct (@isolated_cleftN o arr b Hlong Hb Hiso) as [_ Hnone].
    pose proof (@isolated_depth o arr b Hmax Hlong Hb Hiso Hm Htol) as Hd1.
    assert (Hd : depth (get bs b) = 0).
    { rewrite (sameUpTo_field depth (erase := erasePath) b (fun x => eq_refl)
                 (da_same I)).
      rewrite stage3_depth. assumption. }
    assert (Hpd : pathDepth (get bs b) = 1).
    { destruct (da_path I b (Hvis b Hb)) as [s [Hr [_ Hp]]].
      destruct Hr as [Hr|Hr].
      - subst s. rewrite Hp, stage3_depth, Hd1. reflexivity.
      - exfalso. destruct (reach_last Hr) as [w Hw]. apply (Hnone w Hw). }
    assert (Hseed : (left (get bs4 b) == 0)%Q /\ (width (get bs4 b) == 1)%Q).
    { unfold bs4. rewrite !get_map by reflexivity. simpl. rewrite Hd, Hpd.
      split; reflexivity. }
    destruct Hseed as [Hl Hw].
    assert (Hf5 : isFixed (get bs5 b) = true).
    { apply Hfull; [assumption|assumption|].
      rewrite Hl, Hw. vm_compute. reflexivity. }
    destruct (Hfro b Hf5) as [_ [-> ->]].
    destruct (flags_fields b (proj1 X5)) as [-> [-> _]].
    split; assumption.
Qed.

Lemma isolated_block_full_width_witness :
  exists st tr,
    compute exampleSolver exampleSolver defaultOptions
      (mkInputs [(0, 60); (30, 90); (100, 120)]) = Some (st, tr) /\
    (left (get (blocks st) 2) == 0)%Q /\
    (width (get (blocks st) 2) == 1)%Q.
Proof.
  apply (@isolated_block_full_width exampleSolver exampleSolver defaultOptions
           (mkInputs [(0, 60); (30, 90); (100, 120)]) 2).
  - vm_compute. discriminate.
  - reflexivity.
  - reflexivity.
  - discriminate.
  - reflexivity.
  - repeat constructor.
  - simpl. lia.
  - intros [|[|[|q]]] Hq Hne; simpl in *; try lia.
Defined.

(** * Problems that GLPK accepts *)

Lemma build_ok_row R C st ty lb ub ts :
  build_ok R C st ->
  (forall e, In e ts -> rowOf e = b_aux st /\ (1 <= colOf e <= C)%nat) ->
  NoDup (map colOf ts) ->
  build_ok R C (mkBuild (glp_set_row_bnds (b_aux st) ty lb ub (b_lp st))
                        (b_trip st ++ ts) (S (b_aux st))).
Proof.
  intros B Hts Hnd. pose proof (bo_aux B) as Ha.
  constructor; cbn [b_lp b_trip b_aux glp_set_row_bnds n_rows n_cols row_bnds
                    col_bnds obj_coef col_bin].
  - apply (bo_nrows B).
  - apply (bo_ncols B).
  - lia.
  - intros e [<-|He]; [simpl; lia|]. pose proof (bo_rows B e He). lia.
  - intros e He. apply in_app_iff in He. destruct He as [He|He].
    + destruct (bo_trip B e He). split; [lia|assumption].
    + destruct (Hts e He) as [-> Hc]. split; [lia|assumption].
  - rewrite map_app. apply NoDup_app.
    + apply (bo_nodup B).
    + clear -Hts Hnd. induction ts as [|e ts IH]; simpl; [constructor|].
      simpl in Hnd. apply NoDup_cons_iff in Hnd. destruct Hnd as [Hn Hnd].
      constructor.
      * intros Hin. apply Hn. apply in_map_iff in Hin.
        destruct Hin as [e' [Heq He']]. apply in_map_iff. exists e'.
        split; [|assumption]. unfold colOf. rewrite Heq. reflexivity.
      * apply IH; [|assumption]. intros e' He'. apply Hts. right; assumption.
    + intros p Hp Hq. apply in_map_iff in Hp. destruct Hp as [e [<- He]].
      apply in_map_iff in Hq. destruct Hq as [e' [Heq He']].
      destruct (bo_trip B e He) as [Hr _]. destruct (Hts e' He') as [Hr' _].
      unfold rowOf in *. rewrite <- Heq in Hr. lia.
  - apply (bo_cols B).
  - apply (bo_obj B).
  - apply (bo_bin B).
Qed.

Lemma build_ok_col R C lp t a c ty lb ub :
  (1 <= c <= C)%nat -> build_ok R C (mkBuild lp t a) ->
  build_ok R C (mkBuild (glp_set_col_bnds c ty lb ub lp) t a).
Proof.
  intros Hc B. destruct B as [B1 B2 B3 B4 B5 B6 B7 B8 B9].
  constructor; cbn [b_lp b_trip b_aux glp_set_col_bnds n_rows n_cols row_bnds
                    col_bnds obj_coef col_bin] in *; try assumption.
  intros e [<-|He]; [simpl; lia|auto].
Qed.

Lemma build_ok_obj R C lp t a c v :
  (1 <= c <= C)%nat -> build_ok R C (mkBuild lp t a) ->
  build_ok R C (mkBuild (glp_set_obj_coef c v lp) t a).
Proof.
  intros Hc B. destruct B as [B1 B2 B3 B4 B5 B6 B7 B8 B9].
  constructor; cbn [b_lp b_trip b_aux glp_set_obj_coef n_rows n_cols row_bnds
                    col_bnds obj_coef col_bin] in *; try assumption.
  intros e [<-|He]; [simpl; lia|auto].
Qed.

Lemma build_ok_wf R C st :
  build_ok R C st -> (b_aux st <= S R)%nat ->
  glp_wf (glp_load_matrix (b_trip st) (b_lp st)).
Proof.
  intros B Ha.
  constructor; cbn [glp_load_matrix n_rows n_cols row_bnds col_bnds obj_coef
                    col_bin mat]; rewrite ?(bo_nrows B), ?(bo_ncols B).
  - intros e He. pose proof (bo_rows B e He). lia.
  - apply (bo_cols B).
  - apply (bo_obj B).
  - apply (bo_bin B).
  - intros e He. destruct (bo_trip B e He). split; [lia|assumption].
  - apply (bo_nodup B).
Qed.

Lemma build_ok_start d R C :
  build_ok R C
    (mkBuild (glp_add_rows R (glp_add_cols C (glp_set_obj_dir d glp_create_prob)))
             [] 1).
Proof.
  constructor; cbn; try reflexivity; try lia; try (intros e []); constructor.
Qed.

(** *** LP model 1 *)

Lemma lp1_cleft_ok R C bs idxMap leftVar : forall vs st mlf,
  build_ok R C st -> (1 <= leftVar <= C)%nat ->
  (forall v, In v (movable bs vs) ->
     (1 <= nth (idx (get bs v)) idxMap O)%nat /\
     (nth (idx (get bs v)) idxMap O + 1 <= C)%nat /\
     nth (idx (get bs v)) idxMap O <> leftVar /\
     (nth (idx (get bs v)) idxMap O + 1)%nat <> leftVar) ->
  build_ok R C (fst (lp1_cleft bs idxMap leftVar vs st mlf)) /\
  b_aux (fst (lp1_cleft bs idxMap leftVar vs st mlf))
  = (b_aux st + length (movable bs vs))%nat.
Proof.
  unfold movable.
  induction vs as [|v vs IH]; intros st mlf B Hl Hv; cbn [lp1_cleft filter].
  - cbn [fst length]. rewrite Nat.add_0_r. auto.
  - cbn [filter] in Hv. destruct (isFixed (get bs v)); cbn [negb] in *.
    + apply IH; assumption.
    + destruct (Hv v (or_introl eq_refl)) as [H1 [H2 [H3 H4]]].
      match goal with
      | |- context [lp1_cleft bs idxMap leftVar vs ?s ?m] =>
          destruct (IH s m) as [B' Ha]
      end.
      * unfold addConstraint. rewrite <- !app_assoc. cbn [app].
        apply build_ok_row; [assumption| |].
        -- intros e [<-|[<-|[<-|[]]]]; unfold rowOf, colOf; cbn [fst snd];
             split; try reflexivity; lia.
        -- unfold colOf. cbn [map fst snd].
           repeat constructor; simpl; intuition lia.
      * assumption.
      * intros u Hu. apply Hv. right; assumption.
      * split; [assumption|]. rewrite Ha. cbn [b_aux length]. lia.
Qed.

Lemma lp1_blocks_ok R C bs idxMap : forall buffer i st,
  build_ok R C st -> (2 * (i + length buffer) <= C)%nat ->
  (forall k v, (k < length buffer)%nat ->
     In v (movable bs (cleftN (get bs (nth k buffer O)))) ->
     exists m, nth (idx (get bs v)) idxMap O = (2 * m + 1)%nat /\
               (2 * m + 2 <= C)%nat /\ m <> (i + k)%nat) ->
  build_ok R C (lp1_blocks bs idxMap buffer i st) /\
  b_aux (lp1_blocks bs idxMap buffer i st)
  = (b_aux st + countRows bs buffer + length buffer)%nat.
Proof.
  induction buffer as [|block buffer IH]; intros i st B HC Hv;
    cbn [lp1_blocks length].
  - change (countRows bs []) with O. split; [assumption|lia].
  - cbn [length] in HC.
    destruct (lp1_cleft bs idxMap (2 * i + 1) (cleftN (get bs block)) st 0%Q)
      as [st1 mlf] eqn:E.
    destruct (@lp1_cleft_ok R C bs idxMap (2 * i + 1)%nat
                (cleftN (get bs block)) st 0%Q B) as [B1 Ha1].
    { lia. }
    { intros v Hin. destruct (Hv O v) as [m [Hm [Hc Hne]]].
      - simpl. lia.
      - exact Hin.
      - rewrite Hm. lia. }
    rewrite E in B1, Ha1. cbn [fst] in B1, Ha1.
    match goal with
    | |- context [lp1_blocks bs idxMap buffer (S i) ?s] =>
        destruct (IH (S i) s) as [B' Ha']
    end.
    + apply build_ok_obj; [lia|]. apply build_ok_obj; [lia|].
      apply build_ok_col; [lia|]. apply build_ok_col; [lia|].
      unfold addConstraint. rewrite <- !app_assoc. cbn [app].
      apply build_ok_row; [assumption| |].
      * intros e [<-|[<-|[]]]; unfold rowOf, colOf; cbn [fst snd];
          split; try reflexivity; lia.
      * unfold colOf. cbn [map fst snd].
        repeat constructor; simpl; intuition lia.
    + lia.
    + intros k v Hk Hin. destruct (Hv (S k) v) as [m [Hm [Hc Hne]]].
      * simpl. lia.
      * exact Hin.
      * exists m. split; [assumption|]. split; [assumption|lia].
    + split; [assumption|]. rewrite Ha'. cbn [b_aux].
      rewrite Ha1, countRows_cons. unfold movable. lia.
Qed.

Lemma lp1_deviation_ok R C NC mean : forall ks st,
  build_ok R C st -> (3 * NC <= C)%nat ->
  (forall i, In i ks -> (i < NC)%nat) ->
  build_ok R C (lp1_deviation NC mean ks st) /\
  b_aux (lp1_deviation NC mean ks st) = (b_aux st + 2 * length ks)%nat.
Proof.
  induction ks as [|i ks IH]; intros st B HC Hk; cbn [lp1_deviation length].
  - split; [assumption|lia].
  - assert (Hi : (i < NC)%nat) by (apply Hk; left; reflexivity).
    match goal with
    | |- context [lp1_deviation NC mean ks ?s] =>
        destruct (IH s) as [B' Ha']
    end.
    + apply build_ok_obj; [lia|]. apply build_ok_obj; [lia|].
      unfold addConstraint. rewrite <- !app_assoc. cbn [app].
      change (b_trip st ++ [(b_aux st, (2 * NC + i + 1)%nat, 1%Q);
                            (b_aux st, (2 * i + 2)%nat, 1%Q);
                            (S (b_aux st), (2 * NC + i + 1)%nat, 1%Q);
                            (S (b_aux st), (2 * i + 2)%nat, (-1)%Q)])
        with (b_trip st ++ ([(b_aux st, (2 * NC + i + 1)%nat, 1%Q);
                             (b_aux st, (2 * i + 2)%nat, 1%Q)]
                            ++ [(S (b_aux st), (2 * NC + i + 1)%nat, 1%Q);
                                (S (b_aux st), (2 * i + 2)%nat, (-1)%Q)])).
      rewrite app_assoc.
      set (st1 := mkBuild (glp_set_row_bnds (b_aux st) GLP_LO mean 0 (b_lp st))
                    (b_trip st ++ [(b_aux st, (2 * NC + i + 1)%nat, 1%Q);
                                   (b_aux st, (2 * i + 2)%nat, 1%Q)])
                    (S (b_aux st))).
      assert (B1 : build_ok R C st1).
      { apply build_ok_row; [assumption| |].
        - intros e [<-|[<-|[]]]; unfold rowOf, colOf; cbn [fst snd];
            split; try reflexivity; lia.
        - unfold colOf. cbn [map fst snd].
          repeat constructor; simpl; intuition lia. }
      apply (@build_ok_row R C st1 GLP_LO (- mean)%Q 0%Q); [assumption| |].
      * intros e [<-|[<-|[]]]; unfold rowOf, colOf; cbn [fst snd];
          split; try reflexivity; lia.
      * unfold colOf. cbn [map fst snd].
        repeat constructor; simpl; intuition lia.
    + assumption.
    + intros j Hj. apply Hk. right; assumption.
    + split; [assumption|]. rewrite Ha'. cbn [b_aux]. lia.
Qed.

Lemma build_ok_grow R C st d t r c :
  build_ok R C st ->
  build_ok (R + r) (C + c)
    (mkBuild (glp_add_rows r (glp_add_cols c
                (glp_set_obj_dir d (glp_load_matrix t (b_lp st)))))
             (b_trip st) (b_aux st)).
Proof.
  intros [B1 B2 B3 B4 B5 B6 B7 B8 B9].
  constructor; cbn [b_lp b_trip b_aux glp_add_rows glp_add_cols glp_set_obj_dir
                    glp_load_matrix n_rows n_cols row_bnds col_bnds obj_coef
                    col_bin]; try assumption; try lia.
  - intros e He. destruct (B5 e He). split; lia.
  - intros e He. specialize (B7 e He). lia.
  - intros e He. specialize (B8 e He). lia.
  - intros e He. specialize (B9 e He). lia.
Qed.

(** the columns that the index map gives to the blocks of the buffer *)
Lemma idxMap_buffer (f : nat -> nat) bs buffer v :
  NoDup buffer ->
  (forall b, In b buffer -> (b < length bs)%nat /\ idx (get bs b) = b) ->
  In v buffer ->
  exists m, (m < length buffer)%nat /\ nth m buffer O = v /\
    nth (idx (get bs v))
        (fillIdxMap f bs buffer O (repeat O (length bs))) O = f m.
Proof.
  intros Hnd Hr Hv. destruct (In_nth _ _ O Hv) as [m [Hm Hnth]].
  exists m. split; [assumption|]. split; [assumption|].
  destruct (@fillIdxMap_spec f bs buffer O (repeat O (length bs)) Hnd)
    as [_ [Hk _]].
  { intros b Hb. rewrite repeat_length. apply Hr. assumption. }
  rewrite (proj2 (Hr v Hv)). rewrite <- Hnth at 1. apply (Hk m Hm).
Qed.

Section Model.
Variable glp_simplex : glp_prob -> nat -> Q.
Variable buffer : list nat.
Variable bs : list ScheduleBlock.
Hypothesis buffer_nodup : NoDup buffer.
Hypothesis buffer_idx :
  forall b, In b buffer -> (b < length bs)%nat /\ idx (get bs b) = b.
Hypothesis buffer_closed : forall b v,
  In b buffer -> In v (movable bs (cleftN (get bs b))) ->
  In v buffer /\ v <> b.

Lemma buildLPModel1_wf :
  Forall (fun e => glp_wf (fst e)) (snd (buildLPModel1 glp_simplex buffer bs)).
Proof.
  unfold buildLPModel1. cbn [snd].
  set (NC := length buffer).
  set (idxMap := fillIdxMap _ bs buffer O _).
  set (R := (countRows bs buffer + NC)%nat).
  set (lp0 := glp_add_rows _ _).
  set (st1 := lp1_blocks bs idxMap buffer O (mkBuild lp0 [] 1)).
  destruct (@lp1_blocks_ok R (NC * 2) bs idxMap buffer O (mkBuild lp0 [] 1))
    as [B1 Ha1].
  { apply build_ok_start. }
  { fold NC. lia. }
  { intros k v Hk Hin.
    destruct (@buffer_closed _ v (nth_In buffer O Hk) Hin) as [Hvb Hne].
    destruct (@idxMap_buffer (fun i => 2 * i + 1)%nat bs buffer v
                buffer_nodup buffer_idx Hvb) as [m [Hm [Hnth E]]].
    exists m. fold idxMap in E. split; [assumption|]. fold NC in Hm.
    split; [lia|]. intros ->. simpl in Hnth. congruence. }
  fold st1 in B1, Ha1. cbn [b_aux] in Ha1.
  constructor.
  { cbn [fst]. apply (build_ok_wf B1). rewrite Ha1. unfold R. fold NC. lia. }
  constructor; [|constructor]. cbn [fst].
  set (sumWidth := glp_get_obj_val _ _).
  set (mean := (sumWidth / _)%Q).
  set (stB0 := mkBuild _ (b_trip st1) (b_aux st1)).
  assert (BB0 : build_ok (R + (NC * 2 + 1)) (NC * 2 + NC) stB0)
    by (apply build_ok_grow; assumption).
  destruct (@lp1_deviation_ok _ _ NC mean (seq 0 NC) stB0 BB0) as [B2 Ha2].
  { lia. }
  { intros i Hi. apply in_seq in Hi. lia. }
  set (st2 := lp1_deviation NC mean (seq 0 NC) stB0) in *.
  rewrite fold_addConstraint.
  apply (@build_ok_wf (R + (NC * 2 + 1)) (NC * 2 + NC)
           (mkBuild (glp_set_row_bnds (b_aux st2) GLP_LO
                       (sumWidth - DOUBLE_EPS)%Q 0%Q (b_lp st2))
                    (b_trip st2 ++ map (fun i => (b_aux st2, (2 * i + 2)%nat, 1%Q))
                                       (seq 0 NC))
                    (S (b_aux st2)))).
  - apply build_ok_row; [assumption| |].
    + intros e He. apply in_map_iff in He. destruct He as [i [<- Hi]].
      apply in_seq in Hi. unfold rowOf, colOf. cbn [fst snd].
      split; [reflexivity|lia].
    + rewrite map_map. unfold colOf. cbn [fst snd].
      apply NoDup_map_on; [|apply seq_NoDup].
      intros x y _ _. lia.
  - cbn [b_aux]. rewrite Ha2. unfold stB0. cbn [b_aux]. rewrite Ha1.
    rewrite length_seq. unfold R. lia.
Qed.

Lemma lp2_cleft_ok R NC idxMap leftVar : forall vs st mlf,
  build_ok R (NC + 1) st -> (1 <= leftVar <= NC)%nat ->
  (forall v, In v (movable bs vs) ->
     (1 <= nth (idx (get bs v)) idxMap O <= NC)%nat /\
     nth (idx (get bs v)) idxMap O <> leftVar) ->
  build_ok R (NC + 1) (fst (lp2_cleft bs idxMap NC leftVar vs st mlf)) /\
  b_aux (fst (lp2_cleft bs idxMap NC leftVar vs st mlf))
  = (b_aux st + length (movable bs vs))%nat.
Proof.
  unfold movable.
  induction vs as [|v vs IH]; intros st mlf B Hl Hv; cbn [lp2_cleft filter].
  - cbn [fst length]. rewrite Nat.add_0_r. auto.
  - cbn [filter] in Hv. destruct (isFixed (get bs v)); cbn [negb] in *.
    + apply IH; assumption.
    + destruct (Hv v (or_introl eq_refl)) as [H1 H3].
      match goal with
      | |- context [lp2_cleft bs idxMap NC leftVar vs ?s ?m] =>
          destruct (IH s m) as [B' Ha]
      end.
      * unfold addConstraint. rewrite <- !app_assoc. cbn [app].
        apply build_ok_row; [assumption| |].
        -- intros e [<-|[<-|[<-|[]]]]; unfold rowOf, colOf; cbn [fst snd];
             split; try reflexivity; lia.
        -- unfold colOf. cbn [map fst snd].
           repeat constructor; simpl; intuition lia.
      * assumption.
      * intros u Hu. apply Hv. right; assumption.
      * split; [assumption|]. rewrite Ha. cbn [b_aux length]. lia.
Qed.

Lemma lp2_blocks_ok R NC idxMap : forall buf i st,
  build_ok R (NC + 1) st -> (i + length buf <= NC)%nat ->
  (forall k v, (k < length buf)%nat ->
     In v (movable bs (cleftN (get bs (nth k buf O)))) ->
     exists m, nth (idx (get bs v)) idxMap O = (m + 1)%nat /\
               (m < NC)%nat /\ m <> (i + k)%nat) ->
  build_ok R (NC + 1) (lp2_blocks bs idxMap NC buf i st) /\
  b_aux (lp2_blocks bs idxMap NC buf i st)
  = (b_aux st + countRows bs buf + length buf)%nat.
Proof.
  induction buf as [|block buf IH]; intros i st B HC Hv;
    cbn [lp2_blocks length].
  - change (countRows bs []) with O. split; [assumption|lia].
  - cbn [length] in HC.
    destruct (lp2_cleft bs idxMap NC (i + 1) (cleftN (get bs block)) st 0%Q)
      as [st1 mlf] eqn:E.
    destruct (@lp2_cleft_ok R NC idxMap (i + 1)%nat
                (cleftN (get bs block)) st 0%Q B) as [B1 Ha1].
    { lia. }
    { intros v Hin. destruct (Hv O v) as [m [Hm [Hc Hne]]].
      - simpl. lia.
      - exact Hin.
      - rewrite Hm. lia. }
    rewrite E in B1, Ha1. cbn [fst] in B1, Ha1.
    match goal with
    | |- context [lp2_blocks bs idxMap NC buf (S i) ?s] =>
        destruct (IH (S i) s) as [B' Ha']
    end.
    + apply build_ok_obj; [lia|]. apply build_ok_col; [lia|].
      unfold addConstraint. rewrite <- !app_assoc. cbn [app].
      apply build_ok_row; [assumption| |].
      * intros e [<-|[<-|[]]]; unfold rowOf, colOf; cbn [fst snd];
          split; try reflexivity; lia.
      * unfold colOf. cbn [map fst snd].
        repeat constructor; simpl; intuition lia.
    + lia.
    + intros k v Hk Hin. destruct (Hv (S k) v) as [m [Hm [Hc Hne]]].
      * simpl. lia.
      * exact Hin.
      * exists m. split; [assumption|]. split; [assumption|lia].
    + split; [assumption|]. rewrite Ha'. cbn [b_aux].
      rewrite Ha1, countRows_cons. unfold movable. lia.
Qed.

Lemma buildLPModel2_wf :
  Forall (fun e => glp_wf (fst e)) (snd (buildLPModel2 glp_simplex buffer bs)).
Proof.
  unfold buildLPModel2. cbn [snd].
  set (NC := length buffer).
  set (idxMap := fillIdxMap _ bs buffer O _).
  set (R := (countRows bs buffer + NC)%nat).
  set (lp0 := glp_add_rows _ _).
  set (st1 := lp2_blocks bs idxMap NC buffer O (mkBuild lp0 [] 1)).
  destruct (@lp2_blocks_ok R NC idxMap buffer O (mkBuild lp0 [] 1))
    as [B1 Ha1].
  { apply build_ok_start. }
  { fold NC. lia. }
  { intros k v Hk Hin.
    destruct (@buffer_closed _ v (nth_In buffer O Hk) Hin) as [Hvb Hne].
    destruct (@idxMap_buffer (fun i => i + 1)%nat bs buffer v
                buffer_nodup buffer_idx Hvb) as [m [Hm [Hnth E]]].
    exists m. fold idxMap in E. split; [assumption|]. fold NC in Hm.
    split; [lia|]. intros ->. simpl in Hnth. congruence. }
  fold st1 in B1, Ha1. cbn [b_aux] in Ha1.
  constructor; [|constructor]. cbn [fst].
  change (glp_load_matrix (b_trip st1)
            (glp_set_obj_coef (NC + 1) 1
               (glp_set_col_bnds (NC + 1) GLP_DB 0 1 (b_lp st1))))
    with (glp_load_matrix
            (b_trip (mkBuild (glp_set_obj_coef (NC + 1) 1
                      (glp_set_col_bnds (NC + 1) GLP_DB 0 1 (b_lp st1)))
                      (b_trip st1) (b_aux st1)))
            (b_lp (mkBuild (glp_set_obj_coef (NC + 1) 1
                      (glp_set_col_bnds (NC + 1) GLP_DB 0 1 (b_lp st1)))
                      (b_trip st1) (b_aux st1)))).
  apply (@build_ok_wf R (NC + 1)).
  - apply build_ok_obj; [lia|]. apply build_ok_col; [lia|].
    destruct st1. exact B1.
  - cbn [b_aux]. rewrite Ha1. unfold R. lia.
Qed.

Lemma buildLPModel_wf o :
  Forall (fun e => glp_wf (fst e))
         (snd (buildLPModel glp_simplex o buffer bs)).
Proof.
  unfold buildLPModel. destruct (LPModel o =? 2).
  - apply buildLPModel2_wf.
  - apply buildLPModel1_wf.
Qed.
End Model.

(** *** The MILP model *)

Lemma build_ok_bin R C lp t a c :
  (1 <= c <= C)%nat -> build_ok R C (mkBuild lp t a) ->
  build_ok R C (mkBuild (glp_set_col_kind_BV c lp) t a).
Proof.
  intros Hc B. destruct B as [B1 B2 B3 B4 B5 B6 B7 B8 B9].
  constructor; cbn [b_lp b_trip b_aux glp_set_col_kind_BV n_rows n_cols
                    row_bnds col_bnds obj_coef col_bin] in *; try assumption.
  intros e [<-|He]; [lia|auto].
Qed.

Ltac split_rows :=
  unfold addConstraint; rewrite <- !app_assoc; cbn [app];
  match goal with
  | |- context [_ ++ [?e1; ?e2; ?e3; ?e4; ?e5; ?e6; ?e7; ?e8]] =>
      change [e1; e2; e3; e4; e5; e6; e7; e8]
        with ([e1; e2; e3; e4] ++ [e5; e6; e7; e8])
  end;
  rewrite app_assoc.

Lemma milp_inner_ok R C tol n bs bi : forall js st bv,
  build_ok R C st -> (idx (get bs bi) < n)%nat ->
  (forall bj, In bj js ->
     (idx (get bs bj) < n)%nat /\ idx (get bs bj) <> idx (get bs bi)) ->
  (1 <= bv)%nat -> (2 * n + bv + countInner tol bs bi js <= C + 1)%nat ->
  build_ok R C (fst (milp_inner tol n bs bi js st bv)) /\
  b_aux (fst (milp_inner tol n bs bi js st bv))
  = (b_aux st + 2 * countInner tol bs bi js)%nat.
Proof.
  induction js as [|bj js IH]; intros st bv B Hi Hj Hbv HC;
    cbn [milp_inner countInner] in *.
  - cbn [fst]. split; [assumption|lia].
  - destruct (startMin (get bs bj) + tol >=? endMin (get bs bi)).
    + cbn [fst]. split; [assumption|lia].
    + destruct (Hj bj (or_introl eq_refl)) as [Hjn Hne].
      match goal with
      | |- context [milp_inner tol n bs bi js ?s ?b] =>
          destruct (IH s b) as [B' Ha]
      end.
      * split_rows.
        match goal with
        | |- build_ok _ _ (mkBuild (glp_set_row_bnds _ _ _ _ ?lp1)
                                   ((_ ++ ?ts1) ++ _) _) =>
            apply (@build_ok_row R C (mkBuild lp1 (b_trip st ++ ts1)
                                              (S (b_aux st))))
        end.
        -- apply build_ok_row; [assumption| |].
           ++ intros e [<-|[<-|[<-|[<-|[]]]]]; unfold rowOf, colOf;
                cbn [fst snd]; split; try reflexivity; lia.
           ++ unfold colOf. cbn [map fst snd].
              repeat constructor; simpl; intuition lia.
        -- intros e [<-|[<-|[<-|[<-|[]]]]]; unfold rowOf, colOf;
             cbn [fst snd]; split; try reflexivity; lia.
        -- unfold colOf. cbn [map fst snd].
           repeat constructor; simpl; intuition lia.
      * assumption.
      * intros b Hb. apply Hj. right; assumption.
      * lia.
      * lia.
      * split; [assumption|]. rewrite Ha. cbn [b_aux]. lia.
Qed.

Lemma milp_outer_ok R C tol n total bs : forall ord st bv,
  build_ok R C st ->
  NoDup (map (fun b => idx (get bs b)) ord) ->
  (forall b, In b ord -> (idx (get bs b) < n)%nat) ->
  (1 <= bv)%nat -> (2 * n + bv + countPairs tol bs ord <= C + 1)%nat ->
  build_ok R C (fst (milp_outer tol n total bs ord st bv)) /\
  b_aux (fst (milp_outer tol n total bs ord st bv))
  = (b_aux st + 2 * countPairs tol bs ord + length ord)%nat.
Proof.
  induction ord as [|bi rest IH]; intros st bv B Hnd Hr Hbv HC;
    cbn [milp_outer countPairs length] in *.
  - cbn [fst]. split; [assumption|lia].
  - cbn [map] in Hnd. apply NoDup_cons_iff in Hnd. destruct Hnd as [Hni Hnd].
    assert (Hi : (idx (get bs bi) < n)%nat) by (apply Hr; left; reflexivity).
    destruct (milp_inner tol n bs bi rest st bv) as [st1 bv1] eqn:E.
    destruct (@milp_inner_ok R C tol n bs bi rest st bv B Hi) as [B1 Ha1].
    { intros bj Hbj. split; [apply Hr; right; assumption|].
      intros Heq. apply Hni. rewrite <- Heq.
      apply (in_map (fun b => idx (get bs b))). assumption. }
    { assumption. }
    { lia. }
    destruct (milp_inner_frame tol n bs bi rest st bv) as [_ [_ Hbv1]].
    rewrite E in B1, Ha1, Hbv1. cbn [fst snd] in B1, Ha1, Hbv1.
    match goal with
    | |- context [milp_outer tol n total bs rest ?s ?b] =>
        destruct (IH s b) as [B' Ha']
    end.
    + apply build_ok_obj; [lia|]. apply build_ok_col; [lia|].
      apply build_ok_obj; [lia|]. apply build_ok_col; [lia|].
      unfold addConstraint. rewrite <- !app_assoc. cbn [app].
      apply build_ok_row; [assumption| |].
      * intros e [<-|[<-|[]]]; unfold rowOf, colOf; cbn [fst snd];
          split; try reflexivity; lia.
      * unfold colOf. cbn [map fst snd].
        repeat constructor; simpl; intuition lia.
    + assumption.
    + intros b Hb. apply Hr. right; assumption.
    + lia.
    + lia.
    + split; [assumption|]. rewrite Ha'. cbn [b_aux]. lia.
Qed.

Lemma fold_BV_ok R C t a : forall ks lp,
  build_ok R C (mkBuild lp t a) ->
  (forall i, In i ks -> (i + 1 <= C)%nat) ->
  build_ok R C
    (mkBuild (fold_left
                (fun lp i => glp_set_obj_coef (i + 1) 0%Q
                               (glp_set_col_kind_BV (i + 1) lp)) ks lp) t a).
Proof.
  induction ks as [|k ks IH]; intros lp B Hk; cbn [fold_left];
    [assumption|].
  apply IH.
  - assert (k + 1 <= C)%nat by (apply Hk; left; reflexivity).
    apply build_ok_obj; [lia|]. apply build_ok_bin; [lia|]. assumption.
  - intros i Hi. apply Hk. right; assumption.
Qed.

(** The problem of the MILP model. *)
Lemma buildMILPModel_wf glp_intopt o total st :
  (forall p, (p < length (blocks st))%nat -> idx (get (blocks st) p) = p) ->
  Permutation (blocksReordered st) (seq 0 (length (blocks st))) ->
  exists lp,
    snd (buildMILPModel glp_intopt o total st) = [(lp, glp_intopt lp)] /\
    glp_wf lp /\
    n_cols lp = (2 * length (blocks st)
                 + countPairs (dfsTolerance o) (blocks st)
                              (blocksReordered st))%nat /\
    n_rows lp = (2 * countPairs (dfsTolerance o) (blocks st)
                               (blocksReordered st)
                 + length (blocks st))%nat.
Proof.
  intros Hidx Hperm. unfold buildMILPModel.
  set (bs := blocks st) in *. set (ord := blocksReordered st) in *.
  set (n := length bs) in *.
  set (numBV := countPairs (dfsTolerance o) bs ord) in *.
  set (lp0 := glp_add_rows _ _) in *.
  assert (Hnd : NoDup ord).
  { apply (Permutation_NoDup (Permutation_sym Hperm)), seq_NoDup. }
  assert (Hord : forall p, In p ord -> (p < n)%nat).
  { intros p Hp. apply (@seq_perm_lt _ _ p Hperm). assumption. }
  assert (Hlen : length ord = n).
  { rewrite (Permutation_length Hperm). apply length_seq. }
  assert (Hmap : map (fun b => idx (get bs b)) ord = ord).
  { rewrite <- (map_id ord) at 2. apply map_ext_in.
    intros b Hb. apply Hidx. apply Hord. assumption. }
  destruct (@milp_outer_ok (2 * numBV + n) (2 * n + numBV) (dfsTolerance o) n
              total bs ord (mkBuild lp0 [] 1) 1) as [B1 Ha1].
  { apply build_ok_start. }
  { rewrite Hmap. assumption. }
  { intros b Hb. rewrite Hidx by (apply Hord; assumption).
    apply Hord. assumption. }
  { lia. }
  { fold numBV. lia. }
  destruct (milp_outer (dfsTolerance o) n total bs ord (mkBuild lp0 [] 1) 1)
    as [st1 bvf] eqn:E.
  cbn [fst snd b_aux] in B1, Ha1 |- *.
  eexists. split; [reflexivity|].
  set (lp1 := fold_left _ (seq (2 * n) numBV) (b_lp st1)).
  assert (B2 : build_ok (2 * numBV + n) (2 * n + numBV)
                 (mkBuild lp1 (b_trip st1) (b_aux st1))).
  { apply fold_BV_ok.
    - destruct st1. exact B1.
    - intros i Hi. apply in_seq in Hi. lia. }
  split; [|split].
  - apply (build_ok_wf B2). cbn [b_aux]. rewrite Ha1. fold numBV. lia.
  - cbn [glp_load_matrix n_cols]. apply (bo_ncols B2).
  - cbn [glp_load_matrix n_rows]. apply (bo_nrows B2).
Qed.

(** *** The problems handed to the solver *)

Section Trace.
Variable glp_simplex : glp_prob -> nat -> Q.
Variable o : Options.
Variable G : glp_prob * (nat -> Q) -> Prop.
Variable I : list ScheduleBlock -> Prop.
Hypothesis I_step : forall bs block buffer bs1,
  adjInRange bs -> (block < length bs)%nat ->
  visited (get bs block) = false ->
  bfs_post bs block buffer bs1 -> I bs ->
  I (fst (buildLPModel glp_simplex o buffer bs1)).
Hypothesis G_step : forall bs block buffer bs1,
  adjInRange bs -> (block < length bs)%nat ->
  visited (get bs block) = false ->
  bfs_post bs block buffer bs1 -> I bs ->
  Forall G (snd (buildLPModel glp_simplex o buffer bs1)).

Lemma lp_components_trace : forall ps bs tr,
  adjInRange bs -> (forall p, In p ps -> (p < length bs)%nat) -> I bs ->
  exists bs' new,
    lp_components glp_simplex o ps bs tr = Some (bs', tr ++ new) /\
    sameUpTo eraseSolve bs bs' /\ I bs' /\ Forall G new.
Proof.
  induction ps as [|block ps IH]; intros bs tr Hadj Hr Hi; cbn [lp_components].
  - exists bs, []. rewrite app_nil_r. split; [reflexivity|].
    split; [apply sameUpTo_refl|]. split; [assumption|constructor].
  - assert (Hr' : forall p, In p ps -> (p < length bs)%nat)
      by (intros p Hp; apply Hr; right; assumption).
    destruct (visited (get bs block)) eqn:Hv; [apply IH; assumption|].
    assert (Hb : (block < length bs)%nat) by (apply Hr; left; reflexivity).
    destruct (@BFS_spec bs block Hadj Hb Hv) as [buffer [bs1 [E P]]].
    rewrite E.
    pose proof (@I_step bs block buffer bs1 Hadj Hb Hv P Hi) as Hi2.
    pose proof (@G_step bs block buffer bs1 Hadj Hb Hv P Hi) as Hg2.
    pose proof (@buildLPModel_frame glp_simplex o buffer bs1 (bp_nodup P)
                  (fun b Hb => @bfs_post_range _ _ _ _ b P Hb)) as [Hfr _].
    destruct (buildLPModel glp_simplex o buffer bs1) as [bs2 lps] eqn:EB.
    cbn [fst snd] in Hi2, Hg2, Hfr.
    assert (Hs2 : sameUpTo eraseSolve bs bs2).
    { eapply sameUpTo_trans.
      - apply (@sameUpTo_coarse eraseVisited eraseSolve bs bs1);
          [reflexivity|apply (bp_same P)].
      - apply (@sameUpTo_coarse eraseLW eraseSolve bs1 bs2);
          [reflexivity|assumption]. }
    destruct (IH bs2 (tr ++ lps)) as [bs' [new [E' [Hs' [Hi' Hg']]]]].
    + eapply adjInRange_same; [| |exact Hs2|exact Hadj]; reflexivity.
    + intros p Hp. rewrite (sameUpTo_length Hs2). apply Hr'. assumption.
    + assumption.
    + exists bs', (lps ++ new). rewrite app_assoc. split; [assumption|].
      split; [eapply sameUpTo_trans; eassumption|].
      split; [assumption|]. apply Forall_app. split; assumption.
Qed.

Variable J : list ScheduleBlock -> Prop.
Hypothesis J_enter : forall bs, adjInRange bs -> flagsAgree bs -> J bs -> I bs.
Hypothesis J_exit : forall bs bs', sameUpTo eraseFlags bs bs' -> I bs -> J bs'.

Lemma lp_iteration_trace bs tr :
  adjInRange bs -> flagsAgree bs -> J bs ->
  exists bs' new c,
    lp_iteration glp_simplex o bs tr = Some (bs', tr ++ new, c) /\
    sameUpTo eraseIter bs bs' /\ flagsAgree bs' /\ J bs' /\ Forall G new.
Proof.
  intros Hadj Hfa Hj. unfold lp_iteration.
  destruct (@lp_components_trace (seq 0 (length bs)) bs tr Hadj
              (@seq_range (length bs)) (J_enter Hadj Hfa Hj))
    as [bs1 [new [E [Hs1 [Hi1 Hg]]]]].
  rewrite E.
  set (bs2 := map (fun b => set_visited (isFixed b) b) bs1).
  assert (Hs2 : sameUpTo eraseFlags bs1 bs2)
    by (apply sameUpTo_map; reflexivity).
  assert (Hadj1 : adjInRange bs1).
  { eapply adjInRange_same; [| |exact Hs1|exact Hadj]; reflexivity. }
  assert (Hadj2 : adjInRange bs2) by (eapply adjInRange_flags; eassumption).
  destruct (@fixedPass_spec (seq 0 (length bs2)) bs2 (@seq_range (length bs2))
              Hadj2) as [bs3 [E3 Hs3]].
  rewrite E3.
  destruct (getFixedCount bs3) as [bs4 c] eqn:E4.
  pose proof (getFixedCount_spec bs3) as [Hs4 Hf4]. rewrite E4 in Hs4, Hf4.
  cbn [fst] in Hs4, Hf4.
  exists bs4, new, c. split; [reflexivity|].
  assert (Hflags : sameUpTo eraseFlags bs1 bs4).
  { eapply sameUpTo_trans; [exact Hs2|].
    eapply sameUpTo_trans; [exact Hs3|exact Hs4]. }
  split.
  { eapply sameUpTo_trans.
    - apply (@sameUpTo_coarse eraseSolve eraseIter bs bs1);
        [reflexivity|assumption].
    - apply (@sameUpTo_coarse eraseFlags eraseIter bs1 bs4);
        [reflexivity|assumption]. }
  split; [exact Hf4|]. split; [|assumption].
  apply (J_exit Hflags). assumption.
Qed.

Lemma lp_loop_trace : forall iters prev bs tr,
  adjInRange bs -> flagsAgree bs -> J bs ->
  exists bs' new,
    lp_loop glp_simplex o iters prev bs tr = Some (bs', tr ++ new) /\
    Forall G new.
Proof.
  induction iters as [|iters IH]; intros prev bs tr Hadj Hfa Hj; cbn [lp_loop].
  - exists bs, []. rewrite app_nil_r. split; [reflexivity|constructor].
  - destruct (@lp_iteration_trace bs tr Hadj Hfa Hj)
      as [bs1 [new1 [c [E [Hs1 [Hf1 [Hj1 Hg1]]]]]]].
    rewrite E. destruct (c =? prev).
    + exists bs1, new1. split; [reflexivity|assumption].
    + destruct (IH c bs1 (tr ++ new1) (adjInRange_iter Hs1 Hadj) Hf1 Hj1)
        as [bs' [new [E' Hg']]].
      exists bs', (new1 ++ new). rewrite app_assoc.
      split; [assumption|]. apply Forall_app. split; assumption.
Qed.
End Trace.

Lemma model_graph_same erase n bs bs' :
  (forall b, idx (erase b) = idx b) ->
  (forall b, cleftN (erase b) = cleftN b) ->
  (forall b, crightN (erase b) = crightN b) ->
  sameUpTo erase bs bs' -> model_graph n bs -> model_graph n bs'.
Proof.
  intros Hi Hl Hr Hs [G Hirr]. split.
  - eapply lpgraph_same; eassumption.
  - intros p. rewrite (sameUpTo_field cleftN p Hl Hs). apply Hirr.
Qed.

Lemma flagsAgree_comp_inv bs : flagsAgree bs -> comp_inv bs.
Proof.
  intros Hfa. constructor.
  - intros p Hp. rewrite Hfa. assumption.
  - intros v a Hv Hf. rewrite Hfa in Hv. congruence.
Qed.

Section Problems.
Variable glp_simplex : glp_prob -> nat -> Q.
Variable o : Options.
Variable n : nat.

Let I (bs : list ScheduleBlock) : Prop := model_graph n bs /\ comp_inv bs.

Lemma wf_I_step bs block buffer bs1 :
  adjInRange bs -> (block < length bs)%nat ->
  visited (get bs block) = false ->
  bfs_post bs block buffer bs1 -> I bs ->
  I (fst (buildLPModel glp_simplex o buffer bs1)).
Proof.
  intros _ _ _ P [M C].
  destruct (@buildLPModel_frame glp_simplex o buffer bs1 (bp_nodup P)
              (fun b Hb => @bfs_post_range _ _ _ _ b P Hb)) as [Hfr _].
  split.
  - apply (@model_graph_same eraseLW n bs1); try reflexivity; [assumption|].
    apply (@model_graph_same eraseVisited n bs); try reflexivity;
      [apply (bp_same P)|assumption].
  - eapply comp_inv_step; eassumption.
Qed.

Lemma wf_G_step bs block buffer bs1 :
  adjInRange bs -> (block < length bs)%nat ->
  visited (get bs block) = false ->
  bfs_post bs block buffer bs1 -> I bs ->
  Forall (fun e => glp_wf (fst e))
         (snd (buildLPModel glp_simplex o buffer bs1)).
Proof.
  intros _ _ _ P [[G Hirr] C].
  destruct (@component_facts n bs block buffer bs1 G C P) as [Hidx [_ Hcl]].
  apply buildLPModel_wf.
  - apply (bp_nodup P).
  - intros b Hb. split; [apply (@bfs_post_range _ _ _ _ b P Hb)|auto].
  - intros b v Hb Hv. unfold movable in Hv. apply filter_In in Hv.
    destruct Hv as [Hin Hnf]. apply negb_true_iff in Hnf. split.
    + apply (Hcl b v Hb); [left; assumption|assumption].
    + intros ->.
      destruct (visited_fields b (bp_same P)) as [_ [Hc _]].
      rewrite Hc in Hin. apply (Hirr b Hin).
Qed.

Lemma wf_J_enter bs :
  adjInRange bs -> flagsAgree bs -> model_graph n bs -> I bs.
Proof. intros _ Hfa M. split; [assumption|apply flagsAgree_comp_inv, Hfa]. Qed.

Lemma wf_J_exit bs bs' :
  sameUpTo eraseFlags bs bs' -> I bs -> model_graph n bs'.
Proof.
  intros Hs [M _]. apply (@model_graph_same eraseFlags n bs); auto.
Qed.
End Problems.

Lemma stage4_model_graph o arr st4 P :
  seed_post (length arr) (snd (stage1 o arr)) (blocks (stage3 o arr))
    (blocks st4) P ->
  model_graph (length arr) (blocks st4).
Proof.
  intros S. split; [apply (@stage4_lpgraph o arr st4 P S)|].
  intros p Hp.
  rewrite (sameUpTo_field cleftN (erase := eraseLayout) p (fun b => eq_refl)
             (sp_same S)) in Hp.
  apply stage3_cleftN in Hp. destruct Hp as [Hp _].
  apply (stage3_irrefl _ _ _ Hp).
Qed.

(** X10.  [compute] returns, and every problem it hands to the solver, of
    LP model 1, of LP model 2 or of the MILP model, meets what GLPK
    requires of the calls that set it up: each row index used lies between
    1 and the number of rows added, each column index between 1 and the
    number of columns added, and the matrix is loaded with no position
    given twice. *)
Theorem problems_well_formed glp_simplex glp_intopt o arr :
  Z.of_nat (length arr) <= INT_MAX ->
  exists st tr,
    compute glp_simplex glp_intopt o arr = Some (st, tr) /\
    Forall (fun e => glp_wf (fst e)) tr.
Proof.
  intros Hmax.
  destruct (Z.eq_dec (MILP o) 0) as [Hmilp|Hmilp].
  - destruct (Z.le_gt_cases (snd (stage1 o arr)) 1) as [Htot|Htot].
    + eexists _, []. split; [|constructor].
      unfold compute. rewrite (surjective_pairing (stage1 o arr)).
      rewrite Hmilp. cbn [Z.eqb negb].
      replace (snd (stage1 o arr) <=? 1) with true
        by (symmetry; apply Z.leb_le; assumption).
      reflexivity.
    + destruct (@stage4_spec o arr Hmax) as [st4 [P [E4 [_ S]]]].
      pose proof (@stage4_model_graph o arr st4 P S) as M4.
      assert (Hadj : adjInRange (blocks st4)) by apply (lg_range (proj1 M4)).
      destruct (@fixedPass0_spec (seq 0 (length (blocks st4))) (blocks st4)
                  (@seq_range (length (blocks st4))) Hadj) as [bs5 [E5 Hs5]].
      pose proof (getFixedCount_spec bs5) as [Hs6 Hf6].
      assert (Hflags : sameUpTo eraseFlags (blocks st4)
                         (fst (getFixedCount bs5)))
        by (eapply sameUpTo_trans; eassumption).
      assert (Hadj6 : adjInRange (fst (getFixedCount bs5)))
        by (eapply adjInRange_flags; eassumption).
      assert (M6 : model_graph (length arr) (fst (getFixedCount bs5))).
      { apply (@model_graph_same eraseFlags _ (blocks st4)); auto. }
      destruct (@lp_loop_trace glp_simplex o (fun e => glp_wf (fst e)) _
                  (@wf_I_step glp_simplex o (length arr))
                  (@wf_G_step glp_simplex o (length arr))
                  (model_graph (length arr))
                  (@wf_J_enter (length arr)) (@wf_J_exit (length arr))
                  (Z.to_nat (LPIters o)) (snd (getFixedCount bs5))
                  (fst (getFixedCount bs5)) [] Hadj6 Hf6 M6)
        as [bs7 [tr [E7 Hg]]].
      exists (with_blocks bs7 st4), tr. split; [|assumption].
      unfold compute. destruct (stage1 o arr) as [st1 total] eqn:E1.
      cbn [snd] in *. rewrite Hmilp. cbn [Z.eqb negb].
      replace (total <=? 1) with false by (symmetry; apply Z.leb_gt; lia).
      rewrite E4, E5. destruct (getFixedCount bs5) as [bs6 prev].
      cbn [fst snd app] in E7. rewrite E7. reflexivity.
  - destruct (@buildMILPModel_wf glp_intopt o (snd (stage1 o arr))
                (fst (stage1 o arr))) as [lp [E [W _]]].
    { intros p Hp. apply stage1_idx. rewrite <- (stage1_length o arr).
      assumption. }
    { rewrite stage1_length. apply (stage1_frame o arr). }
    exists (fst (buildMILPModel glp_intopt o (snd (stage1 o arr))
                   (fst (stage1 o arr)))),
           (snd (buildMILPModel glp_intopt o (snd (stage1 o arr))
                   (fst (stage1 o arr)))).
    split.
    + unfold compute. rewrite (surjective_pairing (stage1 o arr)).
      cbn [fst snd].
      replace (MILP o =? 0) with false by (symmetry; apply Z.eqb_neq; assumption).
      cbn [negb]. rewrite <- surjective_pairing. reflexivity.
    + rewrite E. constructor; [assumption|constructor].
Qed.

Lemma problems_well_formed_witness :
  exists st tr,
    compute exampleSolver exampleSolver defaultOptions example_C8
      = Some (st, tr) /\
    Forall (fun e => glp_wf (fst e)) tr.
Proof.
  apply (@problems_well_formed exampleSolver exampleSolver defaultOptions
           example_C8).
  vm_compute. discriminate.
Defined.

(** * The two problems of LP model 1 *)

Lemma bndOf_none l k :
  (forall e, In e l -> fst e <> k) -> bndOf l k = None.
Proof.
  intros H. destruct (bndOf l k) as [b|] eqn:E; [|reflexivity].
  apply bndOf_In in E. exfalso. apply (H _ E). reflexivity.
Qed.


Lemma lp1_cleft_lp bs idxMap leftVar : forall vs st m,
  n_cols (b_lp (fst (lp1_cleft bs idxMap leftVar vs st m))) = n_cols (b_lp st) /\
  obj_coef (b_lp (fst (lp1_cleft bs idxMap leftVar vs st m)))
  = obj_coef (b_lp st).
Proof.
  induction vs as [|v vs IH]; intros st m; cbn [lp1_cleft].
  - cbn [fst]. auto.
  - destruct (isFixed (get bs v)).
    + apply IH.
    + destruct (IH (mkBuild (glp_set_row_bnds (b_aux st) GLP_LO 0%Q 0%Q (b_lp st))
                      (addConstraint (b_aux st)
                         (nth (idx (get bs v)) idxMap O + 1) (-1)%Q
                         (addConstraint (b_aux st)
                            (nth (idx (get bs v)) idxMap O) (-1)%Q
                            (addConstraint (b_aux st) leftVar 1%Q (b_trip st))))
                      (S (b_aux st))) m) as [A B].
      rewrite A, B. cbn. auto.
Qed.

Lemma coefOf_cons c v lp k :
  coefOf (glp_set_obj_coef c v lp) k
  = if (c =? k)%nat then v else coefOf lp k.
Proof.
  unfold coefOf, glp_set_obj_coef. cbn [obj_coef find fst snd].
  destruct (c =? k)%nat; reflexivity.
Qed.

Lemma coefOf_obj lp lp' k :
  obj_coef lp = obj_coef lp' -> coefOf lp k = coefOf lp' k.
Proof. intros E. unfold coefOf. rewrite E. reflexivity. Qed.

(** the objective of the first problem of LP model 1: 0 on the column of a
    left edge, 1 on the column of a width *)
Lemma lp1_blocks_lp bs idxMap : forall buffer i st,
  n_cols (b_lp (lp1_blocks bs idxMap buffer i st)) = n_cols (b_lp st) /\
  forall c,
    coefOf (b_lp (lp1_blocks bs idxMap buffer i st)) c
    = if ((2 * i + 1 <=? c) && (c <=? 2 * (i + length buffer)))%nat
      then (if Nat.even c then 1%Q else 0%Q)
      else coefOf (b_lp st) c.
Proof.
  induction buffer as [|block buffer IH]; intros i st.
  - cbn [lp1_blocks length]. split; [reflexivity|]. intros c.
    destruct (2 * i + 1 <=? c)%nat eqn:E1; [|reflexivity].
    destruct (c <=? 2 * (i + 0))%nat eqn:E2; [|reflexivity].
    apply Nat.leb_le in E1, E2. lia.
  - cbn [lp1_blocks length].
    destruct (lp1_cleft bs idxMap (2 * i + 1) (cleftN (get bs block)) st 0%Q)
      as [st1 m] eqn:Ec.
    pose proof (lp1_cleft_lp bs idxMap (2 * i + 1) (cleftN (get bs block)) st
                  0%Q) as [N1 O1].
    rewrite Ec in N1, O1. cbn [fst] in N1, O1.
    match goal with
    | |- context [lp1_blocks bs idxMap buffer (S i) ?s] =>
        destruct (IH (S i) s) as [A B]
    end.
    split.
    + rewrite A. cbn. assumption.
    + intros c. rewrite B. cbn [b_lp].
      rewrite !coefOf_cons.
      rewrite (@coefOf_obj (glp_set_col_bnds (2 * i + 1 + 1) GLP_LO
                              (width (get bs block)) 0%Q
                              (glp_set_col_bnds (2 * i + 1) GLP_LO m 0%Q
                                 (glp_set_row_bnds (b_aux st1) GLP_UP 0%Q
                                    (minRight bs (crightN (get bs block)) 1%Q)
                                    (b_lp st1)))) (b_lp st) c)
        by (cbn; assumption).
      destruct (Nat.eqb_spec (2 * i + 1 + 1) c) as [E1|E1];
        destruct (Nat.eqb_spec (2 * i + 1) c) as [E2|E2];
        destruct (Nat.leb_spec (2 * S i + 1) c);
        destruct (Nat.leb_spec c (2 * (S i + length buffer)));
        destruct (Nat.leb_spec (2 * i + 1) c);
        destruct (Nat.leb_spec c (2 * (i + S (length buffer))));
        cbn [andb]; try lia; try reflexivity.
      * subst c. replace (2 * i + 1 + 1)%nat with (2 * (S i))%nat by lia.
        rewrite Nat.even_mul. reflexivity.
      * subst c. rewrite Nat.add_comm. rewrite Nat.even_add_mul_2.
        reflexivity.
Qed.

Lemma lp1_deviation_lp NC mean : forall ks st,
  (forall i, In i ks -> (i < NC)%nat) ->
  n_cols (b_lp (lp1_deviation NC mean ks st)) = n_cols (b_lp st) /\
  forall c,
    coefOf (b_lp (lp1_deviation NC mean ks st)) c
    = if existsb (fun i => (2 * NC + i + 1 =? c)%nat) ks then 1%Q
      else if existsb (fun i => (2 * i + 2 =? c)%nat) ks then 0%Q
      else coefOf (b_lp st) c.
Proof.
  induction ks as [|i ks IH]; intros st Hk.
  - cbn [lp1_deviation existsb]. auto.
  - cbn [lp1_deviation existsb].
    match goal with
    | |- context [lp1_deviation NC mean ks ?s] =>
        destruct (IH s) as [A B]; [intros j Hj; apply Hk; right; assumption|]
    end.
    split; [rewrite A; reflexivity|].
    intros c. rewrite B. cbn [b_lp]. rewrite !coefOf_cons.
    rewrite (@coefOf_obj (glp_set_row_bnds (S (b_aux st)) GLP_LO (- mean)%Q 0%Q
                            (glp_set_row_bnds (b_aux st) GLP_LO mean 0%Q
                               (b_lp st))) (b_lp st) c) by reflexivity.
    assert (Hi : (i < NC)%nat) by (apply Hk; left; reflexivity).
    destruct (Nat.eqb_spec (2 * NC + i + 1) c) as [E1|E1];
      destruct (Nat.eqb_spec (2 * i + 2) c) as [E2|E2];
      cbn [orb]; try lia.
    + destruct (existsb _ ks); [reflexivity|].
      destruct (existsb (fun j => (2 * j + 2 =? c)%nat) ks) eqn:E3;
        [|reflexivity].
      apply existsb_exists in E3. destruct E3 as [j [Hj E3]].
      apply Nat.eqb_eq in E3.
      assert ((j < NC)%nat) by (apply Hk; right; assumption). lia.
    + destruct (existsb (fun j => (2 * NC + j + 1 =? c)%nat) ks) eqn:E3;
        [|destruct (existsb (fun j => (2 * j + 2 =? c)%nat) ks); reflexivity].
      apply existsb_exists in E3. destruct E3 as [j [Hj E3]].
      apply Nat.eqb_eq in E3.
      assert ((j < NC)%nat) by (apply Hk; right; assumption). lia.
    + reflexivity.
Qed.

(** the two problems of LP model 1 *)
Lemma buildLPModel1_problems glp_simplex buffer bs :
  let NC := length buffer in
  let idxMap :=
    fillIdxMap (fun i => 2 * i + 1)%nat bs buffer O (repeat O (length bs)) in
  let lp0 := glp_add_rows (countRows bs buffer + NC)
               (glp_add_cols (NC * 2)
                  (glp_set_obj_dir GLP_MAX glp_create_prob)) in
  let st1 := lp1_blocks bs idxMap buffer O (mkBuild lp0 [] 1) in
  let lpA := glp_load_matrix (b_trip st1) (b_lp st1) in
  let xA := glp_simplex lpA in
  let sumWidth := glp_get_obj_val lpA xA in
  exists st2 ts lpB,
    buildLPModel1 glp_simplex buffer bs
    = (writeBack (glp_simplex lpB) (fun i => 2 * i + 1)%nat
         (fun i => 2 * i + 2)%nat buffer O bs,
       [(lpA, xA); (lpB, glp_simplex lpB)]) /\
    lpB = glp_load_matrix (b_trip st2 ++ ts)
            (glp_set_row_bnds (b_aux st2) GLP_LO (sumWidth - DOUBLE_EPS)%Q 0%Q
               (b_lp st2)) /\
    ts = map (fun i => (b_aux st2, (2 * i + 2)%nat, 1%Q)) (seq 0 NC) /\
    build_wf st2 /\
    (forall e, In e (col_bnds (b_lp st2)) -> (fst e < 2 * NC + 1)%nat) /\
    n_cols lpA = (2 * NC)%nat /\
    n_cols (b_lp st2) = (3 * NC)%nat /\
    (forall c, coefOf lpA c
               = if ((1 <=? c) && (c <=? 2 * NC))%nat
                 then (if Nat.even c then 1%Q else 0%Q) else 0%Q) /\
    (forall i, (i < NC)%nat ->
       coefOf (b_lp st2) (2 * i + 1) = 0%Q /\
       coefOf (b_lp st2) (2 * i + 2) = 0%Q /\
       coefOf (b_lp st2) (2 * NC + i + 1) = 1%Q).
Proof.
  intros NC idxMap lp0 st1 lpA xA sumWidth.
  unfold buildLPModel1. fold NC idxMap lp0 st1 lpA xA.
  change (glp_get_obj_val (glp_set_obj_dir GLP_MIN lpA) xA) with sumWidth.
  set (mean := (_ / _)%Q).
  set (stB0 := mkBuild _ (b_trip st1) (b_aux st1)).
  set (st2 := lp1_deviation NC mean (seq 0 NC) stB0).
  rewrite fold_addConstraint.
  exists st2, (map (fun i => (b_aux st2, (2 * i + 2)%nat, 1%Q)) (seq 0 NC)).
  eexists. split; [reflexivity|]. split; [reflexivity|].
  split; [reflexivity|].
  assert (W0 : build_wf (mkBuild lp0 [] 1)) by (split; intros e []).
  assert (C0 : cols_below (2 * 0 + 1) (b_lp (mkBuild lp0 [] 1)))
    by (intros e []).
  destruct (@lp1_blocks_sem bs idxMap (fun _ => 0%Q) buffer O _ W0 C0)
    as [W1 [_ [C1 _]]].
  fold st1 in W1, C1. cbn [Nat.add] in C1. fold NC in C1.
  assert (WB0 : build_wf stB0) by exact W1.
  destruct (@lp1_deviation_sem NC mean (fun _ => 0%Q) (seq 0 NC) stB0 WB0)
    as [W2 [Hc2 _]].
  fold st2 in W2, Hc2.
  destruct (lp1_blocks_lp bs idxMap buffer O (mkBuild lp0 [] 1)) as [N1 O1].
  fold st1 NC in N1, O1.
  assert (Hks : forall i, In i (seq 0 NC) -> (i < NC)%nat)
    by (intros i Hi; apply in_seq in Hi; lia).
  destruct (@lp1_deviation_lp NC mean (seq 0 NC) stB0 Hks) as [N2 O2].
  fold st2 in N2, O2.
  assert (NA : n_cols lpA = (2 * NC)%nat).
  { unfold lpA. cbn [glp_load_matrix n_cols]. rewrite N1. cbn. lia. }
  assert (OA : forall c, coefOf lpA c
               = if ((1 <=? c) && (c <=? 2 * NC))%nat
                 then (if Nat.even c then 1%Q else 0%Q) else 0%Q).
  { intros c.
    rewrite (@coefOf_obj lpA (b_lp st1) c) by reflexivity.
    rewrite O1. cbn [Nat.add Nat.mul]. fold NC.
    replace (NC + (NC + 0))%nat with (2 * NC)%nat by lia.
    destruct ((1 <=? c) && (c <=? 2 * NC))%nat; reflexivity. }
  split; [assumption|].
  split; [intros e He; rewrite Hc2 in He; apply C1 in He; exact He|].
  split; [assumption|].
  split; [rewrite N2; unfold stB0; cbn [b_lp glp_add_rows glp_add_cols n_cols
            glp_set_obj_dir]; fold lpA; rewrite NA; lia|].
  split; [assumption|].
  intros i Hi.
  assert (OB0 : forall c, coefOf (b_lp stB0) c = coefOf lpA c)
    by (intros c; apply coefOf_obj; reflexivity).
  assert (T : forall c, (c <= 2 * NC)%nat ->
            existsb (fun j => (2 * NC + j + 1 =? c)%nat) (seq 0 NC) = false).
  { intros c Hc. destruct (existsb _ _) eqn:E; [|reflexivity].
    apply existsb_exists in E. destruct E as [j [_ E]].
    apply Nat.eqb_eq in E. lia. }
  repeat split.
  - rewrite O2, T by lia.
    destruct (existsb (fun j => (2 * j + 2 =? 2 * i + 1)%nat) (seq 0 NC)) eqn:E;
      [reflexivity|].
    rewrite OB0, OA.
    replace ((1 <=? 2 * i + 1) && (2 * i + 1 <=? 2 * NC))%nat with true
      by (symmetry; apply andb_true_iff; split; apply Nat.leb_le; lia).
    rewrite Nat.add_comm, Nat.even_add_mul_2. reflexivity.
  - rewrite O2, T by lia.
    replace (existsb (fun j => (2 * j + 2 =? 2 * i + 2)%nat) (seq 0 NC))
      with true; [reflexivity|].
    symmetry. apply existsb_exists. exists i. split.
    + apply in_seq. lia.
    + apply Nat.eqb_refl.
  - rewrite O2.
    replace (existsb (fun j => (2 * NC + j + 1 =? 2 * NC + i + 1)%nat)
               (seq 0 NC)) with true; [reflexivity|].
    symmetry. apply existsb_exists. exists i. split.
    + apply in_seq. lia.
    + apply Nat.eqb_refl.
Qed.

Lemma sum_app (f : nat -> Q) l1 l2 :
  (fold_right (fun k acc => f k + acc) 0 (l1 ++ l2)
   == fold_right (fun k acc => f k + acc) 0 l1
      + fold_right (fun k acc => f k + acc) 0 l2)%Q.
Proof.
  induction l1 as [|a l1 IH]; simpl; [lra|]. rewrite IH. lra.
Qed.

Lemma sum_ext (f g : nat -> Q) l :
  (forall k, In k l -> (f k == g k)%Q) ->
  (fold_right (fun k acc => f k + acc) 0 l
   == fold_right (fun k acc => g k + acc) 0 l)%Q.
Proof.
  induction l as [|a l IH]; intros H; simpl; [lra|].
  rewrite IH by (intros k Hk; apply H; right; assumption).
  rewrite (H a) by (left; reflexivity). lra.
Qed.

(** the sum over the columns [1 .. 2 n] of a function that vanishes on the
    odd ones *)
Lemma sum_pairs (h : nat -> Q) (x : nat -> Q) n :
  (forall c, (1 <= c <= 2 * n)%nat ->
     h c = if Nat.even c then 1%Q else 0%Q) ->
  (fold_right (fun c acc => h c * x c + acc) 0 (seq 1 (2 * n))
   == sumWidthCols x n)%Q.
Proof.
  induction n as [|n IH]; intros H.
  - reflexivity.
  - unfold sumWidthCols in *.
    replace (2 * S n)%nat with (2 * n + 2)%nat by lia.
    rewrite seq_app. rewrite (seq_S n 0).
    pose proof (sum_app (fun c => h c * x c)%Q (seq 1 (2 * n))
                  (seq (1 + 2 * n) 2)) as E1.
    pose proof (sum_app (fun k => x (2 * k + 2)%nat) (seq 0 n) [(0 + n)%nat])
      as E2.
    cbv beta in E1, E2. rewrite E1, E2.
    rewrite IH by (intros c Hc; apply H; lia).
    cbn [seq fold_right Nat.add].
    rewrite (H (S (2 * n))), (H (S (S (2 * n)))) by lia.
    replace (S (S (2 * n))) with (2 * n + 2)%nat by lia.
    replace (S (2 * n)) with (1 + 2 * n)%nat by lia.
    rewrite Nat.even_add_mul_2.
    replace (Nat.even (2 * n + 2)) with true
      by (replace (2 * n + 2)%nat with (2 * (S n))%nat by lia;
          rewrite Nat.even_mul; reflexivity).
    cbn [Nat.even]. lra.
Qed.

Lemma rowActivity_sum a (x : nat -> Q) ks :
  (rowActivity (map (fun i => (a, (2 * i + 2)%nat, 1%Q)) ks) x a
   == fold_right (fun k acc => x (2 * k + 2)%nat + acc) 0 ks)%Q.
Proof.
  induction ks as [|k ks IH]; [reflexivity|].
  cbn [map]. unfold rowActivity in *. cbn [fold_right].
  unfold rowOf at 1. unfold colOf at 1. cbn [fst snd].
  rewrite Nat.eqb_refl. rewrite IH. lra.
Qed.

Lemma totalWidth_cols bs' (g : nat -> Q) : forall buffer i,
  (forall k, (k < length buffer)%nat ->
     width (get bs' (nth k buffer O)) = g (i + k)%nat) ->
  (totalWidth bs' buffer
   == fold_right (fun k acc => g k + acc) 0 (seq i (length buffer)))%Q.
Proof.
  induction buffer as [|b buffer IH]; intros i H.
  - reflexivity.
  - cbn [totalWidth fold_right length seq].
    fold (totalWidth bs' buffer).
    rewrite (IH (S i)).
    + pose proof (H O ltac:(simpl; lia)) as E. cbn [nth] in E.
      rewrite E, Nat.add_0_r. lra.
    + intros k Hk. pose proof (H (S k) ltac:(simpl; lia)) as E.
      cbn [nth] in E. rewrite E. f_equal. lia.
Qed.

(** X11.  In LP model 1 the objective of the first problem is the sum
    of the width columns; when the second solve ends at a feasible point,
    the widths written to the blocks of the component add up to at least
    the objective value of the first solve less [DOUBLE_EPS]. *)
Theorem balancing_keeps_total_width glp_simplex buffer bs :
  NoDup buffer -> (forall b, In b buffer -> (b < length bs)%nat) ->
  exists bs' lpA xA lpB xB,
    buildLPModel1 glp_simplex buffer bs = (bs', [(lpA, xA); (lpB, xB)]) /\
    (forall x,
       (glp_get_obj_val lpA x == sumWidthCols x (length buffer))%Q) /\
    (feasible lpB xB ->
     (glp_get_obj_val lpA xA - DOUBLE_EPS <= totalWidth bs' buffer)%Q).
Proof.
  intros Hnd Hr.
  destruct (buildLPModel1_problems glp_simplex buffer bs)
    as [st2 [ts [lpB [E [EB [Ets [W2 [_ [NA [_ [OA _]]]]]]]]]]].
  cbv zeta in *.
  set (lpA := glp_load_matrix _ _) in *.
  set (xA := glp_simplex lpA) in *.
  eexists _, lpA, xA, lpB, (glp_simplex lpB).
  split; [exact E|].
  assert (Hobj : forall x,
            (glp_get_obj_val lpA x == sumWidthCols x (length buffer))%Q).
  { intros x. unfold glp_get_obj_val. rewrite NA.
    apply sum_pairs. intros c Hc. rewrite OA.
    replace ((1 <=? c) && (c <=? 2 * length buffer))%nat with true
      by (symmetry; apply andb_true_iff; split; apply Nat.leb_le; lia).
    reflexivity. }
  split; [exact Hobj|].
  destruct (@writeBack_spec0 (glp_simplex lpB) (fun i => 2 * i + 1)%nat
              (fun i => 2 * i + 2)%nat buffer bs Hnd Hr) as [_ [Hw _]].
  set (xB := glp_simplex lpB) in *. clearbody xB.
  intros [Hrows _].
  rewrite EB in Hrows.
  cbn [mat row_bnds glp_load_matrix glp_set_row_bnds] in Hrows.
  specialize (Hrows (b_aux st2) _ (bndOf_cons_eq _ _ _)).
  cbn [satisfies] in Hrows.
  rewrite rowActivity_app in Hrows.
  rewrite (@rowActivity_other (b_trip st2) xB (b_aux st2)) in Hrows.
  2:{ intros e He. apply (proj2 W2) in He. lia. }
  rewrite Ets, rowActivity_sum in Hrows.
  rewrite (@totalWidth_cols _ (fun k => xB (2 * k + 2)%nat) buffer O).
  2:{ intros k Hk. destruct (Hw k Hk) as [_ Hwk]. exact Hwk. }
  lra.
Qed.

Lemma balancing_keeps_total_width_witness :
  exists bs' lpA xA lpB xB,
    buildLPModel1 exampleSolver [1%nat] (loopEntry defaultOptions example_C8)
    = (bs', [(lpA, xA); (lpB, xB)]) /\
    (forall x, (glp_get_obj_val lpA x == sumWidthCols x 1)%Q) /\
    (feasible lpB xB ->
     (glp_get_obj_val lpA xA - DOUBLE_EPS <= totalWidth bs' [1%nat])%Q).
Proof.
  apply (@balancing_keeps_total_width exampleSolver [1%nat]
           (loopEntry defaultOptions example_C8)).
  - repeat constructor. intros [].
  - intros b [<-|[]]. vm_compute. lia.
Defined.

(** X12.  The second problem of LP model 1 has [3 NC] columns and
    its objective is the sum of the last [NC], the deviation columns; the
    program sets no bound on any of them. *)
Theorem deviation_columns_unbounded glp_simplex buffer bs :
  let NC := length buffer in
  exists lpA xA lpB xB,
    snd (buildLPModel1 glp_simplex buffer bs) = [(lpA, xA); (lpB, xB)] /\
    n_cols lpA = (2 * NC)%nat /\
    n_cols lpB = (3 * NC)%nat /\
    (forall i, (i < NC)%nat ->
       coefOf lpB (2 * i + 1) = 0%Q /\ coefOf lpB (2 * i + 2) = 0%Q /\
       coefOf lpB (2 * NC + i + 1) = 1%Q) /\
    (forall c, (2 * NC < c)%nat -> bndOf (col_bnds lpB) c = None).
Proof.
  intros NC.
  destruct (buildLPModel1_problems glp_simplex buffer bs)
    as [st2 [ts [lpB [E [EB [Ets [W2 [CB [NA [NB [OA OB]]]]]]]]]]].
  cbv zeta in *. fold NC in CB, NA, NB, OA, OB.
  eexists _, _, lpB, _. rewrite E. cbn [snd].
  split; [reflexivity|].
  split; [exact NA|].
  split; [rewrite EB; exact NB|].
  split.
  - intros i Hi. destruct (OB i Hi) as [A [B C]].
    rewrite EB.
    rewrite !(@coefOf_obj (glp_load_matrix (b_trip st2 ++ ts)
                (glp_set_row_bnds (b_aux st2) GLP_LO _ 0%Q (b_lp st2)))
                (b_lp st2)) by reflexivity.
    auto.
  - intros c Hc. rewrite EB.
    cbn [col_bnds glp_load_matrix glp_set_row_bnds].
    apply bndOf_none. intros e He. apply CB in He. lia.
Qed.

(** *** Every room is used *)

(** the rooms of the invariant carry every depth up to [numRooms] *)
Lemma rooms_inv_onto t bs done rooms nr d :
  rooms_inv t bs done rooms nr -> 0 <= d <= nr ->
  exists r, In r rooms /\ depth (get bs r) = d.
Proof.
  intros I Hd.
  set (ds := map (fun r => depth (get bs r)) rooms).
  set (all := map Z.of_nat (seq 0 (Z.to_nat (nr + 1)))).
  assert (Hnd : NoDup ds).
  { apply NoDup_map_on; [|apply (ri_nodup I)].
    intros x y Hx Hy. apply (ri_depths I); assumption. }
  assert (Hincl : incl ds all).
  { intros z Hz. apply in_map_iff in Hz. destruct Hz as [r [<- Hr]].
    destruct (ri_done I r (ri_incl I r Hr)) as [Hrange _].
    apply in_map_iff. exists (Z.to_nat (depth (get bs r))).
    split; [lia|]. apply in_seq. lia. }
  assert (Hlen : (length all <= length ds)%nat).
  { unfold all, ds. rewrite !length_map, length_seq.
    pose proof (ri_len I). lia. }
  assert (Hin : In d all).
  { apply in_map_iff. exists (Z.to_nat d). split; [lia|]. apply in_seq. lia. }
  apply (NoDup_length_incl Hnd Hlen Hincl) in Hin.
  apply in_map_iff in Hin. destruct Hin as [r [E Hr]]. eauto.
Qed.

Section PartitionerRooms.
Variable t : Z.
Variable loop : list nat -> list ScheduleBlock -> list nat -> Z ->
                list ScheduleBlock * list nat * Z.
Hypothesis loop_post : forall (S0 : nat -> Z) rest bs rooms nr done bs' rooms' nr',
    rooms_inv t bs done rooms nr ->
    (forall p, startMin (get bs p) = S0 p) ->
    NoDup rest ->
    (forall x, In x rest -> ~ In x done) ->
    (forall x, In x rest -> (x < length bs)%nat) ->
    StronglySorted (fun p q => S0 p <= S0 q) rest ->
    (forall x y, In x done -> In y rest -> S0 x <= S0 y) ->
    nr + 1 + Z.of_nat (length rest) <= INT_MAX ->
    loop rest bs rooms nr = (bs', rooms', nr') ->
    exists done',
      (forall x, In x done' <-> In x done \/ In x rest) /\
      rooms_inv t bs' done' rooms' nr' /\
      sameButDepth bs bs' /\
      (forall x, ~ In x rest -> depth (get bs' x) = depth (get bs x)) /\
      nr' <= nr + Z.of_nat (length rest) /\
      (forall x y, In x done \/ before rest x y -> In y rest ->
         depth (get bs' x) = depth (get bs' y) ->
         endMin (get bs x) <= startMin (get bs y) + t).

Lemma partitioner_rooms arr b0 rest bs rooms nr :
  Z.of_nat (length arr) <= INT_MAX ->
  blocksReordered (sortByStartTime (setup arr)) = b0 :: rest ->
  loop rest (blocks (setup arr)) [b0] 0 = (bs, rooms, nr) ->
  forall d, 0 <= d < nr + 1 ->
    exists p, (p < length arr)%nat /\ depth (get bs p) = d.
Proof.
  intros Hmax Hord Hloop.
  pose proof (sortByStartTime_perm (setup arr)) as Hperm.
  pose proof (sortByStartTime_sorted (setup arr)) as Hsorted.
  rewrite Hord in Hperm, Hsorted. simpl blocksReordered in Hperm.
  assert (Hlen : length (b0 :: rest) = length arr).
  { rewrite (Permutation_length Hperm). apply length_seq. }
  assert (Hnd : NoDup (b0 :: rest)).
  { apply (Permutation_NoDup (Permutation_sym Hperm)), seq_NoDup. }
  apply NoDup_cons_iff in Hnd as Hnd0. destruct Hnd0 as [Hb0 Hnd'].
  apply StronglySorted_inv in Hsorted as Hs0. destruct Hs0 as [Hsorted' Hfa].
  rewrite Forall_forall in Hfa.
  apply loop_post
    with (S0 := fun p => startMin (get (blocks (setup arr)) p))
         (done := [b0]) in Hloop.
  - destruct Hloop as [done' [Hd [Hinv _]]].
    intros d Hdr.
    destruct (@rooms_inv_onto t bs done' rooms nr d Hinv ltac:(lia))
      as [r [Hr E]].
    exists r. split; [|assumption].
    apply (ri_incl Hinv) in Hr. apply Hd in Hr.
    rewrite <- (@seq_perm_lt _ _ r Hperm). simpl in Hr |- *. tauto.
  - apply rooms_inv_init, depth_setup.
  - reflexivity.
  - assumption.
  - intros x Hx [<-|[]]. contradiction.
  - intros x Hx. rewrite length_setup, <- (@seq_perm_lt _ _ x Hperm).
    right; assumption.
  - assumption.
  - intros x y [<-|[]] Hy. apply Hfa; assumption.
  - simpl length in Hlen. lia.
Qed.
End PartitionerRooms.

(** X15.  Interval scheduling, by either method, leaves no room empty: for
    every room index below the count it returns, some block of the input
    has that depth. *)
Theorem every_room_used o arr d :
  Z.of_nat (length arr) <= INT_MAX ->
  0 <= d < snd (stage1 o arr) ->
  exists p, (p < length arr)%nat /\
            depth (get (blocks (fst (stage1 o arr))) p) = d.
Proof.
  intros Hmax Hd.
  destruct arr as [|a arr'] eqn:Ea.
  { rewrite stage1_empty in Hd. simpl in Hd. lia. }
  rewrite <- Ea in *.
  assert (Hne : arr <> []) by (rewrite Ea; discriminate).
  destruct (stage1_nonempty Hne) as [b0 [rest Hord]].
  assert (Hn : (length (blocks (setup arr)) =? 0)%nat = false).
  { rewrite length_setup. rewrite Ea. reflexivity. }
  revert Hd. unfold stage1.
  destruct (Z.eqb_spec (ISMethod o) 1) as [Hm|Hm].
  - unfold intervalScheduling. rewrite Hn, Hord.
    destruct (is1_loop (isTolerance o) rest (blocks (sortByStartTime (setup arr)))
                [b0] 0) as [[bs rooms] nr] eqn:Hloop.
    simpl fst; simpl snd. intros Hd.
    eapply partitioner_rooms with (t := isTolerance o); eauto.
    intros S0. apply is1_loop_post.
  - unfold intervalScheduling2. rewrite Hn, Hord.
    destruct (is2_loop (isTolerance o) rest (blocks (sortByStartTime (setup arr)))
                [b0] 0) as [[bs rooms] nr] eqn:Hloop.
    simpl fst; simpl snd. intros Hd.
    eapply partitioner_rooms with (t := - isTolerance o); eauto.
    intros S0. pose proof (@is2_loop_post (- isTolerance o) S0) as H.
    rewrite Z.opp_involutive in H. exact H.
Qed.

Lemma every_room_used_witness :
  exists p, (p < length example_C8)%nat /\
            depth (get (blocks (fst (stage1 defaultOptions example_C8))) p) = 1.
Proof.
  apply (@every_room_used defaultOptions example_C8 1).
  - vm_compute. discriminate.
  - vm_compute. split; [discriminate|reflexivity].
Defined.

(** *** The problem of LP model 2 *)

(** X16.  LP model 2 hands one problem to the solver: a maximisation whose
    objective is the column [NC + 1] alone, and in which the program has
    set the bounds of every row and of every column.  The value of that
    column becomes the width of every block of the component, the value of
    the column [k + 1] the left edge of the [k]-th block, and the blocks
    outside the component are left as they are. *)
Theorem model2_common_width glp_simplex buffer bs :
  NoDup buffer -> (forall b, In b buffer -> (b < length bs)%nat) ->
  exists bs' lp x,
    buildLPModel2 glp_simplex buffer bs = (bs', [(lp, x)]) /\
    obj_dir lp = GLP_MAX /\
    (forall y, (glp_get_obj_val lp y == y (length buffer + 1)%nat)%Q) /\
    (forall c, (1 <= c <= n_cols lp)%nat -> has_bnd (col_bnds lp) c) /\
    (forall r, (1 <= r <= n_rows lp)%nat -> has_bnd (row_bnds lp) r) /\
    (forall k, (k < length buffer)%nat ->
       left (get bs' (nth k buffer O)) = x (k + 1)%nat /\
       width (get bs' (nth k buffer O)) = x (length buffer + 1)%nat) /\
    (forall p, ~ In p buffer -> get bs' p = get bs p).
Proof.
  intros Hnd Hr.
  destruct (buildLPModel2_result glp_simplex buffer bs)
    as [lp [E [Hdir [Hobj _]]]].
  eexists _, lp, (glp_simplex lp). split; [exact E|].
  split; [assumption|]. split; [assumption|].
  destruct (@buildLPModel2_bounded glp_simplex buffer bs lp (glp_simplex lp))
    as [Hc Hrw].
  { rewrite E. reflexivity. }
  split; [assumption|]. split; [assumption|].
  destruct (@writeBack_spec0 (glp_simplex lp) (fun i => i + 1)%nat
              (fun _ => length buffer + 1)%nat buffer bs Hnd Hr)
    as [_ [Hw Ho]].
  split; assumption.
Qed.

Lemma model2_common_width_witness :
  exists bs' lp x,
    buildLPModel2 exampleSolver2 [1%nat; 2%nat]
      (loopEntry model2Options example_C9) = (bs', [(lp, x)]) /\
    obj_dir lp = GLP_MAX /\
    (forall y, (glp_get_obj_val lp y == y (length [1%nat; 2%nat] + 1)%nat)%Q) /\
    (forall c, (1 <= c <= n_cols lp)%nat -> has_bnd (col_bnds lp) c) /\
    (forall r, (1 <= r <= n_rows lp)%nat -> has_bnd (row_bnds lp) r) /\
    (forall k, (k < length [1%nat; 2%nat])%nat ->
       left (get bs' (nth k [1%nat; 2%nat] O)) = x (k + 1)%nat /\
       width (get bs' (nth k [1%nat; 2%nat] O))
       = x (length [1%nat; 2%nat] + 1)%nat) /\
    (forall p, ~ In p [1%nat; 2%nat] ->
       get bs' p = get (loopEntry model2Options example_C9) p).
Proof.
  apply (@model2_common_width exampleSolver2 [1%nat; 2%nat]
           (loopEntry model2Options example_C9)).
  - repeat constructor; simpl; intuition discriminate.
  - intros b [<-|[<-|[]]]; vm_compute; lia.
Defined.

(** *** No neighbour is recorded twice *)

Lemma NoDup_snoc (l : list nat) x : NoDup l -> ~ In x l -> NoDup (l ++ [x]).
Proof.
  intros Hl Hx. induction Hl as [|y l Hy Hl IH]; simpl.
  - constructor; [intros []|constructor].
  - constructor.
    + rewrite in_app_iff. simpl. intros [H|[H|[]]]; [contradiction|].
      apply Hx. left. symmetry. assumption.
    + apply IH. intros H. apply Hx. right. assumption.
Qed.

Lemma leftN_upd_push_leftN p x bs a :
  (p < length bs)%nat ->
  leftN (get (upd p (push_leftN x) bs) a)
  = if (p =? a)%nat then leftN (get bs a) ++ [x] else leftN (get bs a).
Proof.
  intros Hp. destruct (Nat.eqb_spec p a) as [->|Hne].
  - rewrite get_upd_eq by assumption. reflexivity.
  - rewrite get_upd_ne by assumption. reflexivity.
Qed.

Lemma rightN_upd_push_rightN p x bs a :
  (p < length bs)%nat ->
  rightN (get (upd p (push_rightN x) bs) a)
  = if (p =? a)%nat then rightN (get bs a) ++ [x] else rightN (get bs a).
Proof.
  intros Hp. destruct (Nat.eqb_spec p a) as [->|Hne].
  - rewrite get_upd_eq by assumption. reflexivity.
  - rewrite get_upd_ne by assumption. reflexivity.
Qed.

(** one step of the inner loop of [constructAdjList]: [x] is pushed on a
    list of [p], and [p] on the other list of [x] *)
Lemma link_step bs p x :
  (p < length bs)%nat -> (x < length bs)%nat ->
  adjNoDup bs -> ~ adjIn bs p x -> ~ adjIn bs x p ->
  let bsL := upd p (push_leftN x) (upd x (push_rightN p) bs) in
  let bsR := upd p (push_rightN x) (upd x (push_leftN p) bs) in
  (adjNoDup bsL /\
   forall a j, adjIn bsL a j <->
     adjIn bs a j \/ (a = p /\ j = x) \/ (a = x /\ j = p)) /\
  (adjNoDup bsR /\
   forall a j, adjIn bsR a j <->
     adjIn bs a j \/ (a = p /\ j = x) \/ (a = x /\ j = p)).
Proof.
  intros Hp Hx Hnd H1 H2. cbv zeta.
  assert (Lx : forall f, (p < length (upd x f bs))%nat)
    by (intros f; rewrite length_upd; assumption).
  split; split.
  - intros a.
    rewrite leftN_upd_push_leftN by apply Lx.
    rewrite leftN_upd_push_rightN.
    rewrite rightN_upd_push_leftN.
    rewrite rightN_upd_push_rightN by assumption.
    destruct (Hnd a) as [NL NR].
    split.
    + destruct (Nat.eqb_spec p a) as [<-|_]; [|assumption].
      apply NoDup_snoc; [assumption|]. intros H. apply H1. left. assumption.
    + destruct (Nat.eqb_spec x a) as [<-|_]; [|assumption].
      apply NoDup_snoc; [assumption|]. intros H. apply H2. right. assumption.
  - intros a j. unfold adjIn.
    rewrite In_leftN_upd_push by apply Lx.
    rewrite leftN_upd_push_rightN.
    rewrite rightN_upd_push_leftN.
    rewrite In_rightN_upd_push by assumption.
    tauto.
  - intros a.
    rewrite leftN_upd_push_rightN.
    rewrite leftN_upd_push_leftN by assumption.
    rewrite rightN_upd_push_rightN by apply Lx.
    rewrite rightN_upd_push_leftN.
    destruct (Hnd a) as [NL NR].
    split.
    + destruct (Nat.eqb_spec x a) as [<-|_]; [|assumption].
      apply NoDup_snoc; [assumption|]. intros H. apply H2. left. assumption.
    + destruct (Nat.eqb_spec p a) as [<-|_]; [|assumption].
      apply NoDup_snoc; [assumption|]. intros H. apply H1. right. assumption.
  - intros a j. unfold adjIn.
    rewrite leftN_upd_push_rightN.
    rewrite In_leftN_upd_push by assumption.
    rewrite In_rightN_upd_push by apply Lx.
    rewrite rightN_upd_push_leftN.
    tauto.
Qed.

Lemma adjInner_nodup tol n bi : forall js bs m,
  (bi < length bs)%nat -> (forall y, In y js -> (y < length bs)%nat) ->
  NoDup js -> ~ In bi js ->
  adjNoDup bs ->
  (forall y, In y js -> ~ adjIn bs bi y /\ ~ adjIn bs y bi) ->
  length (fst (adjInner tol n bi js bs m)) = length bs /\
  adjNoDup (fst (adjInner tol n bi js bs m)) /\
  forall a j, adjIn (fst (adjInner tol n bi js bs m)) a j ->
    adjIn bs a j \/ (a = bi /\ In j js) \/ (j = bi /\ In a js).
Proof.
  induction js as [|bj js IH]; intros bs m Hbi Hr Hnd Hni Hadj Hfree;
    cbn [adjInner].
  - cbn [fst]. auto.
  - destruct (startMin (get bs bj) + tol >=? endMin (get bs bi)).
    + cbn [fst]. auto.
    + assert (Hbj : (bj < length bs)%nat) by (apply Hr; left; reflexivity).
      destruct (Hfree bj (or_introl eq_refl)) as [F1 F2].
      destruct (@link_step bs bi bj Hbi Hbj Hadj F1 F2) as [[NL CL] [NR CR]].
      apply NoDup_cons_iff in Hnd. destruct Hnd as [Hbjn Hnd].
      assert (Hne : bi <> bj) by (intros ->; apply Hni; left; reflexivity).
      assert (Hni' : ~ In bi js) by (intros H; apply Hni; right; assumption).
      destruct (depth (get bs bi) <? depth (get bs bj)).
      * match goal with
        | |- context [adjInner tol n bi js ?b ?mm] =>
            destruct (IH b mm) as [L [N C]]
        end; try assumption.
        { rewrite !length_upd. assumption. }
        { intros y Hy. rewrite !length_upd. apply Hr. right. assumption. }
        { intros y Hy. destruct (Hfree y (or_intror Hy)) as [G1 G2].
          rewrite !CR. split; intros [H|[[_ H]|[H _]]]; try tauto;
            subst; contradiction. }
        split; [rewrite L, !length_upd; reflexivity|].
        split; [assumption|].
        intros a j H. apply C in H. rewrite CR in H. simpl. intuition.
      * match goal with
        | |- context [adjInner tol n bi js ?b ?mm] =>
            destruct (IH b mm) as [L [N C]]
        end; try assumption.
        { rewrite !length_upd. assumption. }
        { intros y Hy. rewrite !length_upd. apply Hr. right. assumption. }
        { intros y Hy. destruct (Hfree y (or_intror Hy)) as [G1 G2].
          rewrite !CL. split; intros [H|[[_ H]|[H _]]]; try tauto;
            subst; contradiction. }
        split; [rewrite L, !length_upd; reflexivity|].
        split; [assumption|].
        intros a j H. apply C in H. rewrite CL in H. simpl. intuition.
Qed.

Lemma adjOuter_nodup tol n : forall ord bs m,
  (forall y, In y ord -> (y < length bs)%nat) ->
  NoDup ord ->
  adjNoDup bs ->
  (forall a j, adjIn bs a j -> ~ (In a ord /\ In j ord)) ->
  adjNoDup (fst (adjOuter tol n ord bs m)).
Proof.
  induction ord as [|bi rest IH]; intros bs m Hr Hnd Hadj Hfresh;
    cbn [adjOuter].
  - assumption.
  - apply NoDup_cons_iff in Hnd. destruct Hnd as [Hbi Hnd].
    destruct (@adjInner_nodup tol n bi rest bs m) as [L [N C]];
      try assumption.
    { apply Hr. left. reflexivity. }
    { intros y Hy. apply Hr. right. assumption. }
    { intros y Hy. split; intros H; apply Hfresh in H; apply H; simpl; auto. }
    destruct (adjInner tol n bi rest bs m) as [bs1 m1].
    cbn [fst] in L, N, C. apply IH; try assumption.
    + intros y Hy. rewrite L. apply Hr. right. assumption.
    + intros a j H [Ha Hj]. apply C in H.
      destruct H as [H|[[-> _]|[-> _]]]; try contradiction.
      apply Hfresh in H. apply H. simpl. auto.
Qed.

Lemma condenseLeft_nodup m n bs all : forall vs b,
  NoDup (cleftN b ++ vs) ->
  NoDup (cleftN (condenseLeft m n bs all vs b)).
Proof.
  induction vs as [|v1 vs IH]; intros b H; cbn [condenseLeft].
  - rewrite app_nil_r in H. assumption.
  - destruct (existsb _ all).
    + apply IH. apply NoDup_remove_1 in H. assumption.
    + apply IH. cbn [cleftN push_cleftN]. rewrite <- app_assoc. assumption.
Qed.

Lemma condenseRight_nodup m n bs all : forall vs b,
  NoDup (crightN b ++ vs) ->
  NoDup (crightN (condenseRight m n bs all vs b)).
Proof.
  induction vs as [|v1 vs IH]; intros b H; cbn [condenseRight].
  - rewrite app_nil_r in H. assumption.
  - destruct (existsb _ all).
    + apply IH. apply NoDup_remove_1 in H. assumption.
    + apply IH. cbn [crightN push_crightN]. rewrite <- app_assoc. assumption.
Qed.

Lemma condenseBlock_nodup m n bs b :
  cleftN b = [] -> crightN b = [] ->
  NoDup (leftN b) -> NoDup (rightN b) ->
  NoDup (cleftN (condenseBlock m n bs b)) /\
  NoDup (crightN (condenseBlock m n bs b)).
Proof.
  intros Hl Hr NL NR. unfold condenseBlock.
  destruct (condenseLeft_spec m n bs (leftN b) (leftN b) b) as [L1 [L2 _]].
  set (b1 := condenseLeft m n bs (leftN b) (leftN b) b) in *.
  destruct (condenseRight_spec m n bs (rightN b) (rightN b) b1) as [_ [R2 _]].
  split.
  - rewrite R2. unfold b1. apply condenseLeft_nodup. rewrite Hl.
    assumption.
  - apply condenseRight_nodup. rewrite L2, Hr. assumption.
Qed.

Lemma condense_fold_nodup m n : forall k s bs,
  (forall p, NoDup (leftN (get bs p)) /\ NoDup (rightN (get bs p))) ->
  (forall p, NoDup (cleftN (get bs p)) /\ NoDup (crightN (get bs p))) ->
  (forall p, (s <= p)%nat ->
     cleftN (get bs p) = [] /\ crightN (get bs p) = []) ->
  (s + k <= length bs)%nat ->
  forall p,
    NoDup (cleftN (get (fold_left
                          (fun bs p => upd p (condenseBlock m n bs) bs)
                          (seq s k) bs) p)) /\
    NoDup (crightN (get (fold_left
                           (fun bs p => upd p (condenseBlock m n bs) bs)
                           (seq s k) bs) p)).
Proof.
  induction k as [|k IH]; intros s bs HN HC HE Hk; cbn [seq fold_left].
  - assumption.
  - assert (Hs : (s < length bs)%nat) by lia.
    apply IH.
    + intros p. destruct (Nat.eq_dec s p) as [<-|Hne].
      * rewrite get_upd_eq by assumption.
        destruct (condenseLeft_spec m n bs (leftN (get bs s))
                    (leftN (get bs s)) (get bs s)) as [L1 _].
        destruct (condenseRight_spec m n bs (rightN (get bs s))
                    (rightN (get bs s))
                    (condenseLeft m n bs (leftN (get bs s))
                       (leftN (get bs s)) (get bs s))) as [R1 _].
        fold (condenseBlock m n bs (get bs s)) in R1.
        assert (E : eraseCond (condenseBlock m n bs (get bs s))
                    = eraseCond (get bs s)) by congruence.
        change (NoDup (leftN (eraseCond (condenseBlock m n bs (get bs s)))) /\
                NoDup (rightN (eraseCond (condenseBlock m n bs (get bs s))))).
        rewrite E. apply HN.
      * rewrite get_upd_ne by assumption. apply HN.
    + intros p. destruct (Nat.eq_dec s p) as [<-|Hne].
      * rewrite get_upd_eq by assumption.
        destruct (HE s (Nat.le_refl s)) as [E1 E2].
        apply condenseBlock_nodup; try assumption; apply HN.
      * rewrite get_upd_ne by assumption. apply HC.
    + intros p Hp. rewrite get_upd_ne by lia. apply HE. lia.
    + rewrite length_upd. lia.
Qed.

Lemma before_asym l x y : NoDup l -> before l x y -> ~ before l y x.
Proof.
  intros Hnd H1 H2.
  apply (@before_pos l x y Hnd) in H1. apply (@before_pos l y x Hnd) in H2.
  lia.
Qed.

(** X17.  After STEP 2 and STEP 3 no list of neighbours holds a block
    twice: [leftN], [rightN], [cleftN] and [crightN] of every block are
    free of duplicates.  No block is on both sides of another, and no block
    is its own neighbour. *)
Theorem neighbour_lists_nodup o arr b :
  NoDup (leftN (get (blocks (stage3 o arr)) b)) /\
  NoDup (rightN (get (blocks (stage3 o arr)) b)) /\
  NoDup (cleftN (get (blocks (stage3 o arr)) b)) /\
  NoDup (crightN (get (blocks (stage3 o arr)) b)) /\
  (forall j, In j (leftN (get (blocks (stage3 o arr)) b)) ->
     ~ In j (rightN (get (blocks (stage3 o arr)) b))) /\
  ~ In b (leftN (get (blocks (stage3 o arr)) b)) /\
  ~ In b (rightN (get (blocks (stage3 o arr)) b)).
Proof.
  assert (N2 : adjNoDup (blocks (stage2 o arr))).
  { unfold stage2, constructAdjList.
    set (st1 := fst (stage1 o arr)).
    pose proof (@adjOuter_nodup (dfsTolerance o) (length (blocks st1))
                  (blocksReordered st1) (blocks st1) (matrix st1)) as H.
    destruct (adjOuter (dfsTolerance o) (length (blocks st1))
                (blocksReordered st1) (blocks st1) (matrix st1)) as [bs m].
    cbn [blocks fst] in *.
    destruct (stage1_frame o arr) as [Hs _].
    assert (Hnil : forall a, leftN (get (blocks st1) a) = [] /\
                             rightN (get (blocks st1) a) = []).
    { intros a. unfold st1.
      rewrite (sameUpTo_field leftN (erase := set_depth 0) _ (fun b => eq_refl) Hs),
        (sameUpTo_field rightN (erase := set_depth 0) _ (fun b => eq_refl) Hs).
      destruct (setup_fields arr a) as [_ [-> [-> _]]]. auto. }
    apply H.
    - intros y Hy. unfold st1. rewrite stage1_length.
      apply (stage1_order_range o arr y), Hy.
    - apply stage1_order_NoDup.
    - intros a. destruct (Hnil a) as [-> ->]. split; constructor.
    - intros a j [Hj|Hj]; destruct (Hnil a) as [E1 E2];
        [rewrite E1 in Hj|rewrite E2 in Hj]; destruct Hj. }
  pose proof (stage3_spec o arr) as P3.
  assert (NL : forall p, NoDup (leftN (get (blocks (stage3 o arr)) p)) /\
                         NoDup (rightN (get (blocks (stage3 o arr)) p))).
  { intros p.
    rewrite (sameUpTo_field leftN (erase := eraseCond) _ (fun b => eq_refl)
               (s3_same P3)),
      (sameUpTo_field rightN (erase := eraseCond) _ (fun b => eq_refl)
               (s3_same P3)).
    apply N2. }
  assert (NC : forall p, NoDup (cleftN (get (blocks (stage3 o arr)) p)) /\
                         NoDup (crightN (get (blocks (stage3 o arr)) p))).
  { unfold stage3, condenseAdjList, with_blocks. cbn [blocks].
    apply condense_fold_nodup.
    - exact N2.
    - intros p. destruct (stage2_cond_nil o arr p) as [-> ->].
      split; constructor.
    - intros p _. apply stage2_cond_nil.
    - simpl. lia. }
  pose proof (stage1_order_NoDup o arr) as Hnd.
  split; [apply NL|]. split; [apply NL|].
  split; [apply NC|]. split; [apply NC|].
  split; [|split].
  - intros j HL HR. rewrite stage3_rightN in HR.
    rewrite stage3_leftN in HL, HR. unfold adjEdge in HL, HR.
    destruct HL as [[B1 [_ D1]]|[B1 [_ D1]]];
      destruct HR as [[B2 [_ D2]]|[B2 [_ D2]]]; try lia;
      exact (@before_asym _ _ _ Hnd B1 B2).
  - rewrite stage3_leftN. unfold adjEdge.
    intros [[B _]|[B _]]; exact (@before_neq _ _ _ Hnd B eq_refl).
  - rewrite stage3_rightN, stage3_leftN. unfold adjEdge.
    intros [[B _]|[B _]]; exact (@before_neq _ _ _ Hnd B eq_refl).
Qed.

